(** * WbcVelocity: configuration, lookup and equation assembly

    A shallow embedding of [src/WbcVelocity.cpp] (namespace [wbc]).

    Conventions of the embedding.
    - A [double] is a rational ([Q]) and the arithmetic of the source on
      doubles is exact; equalities that depend on arithmetic are stated up to
      [Qeq].  The one conversion whose rounding decides a comparison, that of
      a time to seconds for the timeout check, is rounded to the nearest
      [double].
    - [std::vector] and Eigen vectors are lists; an Eigen matrix is the list
      of its rows; a [KDL::Jacobian] is the list of its columns (twists).
      Vector sizes are below 2^32, so the [uint] loop counters of the source
      only wrap where the source decrements them ([prio--] in [configure]),
      and that wrap is written out.
    - [std::map<std::string, V>] is an association list kept in key order,
      because the source iterates over its maps.
    - Objects created with [new] live in a heap (a list); a pointer is the
      index of the object.  [constraint_vector_] and [constraint_map_] hold
      pointers to the same objects.
    - An operation either returns, throws a C++ exception (the state at the
      throw is kept), or has undefined behaviour (out-of-range access,
      signed overflow). *)

From Stdlib Require Import List ZArith QArith Qfield Qabs Lqa Bool Lia Arith.
From Stdlib Require Import Permutation Sorted.
From Stdlib Require String Ascii OrderedTypeEx.
Import ListNotations String.StringSyntax.

Abbreviation string := String.string.

Local Open Scope Q_scope.
Local Open Scope nat_scope.
Local Open Scope string_scope.
Local Open Scope list_scope.

Set Implicit Arguments.

(** ** Outcomes of an operation *)

Inductive exn : Type :=
| runtime_error (what : string)
| invalid_argument (what : string).

Inductive outcome (S A : Type) : Type :=
| Ret (a : A) (s : S)
| Throw (e : exn) (s : S)
| Undef.

Arguments Ret {S A} a s.
Arguments Throw {S A} e s.
Arguments Undef {S A}.

Definition M (S A : Type) : Type := S -> outcome S A.

Definition ret {S A} (a : A) : M S A := fun s => Ret a s.

Definition bind {S A B} (m : M S A) (f : A -> M S B) : M S B :=
  fun s => match m s with
           | Ret a s' => f a s'
           | Throw e s' => Throw e s'
           | Undef => Undef
           end.

Definition throw {S A} (e : exn) : M S A := fun s => Throw e s.
Definition undef {S A} : M S A := fun _ => Undef.
Definition get {S} : M S S := fun s => Ret s s.
Definition put {S} (s : S) : M S unit := fun _ => Ret tt s.
Definition modify {S} (f : S -> S) : M S unit := fun s => Ret tt (f s).

(** [lift_opt o]: the value of [o], undefined behaviour when there is none. *)
Definition lift_opt {S A} (o : option A) : M S A :=
  match o with Some a => ret a | None => undef end.

Declare Scope wbc_scope.
Delimit Scope wbc_scope with wbc.
Notation "x <- m ;; k" := (bind m (fun x => k))
  (at level 100, m at next level, right associativity) : wbc_scope.
Notation "m ;;; k" := (bind m (fun _ => k))
  (at level 100, right associativity) : wbc_scope.
Local Open Scope wbc_scope.

(** [for_each l body]: a [for] loop over the elements of [l]. *)
Fixpoint for_each {S B} (l : list B) (body : B -> M S unit) : M S unit :=
  match l with
  | [] => ret tt
  | b :: l' => body b ;;; for_each l' body
  end.

(** ** Scalars *)

Definition Qltb (x y : Q) : bool := negb (Qle_bool y x).

Definition vec := list Q.
Definition matrix := list (list Q).

Definition zeros (n : nat) : vec := repeat 0%Q n.
Definition zero_matrix (rows cols : nat) : matrix := repeat (zeros cols) rows.

(** [v.setZero()] keeps the size. *)
Definition setZero (v : vec) : vec := zeros (length v).

Fixpoint dot (a b : vec) : Q :=
  match a, b with
  | x :: a', y :: b' => (x * y + dot a' b')%Q
  | _, _ => 0%Q
  end.

Definition vsub (a b : vec) : vec := map (fun xy => (fst xy - snd xy)%Q) (combine a b).
Definition vscale (a : vec) (k : Q) : vec := map (fun x => (x * k)%Q) a.

(** Pointwise [Qeq] on vectors and matrices. *)
Definition veq (a b : vec) : Prop := Forall2 Qeq a b.
Definition meq (a b : matrix) : Prop := Forall2 veq a b.

(** ** std::map<std::string, V>

    The entries are kept in the order of [std::string]'s [operator<]
    (lexicographic on the character codes, [String.ltb]), which is the order
    in which the source iterates. *)

Module StdMap.
Definition t (V : Type) : Type := list (string * V).

Definition empty {V} : t V := [].

Fixpoint find {V} (k : string) (m : t V) : option V :=
  match m with
  | [] => None
  | (k', v) :: m' => if String.eqb k k' then Some v else find k m'
  end.

Definition count {V} (k : string) (m : t V) : nat :=
  match find k m with Some _ => 1 | None => 0 end.

(** [m[k] = v] *)
Fixpoint set {V} (k : string) (v : V) (m : t V) : t V :=
  match m with
  | [] => [(k, v)]
  | (k', v') :: m' =>
      if String.eqb k k' then (k, v) :: m'
      else if String.ltb k k' then (k, v) :: (k', v') :: m'
      else (k', v') :: set k v m'
  end.

(** [m[k]] used as a value: a missing key is first inserted with the
    default-constructed value. *)
Definition index {V} (dflt : V) (k : string) (m : t V) : V * t V :=
  match find k m with
  | Some v => (v, m)
  | None => (dflt, set k dflt m)
  end.

Definition size {V} (m : t V) : nat := length m.
Definition keys {V} (m : t V) : list string := map fst m.
End StdMap.

(** ** KDL geometry (frames.hpp, jacobian.hpp of the Orocos KDL library) *)

Record Vector : Type := mkVector { vx : Q; vy : Q; vz : Q }.

(** A rotation matrix, by rows. *)
Record Rotation : Type := mkRotation { Rx : Vector; Ry : Vector; Rz : Vector }.

Record Frame : Type := mkFrame { M_ : Rotation; p_ : Vector }.

Record Twist : Type := mkTwist { vel : Vector; rot : Vector }.

Definition Vector_Zero : Vector := mkVector 0 0 0.
Definition Twist_Zero : Twist := mkTwist Vector_Zero Vector_Zero.
Definition Rotation_Identity : Rotation :=
  mkRotation (mkVector 1 0 0) (mkVector 0 1 0) (mkVector 0 0 1).
Definition Frame_Identity : Frame := mkFrame Rotation_Identity Vector_Zero.

Definition Vector_add (a b : Vector) : Vector :=
  mkVector (vx a + vx b) (vy a + vy b) (vz a + vz b).
Definition Vector_neg (a : Vector) : Vector :=
  mkVector (- vx a) (- vy a) (- vz a).
Definition Vector_dot (a b : Vector) : Q :=
  (vx a * vx b + vy a * vy b + vz a * vz b)%Q.

(** [Vector * Vector] is the cross product in KDL. *)
Definition Vector_cross (a b : Vector) : Vector :=
  mkVector (vy a * vz b - vz a * vy b)
           (vz a * vx b - vx a * vz b)
           (vx a * vy b - vy a * vx b).

(** [Rotation * Vector] *)
Definition Rotation_apply (r : Rotation) (v : Vector) : Vector :=
  mkVector (Vector_dot (Rx r) v) (Vector_dot (Ry r) v) (Vector_dot (Rz r) v).

(** [Rotation::Inverse()] is the transpose. *)
Definition Rotation_Inverse (r : Rotation) : Rotation :=
  mkRotation (mkVector (vx (Rx r)) (vx (Ry r)) (vx (Rz r)))
             (mkVector (vy (Rx r)) (vy (Ry r)) (vy (Rz r)))
             (mkVector (vz (Rx r)) (vz (Ry r)) (vz (Rz r))).

(** [Rotation * Rotation] *)
Definition Rotation_mul (a b : Rotation) : Rotation :=
  let bt := Rotation_Inverse b in
  mkRotation
    (mkVector (Vector_dot (Rx a) (Rx bt)) (Vector_dot (Rx a) (Ry bt)) (Vector_dot (Rx a) (Rz bt)))
    (mkVector (Vector_dot (Ry a) (Rx bt)) (Vector_dot (Ry a) (Ry bt)) (Vector_dot (Ry a) (Rz bt)))
    (mkVector (Vector_dot (Rz a) (Rx bt)) (Vector_dot (Rz a) (Ry bt)) (Vector_dot (Rz a) (Rz bt))).

(** [Frame::Inverse()]: [Frame(M.Inverse(), -M.Inverse(p))] *)
Definition Frame_Inverse (f : Frame) : Frame :=
  let mi := Rotation_Inverse (M_ f) in
  mkFrame mi (Vector_neg (Rotation_apply mi (p_ f))).

(** [Frame * Frame]: [Frame(lhs.M * rhs.M, lhs.M * rhs.p + lhs.p)] *)
Definition Frame_mul (a b : Frame) : Frame :=
  mkFrame (Rotation_mul (M_ a) (M_ b))
          (Vector_add (Rotation_apply (M_ a) (p_ b)) (p_ a)).

(** [Rotation * Twist]: changes the reference frame only. *)
Definition Rotation_mul_Twist (r : Rotation) (t : Twist) : Twist :=
  mkTwist (Rotation_apply r (vel t)) (Rotation_apply r (rot t)).

(** [Frame * Twist]: changes the reference frame and the reference point:
    [tmp.rot = M * arg.rot; tmp.vel = M * arg.vel + p * tmp.rot]. *)
Definition Frame_mul_Twist (f : Frame) (t : Twist) : Twist :=
  let r := Rotation_apply (M_ f) (rot t) in
  mkTwist (Vector_add (Rotation_apply (M_ f) (vel t)) (Vector_cross (p_ f) r)) r.

(** [Twist::RefPoint(v_base_AB)]: [Twist(vel + rot * v_base_AB, rot)] *)
Definition Twist_RefPoint (t : Twist) (v : Vector) : Twist :=
  mkTwist (Vector_add (vel t) (Vector_cross (rot t) v)) (rot t).

(** The six components of a twist, [t(0)] .. [t(5)]. *)
Definition Twist_to_vec (t : Twist) : vec :=
  [vx (vel t); vy (vel t); vz (vel t); vx (rot t); vy (rot t); vz (rot t)].

(** The twist whose components are the first six entries of [v]
    ([tmp_twist(i) = v(i)] for [i < 6]); none when [v] is shorter. *)
Definition Twist_of_vec (v : vec) : option Twist :=
  match v with
  | a :: b :: c :: d :: e :: f :: _ =>
      Some (mkTwist (mkVector a b c) (mkVector d e f))
  | _ => None
  end.

(** A [KDL::Jacobian]: 6 rows, one twist per column. *)
Definition Jacobian := list Twist.

(** [KDL::Jacobian jac(n); jac.data.setZero()] *)
Definition Jacobian_zero (n : nat) : Jacobian := repeat Twist_Zero n.

Definition unit_twist (k : nat) : Twist :=
  let e := fun i => if Nat.eqb i k then 1%Q else 0%Q in
  mkTwist (mkVector (e 0) (e 1) (e 2)) (mkVector (e 3) (e 4) (e 5)).

(** [jac.data.setIdentity()] on a 6 x n matrix. *)
Definition Jacobian_setIdentity (j : Jacobian) : Jacobian :=
  map unit_twist (seq 0 (length j)).

Definition Jacobian_changeRefPoint (j : Jacobian) (base_AB : Vector) : Jacobian :=
  map (fun t => Twist_RefPoint t base_AB) j.

Definition Jacobian_changeRefFrame (j : Jacobian) (f : Frame) : Jacobian :=
  map (Frame_mul_Twist f) j.

(** [jac.setColumn(i, t)]; undefined when there is no column [i]. *)
Fixpoint list_set {X} (i : nat) (x : X) (l : list X) : option (list X) :=
  match l, i with
  | [], _ => None
  | _ :: l', O => Some (x :: l')
  | y :: l', S i' => option_map (cons y) (list_set i' x l')
  end.

(** [jac.data]: the 6 x n matrix of a Jacobian, by rows. *)
Definition Jacobian_data (j : Jacobian) : matrix :=
  map (fun k => map (fun t => nth k (Twist_to_vec t) 0%Q) j) (seq 0 6).

(** ** Eigen operations that can go out of range *)

(** [v.segment(start, n) = src] *)
Definition segment_write (v : vec) (start n : nat) (src : vec) : option vec :=
  if (start + n <=? length v) && (length src =? n)
  then Some (firstn start v ++ src ++ skipn (start + n) v)
  else None.

(** [m.block(row_index, 0, n_rows, n_cols) = src] *)
Definition block_write (m : matrix) (row_index n_rows n_cols : nat) (src : matrix)
  : option matrix :=
  if (row_index + n_rows <=? length m) && (length src =? n_rows)
     && forallb (fun r => length r =? n_cols) src
     && forallb (fun r => n_cols <=? length r) m
  then Some (firstn row_index m
             ++ map (fun so => fst so ++ skipn n_cols (snd so))
                    (combine src (firstn n_rows (skipn row_index m)))
             ++ skipn (row_index + n_rows) m)
  else None.

(** [m.block(0, 0, r, c)] as a value. *)
Definition block00 (m : matrix) (r c : nat) : option matrix :=
  if (r <=? length m) && forallb (fun row => c <=? length row) m
  then Some (map (firstn c) (firstn r m))
  else None.

(** [row(j) = f (row(j))]; undefined when there is no entry [j]. *)
Fixpoint list_modify {X} (j : nat) (f : X -> X) (l : list X) : option (list X) :=
  match l, j with
  | [], _ => None
  | x :: l', O => Some (f x :: l')
  | x :: l', S j' => option_map (cons x) (list_modify j' f l')
  end.

Fixpoint map_opt {X Y} (f : X -> option Y) (l : list X) : option (list Y) :=
  match l with
  | [] => Some []
  | x :: l' =>
      match f x, map_opt f l' with
      | Some y, Some ys => Some (y :: ys)
      | _, _ => None
      end
  end.

(** [m.col(j)] updated entry by entry with [f]. *)
Definition col_update (j : nat) (f : Q -> Q) (m : matrix) : option matrix :=
  map_opt (list_modify j f) m.

(** [m(i, j) = x] *)
Definition entry_write (i j : nat) (x : Q) (m : matrix) : option matrix :=
  match nth_error m i with
  | None => None
  | Some row =>
      match list_set j x row with
      | None => None
      | Some row' => list_set i row' m
      end
  end.

(** [v * u.transpose()]: entry (i, k) is the product of row i of [v] with
    row k of [u]; the column counts have to agree. *)
Definition mul_transpose (v u : matrix) : option matrix :=
  let cols := match v with [] => 0 | r :: _ => length r end in
  if forallb (fun r => length r =? cols) v && forallb (fun r => length r =? cols) u
  then Some (map (fun vrow => map (fun urow => dot vrow urow) u) v)
  else None.

(** [h * jac.data] for a matrix [h] with six columns. *)
Definition mul_Jacobian (h : matrix) (j : Jacobian) : matrix :=
  map (fun hrow => map (fun t => dot hrow (Twist_to_vec t)) j) h.

(** [a - b] for matrices of the same shape. *)
Definition msub (a b : matrix) : matrix :=
  map (fun rs => vsub (fst rs) (snd rs)) (combine a b).

(** [std::vector::resize(n)]: truncate, or append default-constructed items. *)
Definition vector_resize {X} (n : nat) (dflt : X) (l : list X) : list X :=
  firstn n l ++ repeat dflt (n - length l).

(** ** Rounding to [double]

    The value of the timeout check depends on how the elapsed time is rounded
    when it is converted to seconds, so that conversion is rounded as the
    hardware does it: to the nearest [double] (IEEE 754 binary64, 53
    significant bits), a tie going to the even significand.  The exponent
    range is not modelled: the seconds of a 64-bit count of microseconds are
    zero or of a magnitude between 10^-6 and 10^13. *)

(** The integer nearest to [n / d] (for [0 <= n] and [0 < d]), a tie going
    to the even neighbour. *)
Definition round_half_even (n d : Z) : Z :=
  let q := (n / d)%Z in
  match (2 * (n mod d) ?= d)%Z with
  | Lt => q
  | Gt => (q + 1)%Z
  | Eq => if Z.even q then q else (q + 1)%Z
  end.

(** [n / d] divided by [2^e], as a fraction of two integers. *)
Definition scaled_num (n e : Z) : Z := (n * 2 ^ Z.max 0 (- e))%Z.
Definition scaled_den (d e : Z) : Z := (d * 2 ^ Z.max 0 e)%Z.

(** The exponent [e] of the unit in the last place of [n / d]:
    [2^52 <= (n / d) / 2^e < 2^53]. *)
Definition binade (n d : Z) : Z :=
  let e := (Z.log2 n - Z.log2 d - 53)%Z in
  if (2 ^ 53 * scaled_den d e <=? scaled_num n e)%Z then (e + 1)%Z else e.

(** The [double] nearest to [n / d], for positive [n] and [d]: the
    significand is [n / d / 2^e] rounded to an integer. *)
Definition round_positive (n d : Z) : Q :=
  let e := binade n d in
  let m := round_half_even (scaled_num n e) (scaled_den d e) in
  Qmake (m * 2 ^ Z.max 0 e) (Z.to_pos (2 ^ Z.max 0 (- e))).

Definition round_to_double (x : Q) : Q :=
  match Qnum x with
  | Z0 => 0%Q
  | Zpos n => round_positive (Zpos n) (Zpos (Qden x))
  | Zneg n => Qopp (round_positive (Zpos n) (Zpos (Qden x)))
  end.

(** ** Time: [base::Time] counts microseconds *)

Definition Time := Z.

(** [(a - b).toSeconds()].  The class [base::Time] belongs to the base-types
    library; its [toSeconds] is
    [static_cast<double>(microseconds) / UsecPerSec] with [UsecPerSec] one
    million: the 64-bit count is converted to [double] and divided, and each
    of the two operations rounds to the nearest [double]. *)
Definition toSeconds (microseconds : Z) : Q :=
  round_to_double (round_to_double (inject_Z microseconds) / 1000000)%Q.

(** ** Data model *)

Inductive constraint_type : Type := cart | jnt.

(** Modelled from the spec: the specification of a constraint
    ([ConstraintConfig] is declared outside WbcVelocity.cpp), with the fields
    that the source reads and the weight vector. *)
Module ConstraintConfig.
Record t : Type := mk {
  type : constraint_type;
  name : string;
  priority : Z;
  root : string;
  tip : string;
  ref_frame : string;
  joint_names : list string;
  weights : vec;
  timeout : Q
}.
End ConstraintConfig.

(** The members of a task frame that the source reads. *)
Module TaskFrame.
Record t : Type := mk {
  joint_names : list string;
  jacobian : Jacobian;
  pose : Frame
}.
End TaskFrame.

Definition TaskFrameMap := StdMap.t TaskFrame.t.

(** The members of an equation system that the source writes. *)
Module LinearEquationSystem.
Record t : Type := mk {
  A : matrix;
  y_ref : vec;
  W_row : vec
}.

(** Modelled from the spec: a default-constructed system has empty members
    (the class is declared outside WbcVelocity.cpp). *)
Definition default : t := mk [] [] [].

(** Modelled from the spec: [LinearEquationSystem::resize] (declared outside
    WbcVelocity.cpp) sizes the weight vector, the task matrix and the
    reference vector to the level's row count and the joint-column count;
    the entries are zero until the assembly writes them. *)
Definition resize (n_rows n_cols : nat) (e : t) : t :=
  mk (zero_matrix n_rows n_cols) (zeros n_rows) (zeros n_rows).
End LinearEquationSystem.

(** The members of [Constraint] and [ExtendedConstraint] that the source
    uses. *)
Record ExtendedConstraint : Type := mkExtendedConstraint {
  config : ConstraintConfig.t;
  no_variables : nat;
  y_ref : vec;
  y_ref_root : vec;
  weights : vec;
  activation : Q;
  constraint_timed_out : Z;
  last_ref_input : Time;
  time : Time;
  A : matrix;
  pose_tip_in_root : Frame;
  pose_ref_frame_in_root : Frame;
  jac_helper : Jacobian;
  Uf : matrix;
  Sf : vec;
  Vf : matrix;
  H : matrix
}.

Definition set_y_ref v c := mkExtendedConstraint (config c) (no_variables c) v (y_ref_root c) (weights c) (activation c) (constraint_timed_out c) (last_ref_input c) (time c) (A c) (pose_tip_in_root c) (pose_ref_frame_in_root c) (jac_helper c) (Uf c) (Sf c) (Vf c) (H c).
Definition set_y_ref_root v c := mkExtendedConstraint (config c) (no_variables c) (y_ref c) v (weights c) (activation c) (constraint_timed_out c) (last_ref_input c) (time c) (A c) (pose_tip_in_root c) (pose_ref_frame_in_root c) (jac_helper c) (Uf c) (Sf c) (Vf c) (H c).
Definition set_weights v c := mkExtendedConstraint (config c) (no_variables c) (y_ref c) (y_ref_root c) v (activation c) (constraint_timed_out c) (last_ref_input c) (time c) (A c) (pose_tip_in_root c) (pose_ref_frame_in_root c) (jac_helper c) (Uf c) (Sf c) (Vf c) (H c).
Definition set_activation v c := mkExtendedConstraint (config c) (no_variables c) (y_ref c) (y_ref_root c) (weights c) v (constraint_timed_out c) (last_ref_input c) (time c) (A c) (pose_tip_in_root c) (pose_ref_frame_in_root c) (jac_helper c) (Uf c) (Sf c) (Vf c) (H c).
Definition set_constraint_timed_out v c := mkExtendedConstraint (config c) (no_variables c) (y_ref c) (y_ref_root c) (weights c) (activation c) v (last_ref_input c) (time c) (A c) (pose_tip_in_root c) (pose_ref_frame_in_root c) (jac_helper c) (Uf c) (Sf c) (Vf c) (H c).
Definition set_last_ref_input v c := mkExtendedConstraint (config c) (no_variables c) (y_ref c) (y_ref_root c) (weights c) (activation c) (constraint_timed_out c) v (time c) (A c) (pose_tip_in_root c) (pose_ref_frame_in_root c) (jac_helper c) (Uf c) (Sf c) (Vf c) (H c).
Definition set_time v c := mkExtendedConstraint (config c) (no_variables c) (y_ref c) (y_ref_root c) (weights c) (activation c) (constraint_timed_out c) (last_ref_input c) v (A c) (pose_tip_in_root c) (pose_ref_frame_in_root c) (jac_helper c) (Uf c) (Sf c) (Vf c) (H c).
Definition set_A v c := mkExtendedConstraint (config c) (no_variables c) (y_ref c) (y_ref_root c) (weights c) (activation c) (constraint_timed_out c) (last_ref_input c) (time c) v (pose_tip_in_root c) (pose_ref_frame_in_root c) (jac_helper c) (Uf c) (Sf c) (Vf c) (H c).
Definition set_pose_tip_in_root v c := mkExtendedConstraint (config c) (no_variables c) (y_ref c) (y_ref_root c) (weights c) (activation c) (constraint_timed_out c) (last_ref_input c) (time c) (A c) v (pose_ref_frame_in_root c) (jac_helper c) (Uf c) (Sf c) (Vf c) (H c).
Definition set_pose_ref_frame_in_root v c := mkExtendedConstraint (config c) (no_variables c) (y_ref c) (y_ref_root c) (weights c) (activation c) (constraint_timed_out c) (last_ref_input c) (time c) (A c) (pose_tip_in_root c) v (jac_helper c) (Uf c) (Sf c) (Vf c) (H c).
Definition set_jac_helper v c := mkExtendedConstraint (config c) (no_variables c) (y_ref c) (y_ref_root c) (weights c) (activation c) (constraint_timed_out c) (last_ref_input c) (time c) (A c) (pose_tip_in_root c) (pose_ref_frame_in_root c) v (Uf c) (Sf c) (Vf c) (H c).
Definition set_svd (u : matrix) (s : vec) (v : matrix) c := mkExtendedConstraint (config c) (no_variables c) (y_ref c) (y_ref_root c) (weights c) (activation c) (constraint_timed_out c) (last_ref_input c) (time c) (A c) (pose_tip_in_root c) (pose_ref_frame_in_root c) (jac_helper c) u s v (H c).
Definition set_Uf v c := mkExtendedConstraint (config c) (no_variables c) (y_ref c) (y_ref_root c) (weights c) (activation c) (constraint_timed_out c) (last_ref_input c) (time c) (A c) (pose_tip_in_root c) (pose_ref_frame_in_root c) (jac_helper c) v (Sf c) (Vf c) (H c).
Definition set_H v c := mkExtendedConstraint (config c) (no_variables c) (y_ref c) (y_ref_root c) (weights c) (activation c) (constraint_timed_out c) (last_ref_input c) (time c) (A c) (pose_tip_in_root c) (pose_ref_frame_in_root c) (jac_helper c) (Uf c) (Sf c) (Vf c) v.

(** Modelled from the spec: the constructor of [ExtendedConstraint]
    (ExtendedConstraint.hpp is not among the sources).  The output
    dimensionality is 6 for a Cartesian constraint and the number of listed
    joints for a joint constraint; the reference values and the weight vector
    have that size, the task matrix has that many rows and one column per
    robot joint, and the local Jacobian and its decomposition are 6 x 6. *)
Definition new_ExtendedConstraint (cfg : ConstraintConfig.t) (robot_joint_names : list string)
  : ExtendedConstraint :=
  let n := match ConstraintConfig.type cfg with
           | cart => 6
           | jnt => length (ConstraintConfig.joint_names cfg)
           end in
  mkExtendedConstraint cfg n (zeros n) (zeros n) (ConstraintConfig.weights cfg)
    0%Q 0%Z 0%Z 0%Z
    (zero_matrix n (length robot_joint_names))
    Frame_Identity Frame_Identity (Jacobian_zero 6)
    (zero_matrix 6 6) (zeros 6) (zero_matrix 6 6) (zero_matrix 6 6).

(** The solver.  [heap] holds the objects created with [new]; the entries of
    [constraint_vector_] and the values of [constraint_map_] are pointers
    into it.  [temp_], the scratch vector of the decomposition, is left out. *)
Record WbcVelocity : Type := mkWbcVelocity {
  configured_ : bool;
  no_robot_joints_ : nat;
  heap : list ExtendedConstraint;
  constraint_vector_ : list (list nat);
  constraint_map_ : StdMap.t nat;
  joint_index_map_ : StdMap.t nat;
  jac_map_ : StdMap.t Jacobian;
  task_frame_ids : list string;
  n_constraints_per_prio_ : list nat;
  n_prios_ : nat
}.

Definition set_configured_ v s := mkWbcVelocity v (no_robot_joints_ s) (heap s) (constraint_vector_ s) (constraint_map_ s) (joint_index_map_ s) (jac_map_ s) (task_frame_ids s) (n_constraints_per_prio_ s) (n_prios_ s).
Definition set_no_robot_joints_ v s := mkWbcVelocity (configured_ s) v (heap s) (constraint_vector_ s) (constraint_map_ s) (joint_index_map_ s) (jac_map_ s) (task_frame_ids s) (n_constraints_per_prio_ s) (n_prios_ s).
Definition set_heap v s := mkWbcVelocity (configured_ s) (no_robot_joints_ s) v (constraint_vector_ s) (constraint_map_ s) (joint_index_map_ s) (jac_map_ s) (task_frame_ids s) (n_constraints_per_prio_ s) (n_prios_ s).
Definition set_constraint_vector_ v s := mkWbcVelocity (configured_ s) (no_robot_joints_ s) (heap s) v (constraint_map_ s) (joint_index_map_ s) (jac_map_ s) (task_frame_ids s) (n_constraints_per_prio_ s) (n_prios_ s).
Definition set_constraint_map_ v s := mkWbcVelocity (configured_ s) (no_robot_joints_ s) (heap s) (constraint_vector_ s) v (joint_index_map_ s) (jac_map_ s) (task_frame_ids s) (n_constraints_per_prio_ s) (n_prios_ s).
Definition set_joint_index_map_ v s := mkWbcVelocity (configured_ s) (no_robot_joints_ s) (heap s) (constraint_vector_ s) (constraint_map_ s) v (jac_map_ s) (task_frame_ids s) (n_constraints_per_prio_ s) (n_prios_ s).
Definition set_jac_map_ v s := mkWbcVelocity (configured_ s) (no_robot_joints_ s) (heap s) (constraint_vector_ s) (constraint_map_ s) (joint_index_map_ s) v (task_frame_ids s) (n_constraints_per_prio_ s) (n_prios_ s).
Definition set_task_frame_ids v s := mkWbcVelocity (configured_ s) (no_robot_joints_ s) (heap s) (constraint_vector_ s) (constraint_map_ s) (joint_index_map_ s) (jac_map_ s) v (n_constraints_per_prio_ s) (n_prios_ s).
Definition set_n_constraints_per_prio_ v s := mkWbcVelocity (configured_ s) (no_robot_joints_ s) (heap s) (constraint_vector_ s) (constraint_map_ s) (joint_index_map_ s) (jac_map_ s) (task_frame_ids s) v (n_prios_ s).
Definition set_n_prios_ v s := mkWbcVelocity (configured_ s) (no_robot_joints_ s) (heap s) (constraint_vector_ s) (constraint_map_ s) (joint_index_map_ s) (jac_map_ s) (task_frame_ids s) (n_constraints_per_prio_ s) v.

(** ** Construction and [clear] *)

(** [WbcVelocity::WbcVelocity()] initialises [configured_], [no_robot_joints_]
    and [temp_]; the containers start empty.  [n_prios_] is not mentioned by
    the constructor, so its value after construction is indeterminate: it is
    the argument [indeterminate_n_prios]. *)
Definition WbcVelocity_ctor (indeterminate_n_prios : nat) : WbcVelocity :=
  mkWbcVelocity false 0 [] [] StdMap.empty StdMap.empty StdMap.empty [] []
                indeterminate_n_prios.

(** [clear()] deletes every constraint object (each one is owned by
    [constraint_vector_]) and empties the containers.  [configured_],
    [n_prios_] and [n_constraints_per_prio_] are not touched. *)
Definition clear (s : WbcVelocity) : WbcVelocity :=
  mkWbcVelocity (configured_ s) 0 [] [] StdMap.empty StdMap.empty StdMap.empty []
                (n_constraints_per_prio_ s) (n_prios_ s).

(** ** [configure] *)

Definition INT_MAX : Z := 2147483647.
Definition UINT_MOD : Z := 4294967296.
Definition uint_wrap (z : Z) : Z := (z mod UINT_MOD)%Z.

(** [joint_index_map_[joint_names[i]] = i] for [i] from [i0] on. *)
Fixpoint build_joint_index_map (joint_names : list string) (i0 : nat) (m : StdMap.t nat)
  : StdMap.t nat :=
  match joint_names with
  | [] => m
  | n :: rest => build_joint_index_map rest (S i0) (StdMap.set n i0 m)
  end.

(** The first loop over [config]: [None] when some priority is negative
    ([return false]), the largest priority otherwise. *)
Fixpoint scan_priorities (config : list ConstraintConfig.t) (max_prio : Z) : option Z :=
  match config with
  | [] => Some max_prio
  | c :: rest =>
      if (ConstraintConfig.priority c <? 0)%Z then None
      else scan_priorities rest
             (if (ConstraintConfig.priority c >? max_prio)%Z
              then ConstraintConfig.priority c else max_prio)
  end.

(** The second loop over [config]: create the constraint, append it to its
    priority level, then register its name; [return false] on the first name
    that is already registered. *)
Fixpoint insert_constraints (config : list ConstraintConfig.t) (joint_names : list string)
  (s : WbcVelocity) : outcome WbcVelocity bool :=
  match config with
  | [] => Ret true s
  | c :: rest =>
      let constraint := length (heap s) in
      let s := set_heap (heap s ++ [new_ExtendedConstraint c joint_names]) s in
      match list_modify (Z.to_nat (ConstraintConfig.priority c))
                        (fun level => level ++ [constraint]) (constraint_vector_ s) with
      | None => Undef
      | Some cv =>
          let s := set_constraint_vector_ cv s in
          if negb (StdMap.count (ConstraintConfig.name c) (constraint_map_ s) =? 0)
          then Ret false s
          else insert_constraints rest joint_names
                 (set_constraint_map_
                    (StdMap.set (ConstraintConfig.name c) constraint (constraint_map_ s)) s)
      end
  end.

(** [v.erase(v.begin() + prio, v.begin() + prio + 1)] *)
Definition erase_at {X} (prio : nat) (v : list X) : list X :=
  firstn prio v ++ skipn (S prio) v.

Definition is_empty {X} (l : list X) : bool :=
  match l with [] => true | _ => false end.

(** The loop that erases empty priorities.  [prio] is a [uint]:
    [prio--] at 0 wraps to 2^32 - 1 and the loop's [prio++] wraps back to 0.
    [fuel] bounds the number of iterations. *)
Fixpoint erase_empty_priorities (fuel : nat) (prio : Z) (cv : list (list nat))
  : option (list (list nat)) :=
  match fuel with
  | O => None
  | S fuel' =>
      if (prio <? Z.of_nat (length cv))%Z then
        match nth_error cv (Z.to_nat prio) with
        | None => None
        | Some level =>
            if is_empty level then
              let cv' := erase_at (Z.to_nat prio) cv in
              let prio' := uint_wrap (prio - 1) in
              erase_empty_priorities fuel' (uint_wrap (prio' + 1)) cv'
            else erase_empty_priorities fuel' (uint_wrap (prio + 1)) cv
        end
      else Some cv
  end.

(** [n_constraints_per_prio_[prio] += constraint_vector_[prio][j]->y_ref.size()] *)
Fixpoint count_level_rows (h : list ExtendedConstraint) (level : list nat) (acc : nat)
  : option nat :=
  match level with
  | [] => Some acc
  | p :: rest =>
      match nth_error h p with
      | None => None
      | Some c => count_level_rows h rest (acc + length (y_ref c))
      end
  end.

(** One of the three blocks of the task-frame loop. *)
Definition register_task_frame (tf_name : string) (s : WbcVelocity) : WbcVelocity :=
  if StdMap.count tf_name (jac_map_ s) =? 0
  then set_task_frame_ids (task_frame_ids s ++ [tf_name])
         (set_jac_map_
            (StdMap.set tf_name (Jacobian_zero (StdMap.size (joint_index_map_ s))) (jac_map_ s))
            s)
  else s.

(** The loop over [constraint_map_] (in key order) that creates the TF map. *)
Fixpoint create_tf_map (entries : list (string * nat)) (s : WbcVelocity) : option WbcVelocity :=
  match entries with
  | [] => Some s
  | (_, p) :: rest =>
      match nth_error (heap s) p with
      | None => None
      | Some c =>
          match ConstraintConfig.type (config c) with
          | cart =>
              let s := register_task_frame (ConstraintConfig.root (config c)) s in
              let s := register_task_frame (ConstraintConfig.tip (config c)) s in
              let s := register_task_frame (ConstraintConfig.ref_frame (config c)) s in
              create_tf_map rest s
          | jnt => create_tf_map rest s
          end
      end
  end.

Definition configure (config : list ConstraintConfig.t) (joint_names : list string)
  : M WbcVelocity bool := fun s =>
  let s := clear s in
  let s := set_no_robot_joints_ (length joint_names) s in
  let s := set_joint_index_map_
             (build_joint_index_map joint_names 0 (joint_index_map_ s)) s in
  match scan_priorities config 0 with
  | None => Ret false s
  | Some max_prio =>
      (* [max_prio + 1] is an [int] addition *)
      if (max_prio + 1 >? INT_MAX)%Z then Undef else
      let s := set_constraint_vector_
                 (vector_resize (Z.to_nat (max_prio + 1)) [] (constraint_vector_ s)) s in
      match insert_constraints config joint_names s with
      | Undef => Undef
      | Throw e s => Throw e s
      | Ret false s => Ret false s
      | Ret true s =>
          match erase_empty_priorities (S (length (constraint_vector_ s))) 0
                                       (constraint_vector_ s) with
          | None => Undef
          | Some cv =>
              let s := set_constraint_vector_ cv s in
              match map_opt (fun level => count_level_rows (heap s) level 0)
                            (constraint_vector_ s) with
              | None => Undef
              | Some rows =>
                  let s := set_n_constraints_per_prio_ rows s in
                  let s := set_n_prios_ (length (n_constraints_per_prio_ s)) s in
                  match create_tf_map (constraint_map_ s) s with
                  | None => Undef
                  | Some s => Ret true (set_configured_ true s)
                  end
              end
          end
      end
  end.

(** ** Constraint lookup *)

Definition not_configured : exn :=
  runtime_error "WbcVelocity::update: Configure has not been called yet".

(** [constraint(name)] returns the pointer registered for [name]. *)
Definition constraint (name : string) : M WbcVelocity nat := fun s =>
  if negb (configured_ s) then Throw not_configured s
  else if StdMap.count name (constraint_map_ s) =? 0
       then Throw (invalid_argument "Invalid constraint name") s
       else match StdMap.find name (constraint_map_ s) with
            | Some p => Ret p s
            | None => Undef
            end.

(** A write through the handle [p]: [f] is applied to the object [p] points to. *)
Definition write_handle (p : nat) (f : ExtendedConstraint -> ExtendedConstraint)
  : M WbcVelocity unit := fun s =>
  match nth_error (heap s) p with
  | None => Undef
  | Some c =>
      match list_set p (f c) (heap s) with
      | Some h => Ret tt (set_heap h s)
      | None => Undef
      end
  end.

(** Modelled from the spec: the mutator surface of a constraint handle (the
    class [Constraint] is declared outside WbcVelocity.cpp): a caller sets the
    reference value, which also stamps the time of the last reference update,
    the activation, and the weights. *)
Definition setReference (ref : vec) (t : Time) (c : ExtendedConstraint) : ExtendedConstraint :=
  set_last_ref_input t (set_y_ref ref c).
Definition setActivation (a : Q) (c : ExtendedConstraint) : ExtendedConstraint :=
  set_activation a c.
Definition setWeights (w : vec) (c : ExtendedConstraint) : ExtendedConstraint :=
  set_weights w c.

(** ** Introspection *)

(** The loop of [jointNames]: [joint_names[it->second] = it->first]. *)
Fixpoint fill_joint_names (entries : list (string * nat)) (joint_names : list string)
  : option (list string) :=
  match entries with
  | [] => Some joint_names
  | (k, idx) :: rest =>
      match list_set idx k joint_names with
      | None => None
      | Some joint_names' => fill_joint_names rest joint_names'
      end
  end.

Definition jointNames : M WbcVelocity (list string) := fun s =>
  let joint_names := repeat "" (StdMap.size (joint_index_map_ s)) in
  match fill_joint_names (joint_index_map_ s) joint_names with
  | None => Undef
  | Some joint_names => Ret joint_names s
  end.

(** Modelled from the spec: a default-constructed constraint, used by
    [std::vector::resize] in [getConstraintVector]; every such entry is
    overwritten by the copy loop. *)
Definition default_Constraint : ExtendedConstraint :=
  new_ExtendedConstraint (ConstraintConfig.mk jnt "" 0 "" "" "" [] [] 0) [].

(** [constraints[prio][i] = *constraint_vector_[prio][i]] for every [i]. *)
Fixpoint copy_level (h : list ExtendedConstraint) (ptrs : list nat) (i : nat)
  (level : list ExtendedConstraint) : option (list ExtendedConstraint) :=
  match ptrs with
  | [] => Some level
  | p :: rest =>
      match nth_error h p with
      | None => None
      | Some c =>
          match list_set i c level with
          | None => None
          | Some level' => copy_level h rest (S i) level'
          end
      end
  end.

Fixpoint copy_levels (s : WbcVelocity) (prios : list nat)
  (constraints : list (list ExtendedConstraint)) : option (list (list ExtendedConstraint)) :=
  match prios with
  | [] => Some constraints
  | prio :: rest =>
      match nth_error constraints prio, nth_error (constraint_vector_ s) prio with
      | Some level, Some ptrs =>
          let level :=
            if negb (length level =? length ptrs)
            then vector_resize (length ptrs) default_Constraint level else level in
          match copy_level (heap s) ptrs 0 level with
          | None => None
          | Some level' =>
              match list_set prio level' constraints with
              | None => None
              | Some constraints' => copy_levels s rest constraints'
              end
          end
      | _, _ => None
      end
  end.

(** [getConstraintVector(constraints)]: [constraints] is an in/out argument;
    the result is its value on return.  There is no [configured_] check. *)
Definition getConstraintVector (constraints : list (list ExtendedConstraint))
  : M WbcVelocity (list (list ExtendedConstraint)) := fun s =>
  let constraints :=
    if negb (length constraints =? n_prios_ s)
    then vector_resize (n_prios_ s) [] constraints else constraints in
  match copy_levels s (seq 0 (n_prios_ s)) constraints with
  | None => Undef
  | Some constraints => Ret constraints s
  end.

(** ** Equation assembly: [prepareEqSystem] *)

(** Where [base::Time::now()] is called while a constraint is evaluated. *)
Inductive call_site : Type := at_timeout_check | at_time_stamp.

(** The wall clock of one cycle: the reading returned by each call of
    [base::Time::now()], identified by the priority level, the position of
    the constraint in its level and the call site. *)
Definition Clock := nat -> nat -> call_site -> Time.

(** The state threaded through [prepareEqSystem]: the solver and the
    in/out argument [equations]. *)
Definition St : Type := (WbcVelocity * list LinearEquationSystem.t)%type.

Definition incomplete_task_frame_input : exn :=
  invalid_argument "Incomplete task frame input".

(** [*p] *)
Definition deref (p : nat) : M St ExtendedConstraint := fun st =>
  match nth_error (heap (fst st)) p with
  | Some c => Ret c st
  | None => Undef
  end.

(** [*p = c] *)
Definition store (p : nat) (c : ExtendedConstraint) : M St unit := fun st =>
  match list_set p c (heap (fst st)) with
  | Some h => Ret tt (set_heap h (fst st), snd st)
  | None => Undef
  end.

(** [jac_map_[tf_name]] as a value; a missing entry is created with a
    default-constructed Jacobian, which has no columns. *)
Definition jac_map_index (tf_name : string) : M St Jacobian := fun st =>
  let (jac, m) := StdMap.index [] tf_name (jac_map_ (fst st)) in
  Ret jac (set_jac_map_ m (fst st), snd st).

(** The check of the required task frames: the first missing one, if any. *)
Definition missing_task_frame (task_frames : TaskFrameMap) (ids : list string)
  : option string :=
  List.find (fun id => StdMap.count id task_frames =? 0) ids.

(** The loop over the joints of one task frame: the columns of the frame's
    Jacobian go to the columns of the full robot Jacobian named by
    [joint_index_map_]. *)
Definition splice_task_frame (entry : string * TaskFrame.t) : M St unit :=
  let (tf_name, tf) := entry in
  for_each (combine (seq 0 (length (TaskFrame.joint_names tf))) (TaskFrame.joint_names tf))
    (fun '(j, jt_name) =>
       st <- get ;;
       if StdMap.count jt_name (joint_index_map_ (fst st)) =? 0
       then throw (invalid_argument "Invalid joint name")
       else
         idx <- lift_opt (StdMap.find jt_name (joint_index_map_ (fst st))) ;;
         jac <- jac_map_index tf_name ;;
         col <- lift_opt (nth_error (TaskFrame.jacobian tf) j) ;;
         jac' <- lift_opt (list_set idx col jac) ;;
         modify (fun st => (set_jac_map_ (StdMap.set tf_name jac' (jac_map_ (fst st))) (fst st),
                            snd st))).

(** The task timeout check; [now] is the reading of [base::Time::now()],
    which is only taken when the timeout is positive. *)
Definition check_timeout (now : Time) (c : ExtendedConstraint) : ExtendedConstraint :=
  if Qltb 0 (ConstraintConfig.timeout (config c)) then
    let diff := toSeconds (now - last_ref_input c) in
    if Qltb (ConstraintConfig.timeout (config c)) diff
    then set_constraint_timed_out 1 c
    else set_constraint_timed_out 0 c
  else set_constraint_timed_out 0 c.

(** [1 / s]; a division by zero is reported, so that its absence can be
    stated. *)
Definition reciprocal (s : Q) : option Q :=
  if Qeq_bool s 0 then None else Some (1 / s)%Q.

(** The loop over the singular values: the column of [Uf] that belongs to a
    strictly positive singular value is scaled by its reciprocal, the others
    are set to zero. *)
Fixpoint invert_singular_values (js : list nat) (sf : vec) (uf : matrix) : option matrix :=
  match js with
  | [] => Some uf
  | j :: rest =>
      match nth_error sf j with
      | None => None
      | Some sj =>
          if Qltb 0 sj then
            match reciprocal sj with
            | None => None
            | Some r =>
                match col_update j (fun x => (x * r)%Q) uf with
                | None => None
                | Some uf' => invert_singular_values rest sf uf'
                end
            end
          else
            match col_update j (fun _ => 0%Q) uf with
            | None => None
            | Some uf' => invert_singular_values rest sf uf'
            end
      end
  end.

(** [y_ref_root(i) = tmp_twist(i)] for [i < 6]. *)
Definition write_twist (t : Twist) (v : vec) : option vec :=
  if 6 <=? length v then Some (Twist_to_vec t ++ skipn 6 v) else None.

(** One pass of the loop of a joint-space constraint, as a computation on
    the constraint: the entry of the task matrix that selects the joint is
    set to one, and the reference is copied. *)
Definition jnt_update_step (joint_index_map : StdMap.t nat) (entry : nat * string)
  : M ExtendedConstraint unit :=
  let (i, joint_name) := entry in
  if StdMap.count joint_name joint_index_map =? 0
  then throw (invalid_argument "Invalid Constraint config")
  else
    idx <- lift_opt (StdMap.find joint_name joint_index_map) ;;
    c <- get ;;
    a <- lift_opt (entry_write i idx 1%Q (A c)) ;;
    put (set_y_ref_root (y_ref c) (set_A a c)).

(** The loop of a joint-space constraint. *)
Definition jnt_update (joint_index_map : StdMap.t nat) : M ExtendedConstraint unit := fun c0 =>
  for_each (combine (seq 0 (length (ConstraintConfig.joint_names (config c0))))
                    (ConstraintConfig.joint_names (config c0)))
           (jnt_update_step joint_index_map) c0.

(** If the activation is zero, the reference is set to zero as well. *)
Definition deactivate (c : ExtendedConstraint) : ExtendedConstraint :=
  if Qeq_bool (activation c) 0
  then set_y_ref_root (setZero (y_ref_root (set_y_ref (setZero (y_ref c)) c)))
                      (set_y_ref (setZero (y_ref c)) c)
  else c.

(** [weights * activation * (!constraint_timed_out)] *)
Definition effective_weights (c : ExtendedConstraint) : vec :=
  vscale (vscale (weights c) (activation c))
         (if (constraint_timed_out c =? 0)%Z then 1%Q else 0%Q).

(** The three writes of a constraint into the equation system of its
    priority. *)
Definition insert_into_equations (prio row_index n_vars : nat) (c : ExtendedConstraint)
  : M St unit := fun st =>
  let (s, equations) := st in
  match nth_error equations prio with
  | None => Undef
  | Some e =>
      match segment_write (LinearEquationSystem.W_row e) row_index n_vars (effective_weights c),
            block_write (LinearEquationSystem.A e) row_index n_vars (no_robot_joints_ s) (A c),
            segment_write (LinearEquationSystem.y_ref e) row_index n_vars (y_ref_root c) with
      | Some w, Some a, Some y =>
          match list_set prio (LinearEquationSystem.mk a y w) equations with
          | Some equations' => Ret tt (s, equations')
          | None => Undef
          end
      | _, _, _ => Undef
      end
  end.

Section Assembly.

(** [KDL::svd_eigen_HH(A, U, S, V, tmp)] of the KDL library: the singular
    value decomposition of [A], returned as [(U, S, V)]. *)
Variable svd_eigen_HH : matrix -> matrix * vec * matrix.

(** Creation of the constraint Jacobian and its inversion. *)
Definition cart_invert_jacobian (tf_root tf_tip : TaskFrame.t) (c : ExtendedConstraint)
  : option ExtendedConstraint :=
  let c := set_pose_tip_in_root
             (Frame_mul (Frame_Inverse (TaskFrame.pose tf_root)) (TaskFrame.pose tf_tip)) c in
  let c := set_jac_helper (Jacobian_setIdentity (jac_helper c)) c in
  let c := set_jac_helper
             (Jacobian_changeRefPoint (jac_helper c) (Vector_neg (p_ (pose_tip_in_root c)))) c in
  let c := set_jac_helper (Jacobian_changeRefFrame (jac_helper c) (TaskFrame.pose tf_root)) c in
  let '(u, s, v) := svd_eigen_HH (Jacobian_data (jac_helper c)) in
  let c := set_svd u s v c in
  match invert_singular_values (seq 0 (length (Sf c))) (Sf c) (Uf c) with
  | None => None
  | Some uf =>
      let c := set_Uf uf c in
      match mul_transpose (Vf c) (Uf c) with
      | None => None
      | Some h => Some (set_H h c)
      end
  end.

(** The task matrix of a Cartesian constraint and the conversion of its
    input twist from [ref_frame] to the root of the kinematic chain. *)
Definition cart_task (tf_root tf_ref_frame : TaskFrame.t) (jac_root jac_tip : Jacobian)
  (n_vars : nat) (c : ExtendedConstraint) : option ExtendedConstraint :=
  match block00 (H c) n_vars 6 with
  | None => None
  | Some hb =>
      if negb (length jac_tip =? length jac_root) then None else
      let c := set_A (msub (mul_Jacobian hb jac_tip) (mul_Jacobian hb jac_root)) c in
      let c := set_pose_ref_frame_in_root
                 (Frame_mul (Frame_Inverse (TaskFrame.pose tf_root))
                            (TaskFrame.pose tf_ref_frame)) c in
      match Twist_of_vec (y_ref c) with
      | None => None
      | Some tmp_twist =>
          let tmp_twist := Frame_mul_Twist (pose_ref_frame_in_root c) tmp_twist in
          match write_twist tmp_twist (y_ref_root c) with
          | None => None
          | Some yr => Some (set_y_ref_root yr c)
          end
      end
  end.

(** The body of the loop over the tasks of one priority; the result is the
    next [row_index]. *)
Definition eval_constraint (task_frames : TaskFrameMap) (now : call_site -> Time)
  (prio p row_index : nat) : M St nat :=
  c <- deref p ;;
  let n_vars := no_variables c in
  let c := check_timeout (now at_timeout_check) c in
  c <- match ConstraintConfig.type (config c) with
       | cart =>
           tf_root <- lift_opt (StdMap.find (ConstraintConfig.root (config c)) task_frames) ;;
           tf_tip <- lift_opt (StdMap.find (ConstraintConfig.tip (config c)) task_frames) ;;
           tf_ref_frame <-
             lift_opt (StdMap.find (ConstraintConfig.ref_frame (config c)) task_frames) ;;
           c <- lift_opt (cart_invert_jacobian tf_root tf_tip c) ;;
           jac_root <- jac_map_index (ConstraintConfig.root (config c)) ;;
           jac_tip <- jac_map_index (ConstraintConfig.tip (config c)) ;;
           lift_opt (cart_task tf_root tf_ref_frame jac_root jac_tip n_vars c)
       | jnt =>
           st <- get ;;
           match jnt_update (joint_index_map_ (fst st)) c with
           | Ret _ c' => ret c'
           | Throw e c' => store p c' ;;; throw e
           | Undef => undef
           end
       end ;;
  let c := set_time (now at_time_stamp) c in
  let c := deactivate c in
  store p c ;;;
  insert_into_equations prio row_index n_vars c ;;;
  ret (row_index + n_vars).

(** The loop over the tasks of the priority [prio]. *)
Fixpoint eval_level (task_frames : TaskFrameMap) (now : Clock) (prio : nat)
  (ptrs : list nat) (i row_index : nat) : M St unit :=
  match ptrs with
  | [] => ret tt
  | p :: rest =>
      row_index' <- eval_constraint task_frames (now prio i) prio p row_index ;;
      eval_level task_frames now prio rest (S i) row_index'
  end.

(** The body of the loop over all priorities. *)
Definition eval_priority (task_frames : TaskFrameMap) (now : Clock) (prio : nat)
  : M St unit :=
  st <- get ;;
  n_vars_prio <- lift_opt (nth_error (n_constraints_per_prio_ (fst st)) prio) ;;
  e <- lift_opt (nth_error (snd st) prio) ;;
  equations <- lift_opt (list_set prio
                 (LinearEquationSystem.resize n_vars_prio (no_robot_joints_ (fst st)) e)
                 (snd st)) ;;
  put (fst st, equations) ;;;
  ptrs <- lift_opt (nth_error (constraint_vector_ (fst st)) prio) ;;
  eval_level task_frames now prio ptrs 0 0.

Definition prepareEqSystem (task_frames : TaskFrameMap) (now : Clock) : M St unit :=
  st <- get ;;
  if negb (configured_ (fst st)) then throw not_configured else
  match missing_task_frame task_frames (task_frame_ids (fst st)) with
  | Some _ => throw incomplete_task_frame_input
  | None =>
      for_each task_frames splice_task_frame ;;;
      modify (fun st =>
                (fst st,
                 if negb (length (snd st) =? n_prios_ (fst st))
                 then vector_resize (n_prios_ (fst st)) LinearEquationSystem.default (snd st)
                 else snd st)) ;;;
      st <- get ;;
      for_each (seq 0 (n_prios_ (fst st))) (eval_priority task_frames now)
  end.

End Assembly.

(** ** Definitions used by the statements *)

(** Solver states in which no call of [configure] has succeeded yet. *)
Inductive unconfigured : WbcVelocity -> Prop :=
| unconfigured_ctor n : unconfigured (WbcVelocity_ctor n)
| unconfigured_failed s config joint_names s' :
    unconfigured s ->
    configure config joint_names s = Ret false s' ->
    unconfigured s'.

(** The task-frame names a configuration requires. *)
Definition frames_of (c : ConstraintConfig.t) : list string :=
  match ConstraintConfig.type c with
  | cart => [ConstraintConfig.root c; ConstraintConfig.tip c; ConstraintConfig.ref_frame c]
  | jnt => []
  end.

(** The solver after [clear()] and the construction of the joint index map. *)
Definition configure_base (joint_names : list string) (s : WbcVelocity) : WbcVelocity :=
  set_joint_index_map_ (build_joint_index_map joint_names 0 StdMap.empty)
    (set_no_robot_joints_ (length joint_names) (clear s)).

(** The fields that only [clear] and the first statements of [configure]
    change. *)
Definition same_frame (s s' : WbcVelocity) : Prop :=
  configured_ s' = configured_ s /\
  no_robot_joints_ s' = no_robot_joints_ s /\
  joint_index_map_ s' = joint_index_map_ s /\
  n_prios_ s' = n_prios_ s /\
  n_constraints_per_prio_ s' = n_constraints_per_prio_ s.

(** Every frame with a Jacobian in [jac_map_] is listed in [task_frame_ids]. *)
Definition tf_inv (s : WbcVelocity) : Prop :=
  forall f, StdMap.find f (jac_map_ s) <> None -> In f (task_frame_ids s).

(** Example configurations: a joint constraint on the joint [j1], and a
    Cartesian constraint between the frames [base] and [hand]. *)
Definition example_joint_config (name : string) (priority : Z) : ConstraintConfig.t :=
  ConstraintConfig.mk jnt name priority "" "" "" ["j1"] [1%Q] 0.

Definition example_cart_config (name : string) (priority : Z) : ConstraintConfig.t :=
  ConstraintConfig.mk cart name priority "base" "hand" "ref" [] (repeat 1%Q 6) 0.

(** The state a call of [configure] returns with, and the constructed state
    when it does not return. *)
Definition configured_state (config : list ConstraintConfig.t) (joint_names : list string)
  : WbcVelocity :=
  match configure config joint_names (WbcVelocity_ctor 0) with
  | Ret _ s => s
  | _ => WbcVelocity_ctor 0
  end.

(** The decomposition of the 6 x 6 identity matrix, as a constant function. *)
Definition identity_matrix (n : nat) : matrix :=
  map (fun i => map (fun j => if Nat.eqb i j then 1%Q else 0%Q) (seq 0 n)) (seq 0 n).

Definition svd_of_identity (a : matrix) : matrix * vec * matrix :=
  (identity_matrix 6, repeat 1%Q 6, identity_matrix 6).

(** The specifications with priority [prio], in configuration order. *)
Definition level_of (config : list ConstraintConfig.t) (prio : Z) : list ConstraintConfig.t :=
  filter (fun c => (ConstraintConfig.priority c =? prio)%Z) config.

(** The configurations of the constraints a level points to. *)
Definition pointed_configs (h : list ExtendedConstraint) (level : list nat)
  : list (option ConstraintConfig.t) :=
  map (fun p => option_map config (nth_error h p)) level.

(** The priority levels of a solver, each as the list of the configurations
    of its constraints. *)
Definition level_configs (s : WbcVelocity) : list (list (option ConstraintConfig.t)) :=
  map (pointed_configs (heap s)) (constraint_vector_ s).

Definition nonempty {X} (l : list X) : bool := negb (is_empty l).

(** [v.segment(start, n)] as a value: [n] entries from [start] on. *)
Definition segment {X} (v : list X) (start n : nat) : list X := firstn n (skipn start v).

(** [v] with the [n] entries from [start] on replaced by [mid]. *)
Definition splice {X} (v : list X) (start n : nat) (mid : list X) : list X :=
  firstn start v ++ mid ++ skipn (start + n) v.

(** The solver fields that the assembly never writes (all but the
    constraint objects and the Jacobians). *)
Definition solver_frame (s s' : WbcVelocity) : Prop :=
  configured_ s' = configured_ s /\
  no_robot_joints_ s' = no_robot_joints_ s /\
  constraint_vector_ s' = constraint_vector_ s /\
  constraint_map_ s' = constraint_map_ s /\
  joint_index_map_ s' = joint_index_map_ s /\
  task_frame_ids s' = task_frame_ids s /\
  n_constraints_per_prio_ s' = n_constraints_per_prio_ s /\
  n_prios_ s' = n_prios_ s.

(** The row offset of a constraint in its level: the sum of the output
    dimensionalities of the constraints listed before it. *)
Definition rows_before (h : list ExtendedConstraint) (ptrs : list nat) : nat :=
  fold_right (fun p acc =>
                match nth_error h p with Some c => no_variables c | None => 0 end + acc)
             0 ptrs.

(** What one pass of the loop body does to a constraint object [c] when it
    completes: the timeout check, the update that belongs to the type of the
    constraint, the time stamp and the deactivation. *)
Definition evaluated (svd : matrix -> matrix * vec * matrix) (task_frames : TaskFrameMap)
  (now : call_site -> Time) (joint_index_map : StdMap.t nat)
  (c c' : ExtendedConstraint) : Prop :=
  exists c1,
    c' = deactivate (set_time (now at_time_stamp) c1) /\
    match ConstraintConfig.type (config c) with
    | jnt => jnt_update joint_index_map (check_timeout (now at_timeout_check) c) = Ret tt c1
    | cart =>
        exists tf_root tf_tip tf_ref_frame c0 jac_root jac_tip,
          StdMap.find (ConstraintConfig.root (config c)) task_frames = Some tf_root /\
          StdMap.find (ConstraintConfig.tip (config c)) task_frames = Some tf_tip /\
          StdMap.find (ConstraintConfig.ref_frame (config c)) task_frames = Some tf_ref_frame /\
          cart_invert_jacobian svd tf_root tf_tip (check_timeout (now at_timeout_check) c)
          = Some c0 /\
          cart_task tf_root tf_ref_frame jac_root jac_tip (no_variables c) c0 = Some c1
    end.

(** The three vectors of a level agree on every segment that ends at or
    before row [r]. *)
Definition agree_before (r : nat) (e e' : LinearEquationSystem.t) : Prop :=
  forall r0 n0, r0 + n0 <= r ->
    segment (LinearEquationSystem.W_row e') r0 n0 = segment (LinearEquationSystem.W_row e) r0 n0 /\
    segment (LinearEquationSystem.A e') r0 n0 = segment (LinearEquationSystem.A e) r0 n0 /\
    segment (LinearEquationSystem.y_ref e') r0 n0 = segment (LinearEquationSystem.y_ref e) r0 n0.

(** What the assembly guarantees for the constraint [p], which is listed at
    row offset [off] of the system [e'] of its level. *)
Definition assembled (svd : matrix -> matrix * vec * matrix) (task_frames : TaskFrameMap)
  (now : call_site -> Time) (joint_index_map : StdMap.t nat)
  (h h' : list ExtendedConstraint) (e' : LinearEquationSystem.t) (p off : nat) : Prop :=
  exists c c',
    nth_error h p = Some c /\ nth_error h' p = Some c' /\
    evaluated svd task_frames now joint_index_map c c' /\
    segment (LinearEquationSystem.W_row e') off (no_variables c) = effective_weights c' /\
    segment (LinearEquationSystem.A e') off (no_variables c) = A c' /\
    segment (LinearEquationSystem.y_ref e') off (no_variables c) = y_ref_root c' /\
    length (effective_weights c') = no_variables c /\
    length (A c') = no_variables c /\
    length (y_ref_root c') = no_variables c.

(** The assembly writes Jacobians only. *)
Definition jac_only (st st' : St) : Prop :=
  solver_frame (fst st) (fst st') /\ heap (fst st') = heap (fst st) /\ snd st' = snd st.

(** The time elapsed since the last reference update, in seconds, and the
    outcome of the timeout check at the clock reading [now]. *)
Definition elapsed (now : Time) (c : ExtendedConstraint) : Q :=
  toSeconds (now - last_ref_input c).

Definition timed_out (now : Time) (c : ExtendedConstraint) : bool :=
  Qltb 0 (ConstraintConfig.timeout (config c))
  && Qltb (ConstraintConfig.timeout (config c)) (elapsed now c).

(** The exact time between the last reference update and the clock reading
    [now], in seconds: the count of microseconds divided by 10^6. *)
Definition exact_elapsed (now : Time) (c : ExtendedConstraint) : Q :=
  (inject_Z (now - last_ref_input c) / 1000000)%Q.

(** The relative error that the conversion to seconds can make: the count
    and the quotient are each rounded to 53 significant bits. *)
Definition seconds_tolerance : Q := 1 # 2 ^ 51.

(** The fields of a constraint that the update of its type does not write. *)
Definition same_inputs (c c' : ExtendedConstraint) : Prop :=
  config c' = config c /\
  no_variables c' = no_variables c /\
  weights c' = weights c /\
  activation c' = activation c /\
  last_ref_input c' = last_ref_input c /\
  constraint_timed_out c' = constraint_timed_out c /\
  y_ref c' = y_ref c.

(** Row [i] of a selection matrix: 1 at the column of the joint, 0 elsewhere. *)
Definition selection_row (joint_index_map : StdMap.t nat) (joint_name : string) (n_cols : nat)
  : list Q :=
  map (fun col => match StdMap.find joint_name joint_index_map with
                  | Some idx => if col =? idx then 1%Q else 0%Q
                  | None => 0%Q
                  end) (seq 0 n_cols).

Definition selection_matrix (joint_index_map : StdMap.t nat) (joint_names : list string)
  (n_cols : nat) : matrix :=
  map (fun joint_name => selection_row joint_index_map joint_name n_cols) joint_names.

(** A joint constraint as the solver keeps it: sized by its joint list, and
    every row of its task matrix still zero, as constructed, or already the
    selection row of its joint. *)
Definition joint_constraint_wf (joint_index_map : StdMap.t nat) (n_cols : nat)
  (c : ExtendedConstraint) : Prop :=
  no_variables c = length (ConstraintConfig.joint_names (config c)) /\
  length (y_ref c) = no_variables c /\
  Forall2 (fun row joint_name =>
             row = zeros n_cols \/ row = selection_row joint_index_map joint_name n_cols)
          (A c) (ConstraintConfig.joint_names (config c)).

(** The state and the equations one call of [prepareEqSystem] returns with
    (the arguments themselves when it does not return). *)
Definition cycle (svd : matrix -> matrix * vec * matrix) (task_frames : TaskFrameMap)
  (now : Clock) (st : St) : St :=
  match prepareEqSystem svd task_frames now st with
  | Ret _ st' => st'
  | _ => st
  end.

(** The solver after the caller has applied [f] to the constraint [name]
    through its handle. *)
Definition after_write (name : string) (f : ExtendedConstraint -> ExtendedConstraint)
  (s : WbcVelocity) : WbcVelocity :=
  match constraint name s with
  | Ret p s1 => match write_handle p f s1 with
                | Ret _ s2 => s2
                | _ => s
                end
  | _ => s
  end.

(** The rows of the level system [e'] that belong to the constraint at
    position [k] of the level [ptrs]. *)
Definition rows_of {X} (h : list ExtendedConstraint) (ptrs : list nat) (k : nat)
  (c : ExtendedConstraint) (v : list X) : list X :=
  segment v (rows_before h (firstn k ptrs)) (no_variables c).

(** A joint constraint on [j2] with a timeout of one second, configured on a
    robot with the joints [j1] and [j2]; the caller has set the reference 0.5
    at time 0 and the activation 1. *)
Definition example_timeout_config : ConstraintConfig.t :=
  ConstraintConfig.mk jnt "c" 0 "" "" "" ["j2"] [1%Q] 1.

Definition example_timeout_state : WbcVelocity :=
  after_write "c" (fun c => setActivation 1 (setReference [(1 # 2)%Q] 0%Z c))
    (configured_state [example_timeout_config] ["j1"; "j2"]).

(** A clock that reads two seconds at every call. *)
Definition two_seconds : Clock := fun _ _ _ => 2000000%Z.

(** The same constraint with the timeout 0.3, which as a [double] is
    5404319552844595 / 2^54, a little less than 3/10; and a clock that reads
    300000 microseconds at every call. *)
Definition example_boundary_config : ConstraintConfig.t :=
  ConstraintConfig.mk jnt "c" 0 "" "" "" ["j2"] [1%Q]
    (5404319552844595 # 18014398509481984).

Definition example_boundary_state : WbcVelocity :=
  after_write "c" (fun c => setActivation 1 (setReference [(1 # 2)%Q] 0%Z c))
    (configured_state [example_boundary_config] ["j1"; "j2"]).

Definition three_tenths : Clock := fun _ _ _ => 300000%Z.

(** The solver of the examples with the activation 0 instead of 1: the
    caller has set the reference 0.5 all the same. *)
Definition example_inactive_state : WbcVelocity :=
  after_write "c" (fun c => setActivation 0 (setReference [(1 # 2)%Q] 0%Z c))
    (configured_state [example_timeout_config] ["j1"; "j2"]).

(** The scenario of the specification: joints [j1], [j2]; one joint
    constraint of priority 0 on [j2] with weight 1, reference 0.5 and
    activation 1. *)
Definition scenario_config : ConstraintConfig.t :=
  ConstraintConfig.mk jnt "c" 0 "" "" "" ["j2"] [1%Q] 0.

Definition scenario_state : WbcVelocity :=
  after_write "c" (fun c => setActivation 1 (setWeights [1%Q] (setReference [(1 # 2)%Q] 0%Z c)))
    (configured_state [scenario_config] ["j1"; "j2"]).

(** The row with a one at column [idx] and zeros elsewhere. *)
Definition unit_row (idx n_cols : nat) : list Q :=
  map (fun col => if col =? idx then 1%Q else 0%Q) (seq 0 n_cols).

(** The local Jacobian that [cart_invert_jacobian] decomposes: unit twists,
    moved to the reference point [-pose_tip_in_root.p] and re-expressed with
    the pose of the root frame. *)
Definition local_jacobian (tf_root tf_tip : TaskFrame.t) (c : ExtendedConstraint) : matrix :=
  Jacobian_data
    (Jacobian_changeRefFrame
       (Jacobian_changeRefPoint
          (Jacobian_setIdentity (jac_helper c))
          (Vector_neg (p_ (Frame_mul (Frame_Inverse (TaskFrame.pose tf_root))
                                     (TaskFrame.pose tf_tip)))))
       (TaskFrame.pose tf_root)).

(** The pseudo-inverse as the specification words it, from a decomposition
    [(u, s, v)]: a strictly positive singular value is inverted, the
    direction of any other singular value is zeroed, and the result is
    [v * diag(s+) * u^T]. *)
Definition inverted_direction (us : Q * Q) : Q :=
  if Qltb 0 (snd us) then (fst us * (1 / snd us))%Q else 0%Q.

Definition pseudo_inverse (u : matrix) (s : vec) (v : matrix) : matrix :=
  map (fun vrow => map (fun urow => dot vrow (map inverted_direction (combine urow s))) u) v.

(** The entry [x] of column [j] after the loop over the singular values has
    passed column [j]. *)
Definition scale_at (s : vec) (j : nat) (x : Q) : Q :=
  match nth_error s j with
  | Some sj => inverted_direction (x, sj)
  | None => x
  end.

(** A row of [Uf] when the loop over the singular values has passed the
    columns below [a]. *)
Definition partially_inverted (s : vec) (a : nat) (row : list Q) : list Q :=
  map (fun jx => if fst jx <? a then scale_at s (fst jx) (snd jx) else snd jx)
      (combine (seq 0 (length row)) row).

(** The difference of two twists and, column by column, of two Jacobians. *)
Definition Twist_sub (a b : Twist) : Twist :=
  mkTwist (mkVector (vx (vel a) - vx (vel b)) (vy (vel a) - vy (vel b)) (vz (vel a) - vz (vel b)))
          (mkVector (vx (rot a) - vx (rot b)) (vy (rot a) - vy (rot b)) (vz (rot a) - vz (rot b))).

Definition Jacobian_sub (a b : Jacobian) : Jacobian :=
  map (fun ab => Twist_sub (fst ab) (snd ab)) (combine a b).

(** Task frames of the examples: [base] at the origin without joints, and a
    frame with the joint [j1] turning about z, placed at [pose]. *)
Definition example_base_frame : TaskFrame.t := TaskFrame.mk [] [] Frame_Identity.

Definition example_joint_frame (pose : Frame) : TaskFrame.t :=
  TaskFrame.mk ["j1"] [unit_twist 5] pose.

(** The task-frame input of the twist example: root [base] and tip [hand] at
    the origin, the reference frame [ref] with the same orientation, one unit
    along x away from the root. *)
Definition example_offset_frames : TaskFrameMap :=
  StdMap.set "ref" (example_joint_frame (mkFrame Rotation_Identity (mkVector 1 0 0)))
    (StdMap.set "hand" (example_joint_frame Frame_Identity)
       (StdMap.set "base" example_base_frame StdMap.empty)).

(** A purely rotational reference twist: one unit about z. *)
Definition example_rotation : vec := [0; 0; 0; 0; 0; 1]%Q.

(** The solver with one Cartesian constraint whose reference is that twist. *)
Definition example_rotation_state : WbcVelocity :=
  after_write "c" (fun c => setActivation 1 (setReference example_rotation 0%Z c))
    (configured_state [example_cart_config "c" 0] ["j1"]).

(** A write through a handle keeps the shape of the constraint: the caller
    sets values, it does not reconfigure the constraint, resize its reference
    or touch its task matrix. *)
Definition keeps_shape (c c' : ExtendedConstraint) : Prop :=
  config c' = config c /\
  no_variables c' = no_variables c /\
  A c' = A c /\
  length (y_ref c') = length (y_ref c).

(** The solver states in use: reached from a successful [configure] of
    [specifications] by writes through constraint handles and by completed
    assemblies. *)
Inductive configured_from (specifications : list ConstraintConfig.t) : WbcVelocity -> Prop :=
| configured_by joint_names s0 s :
    configure specifications joint_names s0 = Ret true s ->
    configured_from specifications s
| configured_write s p f c s' :
    configured_from specifications s ->
    nth_error (heap s) p = Some c ->
    keeps_shape c (f c) ->
    write_handle p f s = Ret tt s' ->
    configured_from specifications s'
| configured_cycle svd task_frames now s equations s' equations' :
    configured_from specifications s ->
    prepareEqSystem svd task_frames now (s, equations) = Ret tt (s', equations') ->
    configured_from specifications s'.

(** The order of the keys of a [std::map<std::string, V>], and the maps
    whose entries are in that order (every map built with [StdMap.set] from
    the empty map is). *)
Definition key_lt (a b : string) : Prop := String.ltb a b = true.

Definition sorted_keys {V} (m : StdMap.t V) : Prop :=
  StronglySorted key_lt (StdMap.keys m).

(** The index of the last occurrence of [name] in [joint_names], counted
    from [i0]. *)
Fixpoint last_index (name : string) (joint_names : list string) (i0 : nat) : option nat :=
  match joint_names with
  | [] => None
  | n :: rest =>
      match last_index name rest (S i0) with
      | Some i => Some i
      | None => if String.eqb name n then Some i0 else None
      end
  end.

(** The registry of task frames: [task_frame_ids] has no repetition, it
    lists exactly the keys of [jac_map_], and every Jacobian of [jac_map_] is
    the zero Jacobian with [n] columns. *)
Definition registry_inv (n : nat) (s : WbcVelocity) : Prop :=
  NoDup (task_frame_ids s) /\
  (forall f, In f (task_frame_ids s) <-> StdMap.find f (jac_map_ s) <> None) /\
  (forall f j, StdMap.find f (jac_map_ s) = Some j -> j = Jacobian_zero n).

(** [s] with the three members that [clear] does not reset ([configured_],
    [n_constraints_per_prio_] and [n_prios_]) as they are in [donor]. *)
Definition with_stale (donor s : WbcVelocity) : WbcVelocity :=
  mkWbcVelocity (configured_ donor) (no_robot_joints_ s) (heap s) (constraint_vector_ s)
                (constraint_map_ s) (joint_index_map_ s) (jac_map_ s) (task_frame_ids s)
                (n_constraints_per_prio_ donor) (n_prios_ donor).

(** A purely translational reference twist: one unit along x. *)
Definition example_translation : vec := [1; 0; 0; 0; 0; 0]%Q.

(** The solver with one Cartesian constraint whose reference is that twist. *)
Definition example_translation_state : WbcVelocity :=
  after_write "c" (fun c => setActivation 1 (setReference example_translation 0%Z c))
    (configured_state [example_cart_config "c" 0] ["j1"]).

(** The sizes of the system of a level: [n_rows] rows and [n_cols] columns. *)
Definition system_shape (n_rows n_cols : nat) (e : LinearEquationSystem.t) : Prop :=
  length (LinearEquationSystem.W_row e) = n_rows /\
  length (LinearEquationSystem.y_ref e) = n_rows /\
  length (LinearEquationSystem.A e) = n_rows /\
  Forall (fun row => length row = n_cols) (LinearEquationSystem.A e).

(** The output dimensionality of a constraint: 6 for a Cartesian
    constraint, the number of listed joints for a joint constraint. *)
Definition output_size (cfg : ConstraintConfig.t) : nat :=
  match ConstraintConfig.type cfg with
  | cart => 6
  | jnt => length (ConstraintConfig.joint_names cfg)
  end.

(** The Jacobians of [m] are still there in [m'], with as many columns. *)
Definition jac_kept (m m' : StdMap.t Jacobian) : Prop :=
  forall f jac, StdMap.find f m = Some jac ->
    exists jac', StdMap.find f m' = Some jac' /\ length jac' = length jac.

(** The decomposition routine returns the shapes that the source gives it:
    [U] and [V] are 6 x 6 and there are six singular values. *)
Definition svd_shape (svd : matrix -> matrix * vec * matrix) : Prop :=
  forall a u s v,
    svd a = (u, s, v) ->
    length s = 6 /\ length u = 6 /\ length v = 6 /\
    Forall (fun row => length row = 6) u /\ Forall (fun row => length row = 6) v.

(** What the assembly needs of a constraint object [c] of the solver [s]:
    the weights and both references have the output size; the frames of a
    Cartesian constraint are supplied in [task_frames] and registered with a
    Jacobian with one column per robot joint; a joint constraint has a task
    matrix of its size, and the joints it lists have indices below the
    number of robot joints as far as they are configured. *)
Definition constraint_ready (s : WbcVelocity) (task_frames : TaskFrameMap)
  (c : ExtendedConstraint) : Prop :=
  no_variables c = output_size (config c) /\
  length (weights c) = no_variables c /\
  length (y_ref c) = no_variables c /\
  length (y_ref_root c) = no_variables c /\
  match ConstraintConfig.type (config c) with
  | cart =>
      forall f, In f (frames_of (config c)) ->
        StdMap.find f task_frames <> None /\
        exists jac, StdMap.find f (jac_map_ s) = Some jac /\
                    length jac = no_robot_joints_ s
  | jnt =>
      length (A c) = no_variables c /\
      Forall (fun row => length row = no_robot_joints_ s) (A c) /\
      forall jt idx, In jt (ConstraintConfig.joint_names (config c)) ->
        StdMap.find jt (joint_index_map_ s) = Some idx -> idx < no_robot_joints_ s
  end.

(** The two errors about joint names. *)
Definition invalid_joint_name : exn := invalid_argument "Invalid joint name".
Definition invalid_constraint_config : exn := invalid_argument "Invalid Constraint config".

(** Whether every listed joint is a key of the joint index map. *)
Definition all_known (joint_index_map : StdMap.t nat) (joint_names : list string) : bool :=
  forallb (fun jt => negb (StdMap.count jt joint_index_map =? 0)) joint_names.

(** Whether the joints of a joint constraint are configured joints (nothing
    is asked of a Cartesian constraint), for a constraint, for the
    constraints of a level and for all levels. *)
Definition joints_known (joint_index_map : StdMap.t nat) (cfg : ConstraintConfig.t) : bool :=
  match ConstraintConfig.type cfg with
  | cart => true
  | jnt => all_known joint_index_map (ConstraintConfig.joint_names cfg)
  end.

Definition level_known (joint_index_map : StdMap.t nat) (h : list ExtendedConstraint)
  (ptrs : list nat) : bool :=
  forallb (fun p => match nth_error h p with
                    | Some c => joints_known joint_index_map (config c)
                    | None => true
                    end) ptrs.

Definition levels_known (s : WbcVelocity) (prios : list nat) : bool :=
  forallb (fun prio => match nth_error (constraint_vector_ s) prio with
                       | Some ptrs => level_known (joint_index_map_ s) (heap s) ptrs
                       | None => true
                       end) prios.

(** Whether the joints that the supplied task frames list are configured
    joints. *)
Definition frames_known (joint_index_map : StdMap.t nat) (task_frames : TaskFrameMap) : bool :=
  forallb (fun entry => all_known joint_index_map (TaskFrame.joint_names (snd entry)))
          task_frames.

(** Examples: a Cartesian and a joint constraint on a robot with the joint
    [j1]; and the task-frame input of the twist example with a reference
    frame that lists the joint [j9], which no robot of the examples has. *)
Definition example_mixed_config : list ConstraintConfig.t :=
  [example_cart_config "c" 0; example_joint_config "a" 1].

Definition example_unknown_joint_frames : TaskFrameMap :=
  StdMap.set "ref" (TaskFrame.mk ["j9"] [unit_twist 5] Frame_Identity)
    (StdMap.set "hand" (example_joint_frame Frame_Identity)
       (StdMap.set "base" example_base_frame StdMap.empty)).

(** Component [k] of a twist, [t(k)]: the three translational components,
    then the three rotational ones. *)
Definition Twist_component (t : Twist) (k : nat) : Q :=
  match k with
  | 0 => vx (vel t)
  | 1 => vy (vel t)
  | 2 => vz (vel t)
  | 3 => vx (rot t)
  | 4 => vy (rot t)
  | 5 => vz (rot t)
  | _ => 0%Q
  end.

(** Entry (i, j) of a matrix, and entry (k, j) of a Jacobian, which is
    component [k] of its column [j]. *)
Definition entry (m : matrix) (i j : nat) : Q := nth j (nth i m []) 0%Q.

Definition Jacobian_entry (jac : Jacobian) (k j : nat) : Q :=
  Twist_component (nth j jac Twist_Zero) k.

(** The sum of [f 0], ..., [f 5]. *)
Definition sum6 (f : nat -> Q) : Q :=
  (f 0%nat + f 1%nat + f 2%nat + f 3%nat + f 4%nat + f 5%nat)%Q.

(** The reciprocal of a strictly positive singular value; zero for a
    singular value that is zero or negative. *)
Definition inverted (sigma : Q) : Q :=
  if Qltb 0 sigma then (1 / sigma)%Q else 0%Q.

(** The Jacobians that [m] holds are held by [m'] unchanged. *)
Definition jac_same (m m' : StdMap.t Jacobian) : Prop :=
  forall f jac, StdMap.find f m = Some jac -> StdMap.find f m' = Some jac.

(** The task matrix of the constraint [p], if it is a Cartesian one, is
    built from the Jacobians that the registry of [s] holds for the tip and
    for the root of the constraint. *)
Definition task_matrix_from_registry (s : WbcVelocity) (p : nat) : Prop :=
  forall c, nth_error (heap s) p = Some c ->
    ConstraintConfig.type (config c) = cart ->
    exists hb jac_root jac_tip,
      StdMap.find (ConstraintConfig.root (config c)) (jac_map_ s) = Some jac_root /\
      StdMap.find (ConstraintConfig.tip (config c)) (jac_map_ s) = Some jac_tip /\
      length jac_tip = length jac_root /\
      block00 (H c) (no_variables c) 6 = Some hb /\
      A c = msub (mul_Jacobian hb jac_tip) (mul_Jacobian hb jac_root).

(** Whether some level among [prios] lists the pointer [p]. *)
Definition listed_in (s : WbcVelocity) (prios : list nat) (p : nat) : bool :=
  existsb (fun prio => match nth_error (constraint_vector_ s) prio with
                       | Some ptrs => existsb (Nat.eqb p) ptrs
                       | None => false
                       end) prios.

(** A decomposition routine for the examples that reports a rank-deficient
    result: [U] permutes the first three axes cyclically, [V] is the
    identity, and the singular values are 2, 1/2, 0, -1, 1, 1. *)
Definition svd_rank_deficient (a : matrix) : matrix * vec * matrix :=
  ([[0; 0; 1; 0; 0; 0]; [1; 0; 0; 0; 0; 0]; [0; 1; 0; 0; 0; 0];
    [0; 0; 0; 1; 0; 0]; [0; 0; 0; 0; 1; 0]; [0; 0; 0; 0; 0; 1]]%Q,
   [2; 1 # 2; 0; -1; 1; 1]%Q,
   identity_matrix 6).

(** Task frames of a robot with the joints [j1] and [j2]: the root [base]
    is moved along x by [j1]; the tip [hand] is turned about z by [j1] and
    moved along y by [j2]. *)
Definition example_two_joint_frames : TaskFrameMap :=
  StdMap.set "ref" (TaskFrame.mk [] [] Frame_Identity)
    (StdMap.set "hand"
       (TaskFrame.mk ["j1"; "j2"] [unit_twist 5; unit_twist 1] Frame_Identity)
       (StdMap.set "base" (TaskFrame.mk ["j1"] [unit_twist 0] Frame_Identity)
          StdMap.empty)).

(** * Properties *)

(** ** Scalars and lists *)

Lemma Qltb_lt (x y : Q) : Qltb x y = true <-> (x < y)%Q.
Proof.
  unfold Qltb. rewrite negb_true_iff.
  split; intro Hxy.
  - apply Qnot_le_lt. intro Hle. apply Qle_bool_iff in Hle. congruence.
  - destruct (Qle_bool y x) eqn:E; [|reflexivity].
    apply Qle_bool_iff in E. exfalso. exact (Qlt_not_le _ _ Hxy E).
Qed.

Lemma list_set_length {X} (i : nat) (x : X) l l' :
  list_set i x l = Some l' -> length l' = length l.
Proof.
  revert i l'. induction l as [|y l IH]; intros [|i] l' Hs; simpl in Hs; try discriminate.
  - injection Hs as <-. reflexivity.
  - destruct (list_set i x l) eqn:E; simpl in Hs; [|discriminate].
    injection Hs as <-. simpl. f_equal. eauto.
Qed.

Lemma list_set_some {X} (i : nat) (x : X) l :
  i < length l -> exists l', list_set i x l = Some l'.
Proof.
  revert i. induction l as [|y l IH]; intros [|i] Hi; simpl in *; try lia.
  - eauto.
  - destruct (IH i) as [l' ->]; [lia|]. simpl. eauto.
Qed.

Lemma list_set_same {X} (i : nat) (x : X) l l' :
  list_set i x l = Some l' -> nth_error l' i = Some x.
Proof.
  revert i l'. induction l as [|y l IH]; intros [|i] l' Hs; simpl in Hs; try discriminate.
  - injection Hs as <-. reflexivity.
  - destruct (list_set i x l) eqn:E; simpl in Hs; [|discriminate].
    injection Hs as <-. simpl. eauto.
Qed.

Lemma list_set_other {X} (i j : nat) (x : X) l l' :
  list_set i x l = Some l' -> i <> j -> nth_error l' j = nth_error l j.
Proof.
  revert i j l'. induction l as [|y l IH]; intros [|i] j l' Hs Hij; simpl in Hs; try discriminate.
  - injection Hs as <-. destruct j; [congruence|reflexivity].
  - destruct (list_set i x l) eqn:E; simpl in Hs; [|discriminate].
    injection Hs as <-. destruct j; simpl; [reflexivity|]. eapply IH; eauto.
Qed.

Lemma nth_error_ext {X} (l1 l2 : list X) :
  length l1 = length l2 ->
  (forall i, i < length l1 -> nth_error l1 i = nth_error l2 i) ->
  l1 = l2.
Proof.
  revert l2. induction l1 as [|x l1 IH]; intros [|y l2] Hlen Hnth; simpl in *; try lia.
  - reflexivity.
  - f_equal.
    + specialize (Hnth 0 ltac:(lia)). simpl in Hnth. congruence.
    + apply IH; [lia|]. intros i Hi. apply (Hnth (S i)). lia.
Qed.

(** ** The ordered map *)

Lemma StdMap_find_set_same {V} (k : string) (v : V) m :
  StdMap.find k (StdMap.set k v m) = Some v.
Proof.
  induction m as [|[k' v'] m IH]; simpl.
  - rewrite String.eqb_refl. reflexivity.
  - destruct (String.eqb k k') eqn:E; simpl.
    + rewrite String.eqb_refl. reflexivity.
    + destruct (String.ltb k k'); simpl.
      * rewrite String.eqb_refl. reflexivity.
      * rewrite E. exact IH.
Qed.

Lemma StdMap_find_set_other {V} (k k0 : string) (v : V) m :
  k0 <> k -> StdMap.find k0 (StdMap.set k v m) = StdMap.find k0 m.
Proof.
  intro Hne. assert (Hb : String.eqb k0 k = false) by (apply String.eqb_neq; exact Hne).
  induction m as [|[k' v'] m IH]; simpl.
  - rewrite Hb. reflexivity.
  - destruct (String.eqb k k') eqn:E; simpl.
    + apply String.eqb_eq in E. subst k'. rewrite Hb. reflexivity.
    + destruct (String.ltb k k'); simpl.
      * rewrite Hb. reflexivity.
      * rewrite IH. reflexivity.
Qed.

Lemma StdMap_find_In {V} (k : string) (v : V) m :
  StdMap.find k m = Some v -> In (k, v) m.
Proof.
  induction m as [|[k' v'] m IH]; simpl; [discriminate|].
  destruct (String.eqb k k') eqn:E.
  - apply String.eqb_eq in E. subst. intros [= ->]. left. reflexivity.
  - intro Hf. right. auto.
Qed.

Lemma StdMap_find_None {V} (k : string) (m : StdMap.t V) :
  StdMap.find k m = None -> ~ In k (StdMap.keys m).
Proof.
  induction m as [|[k' v'] m IH]; simpl; [tauto|].
  destruct (String.eqb k k') eqn:E; [discriminate|].
  apply String.eqb_neq in E. intros Hf [Hk|Hk]; [congruence|]. exact (IH Hf Hk).
Qed.

Lemma StdMap_count_0 {V} (k : string) (m : StdMap.t V) :
  (StdMap.count k m =? 0) = true <-> StdMap.find k m = None.
Proof.
  unfold StdMap.count. destruct (StdMap.find k m); simpl; split; congruence.
Qed.

Lemma StdMap_set_perm {V} (k : string) (v : V) m :
  ~ In k (StdMap.keys m) -> Permutation (StdMap.set k v m) ((k, v) :: m).
Proof.
  induction m as [|[k' v'] m IH]; simpl; intro Hnin.
  - reflexivity.
  - destruct (String.eqb k k') eqn:E.
    + apply String.eqb_eq in E. subst. tauto.
    + destruct (String.ltb k k'); [reflexivity|].
      rewrite IH by tauto. apply perm_swap.
Qed.

Lemma StdMap_set_In_other {V} (k k0 : string) (v v0 : V) m :
  StdMap.find k m = None -> In (k0, v0) m -> In (k0, v0) (StdMap.set k v m).
Proof.
  intros Hf Hin. apply StdMap_find_None in Hf.
  eapply Permutation_in; [symmetry; apply StdMap_set_perm; exact Hf|].
  right. exact Hin.
Qed.

(** ** What [configure] leaves untouched *)

Lemma insert_constraints_frame config joint_names s b s' :
  insert_constraints config joint_names s = Ret b s' ->
  same_frame s s' /\ jac_map_ s' = jac_map_ s /\ task_frame_ids s' = task_frame_ids s.
Proof.
  revert s. induction config as [|c rest IH]; intros s Hi; simpl in Hi.
  - injection Hi as _ <-. unfold same_frame. tauto.
  - destruct (list_modify _ _ _) as [cv|]; [|discriminate].
    destruct (negb _).
    + injection Hi as _ <-. unfold same_frame. simpl. tauto.
    + apply IH in Hi. unfold same_frame in *. simpl in Hi. tauto.
Qed.

Lemma insert_constraints_no_throw config joint_names s e s' :
  insert_constraints config joint_names s <> Throw e s'.
Proof.
  revert s. induction config as [|c rest IH]; intros s; simpl; [discriminate|].
  destruct (list_modify _ _ _) as [cv|]; [|discriminate].
  destruct (negb _); [discriminate|]. apply IH.
Qed.

Lemma register_task_frame_frame f s :
  same_frame s (register_task_frame f s) /\
  heap (register_task_frame f s) = heap s /\
  constraint_vector_ (register_task_frame f s) = constraint_vector_ s /\
  constraint_map_ (register_task_frame f s) = constraint_map_ s.
Proof.
  unfold register_task_frame, same_frame.
  destruct (_ =? 0); simpl; tauto.
Qed.

Lemma create_tf_map_frame entries s s' :
  create_tf_map entries s = Some s' ->
  same_frame s s' /\ heap s' = heap s /\
  constraint_vector_ s' = constraint_vector_ s /\
  constraint_map_ s' = constraint_map_ s.
Proof.
  revert s. induction entries as [|[k p] rest IH]; intros s Hc; simpl in Hc.
  - injection Hc as <-. unfold same_frame. tauto.
  - destruct (nth_error (heap s) p) as [c|]; [|discriminate].
    destruct (ConstraintConfig.type (config c)).
    + apply IH in Hc.
      pose proof (register_task_frame_frame (ConstraintConfig.root (config c)) s) as H1.
      set (s1 := register_task_frame (ConstraintConfig.root (config c)) s) in *.
      pose proof (register_task_frame_frame (ConstraintConfig.tip (config c)) s1) as H2.
      set (s2 := register_task_frame (ConstraintConfig.tip (config c)) s1) in *.
      pose proof (register_task_frame_frame (ConstraintConfig.ref_frame (config c)) s2) as H3.
      set (s3 := register_task_frame (ConstraintConfig.ref_frame (config c)) s2) in *.
      unfold same_frame in *.
      repeat match goal with H : _ /\ _ |- _ => destruct H end.
      repeat split; congruence.
    + apply IH in Hc. exact Hc.
Qed.

(** The shape of a successful [configure]. *)
Lemma configure_true_inv config joint_names s0 s :
  configure config joint_names s0 = Ret true s ->
  exists max_prio s1 cv rows s2,
    scan_priorities config 0 = Some max_prio /\
    (max_prio + 1 <= INT_MAX)%Z /\
    insert_constraints config joint_names
      (set_constraint_vector_ (vector_resize (Z.to_nat (max_prio + 1)) [] [])
         (configure_base joint_names s0)) = Ret true s1 /\
    erase_empty_priorities (S (length (constraint_vector_ s1))) 0 (constraint_vector_ s1)
      = Some cv /\
    map_opt (fun level => count_level_rows (heap s1) level 0) cv = Some rows /\
    create_tf_map (constraint_map_ s1)
      (set_n_prios_ (length rows)
         (set_n_constraints_per_prio_ rows (set_constraint_vector_ cv s1))) = Some s2 /\
    s = set_configured_ true s2.
Proof.
  unfold configure. intro Hc.
  destruct (scan_priorities config 0) as [max_prio|]; [|discriminate].
  destruct (max_prio + 1 >? INT_MAX)%Z eqn:Hov; [discriminate|].
  change (set_joint_index_map_ _ _) with (configure_base joint_names s0) in Hc.
  simpl constraint_vector_ in Hc.
  destruct (insert_constraints _ _ _) as [[|] s1| |] eqn:Hi; try discriminate.
  destruct (erase_empty_priorities _ _ _) as [cv|] eqn:He; [|discriminate].
  simpl in Hc.
  destruct (map_opt _ cv) as [rows|] eqn:Hr; [|discriminate].
  destruct (create_tf_map _ _) as [s2|] eqn:Ht; [|discriminate].
  injection Hc as <-.
  exists max_prio, s1, cv, rows, s2.
  repeat split; try assumption.
  rewrite Z.gtb_ltb in Hov. apply Z.ltb_ge in Hov. exact Hov.
Qed.

(** A failing [configure] went through [clear] and the joint index map, and
    possibly through a part of the second loop. *)
Lemma configure_false_inv config joint_names s0 s :
  configure config joint_names s0 = Ret false s ->
  s = configure_base joint_names s0 \/
  exists max_prio,
    insert_constraints config joint_names
      (set_constraint_vector_ (vector_resize (Z.to_nat (max_prio + 1)) [] [])
         (configure_base joint_names s0)) = Ret false s.
Proof.
  unfold configure. intro Hc.
  destruct (scan_priorities config 0) as [max_prio|].
  2:{ left. injection Hc as <-. reflexivity. }
  destruct (max_prio + 1 >? INT_MAX)%Z; [discriminate|].
  change (set_joint_index_map_ _ _) with (configure_base joint_names s0) in Hc.
  simpl constraint_vector_ in Hc.
  destruct (insert_constraints _ _ _) as [[|] s1| |] eqn:Hi; try discriminate.
  - destruct (erase_empty_priorities _ _ _) as [cv|]; [|discriminate].
    simpl in Hc. destruct (map_opt _ cv) as [rows|]; [|discriminate].
    destruct (create_tf_map _ _) as [s2|]; discriminate.
  - right. exists max_prio. injection Hc as <-. exact Hi.
Qed.

Lemma configure_no_throw config joint_names s0 e s :
  configure config joint_names s0 <> Throw e s.
Proof.
  unfold configure.
  destruct (scan_priorities config 0) as [max_prio|]; [|discriminate].
  destruct (max_prio + 1 >? INT_MAX)%Z; [discriminate|].
  destruct (insert_constraints _ _ _) as [[|] s1|e1 s1|] eqn:Hi; try discriminate.
  - destruct (erase_empty_priorities _ _ _) as [cv|]; [|discriminate].
    simpl. destruct (map_opt _ _) as [rows|]; [|discriminate].
    destruct (create_tf_map _ _) as [s2|]; discriminate.
  - exfalso. exact (insert_constraints_no_throw _ _ _ Hi).
Qed.

(** [configured_] is written once, at the very end of a successful
    [configure]; a failing call leaves the flag as it was. *)
Lemma configure_false_keeps_flag config joint_names s0 s :
  configure config joint_names s0 = Ret false s ->
  configured_ s = configured_ s0.
Proof.
  intro Hc. apply configure_false_inv in Hc. destruct Hc as [-> | [mp Hi]].
  - reflexivity.
  - apply insert_constraints_frame in Hi. destruct Hi as [[Hf _] _]. exact Hf.
Qed.

Lemma configure_joint_index_map config joint_names s0 b s :
  configure config joint_names s0 = Ret b s ->
  joint_index_map_ s = build_joint_index_map joint_names 0 StdMap.empty.
Proof.
  destruct b; intro Hc.
  - apply configure_true_inv in Hc.
    destruct Hc as (mp & s1 & cv & rows & s2 & _ & _ & Hi & _ & _ & Ht & ->).
    apply insert_constraints_frame in Hi. apply create_tf_map_frame in Ht.
    unfold same_frame in *. simpl in *.
    repeat match goal with H : _ /\ _ |- _ => destruct H end. congruence.
  - apply configure_false_inv in Hc. destruct Hc as [-> | [mp Hi]]; [reflexivity|].
    apply insert_constraints_frame in Hi. unfold same_frame in Hi. simpl in Hi.
    repeat match goal with H : _ /\ _ |- _ => destruct H end. congruence.
Qed.

Lemma unconfigured_flag s : unconfigured s -> configured_ s = false.
Proof.
  induction 1 as [n | s config joint_names s' _ IH Hc]; [reflexivity|].
  rewrite (configure_false_keeps_flag _ _ _ Hc). exact IH.
Qed.

(** ** Registration of constraints and task frames *)

Lemma insert_constraints_registered config joint_names s s1 :
  insert_constraints config joint_names s = Ret true s1 ->
  (forall k p, In (k, p) (constraint_map_ s) -> In (k, p) (constraint_map_ s1)) /\
  (forall p c, nth_error (heap s) p = Some c -> nth_error (heap s1) p = Some c) /\
  (forall c, In c config ->
     exists p, In (ConstraintConfig.name c, p) (constraint_map_ s1) /\
               nth_error (heap s1) p = Some (new_ExtendedConstraint c joint_names)).
Proof.
  revert s. induction config as [|c0 rest IH]; intros s Hi; simpl in Hi.
  - injection Hi as <-. repeat split; auto. intros c [].
  - destruct (list_modify _ _ _) as [cv|]; [|discriminate].
    simpl in Hi.
    destruct (StdMap.count (ConstraintConfig.name c0) (constraint_map_ s) =? 0) eqn:Hcount;
      simpl in Hi; [|discriminate].
    apply StdMap_count_0 in Hcount.
    apply IH in Hi. simpl in Hi. destruct Hi as (Hmap & Hheap & Hreg).
    assert (Hnew : nth_error (heap s ++ [new_ExtendedConstraint c0 joint_names]) (length (heap s))
                   = Some (new_ExtendedConstraint c0 joint_names)).
    { rewrite nth_error_app2 by lia. rewrite Nat.sub_diag. reflexivity. }
    repeat split.
    + intros k p Hin. apply Hmap. apply StdMap_set_In_other; assumption.
    + intros p c Hp. apply Hheap. rewrite nth_error_app1; [exact Hp|].
      apply nth_error_Some. congruence.
    + intros c [<-|Hin]; [|auto].
      exists (length (heap s)). split; [|auto].
      apply Hmap. apply StdMap_find_In. apply StdMap_find_set_same.
Qed.

Lemma register_task_frame_ids f s :
  tf_inv s ->
  tf_inv (register_task_frame f s) /\
  In f (task_frame_ids (register_task_frame f s)) /\
  incl (task_frame_ids s) (task_frame_ids (register_task_frame f s)).
Proof.
  intro Hinv. unfold register_task_frame.
  destruct (StdMap.count f (jac_map_ s) =? 0) eqn:Hcount.
  - simpl. repeat split.
    + intros g Hg. simpl in *. apply in_or_app.
      destruct (String.eqb g f) eqn:E.
      * apply String.eqb_eq in E. subst. right. left. reflexivity.
      * apply String.eqb_neq in E. rewrite StdMap_find_set_other in Hg by exact E.
        left. apply Hinv. exact Hg.
    + apply in_or_app. right. left. reflexivity.
    + apply incl_appl. apply incl_refl.
  - repeat split; [assumption| |apply incl_refl].
    apply Hinv. intro Hnone. apply StdMap_count_0 in Hnone. congruence.
Qed.

Lemma create_tf_map_ids entries s s' :
  create_tf_map entries s = Some s' ->
  tf_inv s ->
  tf_inv s' /\
  incl (task_frame_ids s) (task_frame_ids s') /\
  (forall k p c f, In (k, p) entries -> nth_error (heap s) p = Some c ->
                   In f (frames_of (config c)) -> In f (task_frame_ids s')).
Proof.
  revert s. induction entries as [|[k0 p0] rest IH]; intros s Hc Hinv; simpl in Hc.
  - injection Hc as <-. repeat split; [assumption|apply incl_refl|]. intros ? ? ? ? [].
  - destruct (nth_error (heap s) p0) as [c0|] eqn:Hp0; [|discriminate].
    destruct (ConstraintConfig.type (config c0)) eqn:Hty.
    + destruct (register_task_frame_ids (ConstraintConfig.root (config c0)) Hinv)
        as (Hinv1 & Hin1 & Hincl1).
      set (s1 := register_task_frame (ConstraintConfig.root (config c0)) s) in *.
      destruct (register_task_frame_ids (ConstraintConfig.tip (config c0)) Hinv1)
        as (Hinv2 & Hin2 & Hincl2).
      set (s2 := register_task_frame (ConstraintConfig.tip (config c0)) s1) in *.
      destruct (register_task_frame_ids (ConstraintConfig.ref_frame (config c0)) Hinv2)
        as (Hinv3 & Hin3 & Hincl3).
      set (s3 := register_task_frame (ConstraintConfig.ref_frame (config c0)) s2) in *.
      assert (Hheap : heap s3 = heap s).
      { subst s3 s2 s1.
        repeat match goal with
               | |- context [heap (register_task_frame ?f ?x)] =>
                   rewrite (proj1 (proj2 (register_task_frame_frame f x)))
               end. reflexivity. }
      destruct (IH _ Hc Hinv3) as (Hinv' & Hincl' & Hall).
      repeat split; [assumption| |].
      * intros g Hg. auto.
      * intros k p c f [Heq|Hin] Hp Hf.
        -- injection Heq as -> ->. rewrite Hp0 in Hp. injection Hp as <-.
           unfold frames_of in Hf. rewrite Hty in Hf. simpl in Hf.
           destruct Hf as [<-|[<-|[<-|[]]]]; auto.
        -- eapply Hall; eauto. rewrite Hheap. exact Hp.
    + destruct (IH _ Hc Hinv) as (Hinv' & Hincl' & Hall).
      repeat split; [assumption|assumption|].
      intros k p c f [Heq|Hin] Hp Hf.
      * injection Heq as -> ->. rewrite Hp0 in Hp. injection Hp as <-.
        unfold frames_of in Hf. rewrite Hty in Hf. destruct Hf.
      * eapply Hall; eauto.
Qed.

(** After a successful [configure], every frame named by a Cartesian
    constraint is in [task_frame_ids], and the solver is configured. *)
Lemma configure_task_frame_ids config joint_names s0 s c f :
  configure config joint_names s0 = Ret true s ->
  In c config -> In f (frames_of c) ->
  configured_ s = true /\ In f (task_frame_ids s).
Proof.
  intros Hc Hin Hf. apply configure_true_inv in Hc.
  destruct Hc as (mp & s1 & cv & rows & s2 & _ & _ & Hi & _ & _ & Ht & ->).
  split; [reflexivity|]. simpl.
  destruct (insert_constraints_registered _ _ _ Hi) as (_ & _ & Hreg).
  destruct (Hreg c Hin) as (p & Hmap & Hheap).
  pose proof (insert_constraints_frame _ _ _ Hi) as (_ & Hjac & Hids).
  eapply create_tf_map_ids in Ht.
  - destruct Ht as (_ & _ & Hall). eapply Hall; [exact Hmap|simpl; exact Hheap|].
    destruct c; exact Hf.
  - intros g Hg. simpl in Hg. rewrite Hjac in Hg. simpl in Hg. congruence.
Qed.

Lemma missing_task_frame_some task_frames ids f :
  In f ids -> StdMap.count f task_frames = 0 ->
  exists g, missing_task_frame task_frames ids = Some g.
Proof.
  unfold missing_task_frame. intros Hin Hcount.
  destruct (List.find _ ids) as [g|] eqn:E; [eauto|].
  eapply find_none in E; [|exact Hin]. simpl in E. rewrite Hcount in E. discriminate.
Qed.

(** ** Preconditions of the assembly *)

Lemma prepareEqSystem_not_configured svd task_frames now s equations :
  configured_ s = false ->
  prepareEqSystem svd task_frames now (s, equations) = Throw not_configured (s, equations).
Proof.
  intro Hflag. unfold prepareEqSystem, bind, get. simpl. rewrite Hflag. reflexivity.
Qed.

Lemma constraint_not_configured name s :
  configured_ s = false -> constraint name s = Throw not_configured s.
Proof.
  intro Hflag. unfold constraint. rewrite Hflag. reflexivity.
Qed.

(** ** Reconfiguration *)

(** C1, evaluated on the code.  A successful [configure] followed by a
    [configure] that fails on a negative priority leaves [configured_] set:
    [clear()] does not reset the flag.  The lookup then reports an unknown
    name instead of the not-configured error, and the assembly gets past its
    not-configured check and indexes the emptied [constraint_vector_] with the
    level count of the earlier configuration. *)
Theorem failed_reconfigure_stays_configured :
  forall svd now n,
  exists s1 s2,
    configure [example_joint_config "a" 0] ["j1"] (WbcVelocity_ctor n) = Ret true s1 /\
    configure [example_joint_config "b" (-1)] ["j1"] s1 = Ret false s2 /\
    configured_ s2 = true /\
    constraint "a" s2 = Throw (invalid_argument "Invalid constraint name") s2 /\
    prepareEqSystem svd [] now (s2, []) = Undef.
Proof.
  intros svd now n.
  eexists. eexists.
  split; [vm_compute; reflexivity|].
  split; [vm_compute; reflexivity|].
  split; [reflexivity|].
  split; vm_compute; reflexivity.
Qed.

(** From a state in which no [configure] has succeeded, a failing
    [configure] does leave the solver unconfigured. *)
Lemma first_configure_failure_rejects config joint_names s s' name svd task_frames now equations :
  unconfigured s ->
  configure config joint_names s = Ret false s' ->
  constraint name s' = Throw not_configured s' /\
  prepareEqSystem svd task_frames now (s', equations) = Throw not_configured (s', equations).
Proof.
  intros Hun Hc.
  assert (Hflag : configured_ s' = false).
  { apply unconfigured_flag. eapply unconfigured_failed; eauto. }
  split.
  - apply constraint_not_configured. exact Hflag.
  - apply prepareEqSystem_not_configured. exact Hflag.
Qed.

(** A failing reconfiguration of a configured solver never yields the
    not-configured error. *)
Lemma failed_reconfigure_not_rejected config joint_names s s' name :
  configured_ s = true ->
  configure config joint_names s = Ret false s' ->
  constraint name s' <> Throw not_configured s'.
Proof.
  intros Hflag Hc. apply configure_false_keeps_flag in Hc.
  unfold constraint. rewrite Hc, Hflag. simpl.
  destruct (_ =? 0); [discriminate|].
  destruct (StdMap.find _ _); discriminate.
Qed.

(** ** Introspection before [configure] *)

(** C10, evaluated on the code.  On a freshly constructed solver
    [jointNames] returns the empty list.  [getConstraintVector] has no
    not-configured check, but it reads [n_prios_], which the constructor
    leaves indeterminate: the snapshot is empty when that value is 0, and for
    any other value the function indexes the empty [constraint_vector_]. *)
Theorem introspection_before_configure :
  forall n constraints,
    jointNames (WbcVelocity_ctor n) = Ret [] (WbcVelocity_ctor n) /\
    getConstraintVector constraints (WbcVelocity_ctor 0) = Ret [] (WbcVelocity_ctor 0) /\
    getConstraintVector constraints (WbcVelocity_ctor (S n)) = Undef.
Proof.
  intros n constraints. split; [reflexivity|]. split.
  - unfold getConstraintVector. simpl. destruct constraints; reflexivity.
  - unfold getConstraintVector. simpl n_prios_.
    destruct (negb (length constraints =? S n)) eqn:E.
    + unfold vector_resize. destruct constraints as [|l cs]; simpl; reflexivity.
    + apply negb_false_iff in E. apply Nat.eqb_eq in E.
      destruct constraints as [|l cs]; [discriminate|]. simpl. reflexivity.
Qed.

(** ** The joint index map and [jointNames] *)

Lemma build_joint_index_map_perm joint_names i0 m :
  NoDup joint_names ->
  (forall n, In n joint_names -> ~ In n (StdMap.keys m)) ->
  Permutation (build_joint_index_map joint_names i0 m)
              (m ++ combine joint_names (seq i0 (length joint_names))).
Proof.
  revert i0 m. induction joint_names as [|n rest IH]; intros i0 m Hnd Hfresh; simpl.
  - rewrite app_nil_r. reflexivity.
  - inversion Hnd as [|? ? Hn Hrest]; subst.
    rewrite IH.
    + rewrite StdMap_set_perm by (apply Hfresh; left; reflexivity).
      simpl. apply Permutation_cons_app. reflexivity.
    + exact Hrest.
    + intros n' Hin' Hkey.
      unfold StdMap.keys in Hkey.
      apply (Permutation_in _ (Permutation_map fst (StdMap_set_perm n i0 m
               (Hfresh n (or_introl eq_refl))))) in Hkey.
      simpl in Hkey. destruct Hkey as [<-|Hkey]; [contradiction|].
      apply (Hfresh n'); [right; exact Hin'|exact Hkey].
Qed.

Lemma fill_joint_names_spec entries v :
  (forall k i, In (k, i) entries -> i < length v) ->
  NoDup (map snd entries) ->
  exists v', fill_joint_names entries v = Some v' /\
             length v' = length v /\
             (forall k i, In (k, i) entries -> nth_error v' i = Some k) /\
             (forall i, ~ In i (map snd entries) -> nth_error v' i = nth_error v i).
Proof.
  revert v. induction entries as [|[k0 i0] rest IH]; intros v Hlt Hnd; simpl.
  - exists v. repeat split; auto. intros ? ? [].
  - inversion Hnd as [|? ? Hi0 Hrest]; subst.
    destruct (list_set_some k0 v (Hlt k0 i0 (or_introl eq_refl))) as [v1 Hv1].
    rewrite Hv1.
    pose proof (list_set_length _ _ _ Hv1) as Hlen1.
    destruct (IH v1) as (v' & Hfill & Hlen & Hin & Hout).
    { intros k i Hki. rewrite Hlen1. apply (Hlt k i). right. exact Hki. }
    { exact Hrest. }
    exists v'. repeat split.
    + exact Hfill.
    + congruence.
    + intros k i [Heq|Hki].
      * injection Heq as -> ->. rewrite Hout by exact Hi0.
        eapply list_set_same; eauto.
      * auto.
    + intros i Hni. simpl in Hni. rewrite Hout by tauto.
      eapply list_set_other; eauto.
Qed.

Lemma map_snd_combine_seq {X} (l : list X) i0 :
  map snd (combine l (seq i0 (length l))) = seq i0 (length l).
Proof.
  revert i0. induction l as [|x l IH]; intros i0; simpl; [reflexivity|].
  f_equal. apply IH.
Qed.

Lemma combine_seq_nth {X} (l : list X) i0 k i :
  In (k, i) (combine l (seq i0 (length l))) <-> (i0 <= i /\ nth_error l (i - i0) = Some k).
Proof.
  revert i0. induction l as [|x l IH]; intros i0; simpl.
  - split; [tauto|]. intros [_ Hn]. destruct (i - i0); discriminate.
  - rewrite IH. split.
    + intros [Heq|[Hle Hn]].
      * injection Heq as -> ->. rewrite Nat.sub_diag. split; [lia|reflexivity].
      * split; [lia|]. replace (i - i0) with (S (i - S i0)) by lia. exact Hn.
    + intros [Hle Hn]. destruct (i - i0) as [|d] eqn:Hd.
      * left. injection Hn as ->. f_equal. lia.
      * right. split; [lia|]. replace (i - S i0) with d by lia. exact Hn.
Qed.

(** Filling a vector from the joint index map of a duplicate-free name list
    gives the name list back. *)
Lemma jointNames_roundtrip joint_names :
  NoDup joint_names ->
  fill_joint_names (build_joint_index_map joint_names 0 StdMap.empty)
    (repeat "" (StdMap.size (build_joint_index_map joint_names 0 StdMap.empty)))
  = Some joint_names.
Proof.
  intro Hnd.
  pose proof (build_joint_index_map_perm 0 StdMap.empty Hnd (fun _ _ H => H)) as Hperm.
  simpl in Hperm.
  set (m := build_joint_index_map joint_names 0 StdMap.empty) in *.
  assert (Hsize : StdMap.size m = length joint_names).
  { unfold StdMap.size. rewrite (Permutation_length Hperm).
    rewrite length_combine, length_seq. lia. }
  rewrite Hsize.
  destruct (fill_joint_names_spec m (repeat "" (length joint_names)))
    as (v' & Hfill & Hlen & Hin & _).
  - intros k i Hki. rewrite repeat_length.
    apply (Permutation_in _ Hperm) in Hki. apply combine_seq_nth in Hki.
    destruct Hki as [_ Hn]. rewrite Nat.sub_0_r in Hn.
    apply nth_error_Some. congruence.
  - eapply Permutation_NoDup.
    + apply Permutation_map. symmetry. exact Hperm.
    + rewrite map_snd_combine_seq. apply seq_NoDup.
  - rewrite Hfill. f_equal. rewrite repeat_length in Hlen.
    apply nth_error_ext; [exact Hlen|].
    intros i Hi. rewrite Hlen in Hi.
    destruct (nth_error joint_names i) as [k|] eqn:Hk.
    + apply Hin. apply (Permutation_in _ (Permutation_sym Hperm)).
      apply combine_seq_nth. rewrite Nat.sub_0_r. split; [lia|exact Hk].
    + apply nth_error_None in Hk. lia.
Qed.

(** After [configure] has returned for a list of joint names without
    repetition, [jointNames] returns exactly that list, in the same order,
    and leaves the solver as it is. *)
Lemma jointNames_returns_configured_list config joint_names s0 b s :
  NoDup joint_names ->
  configure config joint_names s0 = Ret b s ->
  jointNames s = Ret joint_names s.
Proof.
  intros Hnd Hc. unfold jointNames.
  rewrite (configure_joint_index_map _ _ _ Hc).
  rewrite (jointNames_roundtrip Hnd). reflexivity.
Qed.

Lemma jointNames_returns_configured_list_witness :
  jointNames (configured_state [example_joint_config "a" 0] ["j2"; "j1"; "j3"])
  = Ret ["j2"; "j1"; "j3"]
        (configured_state [example_joint_config "a" 0] ["j2"; "j1"; "j3"]).
Proof.
  apply (@jointNames_returns_configured_list
           [example_joint_config "a" 0] ["j2"; "j1"; "j3"] (WbcVelocity_ctor 0) true).
  - repeat constructor; simpl; intuition discriminate.
  - vm_compute. reflexivity.
Defined.

(** ** Priority levels *)

Lemma scan_priorities_spec config m0 max_prio :
  scan_priorities config m0 = Some max_prio ->
  (m0 <= max_prio)%Z /\
  Forall (fun c => (0 <= ConstraintConfig.priority c <= max_prio)%Z) config.
Proof.
  revert m0. induction config as [|c rest IH]; intros m0 Hs; simpl in Hs.
  - injection Hs as <-. split; [lia|constructor].
  - destruct (ConstraintConfig.priority c <? 0)%Z eqn:Hneg; [discriminate|].
    apply Z.ltb_ge in Hneg. apply IH in Hs. destruct Hs as [Hle Hall].
    destruct (ConstraintConfig.priority c >? m0)%Z eqn:Hgt.
    + rewrite Z.gtb_ltb in Hgt. apply Z.ltb_lt in Hgt.
      split; [lia|]. constructor; [lia|exact Hall].
    + rewrite Z.gtb_ltb in Hgt. apply Z.ltb_ge in Hgt.
      split; [lia|]. constructor; [lia|exact Hall].
Qed.

Lemma list_modify_length {X} j (f : X -> X) l l' :
  list_modify j f l = Some l' -> length l' = length l.
Proof.
  revert j l'. induction l as [|x l IH]; intros [|j] l' Hm; simpl in Hm; try discriminate.
  - injection Hm as <-. reflexivity.
  - destruct (list_modify j f l) eqn:E; simpl in Hm; [|discriminate].
    injection Hm as <-. simpl. f_equal. eauto.
Qed.

Lemma list_modify_same {X} j (f : X -> X) l l' :
  list_modify j f l = Some l' ->
  exists x, nth_error l j = Some x /\ nth_error l' j = Some (f x).
Proof.
  revert j l'. induction l as [|x l IH]; intros [|j] l' Hm; simpl in Hm; try discriminate.
  - injection Hm as <-. exists x. split; reflexivity.
  - destruct (list_modify j f l) eqn:E; simpl in Hm; [|discriminate].
    injection Hm as <-. simpl. eauto.
Qed.

Lemma list_modify_other {X} j k (f : X -> X) l l' :
  list_modify j f l = Some l' -> j <> k -> nth_error l' k = nth_error l k.
Proof.
  revert j k l'. induction l as [|x l IH]; intros [|j] k l' Hm Hjk; simpl in Hm;
    try discriminate.
  - injection Hm as <-. destruct k; [congruence|reflexivity].
  - destruct (list_modify j f l) eqn:E; simpl in Hm; [|discriminate].
    injection Hm as <-. destruct k; simpl; [reflexivity|]. eapply IH; eauto.
Qed.

Lemma list_modify_some {X} j (f : X -> X) l :
  j < length l -> exists l', list_modify j f l = Some l'.
Proof.
  revert j. induction l as [|x l IH]; intros [|j] Hj; simpl in *; try lia.
  - eauto.
  - destruct (IH j) as [l' ->]; [lia|]. simpl. eauto.
Qed.

Lemma pointed_configs_app_heap h x level :
  Forall (fun p => p < length h) level ->
  pointed_configs (h ++ [x]) level = pointed_configs h level.
Proof.
  intro Hv. unfold pointed_configs. apply map_ext_in. intros p Hp.
  rewrite Forall_forall in Hv. rewrite nth_error_app1 by auto. reflexivity.
Qed.

Lemma level_of_cons c rest z :
  level_of (c :: rest) z =
  if (ConstraintConfig.priority c =? z)%Z then c :: level_of rest z else level_of rest z.
Proof. reflexivity. Qed.

(** The second loop of [configure] appends to each level the constraints of
    its priority, in configuration order. *)
Lemma insert_constraints_levels config joint_names s s1 :
  insert_constraints config joint_names s = Ret true s1 ->
  Forall (fun c => (0 <= ConstraintConfig.priority c)%Z) config ->
  Forall (Forall (fun p => p < length (heap s))) (constraint_vector_ s) ->
  length (constraint_vector_ s1) = length (constraint_vector_ s) /\
  forall z level, nth_error (constraint_vector_ s) z = Some level ->
    exists level1, nth_error (constraint_vector_ s1) z = Some level1 /\
      pointed_configs (heap s1) level1 =
      pointed_configs (heap s) level ++ map Some (level_of config (Z.of_nat z)).
Proof.
  revert s. induction config as [|c rest IH]; intros s Hi Hprio Hvalid; simpl in Hi.
  - injection Hi as <-. split; [reflexivity|].
    intros z level Hz. exists level. split; [exact Hz|]. simpl. rewrite app_nil_r. reflexivity.
  - destruct (list_modify _ _ _) as [cv|] eqn:Hcv; [|discriminate]. simpl in Hi.
    destruct (negb _); [discriminate|].
    inversion Hprio as [|? ? Hc Hrest]; subst.
    simpl in Hcv.
    pose proof (list_modify_length _ _ _ Hcv) as Hlen.
    destruct (list_modify_same _ _ _ Hcv) as (l0 & Hl0 & Hl0').
    assert (Hvalid' : Forall (Forall (fun p => p < length (heap s ++ [new_ExtendedConstraint c joint_names]))) cv).
    { apply Forall_forall. intros l Hl. apply In_nth_error in Hl. destruct Hl as [k Hk].
      rewrite length_app. simpl.
      destruct (Nat.eq_dec (Z.to_nat (ConstraintConfig.priority c)) k) as [<-|Hne].
      - rewrite Hl0' in Hk. injection Hk as <-. apply Forall_app. split.
        + apply nth_error_In in Hl0. rewrite Forall_forall in Hvalid.
          eapply Forall_impl; [|exact (Hvalid _ Hl0)]. simpl. intros; lia.
        + constructor; [lia|constructor].
      - rewrite (list_modify_other _ _ Hcv Hne) in Hk.
        apply nth_error_In in Hk. rewrite Forall_forall in Hvalid.
        eapply Forall_impl; [|exact (Hvalid _ Hk)]. simpl. intros; lia. }
    destruct (IH _ Hi Hrest Hvalid') as (Hlen1 & Hlev). simpl in Hlen1, Hlev.
    split; [congruence|].
    intros z level Hz. rewrite level_of_cons.
    assert (Hlevel : Forall (fun p => p < length (heap s)) level).
    { rewrite Forall_forall in Hvalid. apply Hvalid. eapply nth_error_In; eauto. }
    destruct (Nat.eq_dec (Z.to_nat (ConstraintConfig.priority c)) z) as [<-|Hne].
    + rewrite Hl0 in Hz. injection Hz as ->.
      destruct (Hlev _ _ Hl0') as (level1 & Hn1 & Hp1).
      exists level1. split; [exact Hn1|]. rewrite Hp1.
      rewrite Z2Nat.id by exact Hc. rewrite Z.eqb_refl.
      unfold pointed_configs at 1. rewrite map_app. fold (pointed_configs (heap s ++ [new_ExtendedConstraint c joint_names]) level).
      rewrite pointed_configs_app_heap by exact Hlevel.
      simpl. rewrite nth_error_app2 by lia. rewrite Nat.sub_diag. simpl.
      rewrite <- app_assoc. reflexivity.
    + rewrite <- (list_modify_other _ _ Hcv Hne) in Hz.
      destruct (Hlev _ _ Hz) as (level1 & Hn1 & Hp1).
      exists level1. split; [exact Hn1|]. rewrite Hp1.
      rewrite pointed_configs_app_heap by exact Hlevel.
      destruct (ConstraintConfig.priority c =? Z.of_nat z)%Z eqn:E; [|reflexivity].
      apply Z.eqb_eq in E. rewrite E, Nat2Z.id in Hne. congruence.
Qed.

Lemma uint_wrap_small k : (0 <= k < UINT_MOD)%Z -> uint_wrap k = k.
Proof. intro Hk. unfold uint_wrap. apply Z.mod_small. exact Hk. Qed.

(** [prio--] followed by the loop's [prio++] gives [prio] back, also at 0. *)
Lemma uint_wrap_dec_inc k :
  (0 <= k < UINT_MOD)%Z -> uint_wrap (uint_wrap (k - 1) + 1) = k.
Proof.
  intro Hk. destruct (Z.eq_dec k 0) as [->|Hne].
  - reflexivity.
  - rewrite (@uint_wrap_small (k - 1)%Z) by lia.
    replace (k - 1 + 1)%Z with k%Z by lia. apply uint_wrap_small. exact Hk.
Qed.

Lemma erase_at_middle {X} (pre : list X) x post :
  erase_at (length pre) (pre ++ x :: post) = pre ++ post.
Proof.
  unfold erase_at. induction pre as [|y pre IH]; simpl; [reflexivity|].
  f_equal. exact IH.
Qed.

(** The erase loop terminates and removes exactly the empty levels. *)
Lemma erase_empty_priorities_spec post :
  forall pre fuel,
    length post < fuel ->
    (Z.of_nat (length (pre ++ post)) < UINT_MOD)%Z ->
    erase_empty_priorities fuel (Z.of_nat (length pre)) (pre ++ post)
    = Some (pre ++ filter nonempty post).
Proof.
  induction post as [|level post IH]; intros pre fuel Hfuel Hsize.
  - destruct fuel as [|fuel]; [simpl in Hfuel; lia|]. simpl.
    rewrite app_nil_r. rewrite Z.ltb_irrefl. reflexivity.
  - destruct fuel as [|fuel]; [simpl in Hfuel; lia|]. simpl in Hfuel.
    simpl erase_empty_priorities.
    rewrite length_app in *. simpl length in *.
    replace (Z.of_nat (length pre) <? Z.of_nat (length pre + S (length post)))%Z with true
      by (symmetry; apply Z.ltb_lt; lia).
    rewrite Nat2Z.id. rewrite nth_error_app2 by lia. rewrite Nat.sub_diag. simpl nth_error.
    destruct level as [|p level]; simpl is_empty; cbv iota.
    + rewrite uint_wrap_dec_inc by lia. rewrite erase_at_middle.
      rewrite IH; [reflexivity|lia|rewrite length_app; lia].
    + rewrite uint_wrap_small by lia.
      replace (Z.of_nat (length pre) + 1)%Z with (Z.of_nat (length (pre ++ [p :: level])))
        by (rewrite length_app; simpl; lia).
      replace (pre ++ (p :: level) :: post) with ((pre ++ [p :: level]) ++ post)
        by (rewrite <- app_assoc; reflexivity).
      rewrite IH; [|lia|rewrite !length_app; simpl; lia].
      rewrite <- app_assoc. reflexivity.
Qed.

Lemma map_opt_length {X Y} (f : X -> option Y) l l' :
  map_opt f l = Some l' -> length l' = length l.
Proof.
  revert l'. induction l as [|x l IH]; intros l' Hm; simpl in Hm.
  - injection Hm as <-. reflexivity.
  - destruct (f x); [|discriminate]. destruct (map_opt f l); [|discriminate].
    injection Hm as <-. simpl. f_equal. auto.
Qed.

Lemma nonempty_pointed_configs h level :
  nonempty (pointed_configs h level) = nonempty level.
Proof. destruct level; reflexivity. Qed.

Lemma nonempty_map_Some {X} (l : list X) : nonempty (map Some l) = nonempty l.
Proof. destruct l; reflexivity. Qed.

(** The levels of a configured solver are the non-empty ones among the
    levels [0 .. max_prio], each holding the specifications of its priority
    in configuration order. *)
Lemma configure_levels config joint_names s0 s :
  configure config joint_names s0 = Ret true s ->
  exists max_prio,
    Forall (fun c => (0 <= ConstraintConfig.priority c <= max_prio)%Z) config /\
    (0 <= max_prio)%Z /\
    level_configs s =
      filter nonempty
        (map (fun z => map Some (level_of config (Z.of_nat z)))
             (seq 0 (Z.to_nat (max_prio + 1)))) /\
    n_prios_ s = length (constraint_vector_ s).
Proof.
  intro Hc. apply configure_true_inv in Hc.
  destruct Hc as (mp & s1 & cv & rows & s2 & Hscan & Hmp & Hi & He & Hrows & Ht & ->).
  apply scan_priorities_spec in Hscan. destruct Hscan as [Hmp0 Hprio].
  exists mp. split; [exact Hprio|]. split; [exact Hmp0|].
  set (n := Z.to_nat (mp + 1)) in *.
  assert (Hcv0 : @vector_resize (list nat) n [] [] = repeat [] n).
  { unfold vector_resize. rewrite firstn_nil. simpl. rewrite Nat.sub_0_r. reflexivity. }
  rewrite Hcv0 in Hi.
  destruct (@insert_constraints_levels _ _ _ _ Hi) as (Hlen1 & Hlev).
  { eapply Forall_impl; [|exact Hprio]. simpl. intros; lia. }
  { simpl. apply Forall_forall. intros l Hl. apply repeat_spec in Hl. subst. constructor. }
  simpl in Hlen1, Hlev. rewrite repeat_length in Hlen1.
  assert (Herase : cv = filter nonempty (constraint_vector_ s1)).
  { pose proof (@erase_empty_priorities_spec (constraint_vector_ s1) []
                  (S (length (constraint_vector_ s1)))) as Hspec.
    cbn [app length Z.of_nat] in Hspec. rewrite Hspec in He.
    - injection He as <-. reflexivity.
    - lia.
    - rewrite Hlen1. unfold n, UINT_MOD. unfold INT_MAX in Hmp. lia. }
  apply create_tf_map_frame in Ht. destruct Ht as (Hframe & Hheap & Hcv & _).
  unfold same_frame in Hframe. simpl in Hframe, Hheap, Hcv.
  destruct Hframe as (_ & _ & _ & Hnp & _).
  split.
  - unfold level_configs. simpl. rewrite Hheap, Hcv, Herase.
    rewrite <- (filter_ext (fun l => nonempty (pointed_configs (heap s1) l)) nonempty)
      by (intro l; apply nonempty_pointed_configs).
    rewrite <- filter_map_swap. f_equal.
    apply nth_error_ext.
    + rewrite !length_map, length_seq. exact Hlen1.
    + intros z Hz. rewrite length_map, Hlen1 in Hz.
      rewrite !nth_error_map, nth_error_seq.
      apply Nat.ltb_lt in Hz. rewrite Hz. apply Nat.ltb_lt in Hz. simpl.
      destruct (Hlev z [] (nth_error_repeat _ Hz)) as (level1 & Hn1 & Hp1).
      rewrite Hn1. simpl. rewrite Hp1. reflexivity.
  - simpl. rewrite Hnp, Hcv. apply map_opt_length in Hrows. exact Hrows.
Qed.

Lemma sorted_filter_seq (keep : nat -> bool) a n :
  StronglySorted Z.lt (map Z.of_nat (filter keep (seq a n))) /\
  Forall (fun z => (Z.of_nat a <= z)%Z) (map Z.of_nat (filter keep (seq a n))).
Proof.
  revert a. induction n as [|n IH]; intros a; simpl.
  - split; constructor.
  - destruct (IH (S a)) as [Hs Hf].
    assert (Hf' : Forall (fun z => (Z.of_nat a < z)%Z) (map Z.of_nat (filter keep (seq (S a) n)))).
    { eapply Forall_impl; [|exact Hf]. simpl. intros; lia. }
    destruct (keep a); simpl.
    + split; [constructor; assumption|].
      constructor; [lia|]. eapply Forall_impl; [|exact Hf']. simpl. intros; lia.
    + split; [exact Hs|]. eapply Forall_impl; [|exact Hf']. simpl. intros; lia.
Qed.

Lemma level_of_nonempty config z :
  nonempty (level_of config z) = true <->
  exists c, In c config /\ ConstraintConfig.priority c = z.
Proof.
  unfold level_of. split.
  - destruct (filter _ config) as [|c l] eqn:E; [discriminate|]. intros _.
    assert (Hin : In c (filter (fun c => (ConstraintConfig.priority c =? z)%Z) config))
      by (rewrite E; left; reflexivity).
    apply filter_In in Hin. destruct Hin as [Hin Hp]. apply Z.eqb_eq in Hp. eauto.
  - intros (c & Hin & Hp).
    assert (Hf : In c (filter (fun c => (ConstraintConfig.priority c =? z)%Z) config)).
    { apply filter_In. split; [exact Hin|]. apply Z.eqb_eq. exact Hp. }
    destruct (filter _ config); [destruct Hf|reflexivity].
Qed.

(** C6.  After a successful [configure] the priority levels are indexed as
    the positions of a list, with no empty level: there is a strictly
    ascending list of priorities, exactly those that occur in the
    configuration, such that level [k] holds the constraints whose
    specification has the [k]-th of these priorities, in configuration order.
    Specifications with priorities 0, 0 and 3 give exactly two levels. *)
Theorem priority_levels_contiguous :
  (forall config joint_names s0 s,
      configure config joint_names s0 = Ret true s ->
      exists prios : list Z,
        StronglySorted Z.lt prios /\
        (forall z, In z prios <-> exists c, In c config /\ ConstraintConfig.priority c = z) /\
        level_configs s = map (fun z => map Some (level_of config z)) prios /\
        n_prios_ s = length prios) /\
  (forall joint_names s0,
      exists s,
        configure [example_joint_config "a" 0; example_joint_config "b" 0;
                   example_joint_config "c" 3] joint_names s0 = Ret true s /\
        constraint_vector_ s = [[0; 1]; [2]] /\
        n_prios_ s = 2).
Proof.
  split.
  - intros config joint_names s0 s Hc.
    destruct (configure_levels _ _ _ Hc) as (mp & Hprio & Hmp & Hlev & Hn).
    set (keep := fun z => nonempty (level_of config (Z.of_nat z))).
    exists (map Z.of_nat (filter keep (seq 0 (Z.to_nat (mp + 1))))).
    assert (Hlev' : level_configs s =
                    map (fun z => map Some (level_of config z))
                        (map Z.of_nat (filter keep (seq 0 (Z.to_nat (mp + 1)))))).
    { rewrite Hlev, filter_map_swap, map_map. f_equal.
      apply filter_ext. intro z. apply nonempty_map_Some. }
    split; [apply sorted_filter_seq|]. split; [|split].
    + intro z. rewrite <- level_of_nonempty. rewrite in_map_iff. split.
      * intros (k & <- & Hk). apply filter_In in Hk. exact (proj2 Hk).
      * intro Hz. exists (Z.to_nat z).
        pose proof Hz as Hz'. apply level_of_nonempty in Hz'. destruct Hz' as (c & Hin & Hp).
        rewrite Forall_forall in Hprio. specialize (Hprio c Hin). rewrite Hp in Hprio.
        split; [apply Z2Nat.id; lia|].
        apply filter_In. split.
        -- apply in_seq. lia.
        -- unfold keep. rewrite Z2Nat.id by lia. exact Hz.
    + exact Hlev'.
    + rewrite Hn. unfold level_configs in Hlev'.
      apply (f_equal (@length _)) in Hlev'. rewrite !length_map in Hlev'.
      rewrite length_map. exact Hlev'.
  - intros joint_names s0. eexists. split; [vm_compute; reflexivity|].
    split; reflexivity.
Qed.

Lemma priority_levels_contiguous_witness :
  exists prios : list Z,
    StronglySorted Z.lt prios /\
    (forall z, In z prios <->
               exists c, In c [example_joint_config "a" 0; example_joint_config "b" 2] /\
                         ConstraintConfig.priority c = z) /\
    level_configs (configured_state [example_joint_config "a" 0; example_joint_config "b" 2]
                                    ["j1"])
    = map (fun z => map Some (level_of [example_joint_config "a" 0;
                                        example_joint_config "b" 2] z)) prios /\
    n_prios_ (configured_state [example_joint_config "a" 0; example_joint_config "b" 2] ["j1"])
    = length prios.
Proof.
  apply (proj1 priority_levels_contiguous
           [example_joint_config "a" 0; example_joint_config "b" 2] ["j1"]
           (WbcVelocity_ctor 0)).
  vm_compute. reflexivity.
Defined.

(** ** Segments *)

Lemma segment_app_l {X} (l1 l2 : list X) r0 n0 :
  r0 + n0 <= length l1 -> segment (l1 ++ l2) r0 n0 = segment l1 r0 n0.
Proof.
  unfold segment. revert l1. induction r0 as [|r0 IH]; intros l1 Hle; simpl.
  - rewrite firstn_app. replace (n0 - length l1) with 0 by lia.
    simpl. rewrite app_nil_r. reflexivity.
  - destruct l1 as [|x l1]; simpl in *.
    + assert (n0 = 0) by lia. subst. reflexivity.
    + apply IH. lia.
Qed.

Lemma segment_firstn {X} (v : list X) r r0 n0 :
  r0 + n0 <= r -> r <= length v -> segment (firstn r v) r0 n0 = segment v r0 n0.
Proof.
  intros Hle Hr. rewrite <- (firstn_skipn r v) at 2.
  rewrite segment_app_l; [reflexivity|]. rewrite length_firstn. lia.
Qed.

Lemma splice_spec {X} (v : list X) r n mid :
  length mid = n -> r + n <= length v ->
  length (splice v r n mid) = length v /\
  segment (splice v r n mid) r n = mid /\
  (forall r0 n0, r0 + n0 <= r -> segment (splice v r n mid) r0 n0 = segment v r0 n0).
Proof.
  intros Hmid Hle. unfold splice. repeat split.
  - rewrite !length_app, length_firstn, length_skipn. lia.
  - unfold segment. rewrite skipn_app, length_firstn.
    replace (Nat.min r (length v)) with r by lia.
    rewrite Nat.sub_diag. rewrite skipn_all2 by (rewrite length_firstn; lia).
    simpl. rewrite firstn_app. rewrite Hmid, Nat.sub_diag. simpl.
    rewrite app_nil_r. apply firstn_all2. lia.
  - intros r0 n0 Hr0. rewrite segment_app_l by (rewrite length_firstn; lia).
    apply segment_firstn; lia.
Qed.

Lemma segment_write_splice v r n src v' :
  segment_write v r n src = Some v' ->
  v' = splice v r n src /\ length src = n /\ r + n <= length v.
Proof.
  unfold segment_write. destruct (r + n <=? length v) eqn:Hle; simpl; [|discriminate].
  destruct (length src =? n) eqn:Hn; [|discriminate].
  intros [= <-]. apply Nat.leb_le in Hle. apply Nat.eqb_eq in Hn. auto.
Qed.

Lemma In_firstn {X} (x : X) n l : In x (firstn n l) -> In x l.
Proof.
  intro Hin. rewrite <- (firstn_skipn n l). apply in_or_app. left. exact Hin.
Qed.

Lemma In_skipn {X} (x : X) n l : In x (skipn n l) -> In x l.
Proof.
  intro Hin. rewrite <- (firstn_skipn n l). apply in_or_app. right. exact Hin.
Qed.

Lemma combine_rows_full (src old : matrix) n_cols :
  length src = length old ->
  Forall (fun r => length r = n_cols) old ->
  map (fun so => fst so ++ skipn n_cols (snd so)) (combine src old) = src.
Proof.
  revert old. induction src as [|x src IH]; intros [|y old] Hlen Hall; simpl in *;
    try discriminate; [reflexivity|].
  inversion Hall as [|? ? Hy Hold]; subst.
  rewrite skipn_all, app_nil_r. f_equal. apply IH; [lia|exact Hold].
Qed.

Lemma block_write_splice m r n n_cols src m' :
  block_write m r n n_cols src = Some m' ->
  Forall (fun row => length row = n_cols) m ->
  m' = splice m r n src /\ length src = n /\ r + n <= length m /\
  Forall (fun row => length row = n_cols) src.
Proof.
  unfold block_write.
  destruct (r + n <=? length m) eqn:Hle; simpl; [|discriminate].
  destruct (length src =? n) eqn:Hn; simpl; [|discriminate].
  destruct (forallb (fun r0 => length r0 =? n_cols) src) eqn:Hsrc; simpl; [|discriminate].
  destruct (forallb _ m); [|discriminate].
  intros [= <-] Hall. apply Nat.leb_le in Hle. apply Nat.eqb_eq in Hn.
  assert (Hsrc' : Forall (fun row => length row = n_cols) src).
  { apply Forall_forall. intros row Hrow. rewrite forallb_forall in Hsrc.
    apply Nat.eqb_eq. auto. }
  repeat split; auto.
  unfold splice. f_equal. f_equal.
  apply combine_rows_full.
  - rewrite length_firstn, length_skipn. lia.
  - apply Forall_forall. intros row Hrow.
    rewrite Forall_forall in Hall. apply Hall.
    eapply In_skipn. eapply In_firstn. exact Hrow.
Qed.

(** ** One pass of the loop body *)

Lemma bind_Ret {S X Y} (m : M S X) (f : X -> M S Y) s y s' :
  bind m f s = Ret y s' -> exists x s1, m s = Ret x s1 /\ f x s1 = Ret y s'.
Proof.
  unfold bind. destruct (m s) as [x s1| |]; [eauto|discriminate|discriminate].
Qed.

Lemma lift_opt_Ret {S X} (o : option X) (s : S) x s' :
  lift_opt o s = Ret x s' -> o = Some x /\ s' = s.
Proof.
  destruct o; simpl; unfold ret, undef; [|discriminate]. intros [= <- <-]. auto.
Qed.

(** Inversion of a computation that returned, one [bind] at a time:
    [inv_bind] names the intermediate result and state, [inv_lift] handles a
    lifted option, [inv_get] a read of the state. *)
Ltac inv_bind H x sx Hx :=
  apply bind_Ret in H; destruct H as (x & sx & Hx & H).

Ltac inv_lift H x Hx :=
  let sx := fresh "sx" in
  let H1 := fresh "H1" in
  inv_bind H x sx H1; apply lift_opt_Ret in H1; destruct H1 as [Hx ->].

Ltac inv_get H :=
  let x := fresh "x" in
  let sx := fresh "sx" in
  let H1 := fresh "H1" in
  inv_bind H x sx H1; unfold get in H1; injection H1 as <- <-.

Lemma solver_frame_refl s : solver_frame s s.
Proof. unfold solver_frame. tauto. Qed.

Lemma solver_frame_trans s1 s2 s3 :
  solver_frame s1 s2 -> solver_frame s2 s3 -> solver_frame s1 s3.
Proof.
  unfold solver_frame. intros H12 H23.
  repeat match goal with H : _ /\ _ |- _ => destruct H end.
  repeat split; congruence.
Qed.

Lemma config_check_timeout now c : config (check_timeout now c) = config c.
Proof.
  unfold check_timeout. repeat match goal with |- context [if ?b then _ else _] => destruct b end;
    reflexivity.
Qed.

Lemma jac_map_index_Ret tf_name st jac st' :
  jac_map_index tf_name st = Ret jac st' ->
  solver_frame (fst st) (fst st') /\ heap (fst st') = heap (fst st) /\ snd st' = snd st.
Proof.
  unfold jac_map_index. destruct (StdMap.index _ _ _) as [j m].
  intros [= _ <-]. simpl. split; [|auto]. unfold solver_frame. simpl. tauto.
Qed.

Lemma store_Ret p c st u st' :
  store p c st = Ret u st' ->
  list_set p c (heap (fst st)) = Some (heap (fst st')) /\
  solver_frame (fst st) (fst st') /\ snd st' = snd st.
Proof.
  unfold store. destruct (list_set p c (heap (fst st))) as [h|]; [|discriminate].
  intros [= _ <-]. simpl. split; [reflexivity|]. split; [|reflexivity].
  unfold solver_frame. simpl. tauto.
Qed.

Lemma insert_into_equations_Ret prio r n c st u st' :
  insert_into_equations prio r n c st = Ret u st' ->
  fst st' = fst st /\
  exists e w a y,
    nth_error (snd st) prio = Some e /\
    segment_write (LinearEquationSystem.W_row e) r n (effective_weights c) = Some w /\
    block_write (LinearEquationSystem.A e) r n (no_robot_joints_ (fst st)) (A c) = Some a /\
    segment_write (LinearEquationSystem.y_ref e) r n (y_ref_root c) = Some y /\
    list_set prio (LinearEquationSystem.mk a y w) (snd st) = Some (snd st').
Proof.
  unfold insert_into_equations. destruct st as [s equations]. simpl.
  destruct (nth_error equations prio) as [e|] eqn:He; [|discriminate].
  destruct (segment_write (LinearEquationSystem.W_row e) _ _ _) as [w|] eqn:Hw; [|discriminate].
  destruct (block_write _ _ _ _ _) as [a|] eqn:Ha; [|discriminate].
  destruct (segment_write (LinearEquationSystem.y_ref e) _ _ _) as [y|] eqn:Hy; [|discriminate].
  destruct (list_set prio _ equations) as [eq'|] eqn:Hset; [|discriminate].
  intros [= _ <-]. simpl. split; [reflexivity|].
  exists e, w, a, y. repeat split; assumption.
Qed.

Lemma eval_constraint_Ret svd task_frames now prio p r st r' st' :
  eval_constraint svd task_frames now prio p r st = Ret r' st' ->
  exists c c' e w a y,
    nth_error (heap (fst st)) p = Some c /\
    evaluated svd task_frames now (joint_index_map_ (fst st)) c c' /\
    list_set p c' (heap (fst st)) = Some (heap (fst st')) /\
    solver_frame (fst st) (fst st') /\
    r' = r + no_variables c /\
    nth_error (snd st) prio = Some e /\
    segment_write (LinearEquationSystem.W_row e) r (no_variables c) (effective_weights c') = Some w /\
    block_write (LinearEquationSystem.A e) r (no_variables c) (no_robot_joints_ (fst st)) (A c')
    = Some a /\
    segment_write (LinearEquationSystem.y_ref e) r (no_variables c) (y_ref_root c') = Some y /\
    list_set prio (LinearEquationSystem.mk a y w) (snd st) = Some (snd st').
Proof.
  unfold eval_constraint. intro He.
  apply bind_Ret in He. destruct He as (c & st1 & Hderef & He).
  unfold deref in Hderef. destruct (nth_error (heap (fst st)) p) as [c0|] eqn:Hc; [|discriminate].
  injection Hderef as <- <-.
  apply bind_Ret in He. destruct He as (c1 & st2 & Hbranch & He).
  apply bind_Ret in He. destruct He as (u1 & st3 & Hstore & He).
  apply bind_Ret in He. destruct He as (u2 & st4 & Hins & He).
  unfold ret in He. injection He as <- <-.
  rewrite config_check_timeout in Hbranch.
  assert (Hmid : solver_frame (fst st) (fst st2) /\ heap (fst st2) = heap (fst st) /\
                 snd st2 = snd st /\
                 evaluated svd task_frames now (joint_index_map_ (fst st)) c0
                           (deactivate (set_time (now at_time_stamp) c1))).
  { unfold evaluated.
    destruct (ConstraintConfig.type (config c0)) eqn:Hty.
    - inv_lift Hbranch tf_root Hroot.
      inv_lift Hbranch tf_tip Htip.
      inv_lift Hbranch tf_ref Href.
      inv_lift Hbranch ci Hinv.
      inv_bind Hbranch jac_root sb Hj1.
      inv_bind Hbranch jac_tip sc Hj2.
      apply lift_opt_Ret in Hbranch. destruct Hbranch as [Htask ->].
      apply jac_map_index_Ret in Hj1. destruct Hj1 as (Hf1 & Hh1 & He1).
      apply jac_map_index_Ret in Hj2. destruct Hj2 as (Hf2 & Hh2 & He2).
      split; [eapply solver_frame_trans; eauto|].
      split; [congruence|]. split; [congruence|].
      exists c1. split; [reflexivity|].
      exists tf_root, tf_tip, tf_ref, ci, jac_root, jac_tip. auto.
    - inv_get Hbranch.
      destruct (jnt_update _ _) as [u cj|e cj|] eqn:Hj.
      + unfold ret in Hbranch. injection Hbranch as <- <-.
        split; [apply solver_frame_refl|]. split; [reflexivity|]. split; [reflexivity|].
        exists cj. split; [reflexivity|]. destruct u. reflexivity.
      + apply bind_Ret in Hbranch. destruct Hbranch as (? & ? & _ & Hthrow). discriminate.
      + discriminate. }
  destruct Hmid as (Hf2 & Hh2 & He2 & Hev).
  apply store_Ret in Hstore. destruct Hstore as (Hset & Hf3 & He3).
  apply insert_into_equations_Ret in Hins.
  destruct Hins as (Hs4 & e & w & a & y & Hne & Hw & Ha & Hy & Hl).
  exists c0, (deactivate (set_time (now at_time_stamp) c1)), e, w, a, y.
  rewrite Hh2 in Hset. rewrite Hs4.
  assert (Hnr : no_robot_joints_ (fst st3) = no_robot_joints_ (fst st)).
  { pose proof (solver_frame_trans Hf2 Hf3) as Hf. unfold solver_frame in Hf. tauto. }
  rewrite He3, He2 in Hne, Hl. rewrite Hnr in Ha.
  split; [reflexivity|]. split; [exact Hev|]. split; [exact Hset|].
  split; [eapply solver_frame_trans; eauto|].
  split; [reflexivity|]. auto.
Qed.

(** ** The loop over one priority level *)

Lemma rows_before_ext h h' ptrs :
  (forall q, In q ptrs -> nth_error h' q = nth_error h q) ->
  rows_before h' ptrs = rows_before h ptrs.
Proof.
  induction ptrs as [|q ptrs IH]; intro Hext; simpl; [reflexivity|].
  rewrite Hext by (left; reflexivity). rewrite IH; [reflexivity|].
  intros q' Hq'. apply Hext. right. exact Hq'.
Qed.

Lemma Forall_splice {X} (P : X -> Prop) v r n mid :
  Forall P v -> Forall P mid -> Forall P (splice v r n mid).
Proof.
  intros Hv Hmid. unfold splice. apply Forall_app. split.
  - apply Forall_forall. intros x Hx. rewrite Forall_forall in Hv. eauto using In_firstn.
  - apply Forall_app. split; [exact Hmid|].
    apply Forall_forall. intros x Hx. rewrite Forall_forall in Hv. eauto using In_skipn.
Qed.

Lemma eval_level_Ret svd task_frames now prio ptrs :
  forall i r st st',
    eval_level svd task_frames now prio ptrs i r st = Ret tt st' ->
    NoDup ptrs ->
    forall e, nth_error (snd st) prio = Some e ->
    Forall (fun row => length row = no_robot_joints_ (fst st)) (LinearEquationSystem.A e) ->
    solver_frame (fst st) (fst st') /\
    length (heap (fst st')) = length (heap (fst st)) /\
    (forall q, ~ In q ptrs -> nth_error (heap (fst st')) q = nth_error (heap (fst st)) q) /\
    length (snd st') = length (snd st) /\
    (forall prio', prio' <> prio -> nth_error (snd st') prio' = nth_error (snd st) prio') /\
    exists e',
      nth_error (snd st') prio = Some e' /\
      Forall (fun row => length row = no_robot_joints_ (fst st)) (LinearEquationSystem.A e') /\
      agree_before r e e' /\
      forall k p, nth_error ptrs k = Some p ->
        assembled svd task_frames (now prio (i + k)) (joint_index_map_ (fst st))
                  (heap (fst st)) (heap (fst st')) e' p
                  (r + rows_before (heap (fst st)) (firstn k ptrs)).
Proof.
  induction ptrs as [|p rest IH]; intros i r st st' Hl Hnd e He Hcols.
  - simpl in Hl. unfold ret in Hl. injection Hl as <-.
    split; [apply solver_frame_refl|]. split; [reflexivity|].
    split; [intros; reflexivity|]. split; [reflexivity|].
    split; [intros; reflexivity|].
    exists e. split; [exact He|]. split; [exact Hcols|]. split.
    + intros r0 n0 _. auto.
    + intros k p Hk. destruct k; discriminate.
  - simpl in Hl. apply bind_Ret in Hl. destruct Hl as (r1 & st1 & Hc & Hl).
    apply eval_constraint_Ret in Hc.
    destruct Hc as (c & c' & e0 & w & a & y & Hp & Hev & Hheap & Hf1 & -> & He0 & Hw & Ha & Hy & Heq).
    rewrite He in He0. injection He0 as <-.
    inversion Hnd as [|? ? Hnotin Hnd']; subst.
    apply segment_write_splice in Hw. destruct Hw as (-> & Hwl & Hwr).
    apply segment_write_splice in Hy. destruct Hy as (-> & Hyl & Hyr).
    apply block_write_splice in Ha; [|exact Hcols]. destruct Ha as (-> & Hal & Har & Hac).
    set (e1 := LinearEquationSystem.mk
                 (splice (LinearEquationSystem.A e) r (no_variables c) (A c'))
                 (splice (LinearEquationSystem.y_ref e) r (no_variables c) (y_ref_root c'))
                 (splice (LinearEquationSystem.W_row e) r (no_variables c) (effective_weights c')))
      in *.
    assert (Hnr : no_robot_joints_ (fst st1) = no_robot_joints_ (fst st))
      by (unfold solver_frame in Hf1; tauto).
    assert (Hjim : joint_index_map_ (fst st1) = joint_index_map_ (fst st))
      by (unfold solver_frame in Hf1; tauto).
    destruct (IH (S i) (r + no_variables c) st1 st' Hl Hnd' e1) as
      (Hf2 & Hlen2 & Hout2 & Hel2 & Hep2 & e' & He' & Hcols' & Hag & Hall).
    { eapply list_set_same; eauto. }
    { rewrite Hnr. simpl. apply Forall_splice; assumption. }
    destruct (@splice_spec _ (LinearEquationSystem.W_row e) r _ _ Hwl Hwr) as (_ & Hw1 & Hw2).
    destruct (@splice_spec _ (LinearEquationSystem.y_ref e) r _ _ Hyl Hyr) as (_ & Hy1 & Hy2).
    destruct (@splice_spec _ (LinearEquationSystem.A e) r _ _ Hal Har) as (_ & Ha1 & Ha2).
    split; [eapply solver_frame_trans; eauto|].
    split; [rewrite Hlen2; eapply list_set_length; eauto|].
    split.
    { intros q Hq. simpl in Hq. rewrite Hout2 by tauto.
      eapply list_set_other; eauto. }
    split; [rewrite Hel2; eapply list_set_length; eauto|].
    split.
    { intros prio' Hne. rewrite Hep2 by exact Hne. eapply list_set_other; eauto. }
    exists e'. split; [exact He'|]. split; [rewrite <- Hnr; exact Hcols'|]. split.
    { intros r0 n0 Hr0. destruct (Hag r0 n0) as (H1 & H2 & H3); [lia|].
      rewrite H1, H2, H3. simpl. auto. }
    intros k q Hk. destruct k as [|k]; simpl in Hk.
    + injection Hk as <-. exists c, c'.
      destruct (Hag r (no_variables c)) as (H1 & H2 & H3); [lia|].
      split; [exact Hp|]. split.
      { rewrite Hout2 by exact Hnotin. eapply list_set_same; eauto. }
      rewrite Nat.add_0_r. split; [exact Hev|].
      simpl. rewrite Nat.add_0_r. rewrite H1, H2, H3. simpl. repeat split; assumption.
    + destruct (Hall k q Hk) as (c1 & c1' & Hq1 & Hq1' & Hev1 & Hs1 & Hs2 & Hs3).
      assert (Hqp : p <> q).
      { intro Hpq. subst q. apply Hnotin. eapply nth_error_In; eauto. }
      exists c1, c1'.
      split; [rewrite <- Hq1; symmetry; eapply list_set_other; eauto|].
      split; [exact Hq1'|].
      replace (i + S k) with (S i + k) by lia.
      split; [rewrite <- Hjim; exact Hev1|].
      assert (Hoff : r + rows_before (heap (fst st)) (firstn (S k) (p :: rest))
                     = r + no_variables c + rows_before (heap (fst st1)) (firstn k rest)).
      { simpl. rewrite Hp.
        rewrite (@rows_before_ext (heap (fst st)) (heap (fst st1))); [lia|].
        intros q' Hq'. apply In_firstn in Hq'.
        eapply list_set_other; eauto. intro Hpq'. subst q'. contradiction. }
      rewrite Hoff. exact (conj Hs1 (conj Hs2 Hs3)).
Qed.

(** ** The loop over all priorities *)

Lemma NoDup_app_disjoint {X} (l1 l2 : list X) a :
  NoDup (l1 ++ l2) -> In a l1 -> ~ In a l2.
Proof.
  induction l1 as [|x l1 IH]; simpl; intros Hnd Hin Hin2; [contradiction|].
  inversion Hnd as [|? ? Hx Hnd']; subst.
  destruct Hin as [->|Hin].
  - apply Hx. apply in_or_app. right. exact Hin2.
  - exact (IH Hnd' Hin Hin2).
Qed.

Lemma NoDup_concat_level {X} (l : list (list X)) i a :
  NoDup (concat l) -> nth_error l i = Some a -> NoDup a.
Proof.
  revert i. induction l as [|x l IH]; intros [|i] Hnd Hi; simpl in *; try discriminate.
  - injection Hi as ->. eapply NoDup_app_remove_r; eauto.
  - eapply IH; eauto. eapply NoDup_app_remove_l; eauto.
Qed.

Lemma NoDup_concat_disjoint {X} (l : list (list X)) i j a b x :
  NoDup (concat l) -> nth_error l i = Some a -> nth_error l j = Some b -> i <> j ->
  In x a -> ~ In x b.
Proof.
  revert i j. induction l as [|y l IH]; intros [|i] [|j] Hnd Hi Hj Hij Ha Hb;
    simpl in *; try discriminate; try congruence.
  - injection Hi as ->. apply (@NoDup_app_disjoint _ _ _ _ Hnd Ha).
    apply in_concat. exists b. split; [eapply nth_error_In; eauto|exact Hb].
  - injection Hj as ->. apply (@NoDup_app_disjoint _ _ _ _ Hnd Hb).
    apply in_concat. exists a. split; [eapply nth_error_In; eauto|exact Ha].
  - apply NoDup_app_remove_l in Hnd. eapply (IH i j); eauto.
Qed.

Lemma eval_priority_Ret svd task_frames now prio st st' ptrs :
  eval_priority svd task_frames now prio st = Ret tt st' ->
  nth_error (constraint_vector_ (fst st)) prio = Some ptrs ->
  NoDup ptrs ->
  solver_frame (fst st) (fst st') /\
  length (heap (fst st')) = length (heap (fst st)) /\
  (forall q, ~ In q ptrs -> nth_error (heap (fst st')) q = nth_error (heap (fst st)) q) /\
  length (snd st') = length (snd st) /\
  (forall prio', prio' <> prio -> nth_error (snd st') prio' = nth_error (snd st) prio') /\
  exists e',
    nth_error (snd st') prio = Some e' /\
    forall k p, nth_error ptrs k = Some p ->
      assembled svd task_frames (now prio k) (joint_index_map_ (fst st))
                (heap (fst st)) (heap (fst st')) e' p
                (rows_before (heap (fst st)) (firstn k ptrs)).
Proof.
  unfold eval_priority. intros He Hptrs Hnd.
  inv_get He.
  inv_lift He n_vars_prio Hn.
  inv_lift He e He0.
  inv_lift He equations Hset.
  inv_bind He u sa Hput. unfold put in Hput. injection Hput as _ <-.
  inv_lift He ptrs' Hptrs'. simpl fst in Hptrs'.
  rewrite Hptrs in Hptrs'. injection Hptrs' as <-.
  eapply eval_level_Ret in He; [|exact Hnd|simpl; eapply list_set_same; eauto|].
  2:{ simpl. unfold zero_matrix. apply Forall_forall. intros row Hrow.
      apply repeat_spec in Hrow. subst. apply repeat_length. }
  simpl in He.
  destruct He as (Hf & Hlen & Hout & Hel & Hep & e' & He' & _ & _ & Hall).
  split; [exact Hf|]. split; [exact Hlen|]. split; [exact Hout|].
  split; [rewrite Hel; eapply list_set_length; eauto|].
  split.
  { intros prio' Hne. rewrite Hep by exact Hne. eapply list_set_other; eauto. }
  exists e'. split; [exact He'|]. exact Hall.
Qed.

Lemma eval_priorities_Ret svd task_frames now prios :
  forall st st',
    for_each prios (eval_priority svd task_frames now) st = Ret tt st' ->
    NoDup prios ->
    NoDup (concat (constraint_vector_ (fst st))) ->
    solver_frame (fst st) (fst st') /\
    length (heap (fst st')) = length (heap (fst st)) /\
    length (snd st') = length (snd st) /\
    (forall q, (forall prio ptrs, In prio prios ->
                  nth_error (constraint_vector_ (fst st)) prio = Some ptrs -> ~ In q ptrs) ->
               nth_error (heap (fst st')) q = nth_error (heap (fst st)) q) /\
    (forall prio, ~ In prio prios -> nth_error (snd st') prio = nth_error (snd st) prio) /\
    forall prio ptrs, In prio prios ->
      nth_error (constraint_vector_ (fst st)) prio = Some ptrs ->
      exists e',
        nth_error (snd st') prio = Some e' /\
        forall k p, nth_error ptrs k = Some p ->
          assembled svd task_frames (now prio k) (joint_index_map_ (fst st))
                    (heap (fst st)) (heap (fst st')) e' p
                    (rows_before (heap (fst st)) (firstn k ptrs)).
Proof.
  induction prios as [|prio0 rest IH]; intros st st' Hl Hnd Hcv.
  - simpl in Hl. unfold ret in Hl. injection Hl as <-.
    split; [apply solver_frame_refl|]. split; [reflexivity|]. split; [reflexivity|].
    split; [intros; reflexivity|]. split; [intros; reflexivity|].
    intros prio ptrs [].
  - simpl in Hl. apply bind_Ret in Hl. destruct Hl as ([] & st1 & Hp & Hl).
    inversion Hnd as [|? ? Hnotin Hnd']; subst.
    assert (Hptrs0 : exists ptrs0, nth_error (constraint_vector_ (fst st)) prio0 = Some ptrs0).
    { unfold eval_priority in Hp.
      repeat (apply bind_Ret in Hp; destruct Hp as (? & ? & ? & Hp)).
      repeat match goal with
             | H : lift_opt _ _ = Ret _ _ |- _ => apply lift_opt_Ret in H; destruct H
             | H : get _ = Ret _ _ |- _ => unfold get in H; injection H as <- <-
             | H : put _ _ = Ret _ _ |- _ => unfold put in H; injection H as _ <-
             end.
      subst. simpl in *. eauto. }
    destruct Hptrs0 as (ptrs0 & Hptrs0).
    pose proof (@NoDup_concat_level _ _ _ _ Hcv Hptrs0) as Hnd0.
    destruct (@eval_priority_Ret _ _ _ _ _ _ _ Hp Hptrs0 Hnd0)
      as (Hf1 & Hlen1 & Hout1 & Hel1 & Hep1 & e1 & He1 & Hall1).
    assert (Hcv1 : constraint_vector_ (fst st1) = constraint_vector_ (fst st))
      by (unfold solver_frame in Hf1; tauto).
    assert (Hjim1 : joint_index_map_ (fst st1) = joint_index_map_ (fst st))
      by (unfold solver_frame in Hf1; tauto).
    destruct (IH st1 st' Hl Hnd') as (Hf2 & Hlen2 & Hel2 & Hout2 & Hep2 & Hall2).
    { rewrite Hcv1. exact Hcv. }
    rewrite Hcv1 in Hout2, Hall2. rewrite Hjim1 in Hall2.
    split; [eapply solver_frame_trans; eauto|].
    split; [congruence|]. split; [congruence|].
    split.
    { intros q Hq. rewrite Hout2.
      - apply Hout1. apply (Hq prio0 ptrs0); [left; reflexivity|exact Hptrs0].
      - intros prio ptrs Hin Hn. apply (Hq prio ptrs); [right; exact Hin|exact Hn]. }
    split.
    { intros prio Hprio. simpl in Hprio. rewrite Hep2 by tauto. apply Hep1.
      intro Heq. apply Hprio. left. symmetry. exact Heq. }
    intros prio ptrs [<-|Hin] Hptrs.
    + rewrite Hptrs0 in Hptrs. injection Hptrs as <-.
      exists e1. split; [rewrite Hep2 by exact Hnotin; exact He1|].
      intros k p Hk. destruct (Hall1 k p Hk) as (c & c' & Hc & Hc' & Hrest).
      exists c, c'. split; [exact Hc|]. split; [|exact Hrest].
      rewrite Hout2; [exact Hc'|].
      intros prio ptrs Hin Hn.
      eapply (@NoDup_concat_disjoint _ _ _ _ _ _ _ Hcv Hptrs0 Hn).
      * intro Heq. subst. contradiction.
      * eapply nth_error_In; eauto.
    + destruct (Hall2 prio ptrs Hin Hptrs) as (e' & He' & Hall).
      exists e'. split; [exact He'|].
      assert (Hne : prio <> prio0) by (intro Heq; subst; contradiction).
      assert (Hsame : forall q, In q ptrs ->
                                nth_error (heap (fst st1)) q = nth_error (heap (fst st)) q).
      { intros q Hq. apply Hout1.
        eapply (@NoDup_concat_disjoint _ _ _ _ _ _ _ Hcv Hptrs Hptrs0 Hne). exact Hq. }
      intros k p Hk. destruct (Hall k p Hk) as (c & c' & Hc & Hc' & Hev & Hsegs).
      exists c, c'.
      split; [rewrite <- Hsame by (eapply nth_error_In; eauto); exact Hc|].
      split; [exact Hc'|]. split; [exact Hev|].
      rewrite <- (@rows_before_ext (heap (fst st)) (heap (fst st1))); [exact Hsegs|].
      intros q Hq. apply Hsame. eapply In_firstn; eauto.
Qed.

(** ** The whole assembly *)

Lemma for_each_inv {S B} (P : S -> S -> Prop) (body : B -> M S unit) (l : list B) :
  (forall s, P s s) ->
  (forall s1 s2 s3, P s1 s2 -> P s2 s3 -> P s1 s3) ->
  (forall b s u s', body b s = Ret u s' -> P s s') ->
  forall s u s', for_each l body s = Ret u s' -> P s s'.
Proof.
  intros Hrefl Htrans Hbody. induction l as [|b l IH]; intros s u s' Hl; simpl in Hl.
  - unfold ret in Hl. injection Hl as _ <-. apply Hrefl.
  - apply bind_Ret in Hl. destruct Hl as (u1 & s1 & Hb & Hl).
    eapply Htrans; [eapply Hbody; eauto|eapply IH; eauto].
Qed.

Lemma jac_only_refl st : jac_only st st.
Proof. unfold jac_only. split; [apply solver_frame_refl|auto]. Qed.

Lemma jac_only_trans st1 st2 st3 : jac_only st1 st2 -> jac_only st2 st3 -> jac_only st1 st3.
Proof.
  unfold jac_only. intros (Hf1 & Hh1 & He1) (Hf2 & Hh2 & He2).
  split; [eapply solver_frame_trans; eauto|]. split; congruence.
Qed.

Lemma splice_task_frame_Ret entry st u st' :
  splice_task_frame entry st = Ret u st' -> jac_only st st'.
Proof.
  destruct entry as [tf_name tf]. unfold splice_task_frame.
  apply for_each_inv; [apply jac_only_refl|apply jac_only_trans|].
  intros [j jt_name] s u' s' Hb.
  inv_get Hb.
  destruct (StdMap.count jt_name (joint_index_map_ (fst s)) =? 0); [discriminate|].
  inv_lift Hb idx Hidx.
  inv_bind Hb jac sb Hj.
  inv_lift Hb col Hcol.
  inv_lift Hb jac' Hjac'.
  unfold modify in Hb. injection Hb as _ <-.
  apply jac_map_index_Ret in Hj. destruct Hj as (Hf & Hh & He).
  unfold jac_only. simpl. split; [|auto].
  unfold solver_frame in *. simpl. exact Hf.
Qed.

(** The characterisation of a completed assembly: every constraint of every
    level has been evaluated once, and its three results occupy the rows of
    its level's system that start at the sum of the output dimensionalities
    of the constraints listed before it. *)
Lemma prepareEqSystem_Ret svd task_frames now s equations s' equations' :
  prepareEqSystem svd task_frames now (s, equations) = Ret tt (s', equations') ->
  NoDup (concat (constraint_vector_ s)) ->
  solver_frame s s' /\
  length (heap s') = length (heap s) /\
  length equations' = n_prios_ s /\
  (forall q, (forall prio ptrs, prio < n_prios_ s ->
                nth_error (constraint_vector_ s) prio = Some ptrs -> ~ In q ptrs) ->
             nth_error (heap s') q = nth_error (heap s) q) /\
  forall prio ptrs, prio < n_prios_ s ->
    nth_error (constraint_vector_ s) prio = Some ptrs ->
    exists e',
      nth_error equations' prio = Some e' /\
      forall k p, nth_error ptrs k = Some p ->
        assembled svd task_frames (now prio k) (joint_index_map_ s)
                  (heap s) (heap s') e' p (rows_before (heap s) (firstn k ptrs)).
Proof.
  unfold prepareEqSystem. intros Hp Hnd.
  apply bind_Ret in Hp. destruct Hp as (sg & sa & Hget & Hp).
  unfold get in Hget. injection Hget as <- <-. cbn [fst snd] in Hp.
  destruct (negb (configured_ s)); [discriminate Hp|].
  destruct (missing_task_frame task_frames (task_frame_ids s)); [discriminate Hp|].
  apply bind_Ret in Hp. destruct Hp as (u1 & st1 & Hsplice & Hp).
  apply bind_Ret in Hp. destruct Hp as (u2 & st2 & Hmod & Hp).
  apply bind_Ret in Hp. destruct Hp as (sg & sa & Hget & Hp).
  unfold get in Hget. injection Hget as <- <-.
  unfold modify in Hmod. injection Hmod as _ <-. cbn [fst snd] in Hp.
  assert (Hj : jac_only (s, equations) st1).
  { revert Hsplice. apply for_each_inv; [apply jac_only_refl|apply jac_only_trans|].
    intros b s0 u s0'. apply splice_task_frame_Ret. }
  destruct Hj as (Hf1 & Hh1 & He1). simpl in Hf1, Hh1, He1.
  assert (Hnp : n_prios_ (fst st1) = n_prios_ s) by (unfold solver_frame in Hf1; tauto).
  assert (Hcv : constraint_vector_ (fst st1) = constraint_vector_ s)
    by (unfold solver_frame in Hf1; tauto).
  assert (Hjim : joint_index_map_ (fst st1) = joint_index_map_ s)
    by (unfold solver_frame in Hf1; tauto).
  apply eval_priorities_Ret in Hp; [|apply seq_NoDup|simpl; rewrite Hcv; exact Hnd].
  simpl in Hp. destruct Hp as (Hf2 & Hlen2 & Hel2 & Hout & _ & Hall).
  split; [eapply solver_frame_trans; eauto|].
  split; [congruence|].
  split.
  { rewrite Hel2. destruct (negb (length (snd st1) =? n_prios_ (fst st1))) eqn:E.
    - unfold vector_resize. rewrite length_app, length_firstn, repeat_length. lia.
    - apply negb_false_iff, Nat.eqb_eq in E. congruence. }
  rewrite Hcv, Hh1, Hnp in Hout. rewrite Hcv, Hjim, Hh1, Hnp in Hall.
  split.
  { intros q Hq. apply Hout. intros prio ptrs Hin Hptrs.
    apply in_seq in Hin. apply (Hq prio ptrs); [lia|exact Hptrs]. }
  intros prio ptrs Hprio Hptrs.
  apply (Hall prio ptrs); [apply in_seq; lia|exact Hptrs].
Qed.

(** ** What the evaluation of a constraint reads and writes *)

Lemma same_inputs_refl c : same_inputs c c.
Proof. unfold same_inputs. tauto. Qed.

Lemma same_inputs_trans c1 c2 c3 : same_inputs c1 c2 -> same_inputs c2 c3 -> same_inputs c1 c3.
Proof.
  unfold same_inputs. intros H12 H23.
  repeat match goal with H : _ /\ _ |- _ => destruct H end.
  repeat split; congruence.
Qed.

Lemma jnt_update_same_inputs joint_index_map c u c1 :
  jnt_update joint_index_map c = Ret u c1 -> same_inputs c c1.
Proof.
  unfold jnt_update.
  apply for_each_inv; [apply same_inputs_refl|apply same_inputs_trans|].
  intros [i joint_name] s u' s' Hb. unfold jnt_update_step in Hb.
  destruct (StdMap.count joint_name joint_index_map =? 0); [discriminate Hb|].
  inv_lift Hb idx Hidx.
  inv_get Hb.
  inv_lift Hb a Ha.
  unfold put in Hb. injection Hb as _ <-.
  unfold same_inputs. simpl. tauto.
Qed.

Lemma cart_invert_jacobian_same_inputs svd tf_root tf_tip c c1 :
  cart_invert_jacobian svd tf_root tf_tip c = Some c1 -> same_inputs c c1.
Proof.
  unfold cart_invert_jacobian.
  destruct (svd _) as [[u s] v]. simpl.
  destruct (invert_singular_values _ _ _) as [uf|]; [|discriminate].
  destruct (mul_transpose _ _) as [h|]; [|discriminate].
  intros [= <-]. unfold same_inputs. simpl. tauto.
Qed.

Lemma cart_task_same_inputs tf_root tf_ref_frame jac_root jac_tip n_vars c c1 :
  cart_task tf_root tf_ref_frame jac_root jac_tip n_vars c = Some c1 -> same_inputs c c1.
Proof.
  unfold cart_task.
  destruct (block00 _ _ _) as [hb|]; [|discriminate].
  destruct (negb _); [discriminate|]. simpl.
  destruct (Twist_of_vec (y_ref c)) as [t|]; [|discriminate].
  destruct (write_twist _ _) as [yr|]; [|discriminate].
  intros [= <-]. unfold same_inputs. simpl. tauto.
Qed.

Lemma evaluated_same_inputs svd task_frames now joint_index_map c c' :
  evaluated svd task_frames now joint_index_map c c' ->
  exists c1, c' = deactivate (set_time (now at_time_stamp) c1) /\
             same_inputs (check_timeout (now at_timeout_check) c) c1.
Proof.
  intros (c1 & Hc' & Hbranch). exists c1. split; [exact Hc'|].
  destruct (ConstraintConfig.type (config c)).
  - destruct Hbranch as (tf_root & tf_tip & tf_ref & c0 & jr & jt & _ & _ & _ & Hinv & Htask).
    eapply same_inputs_trans.
    + eapply cart_invert_jacobian_same_inputs; eauto.
    + assert (Hn : no_variables c = no_variables c) by reflexivity.
      eapply cart_task_same_inputs; eauto.
  - eapply jnt_update_same_inputs; eauto.
Qed.

Lemma check_timeout_flag now c :
  constraint_timed_out (check_timeout now c) = (if timed_out now c then 1 else 0)%Z.
Proof.
  unfold check_timeout, timed_out, elapsed.
  destruct (Qltb 0 _); simpl; [|reflexivity].
  destruct (Qltb _ _); reflexivity.
Qed.

Lemma check_timeout_same now c :
  config (check_timeout now c) = config c /\
  no_variables (check_timeout now c) = no_variables c /\
  weights (check_timeout now c) = weights c /\
  activation (check_timeout now c) = activation c /\
  y_ref (check_timeout now c) = y_ref c /\
  y_ref_root (check_timeout now c) = y_ref_root c /\
  A (check_timeout now c) = A c.
Proof.
  unfold check_timeout.
  repeat match goal with |- context [if ?b then _ else _] => destruct b end;
    simpl; tauto.
Qed.

Lemma deactivate_same c :
  config (deactivate c) = config c /\
  no_variables (deactivate c) = no_variables c /\
  weights (deactivate c) = weights c /\
  activation (deactivate c) = activation c /\
  constraint_timed_out (deactivate c) = constraint_timed_out c /\
  A (deactivate c) = A c.
Proof. unfold deactivate. destruct (Qeq_bool _ _); simpl; tauto. Qed.

(** The inputs of the effective weight survive the evaluation, and the
    timed-out flag is the outcome of the timeout check. *)
Lemma evaluated_weight_inputs svd task_frames now joint_index_map c c' :
  evaluated svd task_frames now joint_index_map c c' ->
  config c' = config c /\
  no_variables c' = no_variables c /\
  weights c' = weights c /\
  activation c' = activation c /\
  constraint_timed_out c' = (if timed_out (now at_timeout_check) c then 1 else 0)%Z.
Proof.
  intro Hev. apply evaluated_same_inputs in Hev. destruct Hev as (c1 & -> & Hsame).
  unfold same_inputs in Hsame.
  destruct Hsame as (H1 & H2 & H3 & H4 & _ & H6 & _).
  pose proof (check_timeout_same (now at_timeout_check) c) as (K1 & K2 & K3 & K4 & _).
  pose proof (deactivate_same (set_time (now at_time_stamp) c1)) as (D1 & D2 & D3 & D4 & D5 & _).
  rewrite D1, D2, D3, D4, D5. simpl.
  rewrite H1, H2, H3, H4, H6, K1, K2, K3, K4, check_timeout_flag. tauto.
Qed.

(** ** Effective weights *)

Lemma timed_out_iff now c :
  timed_out now c = true <->
  (0 < ConstraintConfig.timeout (config c) /\
   ConstraintConfig.timeout (config c) < elapsed now c)%Q.
Proof.
  unfold timed_out. rewrite andb_true_iff, !Qltb_lt. reflexivity.
Qed.

(** ** Rounding of the elapsed time *)

Lemma round_half_even_error n d :
  (0 <= n -> 0 < d -> 2 * Z.abs (round_half_even n d * d - n) <= d)%Z.
Proof.
  intros Hn Hd. unfold round_half_even.
  pose proof (Z.div_mod n d ltac:(lia)) as Hdm.
  pose proof (Z.mod_pos_bound n d Hd) as Hr.
  destruct (2 * (n mod d) ?= d)%Z eqn:Hcmp.
  - apply Z.compare_eq in Hcmp. destruct (Z.even (n / d)); nia.
  - rewrite Z.compare_lt_iff in Hcmp. nia.
  - rewrite Z.compare_gt_iff in Hcmp. nia.
Qed.

Lemma scaled_num_pos n e : (0 < n -> 0 < scaled_num n e)%Z.
Proof.
  intro Hn. unfold scaled_num. apply Z.mul_pos_pos; [exact Hn|].
  apply Z.pow_pos_nonneg; lia.
Qed.

Lemma scaled_den_pos d e : (0 < d -> 0 < scaled_den d e)%Z.
Proof.
  intro Hd. unfold scaled_den. apply Z.mul_pos_pos; [exact Hd|].
  apply Z.pow_pos_nonneg; lia.
Qed.

(** The scaled fraction is at least [2^52]: the significand has 53 bits. *)
Lemma binade_spec n d :
  (0 < n -> 0 < d ->
   2 ^ 52 * scaled_den d (binade n d) <= scaled_num n (binade n d))%Z.
Proof.
  intros Hn Hd. unfold binade.
  set (e := (Z.log2 n - Z.log2 d - 53)%Z).
  pose proof (Z.log2_spec n Hn) as [Hn1 Hn2].
  pose proof (Z.log2_spec d Hd) as [Hd1 Hd2].
  pose proof (Z.log2_nonneg n) as Hln.
  pose proof (Z.log2_nonneg d) as Hld.
  destruct (2 ^ 53 * scaled_den d e <=? scaled_num n e)%Z eqn:Hc.
  - apply Z.leb_le in Hc. unfold scaled_den, scaled_num in *.
    destruct (Z_le_gt_dec 0 e) as [He|He].
    + rewrite (Z.max_r 0 (e + 1)) by lia. rewrite (Z.max_l 0 (- (e + 1))) by lia.
      rewrite (Z.max_r 0 e) in Hc by lia. rewrite (Z.max_l 0 (- e)) in Hc by lia.
      rewrite Z.pow_add_r by lia. change (2 ^ 53)%Z with (2 ^ 52 * 2)%Z in Hc.
      change (2 ^ 1)%Z with 2%Z. lia.
    + rewrite (Z.max_l 0 (e + 1)) by lia. rewrite (Z.max_r 0 (- (e + 1))) by lia.
      rewrite (Z.max_l 0 e) in Hc by lia. rewrite (Z.max_r 0 (- e)) in Hc by lia.
      replace (- e)%Z with (- (e + 1) + 1)%Z in Hc by lia.
      rewrite Z.pow_add_r in Hc by lia. change (2 ^ 1)%Z with 2%Z in Hc.
      change (2 ^ 53)%Z with (2 ^ 52 * 2)%Z in Hc. change (2 ^ 0)%Z with 1%Z in *. lia.
  - clear Hc. unfold scaled_den, scaled_num.
    destruct (Z_le_gt_dec 0 e) as [He|He].
    + rewrite (Z.max_r 0 e) by lia. rewrite (Z.max_l 0 (- e)) by lia.
      change (2 ^ 0)%Z with 1%Z. rewrite Z.mul_1_r.
      apply Z.le_trans with (2 ^ Z.log2 n)%Z; [|exact Hn1].
      replace (Z.log2 n) with (52 + (Z.succ (Z.log2 d) + e))%Z by (unfold e; lia).
      rewrite (Z.pow_add_r 2 52) by lia. rewrite (Z.pow_add_r 2 (Z.succ (Z.log2 d))) by lia.
      apply Z.mul_le_mono_nonneg_l; [lia|].
      apply Z.mul_le_mono_nonneg_r; [apply Z.pow_nonneg; lia|lia].
    + rewrite (Z.max_l 0 e) by lia. rewrite (Z.max_r 0 (- e)) by lia.
      change (2 ^ 0)%Z with 1%Z. rewrite Z.mul_1_r.
      apply Z.le_trans with (2 ^ Z.log2 n * 2 ^ (- e))%Z.
      * rewrite <- Z.pow_add_r by lia.
        replace (Z.log2 n + - e)%Z with (52 + Z.succ (Z.log2 d))%Z by (unfold e; lia).
        rewrite Z.pow_add_r by lia.
        apply Z.mul_le_mono_nonneg_l; [lia|lia].
      * apply Z.mul_le_mono_nonneg_r; [apply Z.pow_nonneg; lia|exact Hn1].
Qed.

(** Rounding to [double] has a relative error of at most [2^-53]. *)
Lemma round_positive_error p q :
  (Qabs (round_positive (Zpos p) (Zpos q) - (Zpos p # q))
   <= (Zpos p # q) * (1 # 2 ^ 53))%Q.
Proof.
  unfold round_positive.
  set (e := binade (Zpos p) (Zpos q)).
  pose proof (@binade_spec (Zpos p) (Zpos q) eq_refl eq_refl) as Hb. fold e in Hb.
  pose proof (@scaled_num_pos (Zpos p) e eq_refl) as HN.
  pose proof (@scaled_den_pos (Zpos q) e eq_refl) as HD.
  pose proof (@round_half_even_error (scaled_num (Zpos p) e) (scaled_den (Zpos q) e)
                ltac:(lia) HD) as Hr.
  set (m := round_half_even (scaled_num (Zpos p) e) (scaled_den (Zpos q) e)) in *.
  unfold scaled_num, scaled_den in *.
  assert (Ha : (0 < 2 ^ Z.max 0 (- e))%Z) by (apply Z.pow_pos_nonneg; lia).
  assert (Hb' : (0 < 2 ^ Z.max 0 e)%Z) by (apply Z.pow_pos_nonneg; lia).
  set (a := (2 ^ Z.max 0 (- e))%Z) in *. set (b := (2 ^ Z.max 0 e)%Z) in *.
  apply Qabs_Qle_condition.
  unfold Qle, Qminus, Qplus, Qopp, Qmult. cbn [Qnum Qden].
  rewrite !Pos2Z.inj_mul. rewrite !Z2Pos.id by exact Ha.
  change (Z.pos (2 ^ 53)) with (2 ^ 53)%Z.
  split; nia.
Qed.

Lemma round_to_double_error x :
  (Qabs (round_to_double x - x) <= Qabs x * (1 # 2 ^ 53))%Q.
Proof.
  destruct x as [[|p|p] q]; unfold round_to_double; cbn [Qnum Qden].
  - unfold Qle. cbn. lia.
  - change (Qabs (Z.pos p # q)) with (Z.pos p # q). apply round_positive_error.
  - change (Qabs (Z.neg p # q)) with (Z.pos p # q).
    change (Z.neg p # q) with (- (Z.pos p # q))%Q.
    setoid_replace (- round_positive (Z.pos p) (Z.pos q) - - (Z.pos p # q))%Q
      with (- (round_positive (Z.pos p) (Z.pos q) - (Z.pos p # q)))%Q by ring.
    rewrite Qabs_opp. apply round_positive_error.
Qed.

Lemma Qabs_cases x : ((0 <= x /\ Qabs x == x) \/ (x <= 0 /\ Qabs x == - x))%Q.
Proof.
  destruct (Qlt_le_dec x 0) as [Hx|Hx].
  - right. split; [apply Qlt_le_weak; exact Hx|]. apply Qabs_neg. apply Qlt_le_weak; exact Hx.
  - left. split; [exact Hx|]. apply Qabs_pos. exact Hx.
Qed.

(** The seconds that [toSeconds] returns are the microseconds divided by
    10^6, up to the two roundings. *)
Lemma toSeconds_error t :
  (Qabs (toSeconds t - inject_Z t / 1000000)
   <= Qabs (inject_Z t / 1000000) * seconds_tolerance)%Q.
Proof.
  unfold toSeconds, seconds_tolerance.
  pose proof (round_to_double_error (inject_Z t)) as H1.
  pose proof (round_to_double_error (round_to_double (inject_Z t) / 1000000)) as H2.
  set (T := inject_Z t) in *. set (y := round_to_double T) in *.
  set (z := round_to_double (y / 1000000)) in *.
  apply Qabs_Qle_condition in H1. apply Qabs_Qle_condition in H2. apply Qabs_Qle_condition.
  destruct (Qabs_cases T) as [[HT ET]|[HT ET]];
  destruct (Qabs_cases (y / 1000000)) as [[Hy Ey]|[Hy Ey]];
  destruct (Qabs_cases (T / 1000000)) as [[HM EM]|[HM EM]];
  rewrite ?ET, ?Ey, ?EM in *; clear ET Ey EM;
  change (2 ^ 53)%positive with 9007199254740992%positive in *;
  change (2 ^ 51)%positive with 2251799813685248%positive in *;
  unfold Qdiv in *; change (/ 1000000)%Q with (1 # 1000000)%Q in *;
  lra.
Qed.

Lemma elapsed_error now c :
  (Qabs (elapsed now c - exact_elapsed now c)
   <= Qabs (exact_elapsed now c) * seconds_tolerance)%Q.
Proof. apply toSeconds_error. Qed.

(** A positive timeout that the exact elapsed time exceeds by more than the
    tolerance has run out; one that it stays below by the tolerance has not. *)
Lemma timed_out_above now c :
  (0 < ConstraintConfig.timeout (config c) ->
   ConstraintConfig.timeout (config c) < exact_elapsed now c * (1 - seconds_tolerance) ->
   timed_out now c = true)%Q.
Proof.
  intros Hpos Habove. apply timed_out_iff. split; [exact Hpos|].
  pose proof (elapsed_error now c) as He. apply Qabs_Qle_condition in He.
  unfold seconds_tolerance in *.
  change (2 ^ 51)%positive with 2251799813685248%positive in *.
  destruct (Qabs_cases (exact_elapsed now c)) as [[Hx Ex]|[Hx Ex]];
    rewrite Ex in He; clear Ex; lra.
Qed.

Lemma timed_out_below now c :
  (exact_elapsed now c * (1 + seconds_tolerance) <= ConstraintConfig.timeout (config c) ->
   timed_out now c = false)%Q.
Proof.
  intro Hbelow. destruct (timed_out now c) eqn:E; [|reflexivity].
  apply timed_out_iff in E. destruct E as [Hpos Hlt].
  pose proof (elapsed_error now c) as He. apply Qabs_Qle_condition in He.
  unfold seconds_tolerance in *.
  change (2 ^ 51)%positive with 2251799813685248%positive in *.
  destruct (Qabs_cases (exact_elapsed now c)) as [[Hx Ex]|[Hx Ex]];
    rewrite Ex in He; clear Ex; lra.
Qed.



(** ** Deactivated constraints *)

Lemma zeros_length n : length (zeros n) = n.
Proof. apply repeat_length. Qed.



(** ** Joint constraints *)

Lemma nth_error_unit_row idx n_cols col :
  nth_error (unit_row idx n_cols) col =
  if col <? n_cols then Some (if col =? idx then 1%Q else 0%Q) else None.
Proof.
  unfold unit_row. rewrite nth_error_map, nth_error_seq.
  destruct (col <? n_cols); reflexivity.
Qed.

Lemma list_set_unit_row idx n_cols row row' :
  row = zeros n_cols \/ row = unit_row idx n_cols ->
  list_set idx 1%Q row = Some row' ->
  row' = unit_row idx n_cols.
Proof.
  intros Hrow Hset.
  assert (Hlen : length row = n_cols).
  { destruct Hrow as [-> | ->]; [apply zeros_length|].
    unfold unit_row. rewrite length_map, length_seq. reflexivity. }
  apply nth_error_ext.
  - rewrite (list_set_length _ _ _ Hset). unfold unit_row.
    rewrite length_map, length_seq. exact Hlen.
  - intros col Hcol. rewrite (list_set_length _ _ _ Hset), Hlen in Hcol.
    rewrite nth_error_unit_row. apply Nat.ltb_lt in Hcol. rewrite Hcol.
    apply Nat.ltb_lt in Hcol.
    destruct (Nat.eq_dec idx col) as [<-|Hne].
    + rewrite Nat.eqb_refl. eapply list_set_same; eauto.
    + rewrite (list_set_other _ _ Hset Hne).
      destruct Hrow as [-> | ->].
      * unfold zeros. rewrite nth_error_repeat by exact Hcol.
        destruct (col =? idx) eqn:E; [apply Nat.eqb_eq in E; congruence|reflexivity].
      * rewrite nth_error_unit_row. apply Nat.ltb_lt in Hcol. rewrite Hcol. reflexivity.
Qed.

Lemma selection_row_found joint_index_map joint_name idx n_cols :
  StdMap.find joint_name joint_index_map = Some idx ->
  selection_row joint_index_map joint_name n_cols = unit_row idx n_cols.
Proof. intro Hf. unfold selection_row, unit_row. rewrite Hf. reflexivity. Qed.

Lemma entry_write_middle (done pend : matrix) row i idx a :
  length done = i ->
  entry_write i idx 1%Q (done ++ row :: pend) = Some a ->
  exists row', list_set idx 1%Q row = Some row' /\ a = done ++ row' :: pend.
Proof.
  intros Hlen Hw. unfold entry_write in Hw.
  rewrite nth_error_app2 in Hw by lia.
  replace (i - length done) with 0 in Hw by lia. simpl in Hw.
  destruct (list_set idx 1%Q row) as [row'|]; [|discriminate].
  exists row'. split; [reflexivity|].
  apply nth_error_ext.
  - rewrite (list_set_length _ _ _ Hw). rewrite !length_app. reflexivity.
  - intros col Hcol.
    destruct (Nat.eq_dec i col) as [<-|Hne].
    + rewrite (list_set_same _ _ _ Hw).
      rewrite nth_error_app2 by lia. replace (i - length done) with 0 by lia. reflexivity.
    + rewrite (list_set_other _ _ Hw Hne).
      destruct (Nat.lt_ge_cases col (length done)) as [Hlt|Hge].
      * rewrite !nth_error_app1 by lia. reflexivity.
      * rewrite !nth_error_app2 by lia.
        destruct (col - length done) as [|d] eqn:Hd; [lia|reflexivity].
Qed.

(** The loop of a joint constraint turns the pending rows, each still zero
    or already selecting its joint, into the rows of the selection matrix. *)
Lemma jnt_loop_selection joint_index_map n_cols rest :
  forall i0 c u c1 done pend,
    for_each (combine (seq i0 (length rest)) rest) (jnt_update_step joint_index_map) c
    = Ret u c1 ->
    A c = done ++ pend ->
    length done = i0 ->
    Forall2 (fun row joint_name =>
               row = zeros n_cols \/ row = selection_row joint_index_map joint_name n_cols)
            pend rest ->
    A c1 = done ++ selection_matrix joint_index_map rest n_cols /\
    (rest <> [] -> y_ref_root c1 = y_ref c1).
Proof.
  induction rest as [|joint_name rest IH]; intros i0 c u c1 done pend Hl HA Hlen Hpend.
  - simpl in Hl. unfold ret in Hl. injection Hl as _ <-.
    inversion Hpend; subst. split; [rewrite HA; reflexivity|congruence].
  - inversion Hpend as [|row ? pend' ? Hrow Hpend']; subst.
    simpl in Hl. apply bind_Ret in Hl. destruct Hl as (u1 & c2 & Hstep & Hl).
    unfold jnt_update_step in Hstep.
    destruct (StdMap.count joint_name joint_index_map =? 0); [discriminate Hstep|].
    inv_lift Hstep idx Hidx.
    inv_get Hstep.
    inv_lift Hstep a Ha.
    unfold put in Hstep. injection Hstep as _ <-.
    rewrite HA in Ha.
    destruct (@entry_write_middle _ _ _ _ _ _ eq_refl Ha) as (row' & Hrow' & ->).
    rewrite (@selection_row_found joint_index_map joint_name idx n_cols Hidx) in Hrow.
    apply (@list_set_unit_row idx n_cols row row' Hrow) in Hrow'. subst row'.
    destruct (IH (S (length done)) _ _ _ (done ++ [unit_row idx n_cols]) pend' Hl) as (HA1 & Hy1).
    { simpl. rewrite <- app_assoc. reflexivity. }
    { rewrite length_app. simpl. lia. }
    { exact Hpend'. }
    split.
    + rewrite HA1, <- app_assoc. simpl.
      rewrite (@selection_row_found joint_index_map joint_name idx n_cols Hidx). reflexivity.
    + intros _. destruct rest as [|n2 rest]; [|apply Hy1; discriminate].
      simpl in Hl. unfold ret in Hl. injection Hl as _ <-. reflexivity.
Qed.

Lemma jnt_update_selection joint_index_map n_cols c u c1 :
  jnt_update joint_index_map c = Ret u c1 ->
  Forall2 (fun row joint_name =>
             row = zeros n_cols \/ row = selection_row joint_index_map joint_name n_cols)
          (A c) (ConstraintConfig.joint_names (config c)) ->
  A c1 = selection_matrix joint_index_map (ConstraintConfig.joint_names (config c)) n_cols /\
  (ConstraintConfig.joint_names (config c) <> [] -> y_ref_root c1 = y_ref c1).
Proof.
  unfold jnt_update. intros Hl Hrows.
  exact (@jnt_loop_selection joint_index_map n_cols _ 0 c u c1 [] (A c) Hl eq_refl eq_refl Hrows).
Qed.

Lemma deactivate_references c :
  y_ref (deactivate c) =
    (if Qeq_bool (activation c) 0 then zeros (length (y_ref c)) else y_ref c) /\
  y_ref_root (deactivate c) =
    (if Qeq_bool (activation c) 0 then zeros (length (y_ref_root c)) else y_ref_root c).
Proof. unfold deactivate. destruct (Qeq_bool _ _); simpl; auto. Qed.

Lemma length_0_nil {X} (l : list X) : length l = 0 -> l = [].
Proof. destruct l; [reflexivity|discriminate]. Qed.

Lemma selection_matrix_rows joint_index_map n_cols joint_names :
  Forall2 (fun row joint_name =>
             row = zeros n_cols \/ row = selection_row joint_index_map joint_name n_cols)
          (selection_matrix joint_index_map joint_names n_cols) joint_names.
Proof.
  unfold selection_matrix. induction joint_names as [|n0 names IH]; simpl; constructor; auto.
Qed.

(** What a completed assembly leaves of a well-formed joint constraint. *)
Lemma joint_constraint_evaluated
  svd task_frames now s equations s' equations' prio ptrs k p c :
  prepareEqSystem svd task_frames now (s, equations) = Ret tt (s', equations') ->
  NoDup (concat (constraint_vector_ s)) ->
  prio < n_prios_ s ->
  nth_error (constraint_vector_ s) prio = Some ptrs ->
  nth_error ptrs k = Some p ->
  nth_error (heap s) p = Some c ->
  ConstraintConfig.type (config c) = jnt ->
  joint_constraint_wf (joint_index_map_ s) (no_robot_joints_ s) c ->
  exists c' e',
    nth_error (heap s') p = Some c' /\
    nth_error equations' prio = Some e' /\
    A c' = selection_matrix (joint_index_map_ s)
             (ConstraintConfig.joint_names (config c)) (no_robot_joints_ s) /\
    rows_of (heap s) ptrs k c (LinearEquationSystem.A e') = A c' /\
    y_ref_root c' = y_ref c' /\
    rows_of (heap s) ptrs k c (LinearEquationSystem.y_ref e') = y_ref c' /\
    (~ activation c == 0 -> y_ref c' = y_ref c) /\
    joint_constraint_wf (joint_index_map_ s) (no_robot_joints_ s) c'.
Proof.
  intros Hp Hnd Hprio Hptrs Hk Hc Hty (Hn & Hyl & Hrows).
  destruct (@prepareEqSystem_Ret _ _ _ _ _ _ _ Hp Hnd) as (_ & _ & _ & _ & Hall).
  destruct (Hall prio ptrs Hprio Hptrs) as (e' & He' & Hk').
  destruct (Hk' k p Hk) as (c0 & c' & Hc0 & Hc' & Hev & _ & HA & Hy & _ & _ & Hyrl).
  rewrite Hc in Hc0. injection Hc0 as <-.
  exists c', e'. split; [exact Hc'|]. split; [exact He'|].
  pose proof (evaluated_weight_inputs Hev) as (Ecfg & Env & _).
  destruct Hev as (c1 & Hc1 & Hbranch). rewrite Hty in Hbranch.
  pose proof (@jnt_update_same_inputs _ _ _ _ Hbranch) as Hsame.
  unfold same_inputs in Hsame. destruct Hsame as (_ & _ & _ & Ha1 & _ & _ & Hy1).
  pose proof (check_timeout_same (now prio k at_timeout_check) c)
    as (Kc & _ & _ & Ka & Ky & _ & KA).
  destruct (@jnt_update_selection (joint_index_map_ s) (no_robot_joints_ s) _ _ _ Hbranch)
    as (HAsel & Hyeq).
  { rewrite KA, Kc. exact Hrows. }
  rewrite Kc in HAsel, Hyeq.
  pose proof (deactivate_same (set_time (now prio k at_time_stamp) c1))
    as (_ & _ & _ & _ & _ & DA).
  pose proof (deactivate_references (set_time (now prio k at_time_stamp) c1)) as (Dy & Dyr).
  rewrite <- Hc1 in DA, Dy, Dyr. simpl in DA, Dy, Dyr.
  rewrite Ha1, Ka, Hy1, Ky in Dy. rewrite Ha1, Ka in Dyr.
  assert (Heq : y_ref_root c' = y_ref c').
  { destruct (ConstraintConfig.joint_names (config c)) as [|n0 names] eqn:Hnames.
    - simpl in Hn. rewrite Hn in Hyrl, Hyl.
      rewrite (length_0_nil _ Hyrl).
      rewrite Dy. apply length_0_nil in Hyl. rewrite Hyl.
      destruct (Qeq_bool (activation c) 0); reflexivity.
    - rewrite Dy, Dyr, Hyeq by discriminate. rewrite Hy1, Ky.
      reflexivity. }
  split; [rewrite DA; exact HAsel|].
  split; [unfold rows_of; exact HA|].
  split; [exact Heq|].
  split; [unfold rows_of; rewrite Hy; exact Heq|].
  split.
  - intro Hact. rewrite Dy.
    destruct (Qeq_bool (activation c) 0) eqn:E; [|reflexivity].
    apply Qeq_bool_iff in E. contradiction.
  - unfold joint_constraint_wf. rewrite Ecfg, Env.
    split; [exact Hn|]. split.
    + rewrite Dy. destruct (Qeq_bool (activation c) 0); [rewrite zeros_length|]; exact Hyl.
    + rewrite DA, HAsel. apply selection_matrix_rows.
Qed.



(** ** The pseudo-inverse of a Cartesian constraint *)

Lemma nth_error_indexed {X} (row : list X) j :
  nth_error (combine (seq 0 (length row)) row) j = option_map (fun x => (j, x)) (nth_error row j).
Proof.
  assert (Hgen : forall a, nth_error (combine (seq a (length row)) row) j
                           = option_map (fun x => (a + j, x)) (nth_error row j)).
  { revert j. induction row as [|x row IH]; intros j a; simpl.
    - destruct j; reflexivity.
    - destruct j as [|j]; simpl.
      + rewrite Nat.add_0_r. reflexivity.
      + rewrite IH. replace (S a + j) with (a + S j) by lia. reflexivity. }
  apply (Hgen 0).
Qed.

Lemma partially_inverted_length s a row : length (partially_inverted s a row) = length row.
Proof.
  unfold partially_inverted. rewrite length_map, length_combine, length_seq. lia.
Qed.

Lemma nth_error_partially_inverted s a row j :
  nth_error (partially_inverted s a row) j =
  option_map (fun x => if j <? a then scale_at s j x else x) (nth_error row j).
Proof.
  unfold partially_inverted. rewrite nth_error_map, nth_error_indexed.
  destruct (nth_error row j); reflexivity.
Qed.

Lemma partially_inverted_0 s row : partially_inverted s 0 row = row.
Proof.
  apply nth_error_ext; [apply partially_inverted_length|].
  intros j _. rewrite nth_error_partially_inverted.
  destruct (nth_error row j); reflexivity.
Qed.

Lemma partially_inverted_step s a row f :
  a < length row ->
  (forall x, f x = scale_at s a x) ->
  list_modify a f (partially_inverted s a row) = Some (partially_inverted s (S a) row).
Proof.
  intros Ha Hf.
  destruct (@list_modify_some _ a f (partially_inverted s a row)) as [row' Hm].
  { rewrite partially_inverted_length. exact Ha. }
  rewrite Hm. f_equal.
  apply nth_error_ext.
  - rewrite (list_modify_length _ _ _ Hm), !partially_inverted_length. reflexivity.
  - intros j _. rewrite nth_error_partially_inverted.
    destruct (Nat.eq_dec a j) as [<-|Hne].
    + destruct (list_modify_same _ _ _ Hm) as (x & Hx & Hx').
      rewrite Hx'. rewrite nth_error_partially_inverted in Hx.
      destruct (nth_error row a) as [y|]; [|discriminate]. simpl in Hx.
      rewrite Nat.ltb_irrefl in Hx. injection Hx as <-. simpl.
      replace (a <? S a) with true by (symmetry; apply Nat.ltb_lt; lia).
      rewrite Hf. reflexivity.
    + rewrite (list_modify_other _ _ Hm Hne), nth_error_partially_inverted.
      destruct (nth_error row j) as [y|]; [|reflexivity]. simpl.
      destruct (j <? a) eqn:E1; destruct (j <? S a) eqn:E2; try reflexivity.
      * apply Nat.ltb_lt in E1. apply Nat.ltb_ge in E2. lia.
      * apply Nat.ltb_ge in E1. apply Nat.ltb_lt in E2. lia.
Qed.

Lemma reciprocal_positive sj : Qltb 0 sj = true -> reciprocal sj = Some (1 / sj)%Q.
Proof.
  intro Hpos. unfold reciprocal.
  destruct (Qeq_bool sj 0) eqn:E; [|reflexivity].
  apply Qeq_bool_iff in E. apply Qltb_lt in Hpos. rewrite E in Hpos.
  exfalso. exact (Qlt_irrefl 0 Hpos).
Qed.

Lemma col_update_step s a f u :
  (forall x, f x = scale_at s a x) ->
  Forall (fun row => a < length row) u ->
  col_update a f (map (partially_inverted s a) u)
  = Some (map (partially_inverted s (S a)) u).
Proof.
  intros Hf Hrows. unfold col_update.
  induction u as [|row u IHu]; cbn [map map_opt]; [reflexivity|].
  inversion Hrows as [|? ? Hrow Hu]; subst.
  rewrite (@partially_inverted_step s a row f Hrow Hf).
  rewrite (IHu Hu). reflexivity.
Qed.

(** The loop over the singular values never divides by zero and never
    leaves the matrix: it completes for every vector of singular values. *)
Lemma invert_singular_values_spec s u n :
  forall a,
    a + n <= length s ->
    Forall (fun row => length s <= length row) u ->
    invert_singular_values (seq a n) s (map (partially_inverted s a) u)
    = Some (map (partially_inverted s (a + n)) u).
Proof.
  induction n as [|n IH]; intros a Ha Hrows; simpl.
  - rewrite Nat.add_0_r. reflexivity.
  - destruct (nth_error s a) as [sj|] eqn:Hsj.
    2:{ apply nth_error_None in Hsj. lia. }
    assert (Hstep : forall f, (forall x, f x = scale_at s a x) ->
                              col_update a f (map (partially_inverted s a) u)
                              = Some (map (partially_inverted s (S a)) u)).
    { intros f Hf. apply col_update_step; [exact Hf|].
      eapply Forall_impl; [|exact Hrows]. simpl. intros; lia. }
    replace (a + S n) with (S a + n) by lia.
    destruct (Qltb 0 sj) eqn:Hpos.
    + rewrite (reciprocal_positive _ Hpos).
      rewrite Hstep; [apply IH; [lia|exact Hrows]|].
      intro x. unfold scale_at, inverted_direction. rewrite Hsj. simpl. rewrite Hpos.
      reflexivity.
    + rewrite Hstep; [apply IH; [lia|exact Hrows]|].
      intro x. unfold scale_at, inverted_direction. rewrite Hsj. simpl. rewrite Hpos.
      reflexivity.
Qed.

Lemma nth_error_combine {X Y} (l1 : list X) (l2 : list Y) j :
  nth_error (combine l1 l2) j =
  match nth_error l1 j, nth_error l2 j with
  | Some x, Some y => Some (x, y)
  | _, _ => None
  end.
Proof.
  revert l2 j. induction l1 as [|x l1 IH]; intros [|y l2] [|j]; simpl; try reflexivity.
  - destruct (nth_error l1 j); reflexivity.
  - apply IH.
Qed.

Lemma partially_inverted_full s row :
  length row = length s ->
  partially_inverted s (length s) row = map inverted_direction (combine row s).
Proof.
  intro Hlen. apply nth_error_ext.
  - rewrite partially_inverted_length, length_map, length_combine. lia.
  - intros j Hj. rewrite partially_inverted_length in Hj.
    rewrite nth_error_partially_inverted, nth_error_map, nth_error_combine.
    destruct (nth_error row j) as [x|] eqn:Hx; [|reflexivity]. simpl.
    replace (j <? length s) with true by (symmetry; apply Nat.ltb_lt; lia).
    unfold scale_at. destruct (nth_error s j) as [sj|] eqn:Hsj; [reflexivity|].
    apply nth_error_None in Hsj. lia.
Qed.

Lemma cart_invert_jacobian_spec svd tf_root tf_tip c u s v :
  svd (local_jacobian tf_root tf_tip c) = (u, s, v) ->
  Forall (fun row => length row = length s) u ->
  Forall (fun row => length row = length s) v ->
  v <> [] ->
  exists c0,
    cart_invert_jacobian svd tf_root tf_tip c = Some c0 /\
    H c0 = pseudo_inverse u s v /\
    y_ref c0 = y_ref c /\ y_ref_root c0 = y_ref_root c.
Proof.
  intros Hsvd Hu Hv Hne. unfold cart_invert_jacobian. cbv zeta.
  match goal with
  | |- context [svd ?a] => change a with (local_jacobian tf_root tf_tip c)
  end.
  rewrite Hsvd.
  match goal with
  | |- context [invert_singular_values (seq 0 (length ?x)) ?y ?z] =>
      change x with s; change z with u
  end.
  pose proof (@invert_singular_values_spec s u (length s) 0 (Nat.le_refl _)) as Hinv.
  rewrite (map_ext _ (fun r => r) (partially_inverted_0 s)), map_id in Hinv.
  cbn [plus] in Hinv. rewrite Hinv.
  2:{ eapply Forall_impl; [|exact Hu]. simpl. intros; lia. }
  assert (Hfull : map (partially_inverted s (length s)) u
                  = map (fun urow => map inverted_direction (combine urow s)) u).
  { apply map_ext_in. intros row Hrow. apply partially_inverted_full.
    rewrite Forall_forall in Hu. auto. }
  rewrite Hfull.
  match goal with
  | |- context [mul_transpose ?x ?y] =>
      change x with v;
      change y with (map (fun urow => map inverted_direction (combine urow s)) u)
  end.
  unfold mul_transpose.
  destruct v as [|v0 v]; [congruence|].
  assert (Hv0 : length v0 = length s) by (inversion Hv; assumption).
  assert (Hcv : forallb (fun r => length r =? length v0) (v0 :: v) = true).
  { apply forallb_forall. intros r Hr. apply Nat.eqb_eq.
    rewrite Forall_forall in Hv. rewrite (Hv r Hr). auto. }
  assert (Hcu : forallb (fun r => length r =? length v0)
                        (map (fun urow => map inverted_direction (combine urow s)) u) = true).
  { apply forallb_forall. intros r Hr. apply Nat.eqb_eq.
    apply in_map_iff in Hr. destruct Hr as (urow & <- & Hin).
    rewrite length_map, length_combine. rewrite Forall_forall in Hu.
    rewrite (Hu urow Hin). lia. }
  rewrite Hcv, Hcu. cbn [andb].
  eexists. split; [reflexivity|].
  split; [|split; reflexivity].
  match goal with |- H (set_H ?h ?x) = _ => change (H (set_H h x)) with h end.
  unfold pseudo_inverse. apply map_ext. intro vrow. rewrite map_map. reflexivity.
Qed.

Lemma dot_vsub h : forall a b,
  length a = length b -> dot h (vsub a b) == dot h a - dot h b.
Proof.
  induction h as [|x h IH]; intros a b Hlen.
  - simpl. ring.
  - destruct a as [|a0 a]; destruct b as [|b0 b]; simpl in Hlen; try discriminate.
    + simpl. ring.
    + unfold vsub. simpl. fold (vsub a b). rewrite IH by lia. ring.
Qed.

Lemma Twist_to_vec_sub a b :
  Twist_to_vec (Twist_sub a b) = vsub (Twist_to_vec a) (Twist_to_vec b).
Proof. reflexivity. Qed.

Lemma row_times_difference hrow : forall jac_tip jac_root,
  veq (vsub (map (fun t => dot hrow (Twist_to_vec t)) jac_tip)
            (map (fun t => dot hrow (Twist_to_vec t)) jac_root))
      (map (fun t => dot hrow (Twist_to_vec t)) (Jacobian_sub jac_tip jac_root)).
Proof.
  unfold veq, vsub, Jacobian_sub.
  induction jac_tip as [|a jac_tip IH]; intros [|b jac_root]; simpl; try constructor.
  - rewrite Twist_to_vec_sub. symmetry. apply dot_vsub. reflexivity.
  - apply IH.
Qed.

Lemma times_difference hb jac_tip jac_root :
  meq (msub (mul_Jacobian hb jac_tip) (mul_Jacobian hb jac_root))
      (mul_Jacobian hb (Jacobian_sub jac_tip jac_root)).
Proof.
  unfold meq, msub, mul_Jacobian.
  induction hb as [|hrow hb IH]; simpl; constructor.
  - apply row_times_difference.
  - exact IH.
Qed.

Lemma cart_task_matrix tf_root tf_ref_frame jac_root jac_tip n_vars c c1 :
  cart_task tf_root tf_ref_frame jac_root jac_tip n_vars c = Some c1 ->
  exists hb,
    block00 (H c) n_vars 6 = Some hb /\
    hb = map (firstn 6) (firstn n_vars (H c)) /\
    A c1 = msub (mul_Jacobian hb jac_tip) (mul_Jacobian hb jac_root) /\
    meq (A c1) (mul_Jacobian hb (Jacobian_sub jac_tip jac_root)).
Proof.
  unfold cart_task. intro Ht.
  destruct (block00 (H c) n_vars 6) as [hb|] eqn:Hb; [|discriminate].
  destruct (negb _); [discriminate|]. simpl in Ht.
  destruct (Twist_of_vec (y_ref c)) as [t|]; [|discriminate].
  destruct (write_twist _ _) as [yr|]; [|discriminate].
  injection Ht as <-. exists hb. split; [reflexivity|]. split.
  - unfold block00 in Hb. destruct (_ && _); [|discriminate]. congruence.
  - simpl. split; [reflexivity|]. apply times_difference.
Qed.

(** ** The reference twist of a Cartesian constraint *)

(** [Frame * Twist] differs from [Rotation * Twist] by the moment of the
    frame's translation: the translational part gains [p x (M * rot)]. *)
Lemma Frame_mul_Twist_parts f t :
  rot (Frame_mul_Twist f t) = rot (Rotation_mul_Twist (M_ f) t) /\
  vel (Frame_mul_Twist f t) =
    Vector_add (vel (Rotation_mul_Twist (M_ f) t))
               (Vector_cross (p_ f) (rot (Rotation_mul_Twist (M_ f) t))).
Proof. split; reflexivity. Qed.

(** The root-frame reference of a Cartesian constraint is the raw reference
    multiplied by the whole frame (root^-1 * ref_frame), translation
    included. *)
Lemma cart_task_reference tf_root tf_ref_frame jac_root jac_tip n_vars c c1 :
  cart_task tf_root tf_ref_frame jac_root jac_tip n_vars c = Some c1 ->
  exists t,
    Twist_of_vec (y_ref c) = Some t /\
    firstn 6 (y_ref_root c1) =
      Twist_to_vec (Frame_mul_Twist
                      (Frame_mul (Frame_Inverse (TaskFrame.pose tf_root))
                                 (TaskFrame.pose tf_ref_frame)) t).
Proof.
  unfold cart_task. intro Ht.
  destruct (block00 (H c) n_vars 6) as [hb|]; [|discriminate].
  destruct (negb _); [discriminate|]. simpl in Ht.
  destruct (Twist_of_vec (y_ref c)) as [t|]; [|discriminate].
  unfold write_twist in Ht. destruct (6 <=? length (y_ref_root c)); [|discriminate].
  injection Ht as <-. exists t. split; reflexivity.
Qed.

(** C2, evaluated on the code.  Root and tip at the origin, the reference
    frame one unit along x with the same orientation, reference twist one
    unit of rotation about z and no translation: the assembly returns the
    root-frame reference (0, -1, 0, 0, 0, 1), a translational velocity of -1
    along y that comes from the frame offset, where the rotation of
    (root^-1 * ref_frame) alone gives (0, 0, 0, 0, 0, 1). *)
Theorem reference_twist_acquires_translation :
  forall now,
  exists s' e',
    prepareEqSystem svd_of_identity example_offset_frames now (example_rotation_state, [])
    = Ret tt (s', [e']) /\
    option_map y_ref (nth_error (heap example_rotation_state) 0) = Some example_rotation /\
    option_map y_ref_root (nth_error (heap s') 0) = Some [0; -1; 0; 0; 0; 1]%Q /\
    LinearEquationSystem.y_ref e' = [0; -1; 0; 0; 0; 1]%Q /\
    option_map
      (fun t => Twist_to_vec (Rotation_mul_Twist (M_ (mkFrame Rotation_Identity (mkVector 1 0 0))) t))
      (Twist_of_vec example_rotation) = Some example_rotation.
Proof.
  intro now. eexists. eexists.
  split; [vm_compute; reflexivity|].
  repeat split; vm_compute; reflexivity.
Qed.

(** ** Invariants that [configure] establishes and the assembly keeps *)

Lemma list_modify_append_perm {X} k (x : X) cv cv' :
  list_modify k (fun l => l ++ [x]) cv = Some cv' ->
  Permutation (concat cv') (x :: concat cv).
Proof.
  revert k cv'. induction cv as [|l cv IH]; intros [|k] cv' Hm; simpl in Hm; try discriminate.
  - injection Hm as <-. simpl. rewrite <- app_assoc. simpl.
    symmetry. apply Permutation_middle.
  - destruct (list_modify k _ cv) as [cv1|] eqn:E; simpl in Hm; [|discriminate].
    injection Hm as <-. simpl. rewrite (IH _ _ E).
    symmetry. apply Permutation_middle.
Qed.

Lemma insert_constraints_pointers config joint_names s b s1 :
  insert_constraints config joint_names s = Ret b s1 ->
  NoDup (concat (constraint_vector_ s)) ->
  (forall p, In p (concat (constraint_vector_ s)) -> p < length (heap s)) ->
  NoDup (concat (constraint_vector_ s1)) /\
  (forall p, In p (concat (constraint_vector_ s1)) -> p < length (heap s1)).
Proof.
  revert s. induction config as [|c rest IH]; intros s Hi Hnd Hvalid; simpl in Hi.
  - injection Hi as _ <-. auto.
  - destruct (list_modify _ _ _) as [cv|] eqn:Hcv; [|discriminate]. simpl in Hi, Hcv.
    pose proof (list_modify_append_perm _ _ _ Hcv) as Hperm.
    assert (Hnd' : NoDup (concat cv)).
    { eapply Permutation_NoDup; [symmetry; exact Hperm|].
      constructor; [|exact Hnd]. intro Hin. apply Hvalid in Hin. lia. }
    assert (Hvalid' : forall p, In p (concat cv) ->
                                p < length (heap s ++ [new_ExtendedConstraint c joint_names])).
    { intros p Hp. rewrite length_app. simpl.
      apply (Permutation_in _ Hperm) in Hp. destruct Hp as [<-|Hp]; [lia|].
      apply Hvalid in Hp. lia. }
    destruct (negb _).
    + injection Hi as _ <-. simpl. auto.
    + apply IH in Hi; simpl; auto.
Qed.

Lemma concat_filter_nonempty {X} (cv : list (list X)) :
  concat (filter nonempty cv) = concat cv.
Proof.
  induction cv as [|l cv IH]; simpl; [reflexivity|].
  destruct l as [|x l]; simpl; [exact IH|]. rewrite IH. reflexivity.
Qed.

Lemma insert_constraints_heap config joint_names s s1 :
  insert_constraints config joint_names s = Ret true s1 ->
  heap s1 = heap s ++ map (fun c => new_ExtendedConstraint c joint_names) config.
Proof.
  revert s. induction config as [|c rest IH]; intros s Hi; simpl in Hi.
  - injection Hi as <-. simpl. rewrite app_nil_r. reflexivity.
  - destruct (list_modify _ _ _) as [cv|]; [|discriminate]. simpl in Hi.
    destruct (negb _); [discriminate|].
    apply IH in Hi. simpl in Hi. rewrite Hi, <- app_assoc. reflexivity.
Qed.

Lemma insert_constraints_length config joint_names :
  forall s s1 b,
    insert_constraints config joint_names s = Ret b s1 ->
    length (constraint_vector_ s1) = length (constraint_vector_ s).
Proof.
  induction config as [|c rest IH]; intros s s1 b Hi; simpl in Hi.
  - injection Hi as _ <-. reflexivity.
  - destruct (list_modify _ _ _) as [cv|] eqn:Hcv; [|discriminate].
    apply list_modify_length in Hcv. simpl in Hi.
    destruct (negb _).
    + injection Hi as _ <-. simpl. exact Hcv.
    + apply IH in Hi. simpl in Hi. congruence.
Qed.

(** After a successful [configure] no constraint is listed twice in the
    priority levels, and every listed pointer is valid. *)
Lemma configure_pointers config joint_names s0 s :
  configure config joint_names s0 = Ret true s ->
  NoDup (concat (constraint_vector_ s)) /\
  (forall p, In p (concat (constraint_vector_ s)) -> p < length (heap s)).
Proof.
  intro Hc. apply configure_true_inv in Hc.
  destruct Hc as (mp & s1 & cv & rows & s2 & _ & Hmp & Hi & He & _ & Ht & ->).
  set (n := Z.to_nat (mp + 1)) in *.
  assert (Hcv0 : @vector_resize (list nat) n [] [] = repeat [] n).
  { unfold vector_resize. rewrite firstn_nil. simpl. rewrite Nat.sub_0_r. reflexivity. }
  rewrite Hcv0 in Hi.
  assert (Hempty : concat (repeat (@nil nat) n) = []).
  { clear. induction n as [|n IH]; simpl; auto. }
  pose proof (insert_constraints_length _ _ _ Hi) as Hlen.
  simpl in Hlen. rewrite repeat_length in Hlen.
  apply insert_constraints_pointers in Hi;
    [|simpl; rewrite Hempty; constructor|simpl; rewrite Hempty; intros p []].
  destruct Hi as (Hnd & Hvalid).
  assert (Herase : cv = filter nonempty (constraint_vector_ s1)).
  { pose proof (@erase_empty_priorities_spec (constraint_vector_ s1) []
                  (S (length (constraint_vector_ s1)))) as Hspec.
    cbn [app length Z.of_nat] in Hspec. rewrite Hspec in He.
    - injection He as <-. reflexivity.
    - lia.
    - rewrite Hlen. unfold n, UINT_MOD. unfold INT_MAX in Hmp. lia. }
  apply create_tf_map_frame in Ht. destruct Ht as (_ & Hheap & Hcv & _).
  simpl in *. rewrite Hcv, Hheap, Herase, concat_filter_nonempty. auto.
Qed.

(** After a successful [configure] every joint constraint is well formed:
    sized by its joint list, with a zero task matrix. *)
Lemma configure_joint_constraint_wf specifications joint_names s0 s p c :
  configure specifications joint_names s0 = Ret true s ->
  nth_error (heap s) p = Some c ->
  ConstraintConfig.type (config c) = jnt ->
  joint_constraint_wf (joint_index_map_ s) (no_robot_joints_ s) c.
Proof.
  intros Hc Hp Hty. apply configure_true_inv in Hc.
  destruct Hc as (mp & s1 & cv & rows & s2 & _ & _ & Hi & _ & _ & Ht & ->).
  pose proof (@insert_constraints_heap _ _ _ _ Hi) as Hheap.
  apply insert_constraints_frame in Hi. destruct Hi as ((_ & Hnr & _) & _).
  apply create_tf_map_frame in Ht. destruct Ht as ((_ & Hnr2 & _) & Hheap2 & _).
  simpl in *. rewrite Hheap2, Hheap in Hp. rewrite Hnr2, Hnr.
  apply nth_error_In in Hp. apply in_map_iff in Hp. destruct Hp as (cfg & <- & _).
  unfold joint_constraint_wf. simpl in *. rewrite Hty.
  split; [reflexivity|]. split; [apply zeros_length|].
  generalize (ConstraintConfig.joint_names cfg). intro names.
  unfold zero_matrix. induction names as [|n0 names IH]; simpl; constructor; auto.
Qed.

(** The assembly keeps both invariants. *)
Lemma prepareEqSystem_keeps_pointers svd task_frames now s equations s' equations' :
  prepareEqSystem svd task_frames now (s, equations) = Ret tt (s', equations') ->
  NoDup (concat (constraint_vector_ s)) ->
  NoDup (concat (constraint_vector_ s')) /\ length (heap s') = length (heap s).
Proof.
  intros Hp Hnd.
  destruct (@prepareEqSystem_Ret _ _ _ _ _ _ _ Hp Hnd) as (Hf & Hlen & _).
  unfold solver_frame in Hf. destruct Hf as (_ & _ & Hcv & _).
  rewrite Hcv. auto.
Qed.

(** ** When [configure] succeeds and when it fails *)

Lemma scan_priorities_negative config m0 :
  scan_priorities config m0 = None <->
  exists c, In c config /\ (ConstraintConfig.priority c < 0)%Z.
Proof.
  revert m0. induction config as [|c rest IH]; intros m0; simpl.
  - split; [discriminate|]. intros (c & [] & _).
  - destruct (ConstraintConfig.priority c <? 0)%Z eqn:Hneg.
    + apply Z.ltb_lt in Hneg. split; [|reflexivity]. intros _. exists c. auto.
    + apply Z.ltb_ge in Hneg. rewrite IH. split.
      * intros (c' & Hin & Hp). exists c'. auto.
      * intros (c' & [<-|Hin] & Hp); [lia|]. exists c'. auto.
Qed.

Lemma scan_priorities_bound config m0 max_prio bound :
  scan_priorities config m0 = Some max_prio ->
  (m0 < bound)%Z ->
  Forall (fun c => (ConstraintConfig.priority c < bound)%Z) config ->
  (max_prio < bound)%Z.
Proof.
  revert m0. induction config as [|c rest IH]; intros m0 Hs Hm Hall; simpl in Hs.
  - injection Hs as <-. exact Hm.
  - destruct (ConstraintConfig.priority c <? 0)%Z; [discriminate|].
    inversion Hall as [|? ? Hc Hrest]; subst.
    eapply IH; [exact Hs| |exact Hrest].
    destruct (ConstraintConfig.priority c >? m0)%Z; assumption.
Qed.

(** The second loop returns [true] exactly when the names are new and
    pairwise different. *)
Lemma insert_constraints_outcome config joint_names :
  forall s,
    Forall (fun c => (0 <= ConstraintConfig.priority c)%Z /\
                     Z.to_nat (ConstraintConfig.priority c) < length (constraint_vector_ s))
           config ->
    exists b s1,
      insert_constraints config joint_names s = Ret b s1 /\
      (b = true <->
       NoDup (map ConstraintConfig.name config) /\
       forall c, In c config ->
                 StdMap.find (ConstraintConfig.name c) (constraint_map_ s) = None).
Proof.
  induction config as [|c rest IH]; intros s Hprio; simpl.
  - exists true, s. split; [reflexivity|]. split; [|reflexivity].
    intros _. split; [constructor|]. intros c [].
  - inversion Hprio as [|? ? [Hc0 Hc] Hrest]; subst.
    destruct (@list_modify_some _ (Z.to_nat (ConstraintConfig.priority c))
                (fun level => level ++ [length (heap s)]) (constraint_vector_ s) Hc)
      as [cv Hcv].
    rewrite Hcv. simpl.
    destruct (StdMap.count (ConstraintConfig.name c) (constraint_map_ s) =? 0) eqn:Hcount; simpl.
    + apply StdMap_count_0 in Hcount.
      destruct (IH (set_constraint_map_
                      (StdMap.set (ConstraintConfig.name c) (length (heap s)) (constraint_map_ s))
                      (set_constraint_vector_ cv
                         (set_heap (heap s ++ [new_ExtendedConstraint c joint_names]) s))))
        as (b & s1 & Hi & Hb).
      { simpl. rewrite (list_modify_length _ _ _ Hcv). exact Hrest. }
      exists b, s1. split; [exact Hi|]. rewrite Hb. simpl. split.
      * intros (Hnd & Hfresh). split.
        -- constructor; [|exact Hnd]. intro Hin. apply in_map_iff in Hin.
           destruct Hin as (c' & Hname & Hin').
           specialize (Hfresh c' Hin'). rewrite Hname, StdMap_find_set_same in Hfresh.
           discriminate.
        -- intros c' [<-|Hin']; [exact Hcount|].
           specialize (Hfresh c' Hin').
           destruct (String.eqb (ConstraintConfig.name c') (ConstraintConfig.name c)) eqn:E.
           ++ apply String.eqb_eq in E. rewrite E, StdMap_find_set_same in Hfresh. discriminate.
           ++ apply String.eqb_neq in E. rewrite StdMap_find_set_other in Hfresh by exact E.
              exact Hfresh.
      * intros (Hnd & Hfresh). inversion Hnd as [|? ? Hnotin Hnd']; subst.
        split; [exact Hnd'|]. intros c' Hin'.
        rewrite StdMap_find_set_other; [apply Hfresh; right; exact Hin'|].
        intro Heq. apply Hnotin. apply in_map_iff. exists c'. auto.
    + exists false, (set_constraint_vector_ cv
                       (set_heap (heap s ++ [new_ExtendedConstraint c joint_names]) s)).
      split; [reflexivity|]. split; [discriminate|].
      intros (_ & Hfresh). specialize (Hfresh c (or_introl eq_refl)).
      apply StdMap_count_0 in Hfresh. congruence.
Qed.

Lemma count_level_rows_some h level :
  forall acc,
    Forall (fun p => p < length h) level ->
    exists n, count_level_rows h level acc = Some n.
Proof.
  induction level as [|p level IH]; intros acc Hvalid; simpl; [eauto|].
  inversion Hvalid as [|? ? Hp Hrest]; subst.
  destruct (nth_error h p) as [c|] eqn:E.
  - apply IH. exact Hrest.
  - apply nth_error_None in E. lia.
Qed.

Lemma map_opt_some {X Y} (f : X -> option Y) l :
  (forall x, In x l -> exists y, f x = Some y) -> exists l', map_opt f l = Some l'.
Proof.
  induction l as [|x l IH]; intro Hall; simpl; [eauto|].
  destruct (Hall x (or_introl eq_refl)) as [y ->].
  destruct IH as [l' ->]; [intros; apply Hall; right; assumption|]. eauto.
Qed.

Lemma insert_constraints_map_valid config joint_names :
  forall s b s1,
    insert_constraints config joint_names s = Ret b s1 ->
    (forall k p, In (k, p) (constraint_map_ s) -> p < length (heap s)) ->
    forall k p, In (k, p) (constraint_map_ s1) -> p < length (heap s1).
Proof.
  induction config as [|c rest IH]; intros s b s1 Hi Hvalid; simpl in Hi.
  - injection Hi as _ <-. exact Hvalid.
  - destruct (list_modify _ _ _) as [cv|]; [|discriminate]. simpl in Hi.
    destruct (StdMap.count (ConstraintConfig.name c) (constraint_map_ s) =? 0) eqn:Hcount;
      simpl in Hi.
    + apply StdMap_count_0 in Hcount. eapply IH; [exact Hi|]. simpl.
      intros k p Hin. rewrite length_app. simpl.
      apply (Permutation_in _ (@StdMap_set_perm _ _ _ _ (@StdMap_find_None _ _ _ Hcount))) in Hin.
      destruct Hin as [Heq|Hin]; [injection Heq as _ <-; lia|].
      apply Hvalid in Hin. lia.
    + injection Hi as _ <-. simpl. intros k p Hin. rewrite length_app. simpl.
      apply Hvalid in Hin. lia.
Qed.

Lemma create_tf_map_some entries :
  forall s,
    (forall k p, In (k, p) entries -> p < length (heap s)) ->
    exists s', create_tf_map entries s = Some s'.
Proof.
  induction entries as [|[k p] rest IH]; intros s Hvalid; simpl; [eauto|].
  destruct (nth_error (heap s) p) as [c|] eqn:E.
  2:{ apply nth_error_None in E. specialize (Hvalid k p (or_introl eq_refl)). lia. }
  destruct (ConstraintConfig.type (config c)).
  - apply IH. intros k' p' Hin.
    repeat match goal with
           | |- context [heap (register_task_frame ?f ?x)] =>
               rewrite (proj1 (proj2 (register_task_frame_frame f x)))
           end.
    apply (Hvalid k' p'). right. exact Hin.
  - apply IH. intros k' p' Hin. apply (Hvalid k' p'). right. exact Hin.
Qed.

(** [configure] returns, for every configuration whose priorities fit an
    [int] with room for [max_prio + 1]; it returns [true] exactly when no
    priority is negative and no two specifications share a name. *)
Lemma configure_outcome specifications joint_names s0 :
  Forall (fun c => (ConstraintConfig.priority c < INT_MAX)%Z) specifications ->
  exists b s,
    configure specifications joint_names s0 = Ret b s /\
    (b = true <->
     Forall (fun c => (0 <= ConstraintConfig.priority c)%Z) specifications /\
     NoDup (map ConstraintConfig.name specifications)).
Proof.
  intro Hbound. unfold configure.
  destruct (scan_priorities specifications 0) as [mp|] eqn:Hscan.
  2:{ eexists false, _. split; [reflexivity|]. split; [discriminate|].
      intros (Hpos & _). apply scan_priorities_negative in Hscan.
      destruct Hscan as (c & Hin & Hneg). rewrite Forall_forall in Hpos.
      specialize (Hpos c Hin). lia. }
  pose proof (@scan_priorities_bound _ _ _ _ Hscan (eq_refl : (0 < INT_MAX)%Z) Hbound) as Hmp.
  pose proof (@scan_priorities_spec _ _ _ Hscan) as (Hmp0 & Hprio).
  replace (mp + 1 >? INT_MAX)%Z with false by (symmetry; rewrite Z.gtb_ltb; apply Z.ltb_ge; lia).
  change (set_joint_index_map_ _ _) with (configure_base joint_names s0).
  simpl constraint_vector_.
  assert (Hcv0 : @vector_resize (list nat) (Z.to_nat (mp + 1)) [] []
                 = repeat [] (Z.to_nat (mp + 1))).
  { unfold vector_resize. rewrite firstn_nil. simpl. rewrite Nat.sub_0_r. reflexivity. }
  rewrite Hcv0.
  set (s1 := set_constraint_vector_ (repeat [] (Z.to_nat (mp + 1)))
               (configure_base joint_names s0)).
  destruct (@insert_constraints_outcome specifications joint_names s1) as (b & s2 & Hi & Hb).
  { eapply Forall_impl; [|exact Hprio]. simpl. intros c Hc. rewrite repeat_length. lia. }
  rewrite Hi.
  assert (Hpos : Forall (fun c => (0 <= ConstraintConfig.priority c)%Z) specifications).
  { eapply Forall_impl; [|exact Hprio]. simpl. intros; lia. }
  destruct b.
  - assert (Hempty : concat (repeat (@nil nat) (Z.to_nat (mp + 1))) = []).
    { clear. induction (Z.to_nat (mp + 1)) as [|n IH]; simpl; auto. }
    pose proof (insert_constraints_length _ _ _ Hi) as Hlen.
    simpl in Hlen. rewrite repeat_length in Hlen.
    pose proof (@insert_constraints_pointers _ _ _ _ _ Hi) as Hptr.
    destruct Hptr as (Hnd & Hvalid);
      [simpl; rewrite Hempty; constructor|simpl; rewrite Hempty; intros p []|].
    pose proof (@insert_constraints_map_valid _ _ _ _ _ Hi) as Hmapv.
    pose proof (@erase_empty_priorities_spec (constraint_vector_ s2) []
                  (S (length (constraint_vector_ s2)))) as Hspec.
    cbn [app length Z.of_nat] in Hspec.
    rewrite Hspec; [|lia|rewrite Hlen; unfold UINT_MOD; unfold INT_MAX in Hmp; lia].
    match goal with
    | |- context [map_opt ?f ?l] =>
        destruct (@map_opt_some _ _ f l) as [rows Hrows]
    end.
    { intros level Hlevel. apply count_level_rows_some. simpl in Hlevel |- *.
      apply Forall_forall. intros p Hp. apply Hvalid.
      rewrite <- concat_filter_nonempty. apply in_concat. eauto. }
    rewrite Hrows.
    match goal with
    | |- context [create_tf_map ?m ?x] =>
        destruct (@create_tf_map_some m x) as [s3 Hs3]
    end.
    { simpl. apply Hmapv. simpl. intros k p []. }
    rewrite Hs3. eexists true, _. split; [reflexivity|].
    split; [|reflexivity]. intros _. split; [exact Hpos|].
    apply Hb. reflexivity.
  - eexists false, _. split; [reflexivity|]. split; [discriminate|].
    intros (_ & Hnd).
    assert (Htrue : false = true); [|discriminate].
    apply Hb. split; [exact Hnd|]. intros c _. reflexivity.
Qed.


(** ** Solver states in use *)

Lemma write_handle_frame p f s u s' :
  write_handle p f s = Ret u s' ->
  solver_frame s s' /\ length (heap s') = length (heap s).
Proof.
  unfold write_handle. destruct (nth_error (heap s) p) as [c|]; [|discriminate].
  destruct (list_set p (f c) (heap s)) as [h|] eqn:Hset; [|discriminate].
  intros [= _ <-]. simpl. split; [unfold solver_frame; simpl; tauto|].
  eapply list_set_length; eauto.
Qed.

(** In every state in use the solver is configured, it has one level count
    for all its containers, no constraint is listed twice, the frames of
    every Cartesian constraint are required, and every joint constraint is
    well formed. *)
Lemma configured_from_invariants specifications s :
  configured_from specifications s ->
  configured_ s = true /\
  NoDup (concat (constraint_vector_ s)) /\
  n_prios_ s = length (constraint_vector_ s) /\
  (forall c f, In c specifications -> In f (frames_of c) -> In f (task_frame_ids s)) /\
  (forall p c, nth_error (heap s) p = Some c ->
               ConstraintConfig.type (config c) = jnt ->
               joint_constraint_wf (joint_index_map_ s) (no_robot_joints_ s) c).
Proof.
  induction 1 as [joint_names s0 s Hc | s p f c0 s' _ IH Hp0 Hshape Hw
                 | svd task_frames now s equations s' equations' _ IH Hp].
  - split; [|split; [|split; [|split]]].
    + apply configure_true_inv in Hc.
      destruct Hc as (? & ? & ? & ? & ? & _ & _ & _ & _ & _ & _ & ->). reflexivity.
    + apply (@configure_pointers _ _ _ _ Hc).
    + destruct (@configure_levels _ _ _ _ Hc) as (? & _ & _ & _ & Hn). exact Hn.
    + intros c f Hin Hf. apply (@configure_task_frame_ids _ _ _ _ _ _ Hc Hin Hf).
    + intros p c Hp Hty. eapply configure_joint_constraint_wf; eauto.
  - destruct IH as (Hflag & Hnd & Hnp & Hids & Hwf).
    pose proof (@write_handle_frame _ _ _ _ _ Hw) as (Hf & _).
    unfold solver_frame in Hf. destruct Hf as (H1 & H2 & H3 & _ & H5 & H6 & _ & H8).
    rewrite H1, H2, H3, H5, H8.
    split; [exact Hflag|]. split; [exact Hnd|]. split; [exact Hnp|]. split.
    + intros c f' Hin Hf'. rewrite H6. eauto.
    + intros q c Hq Hty.
      unfold write_handle in Hw. rewrite Hp0 in Hw.
      destruct (list_set p (f c0) (heap s)) as [h|] eqn:Hset; [|discriminate].
      injection Hw as <-. simpl in Hq.
      destruct (Nat.eq_dec p q) as [<-|Hne].
      * rewrite (list_set_same _ _ _ Hset) in Hq. injection Hq as <-.
        destruct Hshape as (S1 & S2 & S3 & S4).
        rewrite S1 in Hty. specialize (Hwf p c0 Hp0 Hty).
        unfold joint_constraint_wf in *. rewrite S1, S2, S3, S4. exact Hwf.
      * rewrite (list_set_other _ _ Hset Hne) in Hq. eauto.
  - destruct IH as (Hflag & Hnd & Hnp & Hids & Hwf).
    destruct (@prepareEqSystem_Ret _ _ _ _ _ _ _ Hp Hnd) as (Hf & _ & _ & Hout & Hall).
    unfold solver_frame in Hf. destruct Hf as (H1 & H2 & H3 & _ & H5 & H6 & _ & H8).
    rewrite H1, H2, H3, H5, H8.
    split; [exact Hflag|]. split; [exact Hnd|]. split; [exact Hnp|]. split.
    + intros c f' Hin Hf'. rewrite H6. eauto.
    + intros q c' Hq Hty.
      destruct (in_dec Nat.eq_dec q (concat (constraint_vector_ s))) as [Hin|Hnin].
      * apply in_concat in Hin. destruct Hin as (ptrs & Hptrs & Hqin).
        apply In_nth_error in Hptrs. destruct Hptrs as (prio & Hprio).
        apply In_nth_error in Hqin. destruct Hqin as (k & Hk).
        assert (Hlt : prio < n_prios_ s).
        { rewrite Hnp. apply nth_error_Some. congruence. }
        destruct (Hall prio ptrs Hlt Hprio) as (e' & He' & Hk').
        destruct (Hk' k q Hk) as (c & c'' & Hc & Hc'' & Hev & _).
        rewrite Hq in Hc''. injection Hc'' as <-.
        pose proof (evaluated_weight_inputs Hev) as (Ecfg & _).
        rewrite Ecfg in Hty.
        destruct (@joint_constraint_evaluated _ _ _ _ _ _ _ _ _ _ _ _
                    Hp Hnd Hlt Hprio Hk Hc Hty (Hwf q c Hc Hty))
          as (c2 & e2 & Hc2 & _ & _ & _ & _ & _ & _ & Hwf2).
        rewrite Hq in Hc2. injection Hc2 as <-. exact Hwf2.
      * rewrite Hout in Hq; [eauto|].
        intros prio ptrs _ Hptrs Hqin. apply Hnin.
        apply in_concat. exists ptrs. split; [eapply nth_error_In; eauto|exact Hqin].
Qed.

(** C8.  [prepareEqSystem] throws the not-configured error in every state in
    which no [configure] has succeeded, and, in every state in use after a
    successful [configure], throws "Incomplete task frame input" as soon as
    the task-frame input lacks a frame that some Cartesian constraint names
    as root, tip or reference frame; in both cases the solver and
    [equations] are as they were before the call. *)
Theorem assemble_preconditions svd task_frames now s equations :
  (unconfigured s ->
   prepareEqSystem svd task_frames now (s, equations)
   = Throw not_configured (s, equations)) /\
  (forall specifications c f,
      configured_from specifications s ->
      In c specifications -> In f (frames_of c) ->
      StdMap.count f task_frames = 0 ->
      prepareEqSystem svd task_frames now (s, equations)
      = Throw incomplete_task_frame_input (s, equations)).
Proof.
  split.
  - intro Hun. apply prepareEqSystem_not_configured. apply unconfigured_flag. exact Hun.
  - intros specifications c f Hs Hin Hf Hcount.
    destruct (@configured_from_invariants _ _ Hs) as (Hflag & _ & _ & Hids & _).
    destruct (missing_task_frame_some _ _ _ (Hids c f Hin Hf) Hcount) as (g & Hg).
    unfold prepareEqSystem, bind, get. simpl. rewrite Hflag, Hg. reflexivity.
Qed.

Lemma assemble_preconditions_witness :
  prepareEqSystem svd_of_identity [] (fun _ _ _ => 0%Z) (WbcVelocity_ctor 0, [])
  = Throw not_configured (WbcVelocity_ctor 0, []) /\
  prepareEqSystem svd_of_identity [] (fun _ _ _ => 0%Z)
    (configured_state [example_cart_config "c" 0] ["j1"], [])
  = Throw incomplete_task_frame_input
      (configured_state [example_cart_config "c" 0] ["j1"], []).
Proof.
  split.
  - apply (proj1 (assemble_preconditions svd_of_identity [] (fun _ _ _ => 0%Z)
                    (WbcVelocity_ctor 0) [])).
    apply unconfigured_ctor.
  - apply (proj2 (assemble_preconditions svd_of_identity [] (fun _ _ _ => 0%Z)
                    (configured_state [example_cart_config "c" 0] ["j1"]) [])
             [example_cart_config "c" 0] (example_cart_config "c" 0) "hand").
    + apply (configured_by [example_cart_config "c" 0] ["j1"] (WbcVelocity_ctor 0)).
      vm_compute. reflexivity.
    + left. reflexivity.
    + right. left. reflexivity.
    + reflexivity.
Defined.

(** ** Joint names listed twice *)

(** When a joint name is listed twice the joint index map is smaller than
    the list, and [jointNames] writes past the end of its vector. *)
Lemma jointNames_duplicate_names :
  jointNames (configured_state [] ["a"; "a"]) = Undef.
Proof. reflexivity. Qed.

(** C9, evaluated on the code.  [configure] checks the names of the
    constraints for repetitions, but not the names of the joints: it returns
    [true] for the joint list [a; b; a].  The joint index map then has two
    entries, [a] with the index 2 and [b] with the index 1, and [jointNames],
    which sizes its result by the map and writes every name at its index,
    writes the name [a] past the end of a vector of two entries.  It does
    not return the configured list. *)
Theorem repeated_joint_name_accepted :
  forall n,
  exists s,
    configure [] ["a"; "b"; "a"] (WbcVelocity_ctor n) = Ret true s /\
    joint_index_map_ s = [("a", 2); ("b", 1)] /\
    jointNames s = Undef.
Proof.
  intro n. eexists.
  split; [vm_compute; reflexivity|].
  split; reflexivity.
Qed.

(** ** The rows a constraint writes *)

Lemma level_in_range specifications s prio ptrs :
  configured_from specifications s ->
  nth_error (constraint_vector_ s) prio = Some ptrs ->
  NoDup (concat (constraint_vector_ s)) /\ prio < n_prios_ s.
Proof.
  intros Hs Hptrs.
  destruct (@configured_from_invariants _ _ Hs) as (_ & Hnd & Hnp & _).
  split; [exact Hnd|]. rewrite Hnp. apply nth_error_Some. congruence.
Qed.

(** C3.  In every completed assembly of a solver in use, for the constraint
    at position [k] of level [prio]: its rows of the level's weight vector
    hold weight x activation x (0 if timed out, else 1), entry by entry, where
    "timed out" means that the timeout is positive and that the time elapsed
    since the last reference update, at the clock reading of the timeout
    check, exceeds it.  The elapsed time that is compared is the count of
    microseconds between the two instants divided by 10^6, as [toSeconds]
    rounds it to a [double]: it differs from the exact quotient by at most
    one part in 2^51.  So the rows are zero, whatever the weights and the
    activation are, when the constraint is timed out, which it is when the
    exact quotient exceeds a positive timeout by more than that part; the
    rows are weight x activation when the exact quotient stays below the
    timeout by that part; and a timeout that is not positive never times
    out. *)
Theorem effective_weight_rows
  specifications svd task_frames now s equations s' equations' prio ptrs k p c :
  configured_from specifications s ->
  prepareEqSystem svd task_frames now (s, equations) = Ret tt (s', equations') ->
  nth_error (constraint_vector_ s) prio = Some ptrs ->
  nth_error ptrs k = Some p ->
  nth_error (heap s) p = Some c ->
  exists c' e',
    nth_error (heap s') p = Some c' /\
    nth_error equations' prio = Some e' /\
    (timed_out (now prio k at_timeout_check) c = true <->
     (0 < ConstraintConfig.timeout (config c) /\
      ConstraintConfig.timeout (config c) < elapsed (now prio k at_timeout_check) c)%Q) /\
    (Qabs (elapsed (now prio k at_timeout_check) c
           - exact_elapsed (now prio k at_timeout_check) c)
     <= Qabs (exact_elapsed (now prio k at_timeout_check) c) * seconds_tolerance)%Q /\
    constraint_timed_out c' =
      (if timed_out (now prio k at_timeout_check) c then 1 else 0)%Z /\
    rows_of (heap s) ptrs k c (LinearEquationSystem.W_row e') =
      map (fun w => (w * activation c *
                     (if timed_out (now prio k at_timeout_check) c then 0 else 1))%Q)
          (weights c) /\
    (timed_out (now prio k at_timeout_check) c = true ->
     Forall (fun w => w == 0) (rows_of (heap s) ptrs k c (LinearEquationSystem.W_row e'))) /\
    ((0 < ConstraintConfig.timeout (config c))%Q ->
     (ConstraintConfig.timeout (config c)
      < exact_elapsed (now prio k at_timeout_check) c * (1 - seconds_tolerance))%Q ->
     Forall (fun w => w == 0) (rows_of (heap s) ptrs k c (LinearEquationSystem.W_row e'))) /\
    ((exact_elapsed (now prio k at_timeout_check) c * (1 + seconds_tolerance)
      <= ConstraintConfig.timeout (config c))%Q ->
     rows_of (heap s) ptrs k c (LinearEquationSystem.W_row e') =
       map (fun w => (w * activation c * 1)%Q) (weights c)) /\
    (~ (0 < ConstraintConfig.timeout (config c))%Q ->
     timed_out (now prio k at_timeout_check) c = false).
Proof.
  intros Hs Hp Hptrs Hk Hc.
  destruct (@level_in_range _ _ _ _ Hs Hptrs) as (Hnd & Hprio).
  destruct (@prepareEqSystem_Ret _ _ _ _ _ _ _ Hp Hnd) as (_ & _ & _ & _ & Hall).
  destruct (Hall prio ptrs Hprio Hptrs) as (e' & He' & Hk').
  destruct (Hk' k p Hk) as (c0 & c' & Hc0 & Hc' & Hev & Hw & _).
  rewrite Hc in Hc0. injection Hc0 as <-.
  apply evaluated_weight_inputs in Hev. destruct Hev as (_ & _ & Hwe & Hact & Hflag).
  exists c', e'. split; [exact Hc'|]. split; [exact He'|].
  unfold rows_of.
  split; [apply timed_out_iff|]. split; [apply elapsed_error|]. split; [exact Hflag|].
  assert (Hrows : segment (LinearEquationSystem.W_row e')
                          (rows_before (heap s) (firstn k ptrs)) (no_variables c)
                  = map (fun w => (w * activation c *
                                   (if timed_out (now prio k at_timeout_check) c then 0 else 1))%Q)
                        (weights c)).
  { rewrite Hw. unfold effective_weights, vscale. rewrite map_map, Hwe, Hact, Hflag.
    apply map_ext. intro w.
    destruct (timed_out (now prio k at_timeout_check) c); reflexivity. }
  assert (Hzero : timed_out (now prio k at_timeout_check) c = true ->
                  Forall (fun w => w == 0)
                         (segment (LinearEquationSystem.W_row e')
                                  (rows_before (heap s) (firstn k ptrs)) (no_variables c))).
  { intro Hto. rewrite Hrows, Hto. apply Forall_forall. intros x Hx.
    apply in_map_iff in Hx. destruct Hx as (w & <- & _). apply Qmult_0_r. }
  split; [exact Hrows|]. split; [exact Hzero|]. split; [|split].
  - intros Hpos Habove. apply Hzero. apply (@timed_out_above _ _ Hpos Habove).
  - intro Hbelow. rewrite Hrows. rewrite (@timed_out_below _ _ Hbelow). reflexivity.
  - intro Hnot. destruct (timed_out (now prio k at_timeout_check) c) eqn:E; [|reflexivity].
    apply timed_out_iff in E. tauto.
Qed.

Lemma effective_weight_rows_witness :
  exists c' e',
    nth_error (heap (fst (cycle svd_of_identity [] two_seconds (example_timeout_state, [])))) 0
    = Some c' /\
    nth_error (snd (cycle svd_of_identity [] two_seconds (example_timeout_state, []))) 0
    = Some e' /\
    (timed_out (two_seconds 0%nat 0%nat at_timeout_check) (nth 0 (heap example_timeout_state) default_Constraint) = true <->
     (0 < 1 /\ 1 < elapsed (two_seconds 0%nat 0%nat at_timeout_check) (nth 0 (heap example_timeout_state) default_Constraint))%Q) /\
    (Qabs (elapsed (two_seconds 0%nat 0%nat at_timeout_check) (nth 0 (heap example_timeout_state) default_Constraint)
           - exact_elapsed (two_seconds 0%nat 0%nat at_timeout_check) (nth 0 (heap example_timeout_state) default_Constraint))
     <= Qabs (exact_elapsed (two_seconds 0%nat 0%nat at_timeout_check) (nth 0 (heap example_timeout_state) default_Constraint))
        * seconds_tolerance)%Q /\
    constraint_timed_out c' = 1%Z /\
    rows_of (heap example_timeout_state) [0] 0
            (nth 0 (heap example_timeout_state) default_Constraint)
            (LinearEquationSystem.W_row e') = [(1 * 1 * 0)%Q] /\
    (timed_out (two_seconds 0%nat 0%nat at_timeout_check) (nth 0 (heap example_timeout_state) default_Constraint) = true ->
     Forall (fun w => w == 0)
            (rows_of (heap example_timeout_state) [0] 0
                     (nth 0 (heap example_timeout_state) default_Constraint)
                     (LinearEquationSystem.W_row e'))) /\
    ((0 < 1)%Q ->
     (1 < exact_elapsed (two_seconds 0%nat 0%nat at_timeout_check) (nth 0 (heap example_timeout_state) default_Constraint)
          * (1 - seconds_tolerance))%Q ->
     Forall (fun w => w == 0)
            (rows_of (heap example_timeout_state) [0] 0
                     (nth 0 (heap example_timeout_state) default_Constraint)
                     (LinearEquationSystem.W_row e'))) /\
    ((exact_elapsed (two_seconds 0%nat 0%nat at_timeout_check) (nth 0 (heap example_timeout_state) default_Constraint)
      * (1 + seconds_tolerance) <= 1)%Q ->
     rows_of (heap example_timeout_state) [0] 0
             (nth 0 (heap example_timeout_state) default_Constraint)
             (LinearEquationSystem.W_row e') = [(1 * 1 * 1)%Q]) /\
    (~ (0 < 1)%Q ->
     timed_out (two_seconds 0%nat 0%nat at_timeout_check) (nth 0 (heap example_timeout_state) default_Constraint) = false).
Proof.
  apply (@effective_weight_rows [example_timeout_config] svd_of_identity [] two_seconds
           example_timeout_state [] _ _ 0 [0] 0 0
           (nth 0 (heap example_timeout_state) default_Constraint)).
  - apply (@configured_write [example_timeout_config]
             (configured_state [example_timeout_config] ["j1"; "j2"]) 0
             (fun c => setActivation 1 (setReference [(1 # 2)%Q] 0%Z c))
             (new_ExtendedConstraint example_timeout_config ["j1"; "j2"])).
    + apply (@configured_by [example_timeout_config] ["j1"; "j2"] (WbcVelocity_ctor 0)).
      vm_compute. reflexivity.
    + vm_compute. reflexivity.
    + repeat split.
    + vm_compute. reflexivity.
  - vm_compute. reflexivity.
  - vm_compute. reflexivity.
  - reflexivity.
  - vm_compute. reflexivity.
Defined.

(** The timeout check at a rounding boundary.  With the timeout 0.3 and a
    reference that is 300000 microseconds old, the exact elapsed time, 3/10,
    exceeds the timeout, the [double] nearest to 0.3; but [toSeconds] rounds
    the elapsed time to that same [double], the comparison [diff > timeout]
    fails, and the row keeps its weight. *)
Lemma timeout_at_rounding_boundary :
  exists c' e',
    cycle svd_of_identity [] three_tenths (example_boundary_state, [])
    = (set_heap [c'] example_boundary_state, [e']) /\
    (ConstraintConfig.timeout (config c') < exact_elapsed 300000%Z c')%Q /\
    (elapsed 300000%Z c' == ConstraintConfig.timeout (config c'))%Q /\
    constraint_timed_out c' = 0%Z /\
    LinearEquationSystem.W_row e' = [(1 * 1 * 1)%Q].
Proof.
  eexists. eexists. split; [vm_compute; reflexivity|].
  repeat split.
Qed.

(** C4.  In every completed assembly of a solver in use, a constraint whose
    activation is zero leaves the assembly with its raw reference value and
    its root-frame reference value all zero, and zeros are what its rows of
    the level's reference vector hold, whatever reference the caller had
    set. *)
Theorem zero_activation_zero_reference
  specifications svd task_frames now s equations s' equations' prio ptrs k p c :
  configured_from specifications s ->
  prepareEqSystem svd task_frames now (s, equations) = Ret tt (s', equations') ->
  nth_error (constraint_vector_ s) prio = Some ptrs ->
  nth_error ptrs k = Some p ->
  nth_error (heap s) p = Some c ->
  activation c == 0 ->
  exists c' e',
    nth_error (heap s') p = Some c' /\
    nth_error equations' prio = Some e' /\
    y_ref c' = zeros (length (y_ref c)) /\
    y_ref_root c' = zeros (no_variables c) /\
    rows_of (heap s) ptrs k c (LinearEquationSystem.y_ref e') = zeros (no_variables c).
Proof.
  intros Hs Hp Hptrs Hk Hc Hact.
  destruct (@level_in_range _ _ _ _ Hs Hptrs) as (Hnd & Hprio).
  destruct (@prepareEqSystem_Ret _ _ _ _ _ _ _ Hp Hnd) as (_ & _ & _ & _ & Hall).
  destruct (Hall prio ptrs Hprio Hptrs) as (e' & He' & Hk').
  destruct (Hk' k p Hk) as (c0 & c' & Hc0 & Hc' & Hev & _ & _ & Hy & _ & _ & Hyl).
  rewrite Hc in Hc0. injection Hc0 as <-.
  exists c', e'. split; [exact Hc'|]. split; [exact He'|].
  apply evaluated_same_inputs in Hev. destruct Hev as (c1 & Hc1 & Hsame).
  unfold same_inputs in Hsame. destruct Hsame as (_ & _ & _ & Ha1 & _ & _ & Hy1).
  pose proof (check_timeout_same (now prio k at_timeout_check) c) as (_ & _ & _ & Ka & Ky & _).
  assert (Hzero : Qeq_bool (activation (set_time (now prio k at_time_stamp) c1)) 0 = true).
  { simpl. rewrite Ha1, Ka. apply Qeq_bool_iff. exact Hact. }
  assert (Hyr : y_ref c' = zeros (length (y_ref c)) /\
                y_ref_root c' = zeros (length (y_ref_root c1))).
  { rewrite Hc1. unfold deactivate. rewrite Hzero. simpl. unfold setZero.
    rewrite Hy1, Ky. auto. }
  destruct Hyr as [Hyr Hyrr].
  assert (Hlen : length (y_ref_root c1) = no_variables c).
  { rewrite <- Hyl, Hyrr. symmetry. apply zeros_length. }
  rewrite Hlen in Hyrr.
  split; [exact Hyr|]. split; [exact Hyrr|].
  unfold rows_of. rewrite Hy. exact Hyrr.
Qed.

Lemma zero_activation_zero_reference_witness :
  exists c' e',
    nth_error (heap (fst (cycle svd_of_identity [] two_seconds (example_inactive_state, [])))) 0
    = Some c' /\
    nth_error (snd (cycle svd_of_identity [] two_seconds (example_inactive_state, []))) 0
    = Some e' /\
    y_ref c' = zeros 1 /\
    y_ref_root c' = zeros 1 /\
    rows_of (heap example_inactive_state) [0] 0
            (nth 0 (heap example_inactive_state) default_Constraint)
            (LinearEquationSystem.y_ref e') = zeros 1.
Proof.
  apply (@zero_activation_zero_reference [example_timeout_config] svd_of_identity []
           two_seconds example_inactive_state [] _ _ 0 [0] 0 0
           (nth 0 (heap example_inactive_state) default_Constraint)).
  - apply (@configured_write [example_timeout_config]
             (configured_state [example_timeout_config] ["j1"; "j2"]) 0
             (fun c => setActivation 0 (setReference [(1 # 2)%Q] 0%Z c))
             (new_ExtendedConstraint example_timeout_config ["j1"; "j2"])).
    + apply (@configured_by [example_timeout_config] ["j1"; "j2"] (WbcVelocity_ctor 0)).
      vm_compute. reflexivity.
    + vm_compute. reflexivity.
    + repeat split.
    + vm_compute. reflexivity.
  - vm_compute. reflexivity.
  - vm_compute. reflexivity.
  - reflexivity.
  - vm_compute. reflexivity.
  - vm_compute. reflexivity.
Defined.

(** C5.  In every completed assembly of a solver in use the task matrix of
    a joint constraint is the selection matrix of its joint list: row [i] has
    a one at the column that the joint index map gives for the [i]-th listed
    joint and zeros elsewhere; the matrix occupies the constraint's rows of
    the level's task matrix; and the root-frame reference value equals the
    raw reference value, which is the one the caller set unless the
    activation is zero.  On the robot with joints [j1], [j2], the joint
    constraint on [j2] with weight 1, reference 0.5 and activation 1 gives
    the system with task-matrix row [0, 1], reference [0.5] and weight [1]. *)
Theorem joint_constraint_selection_matrix :
  (forall specifications svd task_frames now s equations s' equations' prio ptrs k p c,
      configured_from specifications s ->
      prepareEqSystem svd task_frames now (s, equations) = Ret tt (s', equations') ->
      nth_error (constraint_vector_ s) prio = Some ptrs ->
      nth_error ptrs k = Some p ->
      nth_error (heap s) p = Some c ->
      ConstraintConfig.type (config c) = jnt ->
      exists c' e',
        nth_error (heap s') p = Some c' /\
        nth_error equations' prio = Some e' /\
        A c' = selection_matrix (joint_index_map_ s)
                 (ConstraintConfig.joint_names (config c)) (no_robot_joints_ s) /\
        rows_of (heap s) ptrs k c (LinearEquationSystem.A e') = A c' /\
        y_ref_root c' = y_ref c' /\
        rows_of (heap s) ptrs k c (LinearEquationSystem.y_ref e') = y_ref c' /\
        (~ activation c == 0 -> y_ref c' = y_ref c)) /\
  (forall svd now,
      exists s',
        prepareEqSystem svd [] now (scenario_state, [])
        = Ret tt (s', [LinearEquationSystem.mk [[0; 1]] [1 # 2] [1]]%Q)).
Proof.
  split.
  - intros specifications svd task_frames now s equations s' equations' prio ptrs k p c
           Hs Hp Hptrs Hk Hc Hty.
    destruct (@level_in_range _ _ _ _ Hs Hptrs) as (Hnd & Hprio).
    destruct (@configured_from_invariants _ _ Hs) as (_ & _ & _ & _ & Hwf).
    destruct (@joint_constraint_evaluated _ _ _ _ _ _ _ _ _ _ _ _
                Hp Hnd Hprio Hptrs Hk Hc Hty (Hwf p c Hc Hty))
      as (c' & e' & H1 & H2 & H3 & H4 & H5 & H6 & H7 & _).
    exists c', e'. repeat split; assumption.
  - intros svd now. eexists. vm_compute. reflexivity.
Qed.

Lemma joint_constraint_selection_matrix_witness :
  exists c' e',
    nth_error (heap (fst (cycle svd_of_identity [] two_seconds (scenario_state, [])))) 0
    = Some c' /\
    nth_error (snd (cycle svd_of_identity [] two_seconds (scenario_state, []))) 0 = Some e' /\
    A c' = selection_matrix (joint_index_map_ scenario_state) ["j2"] 2 /\
    rows_of (heap scenario_state) [0] 0 (nth 0 (heap scenario_state) default_Constraint)
            (LinearEquationSystem.A e') = A c' /\
    y_ref_root c' = y_ref c' /\
    rows_of (heap scenario_state) [0] 0 (nth 0 (heap scenario_state) default_Constraint)
            (LinearEquationSystem.y_ref e') = y_ref c' /\
    (~ activation (nth 0 (heap scenario_state) default_Constraint) == 0 ->
     y_ref c' = y_ref (nth 0 (heap scenario_state) default_Constraint)).
Proof.
  apply (proj1 joint_constraint_selection_matrix [scenario_config] svd_of_identity []
           two_seconds scenario_state [] _ _ 0 [0] 0 0
           (nth 0 (heap scenario_state) default_Constraint)).
  - apply (@configured_write [scenario_config]
             (configured_state [scenario_config] ["j1"; "j2"]) 0
             (fun c => setActivation 1 (setWeights [1%Q] (setReference [(1 # 2)%Q] 0%Z c)))
             (new_ExtendedConstraint scenario_config ["j1"; "j2"])).
    + apply (@configured_by [scenario_config] ["j1"; "j2"] (WbcVelocity_ctor 0)).
      vm_compute. reflexivity.
    + vm_compute. reflexivity.
    + repeat split.
    + vm_compute. reflexivity.
  - vm_compute. reflexivity.
  - vm_compute. reflexivity.
  - reflexivity.
  - vm_compute. reflexivity.
  - vm_compute. reflexivity.
Defined.

(** * Further properties *)

(** ** The order of the keys of a map *)

Lemma key_lt_iff a b : key_lt a b <-> OrderedTypeEx.String_as_OT.lt a b.
Proof.
  unfold key_lt, String.ltb. rewrite <- OrderedTypeEx.String_as_OT.cmp_lt.
  change (OrderedTypeEx.String_as_OT.cmp a b) with (String.compare a b).
  destruct (String.compare a b); split; congruence.
Qed.

Lemma key_lt_trans a b c : key_lt a b -> key_lt b c -> key_lt a c.
Proof.
  rewrite !key_lt_iff. apply OrderedTypeEx.String_as_OT.lt_trans.
Qed.

Lemma key_lt_irrefl a : ~ key_lt a a.
Proof.
  rewrite key_lt_iff. intro Hlt.
  exact (@OrderedTypeEx.String_as_OT.lt_not_eq a a Hlt eq_refl).
Qed.

Lemma key_lt_total a b :
  String.eqb a b = false -> String.ltb a b = false -> key_lt b a.
Proof.
  unfold key_lt, String.ltb. intros Hne Hlt.
  rewrite String.compare_antisym.
  destruct (String.compare a b) eqn:E; simpl; try congruence.
  apply String.compare_eq_iff in E. apply String.eqb_neq in Hne. contradiction.
Qed.

Lemma StdMap_keys_set {V} (k k0 : string) (v : V) m :
  In k0 (StdMap.keys (StdMap.set k v m)) <-> k0 = k \/ In k0 (StdMap.keys m).
Proof.
  induction m as [|[k' v'] m IH]; simpl.
  - intuition.
  - destruct (String.eqb k k') eqn:E.
    + apply String.eqb_eq in E. subst k'. simpl. intuition.
    + destruct (String.ltb k k'); simpl; [intuition|].
      rewrite IH. intuition.
Qed.

Lemma StdMap_sorted_set {V} (k : string) (v : V) m :
  sorted_keys m -> sorted_keys (StdMap.set k v m).
Proof.
  unfold sorted_keys.
  induction m as [|[k' v'] m IH]; simpl; intro Hs.
  - constructor; constructor.
  - inversion Hs as [|? ? Hs' Hall]; subst.
    destruct (String.eqb k k') eqn:E.
    + apply String.eqb_eq in E. subst k'. simpl. constructor; assumption.
    + destruct (String.ltb k k') eqn:L; simpl.
      * constructor; [exact Hs|].
        constructor; [exact L|].
        eapply Forall_impl; [|exact Hall]. intros a Ha. eapply key_lt_trans; eauto.
      * constructor; [auto|].
        apply Forall_forall. intros x Hx.
        apply (StdMap_keys_set k x v m) in Hx. destruct Hx as [->|Hx].
        -- apply key_lt_total; assumption.
        -- rewrite Forall_forall in Hall. auto.
Qed.

Lemma StdMap_sorted_NoDup {V} (m : StdMap.t V) :
  sorted_keys m -> NoDup (StdMap.keys m).
Proof.
  unfold sorted_keys. induction 1 as [|k l Hs IH Hall]; constructor; [|exact IH].
  intro Hin. rewrite Forall_forall in Hall. exact (key_lt_irrefl (Hall _ Hin)).
Qed.

Lemma StdMap_sorted_find {V} (k : string) (v : V) m :
  sorted_keys m -> In (k, v) m -> StdMap.find k m = Some v.
Proof.
  intros Hs Hin. apply StdMap_sorted_NoDup in Hs.
  induction m as [|[k' v'] m IH]; simpl in *; [contradiction|].
  inversion Hs as [|? ? Hnin Hnd]; subst.
  destruct Hin as [Heq|Hin].
  - injection Heq as -> ->. rewrite String.eqb_refl. reflexivity.
  - destruct (String.eqb k k') eqn:E; [|auto].
    apply String.eqb_eq in E. subst k'. exfalso. apply Hnin.
    apply (in_map fst) in Hin. exact Hin.
Qed.

Lemma StdMap_find_keys {V} (k : string) (m : StdMap.t V) :
  In k (StdMap.keys m) <-> StdMap.find k m <> None.
Proof.
  induction m as [|[k' v'] m IH]; simpl; [tauto|].
  destruct (String.eqb k k') eqn:E.
  - apply String.eqb_eq in E. subst. split; [discriminate|auto].
  - apply String.eqb_neq in E. rewrite <- IH. split; [intros [?|?]; congruence || assumption|auto].
Qed.

Lemma StdMap_size_set {V} (k : string) (v : V) m :
  sorted_keys m ->
  StdMap.size (StdMap.set k v m) =
    match StdMap.find k m with Some _ => StdMap.size m | None => S (StdMap.size m) end.
Proof.
  unfold StdMap.size, sorted_keys.
  induction m as [|[k' v'] m IH]; simpl; intro Hs; [reflexivity|].
  inversion Hs as [|? ? Hs' Hall]; subst.
  destruct (String.eqb k k') eqn:E; [reflexivity|].
  destruct (String.ltb k k') eqn:L; simpl.
  - destruct (StdMap.find k m) eqn:F; [|reflexivity].
    exfalso. assert (Hin : In k (StdMap.keys m)) by (apply StdMap_find_keys; congruence).
    rewrite Forall_forall in Hall. apply Hall in Hin.
    exact (key_lt_irrefl (key_lt_trans L Hin)).
  - rewrite IH by assumption. destruct (StdMap.find k m); reflexivity.
Qed.

(** ** The joint index map *)

Lemma last_index_range name joint_names :
  forall i0 idx,
    last_index name joint_names i0 = Some idx ->
    i0 <= idx /\
    nth_error joint_names (idx - i0) = Some name /\
    forall j, idx - i0 < j -> nth_error joint_names j <> Some name.
Proof.
  induction joint_names as [|n rest IH]; intros i0 idx Hl; simpl in Hl; [discriminate|].
  destruct (last_index name rest (S i0)) as [i|] eqn:E.
  - injection Hl as ->. apply IH in E. destruct E as (Hle & Hnth & Hlast).
    split; [lia|].
    replace (idx - i0) with (S (idx - S i0)) by lia. split; [exact Hnth|].
    intros [|j] Hj; [lia|]. simpl. apply Hlast. lia.
  - destruct (String.eqb name n) eqn:Hn; [|discriminate].
    injection Hl as <-. apply String.eqb_eq in Hn. subst n.
    rewrite Nat.sub_diag. split; [lia|]. split; [reflexivity|].
    intros [|j] Hj; [lia|]. simpl. intro Hnth.
    assert (Hnone : forall l i1, last_index name l i1 = None -> ~ In name l).
    { clear. induction l as [|m l IH]; intros i1 Hl; simpl in *; [tauto|].
      destruct (last_index name l (S i1)) eqn:E; [discriminate|].
      destruct (String.eqb name m) eqn:Hm; [discriminate|].
      apply String.eqb_neq in Hm. intros [?|?]; [congruence|]. eapply IH; eauto. }
    apply (Hnone _ _ E). eapply nth_error_In. exact Hnth.
Qed.

Lemma last_index_None name joint_names i0 :
  last_index name joint_names i0 = None <-> ~ In name joint_names.
Proof.
  revert i0. induction joint_names as [|n rest IH]; intro i0; simpl; [tauto|].
  destruct (last_index name rest (S i0)) eqn:E.
  - split; [discriminate|]. intro Hnin. exfalso.
    assert (Hr : ~ In name rest) by tauto. apply (IH (S i0)) in Hr. congruence.
  - apply IH in E. destruct (String.eqb name n) eqn:Hn.
    + apply String.eqb_eq in Hn. subst. split; [discriminate|tauto].
    + apply String.eqb_neq in Hn. split; [intros _ [?|?]; [congruence|tauto]|reflexivity].
Qed.

Lemma build_joint_index_map_find name joint_names :
  forall i0 m,
    StdMap.find name (build_joint_index_map joint_names i0 m) =
      match last_index name joint_names i0 with
      | Some idx => Some idx
      | None => StdMap.find name m
      end.
Proof.
  induction joint_names as [|n rest IH]; intros i0 m; simpl; [reflexivity|].
  rewrite IH. destruct (last_index name rest (S i0)); [reflexivity|].
  destruct (String.eqb name n) eqn:Hn.
  - apply String.eqb_eq in Hn. subst. apply StdMap_find_set_same.
  - apply String.eqb_neq in Hn. apply StdMap_find_set_other. exact Hn.
Qed.

Lemma build_joint_index_map_sorted joint_names :
  forall i0 m, sorted_keys m -> sorted_keys (build_joint_index_map joint_names i0 m).
Proof.
  induction joint_names as [|n rest IH]; intros i0 m Hs; simpl; [exact Hs|].
  apply IH. apply StdMap_sorted_set. exact Hs.
Qed.

Lemma build_joint_index_map_keys name joint_names :
  forall i0 m,
    In name (StdMap.keys (build_joint_index_map joint_names i0 m)) <->
    In name joint_names \/ In name (StdMap.keys m).
Proof.
  induction joint_names as [|n rest IH]; intros i0 m; simpl; [tauto|].
  rewrite IH, StdMap_keys_set. intuition.
Qed.

Lemma build_joint_index_map_size joint_names :
  StdMap.size (build_joint_index_map joint_names 0 StdMap.empty) <= length joint_names /\
  (StdMap.size (build_joint_index_map joint_names 0 StdMap.empty) = length joint_names
   <-> NoDup joint_names).
Proof.
  set (m := build_joint_index_map joint_names 0 StdMap.empty).
  assert (Hs : sorted_keys m).
  { apply build_joint_index_map_sorted. constructor. }
  apply StdMap_sorted_NoDup in Hs.
  assert (Hincl : incl (StdMap.keys m) joint_names).
  { intros k Hk. apply build_joint_index_map_keys in Hk. destruct Hk as [?|[]]. assumption. }
  assert (Hincl' : incl joint_names (StdMap.keys m)).
  { intros k Hk. apply build_joint_index_map_keys. left. exact Hk. }
  unfold StdMap.size. replace (length m) with (length (StdMap.keys m))
    by (unfold StdMap.keys; apply length_map).
  split; [apply NoDup_incl_length; assumption|].
  split.
  - intro Hlen. eapply NoDup_incl_NoDup; [exact Hs| |exact Hincl]. lia.
  - intro Hnd. apply Nat.le_antisymm; apply NoDup_incl_length; assumption.
Qed.

Lemma joint_index_map_find_iff joint_names name idx :
  StdMap.find name (build_joint_index_map joint_names 0 StdMap.empty) = Some idx <->
  nth_error joint_names idx = Some name /\
  forall j, idx < j -> nth_error joint_names j <> Some name.
Proof.
  rewrite build_joint_index_map_find. simpl.
  split.
  - destruct (last_index name joint_names 0) as [i|] eqn:E; [|discriminate].
    intros [= ->]. apply last_index_range in E. rewrite Nat.sub_0_r in E.
    destruct E as (_ & Hnth & Hlast). split; [exact Hnth|exact Hlast].
  - intros [Hnth Hlast].
    destruct (last_index name joint_names 0) as [i|] eqn:E.
    + apply last_index_range in E. rewrite Nat.sub_0_r in E.
      destruct E as (_ & Hnth' & Hlast').
      destruct (Nat.lt_trichotomy i idx) as [Hlt|[->|Hgt]]; [|reflexivity|].
      * exfalso. exact (Hlast' _ Hlt Hnth).
      * exfalso. exact (Hlast _ Hgt Hnth').
    + exfalso. apply last_index_None in E. apply E. eapply nth_error_In. exact Hnth.
Qed.

Lemma configure_no_robot_joints config joint_names s0 b s :
  configure config joint_names s0 = Ret b s ->
  no_robot_joints_ s = length joint_names.
Proof.
  destruct b; intro Hc.
  - apply configure_true_inv in Hc.
    destruct Hc as (mp & s1 & cv & rows & s2 & _ & _ & Hi & _ & _ & Ht & ->).
    apply insert_constraints_frame in Hi. apply create_tf_map_frame in Ht.
    unfold same_frame in *. simpl in *.
    repeat match goal with H : _ /\ _ |- _ => destruct H end. congruence.
  - apply configure_false_inv in Hc. destruct Hc as [-> | [mp Hi]]; [reflexivity|].
    apply insert_constraints_frame in Hi. unfold same_frame in Hi. simpl in Hi.
    repeat match goal with H : _ /\ _ |- _ => destruct H end. congruence.
Qed.

Lemma list_set_lt {X} (i : nat) (x : X) l l' :
  list_set i x l = Some l' -> i < length l.
Proof.
  revert i l'. induction l as [|y l IH]; intros [|i] l' Hs; simpl in *; try discriminate; [lia|].
  destruct (list_set i x l) eqn:E; [|discriminate]. apply IH in E. lia.
Qed.

Lemma fill_joint_names_bound entries :
  forall v v',
    fill_joint_names entries v = Some v' ->
    forall k i, In (k, i) entries -> i < length v.
Proof.
  induction entries as [|[k0 i0] rest IH]; intros v v' Hf k i Hin; simpl in *; [contradiction|].
  destruct (list_set i0 k0 v) as [v1|] eqn:Hs; [|discriminate].
  destruct Hin as [Heq|Hin].
  - injection Heq as <- <-. eapply list_set_lt. exact Hs.
  - rewrite <- (list_set_length _ _ _ Hs). eapply IH; eauto.
Qed.

(** X1.  Whatever [configure] returns, the joint index map sends every
    listed joint name to the index of its last occurrence in [joint_names]
    and holds no other name; every stored index is below [no_robot_joints_],
    which counts the listed names with their repetitions; and the map has
    [no_robot_joints_] entries exactly when no name is listed twice. *)
Theorem joint_index_map_after_configure config joint_names s0 b s :
  configure config joint_names s0 = Ret b s ->
  no_robot_joints_ s = length joint_names /\
  (forall name idx,
      StdMap.find name (joint_index_map_ s) = Some idx <->
      nth_error joint_names idx = Some name /\
      forall j, idx < j -> nth_error joint_names j <> Some name) /\
  (forall name, StdMap.find name (joint_index_map_ s) = None <-> ~ In name joint_names) /\
  (forall name idx,
      StdMap.find name (joint_index_map_ s) = Some idx -> idx < no_robot_joints_ s) /\
  StdMap.size (joint_index_map_ s) <= no_robot_joints_ s /\
  (StdMap.size (joint_index_map_ s) = no_robot_joints_ s <-> NoDup joint_names).
Proof.
  intro Hc.
  rewrite (configure_no_robot_joints _ _ _ Hc), (configure_joint_index_map _ _ _ Hc).
  split; [reflexivity|]. split; [apply joint_index_map_find_iff|].
  split; [|split; [|apply build_joint_index_map_size]].
  - intro name. rewrite build_joint_index_map_find. simpl.
    rewrite <- (last_index_None name joint_names 0).
    destruct (last_index name joint_names 0); split; congruence.
  - intros name idx Hf. apply joint_index_map_find_iff in Hf.
    apply nth_error_Some. destruct Hf as [Hf _]. congruence.
Qed.

Lemma joint_index_map_after_configure_witness :
  StdMap.find "a" (joint_index_map_ (configured_state [] ["a"; "b"; "a"])) = Some 2 /\
  StdMap.size (joint_index_map_ (configured_state [] ["a"; "b"; "a"])) = 2 /\
  no_robot_joints_ (configured_state [] ["a"; "b"; "a"]) = 3.
Proof.
  destruct (@joint_index_map_after_configure [] ["a"; "b"; "a"] (WbcVelocity_ctor 0) true
              (configured_state [] ["a"; "b"; "a"]) eq_refl)
    as (Hn & Hfind & _ & _ & _ & _).
  split; [|split; [reflexivity|exact Hn]].
  apply Hfind. split; [reflexivity|].
  intros [|[|[|j]]] Hj; simpl; try lia. destruct j; discriminate.
Defined.

(** X2.  When a joint name is listed twice in [joint_names], [jointNames]
    writes past the end of the vector it returns, whatever [configure]
    returned: the vector has one entry per distinct name, and the last listed
    name is stored with the index [joint_names.size() - 1]. *)
Theorem jointNames_repeated_name config joint_names s0 b s :
  configure config joint_names s0 = Ret b s ->
  ~ NoDup joint_names ->
  jointNames s = Undef.
Proof.
  intros Hc Hdup. unfold jointNames.
  rewrite (configure_joint_index_map _ _ _ Hc).
  destruct (fill_joint_names _ _) as [v|] eqn:Hf; [exfalso|reflexivity].
  pose proof (build_joint_index_map_size joint_names) as [Hle Hiff].
  assert (Hlt : StdMap.size (build_joint_index_map joint_names 0 StdMap.empty)
                < length joint_names).
  { destruct (Nat.eq_dec (StdMap.size (build_joint_index_map joint_names 0 StdMap.empty))
                         (length joint_names)) as [Heq|Hne]; [|lia].
    exfalso. apply Hdup. apply Hiff. exact Heq. }
  destruct (nth_error joint_names (length joint_names - 1)) as [x|] eqn:Hx.
  2:{ apply nth_error_None in Hx. lia. }
  assert (Hfind : StdMap.find x (build_joint_index_map joint_names 0 StdMap.empty)
                  = Some (length joint_names - 1)).
  { apply joint_index_map_find_iff. split; [exact Hx|].
    intros j Hj Hn. assert (j < length joint_names) by (apply nth_error_Some; congruence). lia. }
  apply StdMap_find_In in Hfind.
  pose proof (fill_joint_names_bound _ _ Hf _ _ Hfind) as Hb.
  rewrite repeat_length in Hb. lia.
Qed.

Lemma jointNames_repeated_name_witness :
  jointNames (configured_state [] ["a"; "b"; "a"]) = Undef.
Proof.
  apply (@jointNames_repeated_name [] ["a"; "b"; "a"] (WbcVelocity_ctor 0) true
           (configured_state [] ["a"; "b"; "a"]) eq_refl).
  intro Hnd. inversion Hnd as [|? ? Hnin _]; subst. apply Hnin. simpl. auto.
Defined.

(** ** The parts of a successful [configure] *)

Lemma configure_true_parts config joint_names s0 s :
  configure config joint_names s0 = Ret true s ->
  exists max_prio s1 rows s2,
    scan_priorities config 0 = Some max_prio /\
    insert_constraints config joint_names
      (set_constraint_vector_ (repeat [] (Z.to_nat (max_prio + 1)))
         (configure_base joint_names s0)) = Ret true s1 /\
    map_opt (fun level => count_level_rows (heap s1) level 0)
            (filter nonempty (constraint_vector_ s1)) = Some rows /\
    create_tf_map (constraint_map_ s1)
      (set_n_prios_ (length rows)
         (set_n_constraints_per_prio_ rows
            (set_constraint_vector_ (filter nonempty (constraint_vector_ s1)) s1))) = Some s2 /\
    s = set_configured_ true s2 /\
    heap s = heap s1 /\
    constraint_map_ s = constraint_map_ s1 /\
    constraint_vector_ s = filter nonempty (constraint_vector_ s1) /\
    n_constraints_per_prio_ s = rows /\
    n_prios_ s = length rows.
Proof.
  intro Hc. apply configure_true_inv in Hc.
  destruct Hc as (mp & s1 & cv & rows & s2 & Hscan & Hmp & Hi & He & Hrows & Ht & ->).
  set (n := Z.to_nat (mp + 1)) in *.
  assert (Hcv0 : @vector_resize (list nat) n [] [] = repeat [] n).
  { unfold vector_resize. rewrite firstn_nil. simpl. rewrite Nat.sub_0_r. reflexivity. }
  rewrite Hcv0 in Hi.
  pose proof (insert_constraints_length _ _ _ Hi) as Hlen.
  simpl in Hlen. rewrite repeat_length in Hlen.
  assert (Herase : cv = filter nonempty (constraint_vector_ s1)).
  { pose proof (@erase_empty_priorities_spec (constraint_vector_ s1) []
                  (S (length (constraint_vector_ s1)))) as Hspec.
    cbn [app length Z.of_nat] in Hspec. rewrite Hspec in He.
    - injection He as <-. reflexivity.
    - lia.
    - rewrite Hlen. unfold n, UINT_MOD. unfold INT_MAX in Hmp. lia. }
  subst cv.
  exists mp, s1, rows, s2.
  pose proof (create_tf_map_frame _ _ Ht) as (Hframe & Hheap & Hcv & Hcm).
  unfold same_frame in Hframe. simpl in Hframe, Hheap, Hcv, Hcm.
  destruct Hframe as (_ & _ & _ & Hnp & Hrw).
  repeat split; auto.
Qed.

(** ** Lookup of the registered constraints *)

Lemma list_modify_nth {X} (j : nat) (f : X -> X) l l' :
  list_modify j f l = Some l' ->
  forall z, nth_error l' z =
            if z =? j then option_map f (nth_error l z) else nth_error l z.
Proof.
  revert j l'. induction l as [|x l IH]; intros [|j] l' Hm z; simpl in Hm; try discriminate.
  - injection Hm as <-. destruct z; reflexivity.
  - destruct (list_modify j f l) as [l1|] eqn:E; [|discriminate].
    injection Hm as <-. destruct z; simpl; [reflexivity|]. exact (IH _ _ E z).
Qed.

Lemma insert_constraints_lookup config joint_names :
  forall s s1,
    insert_constraints config joint_names s = Ret true s1 ->
    (forall k p, StdMap.find k (constraint_map_ s) = Some p ->
                 StdMap.find k (constraint_map_ s1) = Some p) /\
    (forall z level, nth_error (constraint_vector_ s) z = Some level ->
       exists level1, nth_error (constraint_vector_ s1) z = Some level1 /\ incl level level1) /\
    (forall c, In c config ->
       exists p level,
         StdMap.find (ConstraintConfig.name c) (constraint_map_ s1) = Some p /\
         nth_error (heap s1) p = Some (new_ExtendedConstraint c joint_names) /\
         nth_error (constraint_vector_ s1) (Z.to_nat (ConstraintConfig.priority c)) = Some level /\
         In p level) /\
    (forall k p, StdMap.find k (constraint_map_ s1) = Some p ->
       StdMap.find k (constraint_map_ s) = Some p \/
       exists c, In c config /\ ConstraintConfig.name c = k /\
                 nth_error (heap s1) p = Some (new_ExtendedConstraint c joint_names)).
Proof.
  induction config as [|c0 rest IH]; intros s s1 Hi; simpl in Hi.
  - injection Hi as <-. repeat split; eauto.
    + intros z level Hz. exists level. split; [exact Hz|apply incl_refl].
    + intros c [].
  - destruct (list_modify _ _ _) as [cv|] eqn:Hm; [|discriminate].
    simpl in Hi.
    destruct (StdMap.count (ConstraintConfig.name c0) (constraint_map_ s) =? 0) eqn:Hcount;
      simpl in Hi; [|discriminate].
    apply StdMap_count_0 in Hcount.
    pose proof (insert_constraints_registered _ _ _ Hi) as (_ & Hheap & _).
    apply IH in Hi. simpl in Hi. destruct Hi as (Hmap & Hlev & Hreg & Hback).
    pose proof (list_modify_nth _ _ _ Hm) as Hnth.
    assert (Hnew : nth_error (heap s ++ [new_ExtendedConstraint c0 joint_names]) (length (heap s))
                   = Some (new_ExtendedConstraint c0 joint_names)).
    { rewrite nth_error_app2 by lia. rewrite Nat.sub_diag. reflexivity. }
    repeat split.
    + intros k p Hf. apply Hmap. rewrite StdMap_find_set_other; [exact Hf|congruence].
    + intros z level Hz. specialize (Hnth z). rewrite Hz in Hnth.
      destruct (z =? Z.to_nat (ConstraintConfig.priority c0)); simpl in Hnth.
      * destruct (Hlev _ _ Hnth) as (level1 & Hl1 & Hincl).
        exists level1. split; [exact Hl1|]. intros q Hq. apply Hincl. apply in_or_app. auto.
      * destruct (Hlev _ _ Hnth) as (level1 & Hl1 & Hincl). eauto.
    + intros c [<-|Hin]; [|auto].
      specialize (Hnth (Z.to_nat (ConstraintConfig.priority c0))).
      rewrite Nat.eqb_refl in Hnth.
      destruct (nth_error (constraint_vector_ s) (Z.to_nat (ConstraintConfig.priority c0)))
        as [level|] eqn:Hz.
      2:{ exfalso. simpl in Hnth.
          assert (Hlt : Z.to_nat (ConstraintConfig.priority c0) < length (constraint_vector_ s)).
          { clear -Hm. revert Hm. generalize (Z.to_nat (ConstraintConfig.priority c0)).
            generalize (constraint_vector_ s). intros l. revert cv.
            induction l as [|x l IHl]; intros cv [|j] Hm; simpl in *; try discriminate; [lia|].
            destruct (list_modify j _ l) eqn:E; [|discriminate]. apply IHl in E. lia. }
          apply nth_error_None in Hz. lia. }
      simpl in Hnth. destruct (Hlev _ _ Hnth) as (level1 & Hl1 & Hincl).
      exists (length (heap s)), level1.
      split; [apply Hmap; apply StdMap_find_set_same|].
      split; [apply Hheap; exact Hnew|].
      split; [exact Hl1|]. apply Hincl. apply in_or_app. right. left. reflexivity.
    + intros k p Hf. apply Hback in Hf. destruct Hf as [Hf|(c & Hin & Hname & Hp)].
      * destruct (String.eqb k (ConstraintConfig.name c0)) eqn:E.
        -- apply String.eqb_eq in E. subst k. rewrite StdMap_find_set_same in Hf.
           injection Hf as <-. right. exists c0. split; [left; reflexivity|].
           split; [reflexivity|]. apply Hheap. exact Hnew.
        -- apply String.eqb_neq in E. rewrite StdMap_find_set_other in Hf by exact E.
           left. exact Hf.
      * right. exists c. split; [right; exact Hin|]. split; assumption.
Qed.

Lemma configured_from_registered specifications s :
  configured_from specifications s ->
  (forall c, In c specifications ->
     exists p c' level,
       StdMap.find (ConstraintConfig.name c) (constraint_map_ s) = Some p /\
       nth_error (heap s) p = Some c' /\ config c' = c /\
       In level (constraint_vector_ s) /\ In p level) /\
  (forall name, StdMap.find name (constraint_map_ s) <> None ->
                In name (map ConstraintConfig.name specifications)).
Proof.
  induction 1 as [joint_names s0 s Hc
                 | s p0 f c0 s' Hfrom IH Hp0 Hshape Hw
                 | svd task_frames now s equations s' equations' Hfrom IH Hp].
  - apply configure_true_parts in Hc.
    destruct Hc as (mp & s1 & rows & s2 & _ & Hi & _ & _ & _ & Hheap & Hcm & Hcv & _).
    apply insert_constraints_lookup in Hi. destruct Hi as (_ & _ & Hreg & Hback).
    rewrite Hheap, Hcm, Hcv. split.
    + intros c Hin. destruct (Hreg c Hin) as (p & level & Hf & Hh & Hl & Hpl).
      exists p, (new_ExtendedConstraint c joint_names), level.
      repeat split; try assumption.
      apply filter_In. split; [eapply nth_error_In; exact Hl|].
      destruct level; [contradiction|reflexivity].
    + intros name Hf. destruct (StdMap.find name (constraint_map_ s1)) as [p|] eqn:E;
        [|congruence].
      apply Hback in E. destruct E as [E|(c & Hin & <- & _)]; [discriminate|].
      apply in_map. exact Hin.
  - destruct IH as [IHreg IHback].
    pose proof (write_handle_frame _ _ _ Hw) as [Hframe _].
    destruct Hframe as (_ & _ & Hcv & Hcm & _).
    unfold write_handle in Hw. rewrite Hp0 in Hw.
    destruct (list_set p0 (f c0) (heap s)) as [h|] eqn:Hs; [|discriminate].
    injection Hw as <-. simpl in *. split; [|exact IHback].
    intros c Hin. destruct (IHreg c Hin) as (p & c' & level & Hf & Hh & Hcfg & Hl & Hpl).
    destruct (Nat.eq_dec p0 p) as [->|Hne].
    + exists p, (f c0), level. rewrite Hp0 in Hh. injection Hh as <-.
      repeat split; try assumption.
      * eapply list_set_same. exact Hs.
      * destruct Hshape as (Hk & _). congruence.
    + exists p, c', level. repeat split; try assumption.
      rewrite (list_set_other _ _ Hs Hne). exact Hh.
  - destruct IH as [IHreg IHback].
    pose proof (configured_from_invariants Hfrom) as (_ & Hnd & Hnp & _).
    pose proof (prepareEqSystem_Ret _ _ _ _ _ Hp Hnd) as (Hframe & _ & _ & _ & Hall).
    destruct Hframe as (_ & _ & Hcv & Hcm & _).
    rewrite Hcv, Hcm. split; [|exact IHback].
    intros c Hin. destruct (IHreg c Hin) as (p & c' & level & Hf & Hh & Hcfg & Hl & Hpl).
    apply In_nth_error in Hl. destruct Hl as [prio Hprio].
    apply In_nth_error in Hpl. destruct Hpl as [k Hk].
    assert (Hlt : prio < n_prios_ s).
    { rewrite Hnp. apply nth_error_Some. congruence. }
    destruct (Hall _ _ Hlt Hprio) as (e' & _ & Hasm).
    destruct (Hasm _ _ Hk) as (c1 & c1' & Hc1 & Hc1' & Hev & _).
    rewrite Hh in Hc1. injection Hc1 as <-.
    apply evaluated_weight_inputs in Hev. destruct Hev as (Hcfg' & _).
    exists p, c1', level. repeat split; try assumption.
    + congruence.
    + eapply nth_error_In. exact Hprio.
    + eapply nth_error_In. exact Hk.
Qed.

(** ** The registry of task frames *)

Lemma register_task_frame_registry f s :
  registry_inv (StdMap.size (joint_index_map_ s)) s ->
  registry_inv (StdMap.size (joint_index_map_ s)) (register_task_frame f s) /\
  joint_index_map_ (register_task_frame f s) = joint_index_map_ s /\
  heap (register_task_frame f s) = heap s /\
  forall g, In g (task_frame_ids (register_task_frame f s)) <->
            g = f \/ In g (task_frame_ids s).
Proof.
  intros (Hnd & Hiff & Hzero). unfold register_task_frame.
  destruct (StdMap.count f (jac_map_ s) =? 0) eqn:Hcount.
  - apply StdMap_count_0 in Hcount. simpl.
    assert (Hnin : ~ In f (task_frame_ids s)).
    { intro Hin. apply Hiff in Hin. congruence. }
    split; [|split; [reflexivity|split; [reflexivity|]]].
    + unfold registry_inv. simpl. split; [|split].
      * apply NoDup_app; [exact Hnd|constructor; [intros []|constructor]|].
        intros g Hg [<-|[]]. contradiction.
      * intro g. rewrite in_app_iff. simpl.
        destruct (String.eqb g f) eqn:E.
        -- apply String.eqb_eq in E. subst g. rewrite StdMap_find_set_same.
           split; [discriminate|auto].
        -- apply String.eqb_neq in E. rewrite StdMap_find_set_other by exact E.
           rewrite <- Hiff. split; [intros [?|[?|[]]]; [assumption|congruence]|auto].
      * intros g j. destruct (String.eqb g f) eqn:E.
        -- apply String.eqb_eq in E. subst g. rewrite StdMap_find_set_same. congruence.
        -- apply String.eqb_neq in E. rewrite StdMap_find_set_other by exact E. apply Hzero.
    + intro g. rewrite in_app_iff. simpl. intuition congruence.
  - split; [split; [|split]; assumption|]. split; [reflexivity|]. split; [reflexivity|].
    intro g. split; [auto|]. intros [->|Hg]; [|exact Hg].
    apply Hiff. intro Hnone. apply StdMap_count_0 in Hnone. congruence.
Qed.

Lemma create_tf_map_registry entries :
  forall s s',
    create_tf_map entries s = Some s' ->
    registry_inv (StdMap.size (joint_index_map_ s)) s ->
    registry_inv (StdMap.size (joint_index_map_ s)) s' /\
    forall g, In g (task_frame_ids s') <->
              In g (task_frame_ids s) \/
              exists k p c, In (k, p) entries /\ nth_error (heap s) p = Some c /\
                            In g (frames_of (config c)).
Proof.
  induction entries as [|[k0 p0] rest IH]; intros s s' Hc Hinv; simpl in Hc.
  - injection Hc as <-. split; [exact Hinv|].
    intro g. split; [auto|]. intros [Hg|(k & p & c & [] & _)]. exact Hg.
  - destruct (nth_error (heap s) p0) as [c0|] eqn:Hp0; [|discriminate].
    destruct (ConstraintConfig.type (config c0)) eqn:Hty.
    + destruct (register_task_frame_registry (ConstraintConfig.root (config c0)) Hinv)
        as (Hinv1 & Hjim1 & Hheap1 & Hids1).
      set (s1 := register_task_frame (ConstraintConfig.root (config c0)) s) in *.
      rewrite <- Hjim1 in Hinv1.
      destruct (register_task_frame_registry (ConstraintConfig.tip (config c0)) Hinv1)
        as (Hinv2 & Hjim2 & Hheap2 & Hids2).
      set (s2 := register_task_frame (ConstraintConfig.tip (config c0)) s1) in *.
      rewrite <- Hjim2 in Hinv2.
      destruct (register_task_frame_registry (ConstraintConfig.ref_frame (config c0)) Hinv2)
        as (Hinv3 & Hjim3 & Hheap3 & Hids3).
      set (s3 := register_task_frame (ConstraintConfig.ref_frame (config c0)) s2) in *.
      rewrite <- Hjim3 in Hinv3.
      destruct (IH _ _ Hc Hinv3) as (Hinv' & Hids').
      assert (Hjim : joint_index_map_ s3 = joint_index_map_ s) by congruence.
      assert (Hheap : heap s3 = heap s) by congruence.
      rewrite Hjim in Hinv'. split; [exact Hinv'|].
      intro g. rewrite Hids', Hids3, Hids2, Hids1, Hheap. split.
      * intros [[->|[->|[->|Hg]]]|(k & p & c & Hin & Hp & Hf)]; auto.
        -- right. exists k0, p0, c0. split; [left; reflexivity|]. split; [exact Hp0|].
           unfold frames_of. rewrite Hty. simpl. auto.
        -- right. exists k0, p0, c0. split; [left; reflexivity|]. split; [exact Hp0|].
           unfold frames_of. rewrite Hty. simpl. auto.
        -- right. exists k0, p0, c0. split; [left; reflexivity|]. split; [exact Hp0|].
           unfold frames_of. rewrite Hty. simpl. auto.
        -- right. exists k, p, c. split; [right; exact Hin|]. split; assumption.
      * intros [Hg|(k & p & c & [Heq|Hin] & Hp & Hf)]; auto.
        -- injection Heq as <- <-. rewrite Hp0 in Hp. injection Hp as <-.
           unfold frames_of in Hf. rewrite Hty in Hf. simpl in Hf.
           destruct Hf as [<-|[<-|[<-|[]]]]; auto.
        -- right. exists k, p, c. auto.
    + destruct (IH _ _ Hc Hinv) as (Hinv' & Hids'). split; [exact Hinv'|].
      intro g. rewrite Hids'. split.
      * intros [Hg|(k & p & c & Hin & Hp & Hf)]; auto.
        right. exists k, p, c. split; [right; exact Hin|]. split; assumption.
      * intros [Hg|(k & p & c & [Heq|Hin] & Hp & Hf)]; auto.
        -- injection Heq as <- <-. rewrite Hp0 in Hp. injection Hp as <-.
           unfold frames_of in Hf. rewrite Hty in Hf. destruct Hf.
        -- right. exists k, p, c. auto.
Qed.

Lemma insert_constraints_sorted config joint_names :
  forall s b s1,
    insert_constraints config joint_names s = Ret b s1 ->
    sorted_keys (constraint_map_ s) -> sorted_keys (constraint_map_ s1).
Proof.
  induction config as [|c0 rest IH]; intros s b s1 Hi Hs; simpl in Hi.
  - injection Hi as _ <-. exact Hs.
  - destruct (list_modify _ _ _) as [cv|]; [|discriminate].
    destruct (negb _).
    + injection Hi as _ <-. exact Hs.
    + apply IH in Hi; [exact Hi|]. simpl. apply StdMap_sorted_set. exact Hs.
Qed.

(** X3.  In every state in use, [constraint] finds each configured
    constraint under its name: it returns the pointer to the object that
    holds the specification of that name, the same object that a priority
    level of [constraint_vector_] points to, so that a write through the
    returned handle is the write the next assembly reads.  A name that no
    specification carries is refused with "Invalid constraint name".  The
    lookup leaves the solver as it is in both cases. *)
Theorem constraint_lookup_in_use specifications s :
  configured_from specifications s ->
  (forall c, In c specifications ->
     exists p c' level,
       constraint (ConstraintConfig.name c) s = Ret p s /\
       nth_error (heap s) p = Some c' /\ config c' = c /\
       In level (constraint_vector_ s) /\ In p level) /\
  (forall name, ~ In name (map ConstraintConfig.name specifications) ->
     constraint name s = Throw (invalid_argument "Invalid constraint name") s).
Proof.
  intro Hfrom.
  pose proof (configured_from_invariants Hfrom) as (Hflag & _).
  destruct (configured_from_registered Hfrom) as [Hreg Hback].
  split.
  - intros c Hin. destruct (Hreg c Hin) as (p & c' & level & Hf & Hrest).
    exists p, c', level. split; [|exact Hrest].
    unfold constraint, StdMap.count. rewrite Hflag, Hf. reflexivity.
  - intros name Hnin. unfold constraint, StdMap.count. rewrite Hflag. simpl.
    destruct (StdMap.find name (constraint_map_ s)) eqn:E; [|reflexivity].
    exfalso. apply Hnin. apply Hback. congruence.
Qed.

Lemma constraint_lookup_in_use_witness :
  (exists p, constraint "a" (configured_state [example_joint_config "a" 0] ["j1"])
             = Ret p (configured_state [example_joint_config "a" 0] ["j1"])) /\
  constraint "b" (configured_state [example_joint_config "a" 0] ["j1"])
  = Throw (invalid_argument "Invalid constraint name")
          (configured_state [example_joint_config "a" 0] ["j1"]).
Proof.
  destruct (@constraint_lookup_in_use [example_joint_config "a" 0]
              (configured_state [example_joint_config "a" 0] ["j1"])) as [Hreg Hno].
  { apply (configured_by [example_joint_config "a" 0] ["j1"] (WbcVelocity_ctor 0)).
    vm_compute. reflexivity. }
  split.
  - destruct (Hreg _ (or_introl eq_refl)) as (p & _ & _ & Hc & _). exists p. exact Hc.
  - apply Hno. simpl. intros [H|[]]. discriminate H.
Defined.

Lemma configure_task_frame_registry config joint_names s0 s :
  configure config joint_names s0 = Ret true s ->
  NoDup (task_frame_ids s) /\
  (forall f, In f (task_frame_ids s) <-> exists c, In c config /\ In f (frames_of c)) /\
  (forall f, In f (task_frame_ids s) ->
     StdMap.find f (jac_map_ s) = Some (Jacobian_zero (StdMap.size (joint_index_map_ s)))) /\
  (forall f, ~ In f (task_frame_ids s) -> StdMap.find f (jac_map_ s) = None).
Proof.
  intro Hc. apply configure_true_parts in Hc.
  destruct Hc as (mp & s1 & rows & s2 & _ & Hi & _ & Ht & -> & _).
  pose proof (insert_constraints_frame _ _ _ Hi) as ((_ & _ & Hjim & _) & Hjac & Hids).
  pose proof (@insert_constraints_sorted _ _ _ _ _ Hi) as Hsorted.
  pose proof (@insert_constraints_lookup _ _ _ _ Hi) as (_ & _ & Hreg & Hback).
  simpl in Hjim, Hjac, Hids, Hsorted.
  specialize (Hsorted ltac:(constructor)).
  pose proof (create_tf_map_frame _ _ Ht) as ((_ & _ & Hjim2 & _) & _).
  destruct (@create_tf_map_registry _ _ _ Ht) as ((Hnd & Hiff & Hzero) & Hids').
  { unfold registry_inv. simpl. rewrite Hjac, Hids. simpl.
    split; [constructor|]. split; [|discriminate].
    intro f. simpl. split; [intros []|congruence]. }
  simpl in *. rewrite Hjim2. rewrite Hids in Hids'. simpl in Hids'.
  split; [exact Hnd|]. split; [|split].
  - intro f. rewrite Hids'. split.
    + intros [[]|(k & p & c & Hin & Hp & Hf)].
      apply (StdMap_sorted_find _ _ Hsorted) in Hin. apply Hback in Hin.
      destruct Hin as [Hin|(c1 & Hin & _ & Hp1)]; [discriminate|].
      rewrite Hp in Hp1. injection Hp1 as ->. exists c1. split; [exact Hin|exact Hf].
    + intros (c & Hin & Hf). right.
      destruct (Hreg c Hin) as (p & level & Hfind & Hp & _).
      exists (ConstraintConfig.name c), p, (new_ExtendedConstraint c joint_names).
      split; [apply StdMap_find_In; exact Hfind|]. split; [exact Hp|exact Hf].
  - intros f Hf. apply Hiff in Hf.
    destruct (StdMap.find f (jac_map_ s2)) as [j|] eqn:E; [|congruence].
    rewrite (Hzero _ _ E). reflexivity.
  - intros f Hf. destruct (StdMap.find f (jac_map_ s2)) as [j|] eqn:E; [|reflexivity].
    exfalso. apply Hf. apply Hiff. congruence.
Qed.

(** X4.  After a successful [configure], [task_frame_ids] lists, without
    repetition, exactly the frames that some Cartesian constraint names as
    root, tip or reference frame (a joint constraint contributes none), and
    [jac_map_] holds a Jacobian for exactly these frames: a zero Jacobian
    with one column per entry of the joint index map. *)
Theorem task_frame_registry config joint_names s0 s :
  configure config joint_names s0 = Ret true s ->
  NoDup (task_frame_ids s) /\
  (forall f, In f (task_frame_ids s) <-> exists c, In c config /\ In f (frames_of c)) /\
  (forall f, In f (task_frame_ids s) ->
     StdMap.find f (jac_map_ s) = Some (Jacobian_zero (StdMap.size (joint_index_map_ s)))) /\
  (forall f, ~ In f (task_frame_ids s) -> StdMap.find f (jac_map_ s) = None).
Proof.
  apply configure_task_frame_registry.
Qed.

Lemma task_frame_registry_witness :
  task_frame_ids (configured_state [example_cart_config "c" 0; example_joint_config "a" 1] ["j1"])
  = ["base"; "hand"; "ref"] /\
  NoDup (task_frame_ids
           (configured_state [example_cart_config "c" 0; example_joint_config "a" 1] ["j1"])).
Proof.
  split; [reflexivity|].
  apply (@task_frame_registry
           [example_cart_config "c" 0; example_joint_config "a" 1] ["j1"]
           (WbcVelocity_ctor 0)).
  vm_compute. reflexivity.
Defined.

(** ** Reconfiguration *)

Lemma with_stale_self s : with_stale s s = s.
Proof. destruct s; reflexivity. Qed.

Lemma insert_constraints_with_stale donor config joint_names :
  forall s,
    insert_constraints config joint_names (with_stale donor s) =
    match insert_constraints config joint_names s with
    | Ret b s1 => Ret b (with_stale donor s1)
    | Throw e s1 => Throw e (with_stale donor s1)
    | Undef => Undef
    end.
Proof.
  induction config as [|c rest IH]; intro s; simpl; [reflexivity|].
  destruct (list_modify _ _ (constraint_vector_ s)) as [cv|]; [|reflexivity].
  simpl. destruct (negb _); [reflexivity|].
  exact (IH (set_constraint_map_
               (StdMap.set (ConstraintConfig.name c) (length (heap s)) (constraint_map_ s))
               (set_constraint_vector_ cv
                  (set_heap (heap s ++ [new_ExtendedConstraint c joint_names]) s)))).
Qed.

Lemma register_task_frame_with_stale donor f s :
  register_task_frame f (with_stale donor s) = with_stale donor (register_task_frame f s).
Proof.
  unfold register_task_frame. simpl. destruct (_ =? 0); reflexivity.
Qed.

Lemma create_tf_map_with_stale donor entries :
  forall s,
    create_tf_map entries (with_stale donor s) =
    option_map (with_stale donor) (create_tf_map entries s).
Proof.
  induction entries as [|[k p] rest IH]; intro s; simpl; [reflexivity|].
  destruct (nth_error (heap s) p) as [c|]; [|reflexivity].
  destruct (ConstraintConfig.type (config c)); [|apply IH].
  rewrite !register_task_frame_with_stale. apply IH.
Qed.

Lemma configure_with_stale config joint_names s0 n :
  configure config joint_names s0 =
  match configure config joint_names (WbcVelocity_ctor n) with
  | Ret true s => Ret true s
  | Ret false s => Ret false (with_stale s0 s)
  | Throw e s => Throw e (with_stale s0 s)
  | Undef => Undef
  end.
Proof.
  unfold configure.
  destruct (scan_priorities config 0) as [max_prio|]; [|reflexivity].
  destruct (max_prio + 1 >? INT_MAX)%Z; [reflexivity|].
  set (base := set_constraint_vector_ _
                 (set_joint_index_map_ _ (set_no_robot_joints_ _ (clear (WbcVelocity_ctor n))))).
  change (set_constraint_vector_ _
            (set_joint_index_map_ _ (set_no_robot_joints_ _ (clear s0))))
    with (with_stale s0 base).
  rewrite insert_constraints_with_stale.
  destruct (insert_constraints config joint_names base) as [[|] s1|e s1|]; try reflexivity.
  change (constraint_vector_ (with_stale s0 s1)) with (constraint_vector_ s1).
  destruct (erase_empty_priorities _ 0 (constraint_vector_ s1)) as [cv|]; [|reflexivity].
  change (heap (set_constraint_vector_ cv (with_stale s0 s1))) with (heap s1).
  change (constraint_vector_ (set_constraint_vector_ cv (with_stale s0 s1))) with cv.
  change (heap (set_constraint_vector_ cv s1)) with (heap s1).
  change (constraint_vector_ (set_constraint_vector_ cv s1)) with cv.
  destruct (map_opt _ cv) as [rows|]; [|reflexivity].
  set (mid := set_n_prios_ _ (set_n_constraints_per_prio_ rows (set_constraint_vector_ cv s1))).
  change (set_n_prios_ _ (set_n_constraints_per_prio_ rows
                            (set_constraint_vector_ cv (with_stale s0 s1))))
    with (with_stale (set_configured_ (configured_ s0) mid) mid).
  change (constraint_map_ (with_stale _ mid)) with (constraint_map_ mid).
  rewrite create_tf_map_with_stale.
  destruct (create_tf_map (constraint_map_ mid) mid) as [s2|] eqn:Ht; [|reflexivity].
  simpl. f_equal.
  apply create_tf_map_frame in Ht. destruct Ht as ((Hflag & _ & _ & Hnp & Hrw) & _).
  destruct s2; simpl in *. subst. reflexivity.
Qed.

(** X5.  What a result of [configure] tells the caller.  As soon as some
    priority is negative it returns [false], before a priority level or a
    constraint object is created.  When it returns [true], no priority is
    negative and the names of the specifications are pairwise different;
    when it returns [false], some priority is negative or two specifications
    share a name.  When no priority is negative and some priority is
    [INT_MAX], the addition [max_prio + 1] overflows.  Whether the levels
    can be allocated is outside the embedding, so nothing is said about the
    calls in which they cannot. *)
Theorem configure_outcomes specifications joint_names s0 :
  ((exists c, In c specifications /\ (ConstraintConfig.priority c < 0)%Z) ->
   exists s, configure specifications joint_names s0 = Ret false s /\
             heap s = [] /\ constraint_vector_ s = []) /\
  (forall s, configure specifications joint_names s0 = Ret true s ->
   Forall (fun c => (0 <= ConstraintConfig.priority c)%Z) specifications /\
   NoDup (map ConstraintConfig.name specifications)) /\
  (forall s, configure specifications joint_names s0 = Ret false s ->
   (exists c, In c specifications /\ (ConstraintConfig.priority c < 0)%Z) \/
   ~ NoDup (map ConstraintConfig.name specifications)) /\
  (Forall (fun c => (0 <= ConstraintConfig.priority c)%Z) specifications ->
   (exists c, In c specifications /\ (INT_MAX <= ConstraintConfig.priority c)%Z) ->
   configure specifications joint_names s0 = Undef).
Proof.
  assert (Hbound : forall max_prio,
             scan_priorities specifications 0 = Some max_prio ->
             (max_prio + 1 >? INT_MAX)%Z = false ->
             Forall (fun c => (0 <= ConstraintConfig.priority c)%Z) specifications /\
             Forall (fun c => (ConstraintConfig.priority c < INT_MAX)%Z) specifications).
  { intros max_prio Hscan Hov. apply scan_priorities_spec in Hscan. destruct Hscan as [_ Hall].
    rewrite Z.gtb_ltb in Hov. apply Z.ltb_ge in Hov.
    split; (eapply Forall_impl; [|exact Hall]); simpl; intros; lia. }
  split; [|split; [|split]].
  - intro Hneg. apply (scan_priorities_negative specifications 0) in Hneg.
    unfold configure. rewrite Hneg. eexists. split; [reflexivity|]. split; reflexivity.
  - intros s Hc.
    destruct (scan_priorities specifications 0) as [max_prio|] eqn:Hscan.
    2:{ unfold configure in Hc. rewrite Hscan in Hc. discriminate. }
    destruct (max_prio + 1 >? INT_MAX)%Z eqn:Hov.
    { unfold configure in Hc. rewrite Hscan, Hov in Hc. discriminate. }
    destruct (Hbound _ eq_refl Hov) as [_ Hlt].
    destruct (@configure_outcome specifications joint_names s0 Hlt) as (b & s1 & Hc1 & Hiff).
    rewrite Hc in Hc1. injection Hc1 as <- <-. apply Hiff. reflexivity.
  - intros s Hc.
    destruct (scan_priorities specifications 0) as [max_prio|] eqn:Hscan.
    2:{ left. apply (scan_priorities_negative specifications 0). exact Hscan. }
    destruct (max_prio + 1 >? INT_MAX)%Z eqn:Hov.
    { unfold configure in Hc. rewrite Hscan, Hov in Hc. discriminate. }
    destruct (Hbound _ eq_refl Hov) as [Hpos Hlt].
    destruct (@configure_outcome specifications joint_names s0 Hlt) as (b & s1 & Hc1 & Hiff).
    rewrite Hc in Hc1. injection Hc1 as <- <-.
    right. intro Hnd. assert (Hf : false = true) by (apply Hiff; split; assumption).
    discriminate.
  - intros Hprio (c & Hin & Hc). unfold configure.
    destruct (scan_priorities specifications 0) as [max_prio|] eqn:Hscan.
    + apply scan_priorities_spec in Hscan. destruct Hscan as [_ Hall].
      rewrite Forall_forall in Hall. specialize (Hall _ Hin).
      destruct (max_prio + 1 >? INT_MAX)%Z eqn:Hov; [reflexivity|].
      rewrite Z.gtb_ltb in Hov. apply Z.ltb_ge in Hov. lia.
    + apply scan_priorities_negative in Hscan. destruct Hscan as (c' & Hin' & Hneg).
      rewrite Forall_forall in Hprio. specialize (Hprio _ Hin'). lia.
Qed.

Lemma configure_outcomes_witness :
  (exists s, configure [example_joint_config "a" (-1)] ["j1"] (WbcVelocity_ctor 0)
             = Ret false s /\ heap s = [] /\ constraint_vector_ s = []) /\
  (Forall (fun c => (0 <= ConstraintConfig.priority c)%Z)
          [example_joint_config "a" 0; example_joint_config "b" 2] /\
   NoDup (map ConstraintConfig.name
              [example_joint_config "a" 0; example_joint_config "b" 2])) /\
  ((exists c, In c [example_joint_config "a" 0; example_joint_config "a" 2] /\
              (ConstraintConfig.priority c < 0)%Z) \/
   ~ NoDup (map ConstraintConfig.name
                [example_joint_config "a" 0; example_joint_config "a" 2])) /\
  configure [example_joint_config "a" INT_MAX] ["j1"] (WbcVelocity_ctor 0) = Undef.
Proof.
  split; [|split; [|split]].
  - apply (proj1 (configure_outcomes [example_joint_config "a" (-1)] ["j1"]
                    (WbcVelocity_ctor 0))).
    exists (example_joint_config "a" (-1)). split; [left; reflexivity|reflexivity].
  - apply (proj1 (proj2 (configure_outcomes
                           [example_joint_config "a" 0; example_joint_config "b" 2] ["j1"]
                           (WbcVelocity_ctor 0)))
                 (configured_state [example_joint_config "a" 0; example_joint_config "b" 2]
                                   ["j1"])).
    vm_compute. reflexivity.
  - apply (proj1 (proj2 (proj2 (configure_outcomes
                           [example_joint_config "a" 0; example_joint_config "a" 2] ["j1"]
                           (WbcVelocity_ctor 0))))
                 (configured_state [example_joint_config "a" 0; example_joint_config "a" 2]
                                   ["j1"])).
    vm_compute. reflexivity.
  - apply (proj2 (proj2 (proj2 (configure_outcomes
                           [example_joint_config "a" INT_MAX] ["j1"]
                           (WbcVelocity_ctor 0))))).
    + repeat constructor. discriminate.
    + exists (example_joint_config "a" INT_MAX). split; [left; reflexivity|].
      simpl. apply Z.le_refl.
Defined.

(** X6.  A call of [configure] does not depend on what the solver held
    before: when it succeeds the solver is exactly the one that a freshly
    constructed solver becomes, and when it fails the solver differs from the
    fresh one's only in [configured_], [n_constraints_per_prio_] and
    [n_prios_], the three members that neither [clear] nor a failing
    [configure] writes; these stay as they were before the call. *)
Theorem reconfigure_like_fresh config joint_names s0 n :
  configure config joint_names s0 =
  match configure config joint_names (WbcVelocity_ctor n) with
  | Ret true s => Ret true s
  | Ret false s => Ret false (with_stale s0 s)
  | Throw e s => Throw e (with_stale s0 s)
  | Undef => Undef
  end.
Proof.
  apply configure_with_stale.
Qed.

(** ** What a completed assembly leaves as it was *)

(** X7.  A completed assembly of a solver in use changes no member of the
    solver but the constraint objects and the Jacobians, and of a constraint
    it keeps what the caller and the configuration own: the specification,
    the output size, the weights, the activation and the time of the last
    reference update.  It stamps the constraint with the clock reading taken
    after the update, and it keeps the raw reference unless the activation is
    zero, in which case the reference is zeroed. *)
Theorem assembly_keeps_caller_inputs
  specifications svd task_frames now s equations s' equations' prio ptrs k p c :
  configured_from specifications s ->
  prepareEqSystem svd task_frames now (s, equations) = Ret tt (s', equations') ->
  nth_error (constraint_vector_ s) prio = Some ptrs ->
  nth_error ptrs k = Some p ->
  nth_error (heap s) p = Some c ->
  solver_frame s s' /\
  exists c',
    nth_error (heap s') p = Some c' /\
    config c' = config c /\
    no_variables c' = no_variables c /\
    weights c' = weights c /\
    activation c' = activation c /\
    last_ref_input c' = last_ref_input c /\
    time c' = now prio k at_time_stamp /\
    y_ref c' = (if Qeq_bool (activation c) 0 then zeros (length (y_ref c)) else y_ref c).
Proof.
  intros Hs Hp Hptrs Hk Hc.
  destruct (@level_in_range _ _ _ _ Hs Hptrs) as (Hnd & Hprio).
  destruct (@prepareEqSystem_Ret _ _ _ _ _ _ _ Hp Hnd) as (Hframe & _ & _ & _ & Hall).
  split; [exact Hframe|].
  destruct (Hall prio ptrs Hprio Hptrs) as (e' & He' & Hk').
  destruct (Hk' k p Hk) as (c0 & c' & Hc0 & Hc' & Hev & _).
  rewrite Hc in Hc0. injection Hc0 as <-.
  exists c'. split; [exact Hc'|].
  pose proof (evaluated_weight_inputs Hev) as (H1 & H2 & H3 & H4 & _).
  repeat (split; [assumption|]).
  apply evaluated_same_inputs in Hev. destruct Hev as (c1 & -> & Hsame).
  unfold same_inputs in Hsame. destruct Hsame as (_ & _ & _ & Ha & Hl & _ & Hy).
  assert (Kl : last_ref_input (check_timeout (now prio k at_timeout_check) c)
               = last_ref_input c).
  { unfold check_timeout.
    repeat match goal with |- context [if ?b then _ else _] => destruct b end; reflexivity. }
  pose proof (check_timeout_same (now prio k at_timeout_check) c) as (_ & _ & _ & Ka & Ky & _).
  pose proof (deactivate_references (set_time (now prio k at_time_stamp) c1)) as [Dy _].
  rewrite Dy. simpl. rewrite Ha, Ka, Hy, Ky.
  split; [|split; [|reflexivity]].
  - unfold deactivate. destruct (Qeq_bool _ _); simpl; congruence.
  - unfold deactivate. destruct (Qeq_bool _ _); reflexivity.
Qed.

Lemma assembly_keeps_caller_inputs_witness :
  exists c',
    nth_error (heap (fst (cycle svd_of_identity [] two_seconds (example_timeout_state, [])))) 0
    = Some c' /\
    config c' = example_timeout_config /\
    activation c' = 1%Q /\
    last_ref_input c' = 0%Z /\
    time c' = 2000000%Z /\
    y_ref c' = [(1 # 2)%Q].
Proof.
  destruct (@assembly_keeps_caller_inputs [example_timeout_config] svd_of_identity []
              two_seconds example_timeout_state [] 
              (fst (cycle svd_of_identity [] two_seconds (example_timeout_state, [])))
              (snd (cycle svd_of_identity [] two_seconds (example_timeout_state, [])))
              0 [0] 0 0
              (nth 0 (heap example_timeout_state) default_Constraint))
    as (_ & c' & Hc' & H1 & _ & _ & H4 & H5 & H6 & H7).
  - apply (@configured_write [example_timeout_config]
             (configured_state [example_timeout_config] ["j1"; "j2"]) 0
             (fun c => setActivation 1 (setReference [(1 # 2)%Q] 0%Z c))
             (new_ExtendedConstraint example_timeout_config ["j1"; "j2"])).
    + apply (@configured_by [example_timeout_config] ["j1"; "j2"] (WbcVelocity_ctor 0)).
      vm_compute. reflexivity.
    + vm_compute. reflexivity.
    + repeat split.
    + vm_compute. reflexivity.
  - vm_compute. reflexivity.
  - vm_compute. reflexivity.
  - reflexivity.
  - vm_compute. reflexivity.
  - exists c'. repeat split; assumption.
Defined.

(** ** Reference twists without rotation *)

(** X8.  The counterpart of the frame multiplication for reference twists
    without a rotational part: in every completed assembly of a solver in
    use, an active Cartesian constraint whose reference twist has zero
    rotational velocity gets, as its rows of the level's reference vector,
    that twist with the rotation of (root^-1 * ref_frame) applied to it; the
    offset between the two frames adds nothing. *)
Theorem translational_reference_rotated
  specifications svd task_frames now s equations s' equations' prio ptrs k p c t :
  configured_from specifications s ->
  prepareEqSystem svd task_frames now (s, equations) = Ret tt (s', equations') ->
  nth_error (constraint_vector_ s) prio = Some ptrs ->
  nth_error ptrs k = Some p ->
  nth_error (heap s) p = Some c ->
  ConstraintConfig.type (config c) = cart ->
  ~ activation c == 0 ->
  Twist_of_vec (y_ref c) = Some t ->
  vx (rot t) == 0 -> vy (rot t) == 0 -> vz (rot t) == 0 ->
  exists tf_root tf_ref_frame e',
    StdMap.find (ConstraintConfig.root (config c)) task_frames = Some tf_root /\
    StdMap.find (ConstraintConfig.ref_frame (config c)) task_frames = Some tf_ref_frame /\
    nth_error equations' prio = Some e' /\
    veq (firstn 6 (rows_of (heap s) ptrs k c (LinearEquationSystem.y_ref e')))
        (Twist_to_vec
           (Rotation_mul_Twist
              (M_ (Frame_mul (Frame_Inverse (TaskFrame.pose tf_root))
                             (TaskFrame.pose tf_ref_frame))) t)).
Proof.
  intros Hs Hp Hptrs Hk Hc Hty Hact Ht Hx Hy Hz.
  destruct (@level_in_range _ _ _ _ Hs Hptrs) as (Hnd & Hprio).
  destruct (@prepareEqSystem_Ret _ _ _ _ _ _ _ Hp Hnd) as (_ & _ & _ & _ & Hall).
  destruct (Hall prio ptrs Hprio Hptrs) as (e' & He' & Hk').
  destruct (Hk' k p Hk) as (c0 & c' & Hc0 & Hc' & Hev & _ & _ & Hseg & _).
  rewrite Hc in Hc0. injection Hc0 as <-.
  destruct Hev as (c1 & Hc1 & Hbranch). rewrite Hty in Hbranch.
  destruct Hbranch as (tf_root & tf_tip & tf_ref & ci & jr & jt & Hr & _ & Hf & Hinv & Htask).
  exists tf_root, tf_ref, e'. repeat (split; [assumption|]).
  unfold rows_of. rewrite Hseg.
  pose proof (cart_invert_jacobian_same_inputs _ _ _ _ Hinv) as (_ & _ & _ & Hai & _ & _ & Hyi).
  pose proof (cart_task_same_inputs _ _ _ _ _ _ Htask) as (_ & _ & _ & Ha1 & _).
  pose proof (check_timeout_same (now prio k at_timeout_check) c) as (_ & _ & _ & Ka & Ky & _).
  destruct (cart_task_reference _ _ _ _ _ _ Htask) as (t' & Ht' & Hroot).
  rewrite Hyi, Ky, Ht in Ht'. injection Ht' as <-.
  assert (Hnz : Qeq_bool (activation (set_time (now prio k at_time_stamp) c1)) 0 = false).
  { simpl. rewrite Ha1, Hai, Ka. destruct (Qeq_bool (activation c) 0) eqn:E; [|reflexivity].
    apply Qeq_bool_iff in E. contradiction. }
  rewrite Hc1. unfold deactivate. rewrite Hnz.
  change (y_ref_root (set_time (now prio k at_time_stamp) c1)) with (y_ref_root c1).
  rewrite Hroot.
  destruct t as [[a b d] [rx ry rz]]. simpl in Hx, Hy, Hz.
  unfold Frame_mul_Twist, Rotation_mul_Twist, Twist_to_vec, Vector_add, Vector_cross,
    Rotation_apply, Vector_dot. simpl.
  repeat constructor; rewrite ?Hx, ?Hy, ?Hz; ring.
Qed.

Lemma translational_reference_rotated_witness :
  exists tf_root tf_ref_frame e',
    StdMap.find "base" example_offset_frames = Some tf_root /\
    StdMap.find "ref" example_offset_frames = Some tf_ref_frame /\
    nth_error (snd (cycle svd_of_identity example_offset_frames two_seconds
                      (example_translation_state, []))) 0 = Some e' /\
    veq (firstn 6 (rows_of (heap example_translation_state) [0] 0
                     (nth 0 (heap example_translation_state) default_Constraint)
                     (LinearEquationSystem.y_ref e')))
        (Twist_to_vec
           (Rotation_mul_Twist
              (M_ (Frame_mul (Frame_Inverse (TaskFrame.pose tf_root))
                             (TaskFrame.pose tf_ref_frame)))
              (mkTwist (mkVector 1 0 0) (mkVector 0 0 0)))).
Proof.
  apply (@translational_reference_rotated [example_cart_config "c" 0] svd_of_identity
           example_offset_frames two_seconds example_translation_state []
           (fst (cycle svd_of_identity example_offset_frames two_seconds
                   (example_translation_state, [])))
           (snd (cycle svd_of_identity example_offset_frames two_seconds
                   (example_translation_state, [])))
           0 [0] 0 0
           (nth 0 (heap example_translation_state) default_Constraint)
           (mkTwist (mkVector 1 0 0) (mkVector 0 0 0))).
  - apply (@configured_write [example_cart_config "c" 0]
             (configured_state [example_cart_config "c" 0] ["j1"]) 0
             (fun c => setActivation 1 (setReference example_translation 0%Z c))
             (new_ExtendedConstraint (example_cart_config "c" 0) ["j1"])).
    + apply (@configured_by [example_cart_config "c" 0] ["j1"] (WbcVelocity_ctor 0)).
      vm_compute. reflexivity.
    + vm_compute. reflexivity.
    + repeat split.
    + vm_compute. reflexivity.
  - vm_compute. reflexivity.
  - vm_compute. reflexivity.
  - reflexivity.
  - vm_compute. reflexivity.
  - reflexivity.
  - vm_compute. discriminate.
  - reflexivity.
  - reflexivity.
  - reflexivity.
  - reflexivity.
Defined.

(** ** The snapshot of the constraints *)

Lemma configured_from_pointers specifications s :
  configured_from specifications s ->
  forall p, In p (concat (constraint_vector_ s)) -> p < length (heap s).
Proof.
  induction 1 as [joint_names s0 s Hc
                 | s p0 f c0 s' Hfrom IH Hp0 Hshape Hw
                 | svd task_frames now s equations s' equations' Hfrom IH Hp].
  - apply configure_pointers in Hc. exact (proj2 Hc).
  - destruct (write_handle_frame _ _ _ Hw) as [(_ & _ & Hcv & _) Hlen].
    rewrite Hcv, Hlen. exact IH.
  - pose proof (configured_from_invariants Hfrom) as (_ & Hnd & _).
    destruct (prepareEqSystem_Ret _ _ _ _ _ Hp Hnd) as ((_ & _ & Hcv & _) & Hlen & _).
    rewrite Hcv, Hlen. exact IH.
Qed.

Lemma vector_resize_length {X} (n : nat) (dflt : X) l :
  length (vector_resize n dflt l) = n.
Proof.
  unfold vector_resize. rewrite length_app, length_firstn, repeat_length. lia.
Qed.

Lemma list_set_splice {X} (i : nat) (x : X) l l' :
  list_set i x l = Some l' -> l' = firstn i l ++ x :: skipn (S i) l.
Proof.
  revert i l'. induction l as [|y l IH]; intros [|i] l' Hs; simpl in Hs; try discriminate.
  - injection Hs as <-. reflexivity.
  - destruct (list_set i x l) as [l1|] eqn:E; [|discriminate].
    injection Hs as <-. simpl. f_equal. exact (IH _ _ E).
Qed.

Lemma map_opt_Forall2 {X Y} (f : X -> option Y) l l' :
  map_opt f l = Some l' -> Forall2 (fun y x => f x = Some y) l' l.
Proof.
  revert l'. induction l as [|x l IH]; intros l' Hm; simpl in Hm.
  - injection Hm as <-. constructor.
  - destruct (f x) as [y|] eqn:Hx; [|discriminate].
    destruct (map_opt f l) as [ys|]; [|discriminate].
    injection Hm as <-. constructor; auto.
Qed.

Lemma firstn_S_splice {X} (i : nat) (x : X) l t :
  i <= length l -> firstn (S i) (firstn i l ++ x :: t) = firstn i l ++ [x].
Proof.
  intro Hi. rewrite firstn_app, length_firstn, Nat.min_l by exact Hi.
  replace (S i - i) with 1 by lia.
  rewrite firstn_all2 by (rewrite length_firstn; lia). reflexivity.
Qed.

Lemma copy_level_spec h ptrs :
  forall i level cs,
    map_opt (nth_error h) ptrs = Some cs ->
    length level = i + length ptrs ->
    copy_level h ptrs i level = Some (firstn i level ++ cs).
Proof.
  induction ptrs as [|p rest IH]; intros i level cs Hm Hlen; simpl in *.
  - injection Hm as <-. rewrite app_nil_r, firstn_all2 by lia. reflexivity.
  - destruct (nth_error h p) as [c|]; [|discriminate].
    destruct (map_opt (nth_error h) rest) as [cs'|] eqn:Hr; [|discriminate].
    injection Hm as <-.
    destruct (@list_set_some _ i c level) as [level' Hs]; [lia|].
    rewrite Hs. pose proof (list_set_length _ _ _ Hs) as Hlen'.
    rewrite (IH (S i) level' cs' eq_refl) by lia.
    apply list_set_splice in Hs. subst level'. f_equal.
    rewrite firstn_S_splice by lia. rewrite <- app_assoc. reflexivity.
Qed.

Lemma skipn_nth_error {X} (a : nat) (l : list X) x :
  nth_error l a = Some x -> skipn a l = x :: skipn (S a) l.
Proof.
  revert a. induction l as [|y l IH]; intros [|a] Hn; simpl in Hn; try discriminate.
  - injection Hn as ->. reflexivity.
  - change (skipn (S a) (y :: l)) with (skipn a l). rewrite (IH _ Hn). reflexivity.
Qed.

Lemma copy_levels_spec s :
  forall m a constraints rs,
    length constraints = a + m ->
    map_opt (fun ptrs => map_opt (nth_error (heap s)) ptrs)
            (firstn m (skipn a (constraint_vector_ s))) = Some rs ->
    a + m <= length (constraint_vector_ s) ->
    copy_levels s (seq a m) constraints = Some (firstn a constraints ++ rs).
Proof.
  induction m as [|m IH]; intros a constraints rs Hlen Hm Hle.
  - simpl in Hm. injection Hm as <-. simpl.
    rewrite app_nil_r, firstn_all2 by lia. reflexivity.
  - cbn [seq copy_levels].
    destruct (nth_error constraints a) as [level|] eqn:Hl.
    2:{ apply nth_error_None in Hl. lia. }
    destruct (nth_error (constraint_vector_ s) a) as [ptrs|] eqn:Hp.
    2:{ apply nth_error_None in Hp. lia. }
    rewrite (skipn_nth_error _ _ Hp) in Hm. cbn [firstn map_opt] in Hm.
    destruct (map_opt (nth_error (heap s)) ptrs) as [cs|] eqn:Hcs; [|discriminate].
    destruct (map_opt _ (firstn m _)) as [rs'|] eqn:Hrs; [|discriminate].
    injection Hm as <-.
    set (level' := if negb (length level =? length ptrs)
                   then vector_resize (length ptrs) default_Constraint level else level).
    assert (Hlen' : length level' = 0 + length ptrs).
    { subst level'. destruct (length level =? length ptrs) eqn:E; simpl.
      - apply Nat.eqb_eq in E. exact E.
      - apply vector_resize_length. }
    rewrite (@copy_level_spec (heap s) ptrs 0 level' cs Hcs Hlen'). cbn [firstn app].
    destruct (@list_set_some _ a cs constraints) as [constraints' Hs]; [lia|].
    rewrite Hs. pose proof (list_set_length _ _ _ Hs) as Hlen2.
    rewrite (IH (S a) constraints' rs') by (try assumption; lia).
    apply list_set_splice in Hs. subst constraints'. f_equal.
    rewrite firstn_S_splice by lia. rewrite <- app_assoc. reflexivity.
Qed.

(** X9.  In every state in use, [getConstraintVector] returns, whatever
    vector it is handed, one level per priority level of the solver, and in
    each level, in the order of the level, a copy of every constraint object
    as it is at the time of the call; no entry of the vector passed in
    survives, and the solver is left as it is. *)
Theorem getConstraintVector_snapshot specifications s constraints :
  configured_from specifications s ->
  exists result,
    getConstraintVector constraints s = Ret result s /\
    Forall2 (Forall2 (fun c p => nth_error (heap s) p = Some c))
            result (constraint_vector_ s).
Proof.
  intro Hfrom.
  pose proof (configured_from_invariants Hfrom) as (_ & _ & Hnp & _).
  pose proof (configured_from_pointers Hfrom) as Hvalid.
  destruct (@map_opt_some _ _ (fun ptrs => map_opt (nth_error (heap s)) ptrs)
              (constraint_vector_ s)) as [rs Hrs].
  { intros ptrs Hin. apply map_opt_some. intros p Hp.
    destruct (nth_error (heap s) p) as [c|] eqn:E; [eauto|].
    apply nth_error_None in E.
    assert (p < length (heap s)); [|lia].
    apply Hvalid. apply in_concat. eauto. }
  exists rs. split.
  - unfold getConstraintVector.
    set (cs := if negb (length constraints =? n_prios_ s)
               then vector_resize (n_prios_ s) [] constraints else constraints).
    assert (Hlen : length cs = 0 + n_prios_ s).
    { subst cs. destruct (length constraints =? n_prios_ s) eqn:E; simpl.
      - apply Nat.eqb_eq in E. exact E.
      - apply vector_resize_length. }
    rewrite (@copy_levels_spec s (n_prios_ s) 0 cs rs Hlen); [reflexivity| |lia].
    rewrite Hnp. simpl. rewrite firstn_all. exact Hrs.
  - apply map_opt_Forall2 in Hrs.
    eapply Forall2_impl; [|exact Hrs]. intros level ptrs Hl.
    apply map_opt_Forall2 in Hl. exact Hl.
Qed.

Lemma getConstraintVector_snapshot_witness :
  exists result,
    getConstraintVector [[default_Constraint; default_Constraint]; []]
      (configured_state [example_joint_config "a" 0] ["j1"])
    = Ret result (configured_state [example_joint_config "a" 0] ["j1"]) /\
    Forall2 (Forall2 (fun c p =>
                        nth_error (heap (configured_state [example_joint_config "a" 0] ["j1"])) p
                        = Some c))
            result
            (constraint_vector_ (configured_state [example_joint_config "a" 0] ["j1"])).
Proof.
  apply (@getConstraintVector_snapshot [example_joint_config "a" 0]).
  apply (configured_by [example_joint_config "a" 0] ["j1"] (WbcVelocity_ctor 0)).
  vm_compute. reflexivity.
Defined.

(** ** The shape of the assembled systems *)

Lemma eval_level_shape svd task_frames now prio ptrs n :
  forall i r st st' e,
    eval_level svd task_frames now prio ptrs i r st = Ret tt st' ->
    nth_error (snd st) prio = Some e ->
    system_shape n (no_robot_joints_ (fst st)) e ->
    exists e', nth_error (snd st') prio = Some e' /\
               system_shape n (no_robot_joints_ (fst st)) e'.
Proof.
  induction ptrs as [|p rest IH]; intros i r st st' e Hl He Hshape.
  - simpl in Hl. unfold ret in Hl. injection Hl as <-. eauto.
  - simpl in Hl. apply bind_Ret in Hl. destruct Hl as (r1 & st1 & Hc & Hl).
    apply eval_constraint_Ret in Hc.
    destruct Hc as (c & c' & e0 & w & a & y & Hp & Hev & Hheap & Hf1 & -> & He0 & Hw & Ha & Hy & Heq).
    rewrite He in He0. injection He0 as <-.
    destruct Hshape as (Sw & Sy & Sa & Scols).
    apply segment_write_splice in Hw. destruct Hw as (-> & Hwl & Hwr).
    apply segment_write_splice in Hy. destruct Hy as (-> & Hyl & Hyr).
    apply block_write_splice in Ha; [|exact Scols]. destruct Ha as (-> & Hal & Har & Hac).
    assert (Hnr : no_robot_joints_ (fst st1) = no_robot_joints_ (fst st))
      by (unfold solver_frame in Hf1; tauto).
    rewrite <- Hnr.
    eapply IH; [exact Hl|eapply list_set_same; exact Heq|].
    rewrite Hnr. unfold system_shape. simpl.
    destruct (@splice_spec _ (LinearEquationSystem.W_row e) r _ _ Hwl Hwr) as (Lw & _).
    destruct (@splice_spec _ (LinearEquationSystem.y_ref e) r _ _ Hyl Hyr) as (Ly & _).
    destruct (@splice_spec _ (LinearEquationSystem.A e) r _ _ Hal Har) as (La & _).
    repeat split; try congruence. apply Forall_splice; assumption.
Qed.

Lemma eval_priority_shape svd task_frames now prio st st' :
  eval_priority svd task_frames now prio st = Ret tt st' ->
  exists n e',
    nth_error (n_constraints_per_prio_ (fst st)) prio = Some n /\
    nth_error (snd st') prio = Some e' /\
    system_shape n (no_robot_joints_ (fst st)) e'.
Proof.
  unfold eval_priority. intro He.
  inv_get He.
  inv_lift He n_vars_prio Hn.
  inv_lift He e He0.
  inv_lift He equations Hset.
  inv_bind He u sa Hput. unfold put in Hput. injection Hput as _ <-.
  inv_lift He ptrs Hptrs.
  eapply eval_level_shape in He.
  - destruct He as (e' & He' & Hshape). exists n_vars_prio, e'. simpl in *. eauto.
  - simpl. eapply list_set_same. exact Hset.
  - unfold system_shape, LinearEquationSystem.resize. simpl.
    unfold zero_matrix. rewrite !zeros_length, repeat_length.
    repeat split. apply Forall_forall. intros row Hrow.
    apply repeat_spec in Hrow. subst. apply zeros_length.
Qed.

Lemma eval_priority_level svd task_frames now prio st st' :
  eval_priority svd task_frames now prio st = Ret tt st' ->
  exists ptrs, nth_error (constraint_vector_ (fst st)) prio = Some ptrs.
Proof.
  unfold eval_priority. intro He.
  inv_get He.
  inv_lift He n_vars_prio Hn.
  inv_lift He e He0.
  inv_lift He equations Hset.
  inv_bind He u sa Hput. unfold put in Hput. injection Hput as _ <-.
  inv_lift He ptrs Hptrs. simpl in Hptrs. eauto.
Qed.

Lemma eval_priorities_shape svd task_frames now prios :
  forall st st',
    for_each prios (eval_priority svd task_frames now) st = Ret tt st' ->
    NoDup prios ->
    NoDup (concat (constraint_vector_ (fst st))) ->
    forall prio, In prio prios ->
      exists n e',
        nth_error (n_constraints_per_prio_ (fst st)) prio = Some n /\
        nth_error (snd st') prio = Some e' /\
        system_shape n (no_robot_joints_ (fst st)) e'.
Proof.
  induction prios as [|prio0 rest IH]; intros st st' Hl Hnd Hcv prio Hin; [destruct Hin|].
  simpl in Hl. apply bind_Ret in Hl. destruct Hl as ([] & st1 & Hp & Hl).
  inversion Hnd as [|? ? Hnotin Hnd']; subst.
  destruct (eval_priority_level _ _ _ _ _ Hp) as (ptrs0 & Hptrs0).
  pose proof (@NoDup_concat_level _ _ _ _ Hcv Hptrs0) as Hnd0.
  destruct (@eval_priority_Ret _ _ _ _ _ _ _ Hp Hptrs0 Hnd0) as (Hf1 & _).
  assert (Hcv1 : constraint_vector_ (fst st1) = constraint_vector_ (fst st))
    by (unfold solver_frame in Hf1; tauto).
  assert (Hrw1 : n_constraints_per_prio_ (fst st1) = n_constraints_per_prio_ (fst st))
    by (unfold solver_frame in Hf1; tauto).
  assert (Hnr1 : no_robot_joints_ (fst st1) = no_robot_joints_ (fst st))
    by (unfold solver_frame in Hf1; tauto).
  assert (Hcv' : NoDup (concat (constraint_vector_ (fst st1)))) by (rewrite Hcv1; exact Hcv).
  destruct Hin as [<-|Hin].
  - destruct (eval_priority_shape _ _ _ _ _ Hp) as (n & e1 & Hn & He1 & Hshape).
    exists n, e1. split; [exact Hn|]. split; [|exact Hshape].
    destruct (@eval_priorities_Ret _ _ _ _ _ _ Hl Hnd' Hcv') as (_ & _ & _ & _ & Hep & _).
    rewrite Hep by exact Hnotin. exact He1.
  - rewrite <- Hrw1, <- Hnr1. eapply IH; eauto.
Qed.

Lemma prepareEqSystem_shape svd task_frames now s equations s' equations' :
  prepareEqSystem svd task_frames now (s, equations) = Ret tt (s', equations') ->
  NoDup (concat (constraint_vector_ s)) ->
  forall prio, prio < n_prios_ s ->
    exists n e',
      nth_error (n_constraints_per_prio_ s) prio = Some n /\
      nth_error equations' prio = Some e' /\
      system_shape n (no_robot_joints_ s) e'.
Proof.
  unfold prepareEqSystem. intros Hp Hnd prio Hprio.
  apply bind_Ret in Hp. destruct Hp as (sg & sa & Hget & Hp).
  unfold get in Hget. injection Hget as <- <-. cbn [fst snd] in Hp.
  destruct (negb (configured_ s)); [discriminate Hp|].
  destruct (missing_task_frame task_frames (task_frame_ids s)); [discriminate Hp|].
  apply bind_Ret in Hp. destruct Hp as (u1 & st1 & Hsplice & Hp).
  apply bind_Ret in Hp. destruct Hp as (u2 & st2 & Hmod & Hp).
  apply bind_Ret in Hp. destruct Hp as (sg & sa & Hget & Hp).
  unfold get in Hget. injection Hget as <- <-.
  unfold modify in Hmod. injection Hmod as _ <-. cbn [fst snd] in Hp.
  assert (Hj : jac_only (s, equations) st1).
  { revert Hsplice. apply for_each_inv; [apply jac_only_refl|apply jac_only_trans|].
    intros b s0 u s0'. apply splice_task_frame_Ret. }
  destruct Hj as (Hf1 & Hh1 & He1). simpl in Hf1, Hh1, He1.
  unfold solver_frame in Hf1. destruct Hf1 as (_ & Hnr & Hcv & _ & _ & _ & Hrw & Hnp).
  eapply eval_priorities_shape in Hp.
  - simpl in Hp. rewrite Hrw, Hnr in Hp. exact Hp.
  - apply seq_NoDup.
  - simpl. rewrite Hcv. exact Hnd.
  - apply in_seq. lia.
Qed.

(** ** The rows of a level *)

Lemma count_level_rows_sum h level :
  forall acc n,
    count_level_rows h level acc = Some n ->
    (forall p c, In p level -> nth_error h p = Some c -> length (y_ref c) = no_variables c) ->
    n = acc + rows_before h level.
Proof.
  induction level as [|p rest IH]; intros acc n Hc Hsize; simpl in *.
  - injection Hc as <-. lia.
  - destruct (nth_error h p) as [c|] eqn:Hp; [|discriminate].
    apply IH in Hc; [|intros q c' Hq; apply Hsize; right; exact Hq].
    rewrite (Hsize p c (or_introl eq_refl) Hp) in Hc. lia.
Qed.

Lemma map_opt_map {X Y} (f : X -> option Y) (g : X -> Y) l l' :
  map_opt f l = Some l' -> (forall x y, In x l -> f x = Some y -> y = g x) -> l' = map g l.
Proof.
  revert l'. induction l as [|x l IH]; intros l' Hm Hg; simpl in Hm.
  - injection Hm as <-. reflexivity.
  - destruct (f x) as [y|] eqn:Hx; [|discriminate].
    destruct (map_opt f l) as [ys|]; [|discriminate].
    injection Hm as <-. simpl. f_equal.
    + apply Hg; [left; reflexivity|exact Hx].
    + apply IH; [reflexivity|]. intros x' y' Hin. apply Hg. right. exact Hin.
Qed.

Lemma rows_before_sizes h h' ptrs :
  (forall q, In q ptrs ->
     option_map no_variables (nth_error h' q) = option_map no_variables (nth_error h q)) ->
  rows_before h' ptrs = rows_before h ptrs.
Proof.
  induction ptrs as [|q ptrs IH]; intro Hext; simpl; [reflexivity|].
  rewrite IH by (intros q' Hq'; apply Hext; right; exact Hq').
  specialize (Hext q (or_introl eq_refl)).
  destruct (nth_error h' q), (nth_error h q); simpl in Hext; congruence.
Qed.

Lemma configured_from_rows specifications s :
  configured_from specifications s ->
  n_constraints_per_prio_ s = map (rows_before (heap s)) (constraint_vector_ s).
Proof.
  induction 1 as [joint_names s0 s Hc
                 | s p0 f c0 s' Hfrom IH Hp0 Hshape Hw
                 | svd task_frames now s equations s' equations' Hfrom IH Hp].
  - apply configure_true_parts in Hc.
    destruct Hc as (mp & s1 & rows & s2 & _ & Hi & Hrows & _ & _ & Hheap & _ & Hcv & Hrw & _).
    rewrite Hheap, Hcv, Hrw.
    apply insert_constraints_heap in Hi. simpl in Hi.
    eapply map_opt_map; [exact Hrows|].
    intros level n _ Hn. apply count_level_rows_sum in Hn; [exact Hn|].
    intros p c _ Hp. rewrite Hi in Hp. apply nth_error_In in Hp.
    apply in_map_iff in Hp. destruct Hp as (cfg & <- & _). simpl. apply zeros_length.
  - destruct (write_handle_frame _ _ _ Hw) as [(_ & _ & Hcv & _ & _ & _ & Hrw & _) _].
    rewrite Hcv, Hrw, IH. apply map_ext. intro ptrs. symmetry.
    apply rows_before_sizes. intros q _.
    unfold write_handle in Hw. rewrite Hp0 in Hw.
    destruct (list_set p0 (f c0) (heap s)) as [h|] eqn:Hs; [|discriminate].
    injection Hw as <-. simpl.
    destruct (Nat.eq_dec p0 q) as [->|Hne].
    + rewrite (@list_set_same _ _ _ _ _ Hs), Hp0. simpl. f_equal.
      destruct Hshape as (_ & Hn & _). exact Hn.
    + rewrite (@list_set_other _ _ _ _ _ _ Hs Hne). reflexivity.
  - pose proof (configured_from_invariants Hfrom) as (_ & Hnd & Hnp & _).
    destruct (prepareEqSystem_Ret _ _ _ _ _ Hp Hnd) as (Hframe & _ & _ & _ & Hall).
    destruct Hframe as (_ & _ & Hcv & _ & _ & _ & Hrw & _).
    rewrite Hcv, Hrw, IH. apply map_ext_in. intros ptrs Hin. symmetry.
    apply rows_before_sizes. intros q Hq.
    apply In_nth_error in Hin. destruct Hin as [prio Hprio].
    apply In_nth_error in Hq. destruct Hq as [k Hk].
    assert (Hlt : prio < n_prios_ s).
    { rewrite Hnp. apply nth_error_Some. congruence. }
    destruct (Hall _ _ Hlt Hprio) as (e' & _ & Hasm).
    destruct (Hasm _ _ Hk) as (c & c' & Hc & Hc' & Hev & _).
    rewrite Hc, Hc'. simpl. f_equal.
    apply evaluated_weight_inputs in Hev. tauto.
Qed.

Lemma stack_blocks {X} h h' (blk : ExtendedConstraint -> list X) ptrs :
  forall cs' v,
    Forall2 (fun c' p => nth_error h' p = Some c') cs' ptrs ->
    length v = rows_before h ptrs ->
    (forall k p, nth_error ptrs k = Some p ->
       exists c c', nth_error h p = Some c /\ nth_error h' p = Some c' /\
                    segment v (rows_before h (firstn k ptrs)) (no_variables c) = blk c' /\
                    length (blk c') = no_variables c) ->
    v = concat (map blk cs').
Proof.
  induction ptrs as [|p rest IH]; intros cs' v Hcs Hlen Hseg.
  - inversion Hcs; subst. simpl in Hlen. destruct v; [reflexivity|discriminate].
  - inversion Hcs as [|c' ? cs'' ? Hc' Hcs'']; subst. simpl.
    destruct (Hseg 0 p eq_refl) as (c & c0 & Hc & Hc0 & H0 & Hl0).
    rewrite Hc' in Hc0. injection Hc0 as <-.
    simpl in Hlen. rewrite Hc in Hlen.
    unfold segment in H0. simpl in H0.
    rewrite <- (firstn_skipn (no_variables c) v). rewrite H0. f_equal.
    apply IH; [exact Hcs''|rewrite length_skipn; lia|].
    intros k q Hq. destruct (Hseg (S k) q Hq) as (c1 & c1' & Hc1 & Hc1' & H1 & Hl1).
    exists c1, c1'. repeat split; try assumption.
    unfold segment in *. simpl in H1. rewrite Hc in H1.
    rewrite skipn_skipn. rewrite Nat.add_comm. exact H1.
Qed.

(** X10.  In every completed assembly of a solver in use there is one
    system per priority level, and the system of a level is the stack of the
    blocks of its constraints, in the order of the level: the weight vector
    is the concatenation of their effective weights, the task matrix the
    concatenation of the rows of their task matrices, each with
    [no_robot_joints_] columns, and the reference vector the concatenation of
    their root-frame references.  Every row of the system is written by
    exactly one constraint; none keeps what [resize] left in it. *)
Theorem level_system_stacks_constraints
  specifications svd task_frames now s equations s' equations' prio ptrs :
  configured_from specifications s ->
  prepareEqSystem svd task_frames now (s, equations) = Ret tt (s', equations') ->
  nth_error (constraint_vector_ s) prio = Some ptrs ->
  length equations' = length (constraint_vector_ s) /\
  exists e' cs',
    nth_error equations' prio = Some e' /\
    Forall2 (fun c' p => nth_error (heap s') p = Some c') cs' ptrs /\
    LinearEquationSystem.W_row e' = concat (map effective_weights cs') /\
    LinearEquationSystem.A e' = concat (map A cs') /\
    LinearEquationSystem.y_ref e' = concat (map y_ref_root cs') /\
    Forall (fun row => length row = no_robot_joints_ s) (LinearEquationSystem.A e').
Proof.
  intros Hfrom Hp Hptrs.
  destruct (@level_in_range _ _ _ _ Hfrom Hptrs) as (Hnd & Hprio).
  pose proof (configured_from_invariants Hfrom) as (_ & _ & Hnp & _).
  destruct (@prepareEqSystem_Ret _ _ _ _ _ _ _ Hp Hnd) as (_ & _ & Hlen & _ & Hall).
  split; [congruence|].
  destruct (@prepareEqSystem_shape _ _ _ _ _ _ _ Hp Hnd prio Hprio)
    as (n & e' & Hn & He' & Sw & Sy & Sa & Scols).
  rewrite (configured_from_rows Hfrom), nth_error_map, Hptrs in Hn.
  simpl in Hn. injection Hn as <-.
  destruct (Hall prio ptrs Hprio Hptrs) as (e1 & He1 & Hasm).
  rewrite He' in He1. injection He1 as <-.
  destruct (@map_opt_some _ _ (nth_error (heap s')) ptrs) as [cs' Hcs'].
  { intros p Hin. apply In_nth_error in Hin. destruct Hin as [k Hk].
    destruct (Hasm k p Hk) as (c & c' & _ & Hc' & _). eauto. }
  apply map_opt_Forall2 in Hcs'.
  exists e', cs'. split; [exact He'|]. split; [exact Hcs'|].
  split; [|split; [|split; [|exact Scols]]].
  - eapply stack_blocks; [exact Hcs'|exact Sw|].
    intros k p Hk. destruct (Hasm k p Hk) as (c & c' & Hc & Hc' & _ & Hw & _ & _ & Lw & _).
    exists c, c'. auto.
  - eapply stack_blocks; [exact Hcs'|exact Sa|].
    intros k p Hk.
    destruct (Hasm k p Hk) as (c & c' & Hc & Hc' & _ & _ & Ha & _ & _ & La & _).
    exists c, c'. auto.
  - eapply stack_blocks; [exact Hcs'|exact Sy|].
    intros k p Hk.
    destruct (Hasm k p Hk) as (c & c' & Hc & Hc' & _ & _ & _ & Hy & _ & _ & Ly).
    exists c, c'. auto.
Qed.

Lemma level_system_stacks_constraints_witness :
  length (snd (cycle svd_of_identity [] two_seconds
                 (configured_state [example_joint_config "a" 0; example_joint_config "b" 0]
                                   ["j1"], [])))
  = length (constraint_vector_
              (configured_state [example_joint_config "a" 0; example_joint_config "b" 0]
                                ["j1"])) /\
  exists e' cs',
    nth_error (snd (cycle svd_of_identity [] two_seconds
                      (configured_state [example_joint_config "a" 0; example_joint_config "b" 0]
                                        ["j1"], []))) 0 = Some e' /\
    Forall2 (fun c' p =>
               nth_error (heap (fst (cycle svd_of_identity [] two_seconds
                  (configured_state [example_joint_config "a" 0; example_joint_config "b" 0]
                                    ["j1"], [])))) p = Some c')
            cs' [0; 1] /\
    LinearEquationSystem.W_row e' = concat (map effective_weights cs') /\
    LinearEquationSystem.A e' = concat (map A cs') /\
    LinearEquationSystem.y_ref e' = concat (map y_ref_root cs') /\
    Forall (fun row => length row = 1) (LinearEquationSystem.A e').
Proof.
  apply (@level_system_stacks_constraints
           [example_joint_config "a" 0; example_joint_config "b" 0]
           svd_of_identity [] two_seconds
           (configured_state [example_joint_config "a" 0; example_joint_config "b" 0] ["j1"])
           []
           (fst (cycle svd_of_identity [] two_seconds
                   (configured_state [example_joint_config "a" 0; example_joint_config "b" 0]
                                     ["j1"], [])))
           (snd (cycle svd_of_identity [] two_seconds
                   (configured_state [example_joint_config "a" 0; example_joint_config "b" 0]
                                     ["j1"], [])))
           0 [0; 1]).
  - apply (configured_by [example_joint_config "a" 0; example_joint_config "b" 0] ["j1"]
                         (WbcVelocity_ctor 0)).
    vm_compute. reflexivity.
  - vm_compute. reflexivity.
  - vm_compute. reflexivity.
Defined.

(** ** Sizes that the solver keeps while it is in use *)

Lemma jac_kept_refl m : jac_kept m m.
Proof. intros f jac Hf. eauto. Qed.

Lemma jac_kept_trans m1 m2 m3 : jac_kept m1 m2 -> jac_kept m2 m3 -> jac_kept m1 m3.
Proof.
  intros H12 H23 f jac Hf.
  destruct (H12 _ _ Hf) as (jac2 & Hf2 & Hl2).
  destruct (H23 _ _ Hf2) as (jac3 & Hf3 & Hl3).
  exists jac3. split; [exact Hf3|congruence].
Qed.

Lemma jac_map_index_kept tf_name st jac st' :
  jac_map_index tf_name st = Ret jac st' ->
  jac_kept (jac_map_ (fst st)) (jac_map_ (fst st')) /\
  StdMap.find tf_name (jac_map_ (fst st')) = Some jac.
Proof.
  unfold jac_map_index, StdMap.index.
  match goal with
  | |- context [match ?x with Some _ => _ | None => _ end] => destruct x as [j|] eqn:Hf
  end.
  - intro Hr. injection Hr as <- <-. simpl. split; [apply jac_kept_refl|exact Hf].
  - intro Hr. injection Hr as <- <-. simpl. split; [|apply StdMap_find_set_same].
    intros f jac Hj. exists jac. split; [|reflexivity].
    rewrite StdMap_find_set_other; [exact Hj|]. intros ->.
    change (StdMap.find tf_name (jac_map_ (fst st)) = None) in Hf. congruence.
Qed.

Lemma splice_task_frame_kept entry st u st' :
  splice_task_frame entry st = Ret u st' ->
  jac_kept (jac_map_ (fst st)) (jac_map_ (fst st')).
Proof.
  destruct entry as [tf_name tf]. unfold splice_task_frame.
  apply (for_each_inv (fun st st' : St => jac_kept (jac_map_ (fst st)) (jac_map_ (fst st')))).
  - intro s. apply jac_kept_refl.
  - intros s1 s2 s3. apply jac_kept_trans.
  - intros [j jt_name] s u' s' Hb.
    inv_get Hb.
    destruct (StdMap.count jt_name (joint_index_map_ (fst s)) =? 0); [discriminate|].
    inv_lift Hb idx Hidx.
    inv_bind Hb jac sb Hj.
    inv_lift Hb col Hcol.
    inv_lift Hb jac' Hjac'.
    unfold modify in Hb. injection Hb as _ <-.
    apply jac_map_index_kept in Hj. destruct Hj as (Hk & Hfound).
    eapply jac_kept_trans; [exact Hk|]. simpl.
    intros f jf Hf. destruct (String.eqb f tf_name) eqn:E.
    + apply String.eqb_eq in E. subst f. rewrite StdMap_find_set_same.
      exists jac'. split; [reflexivity|].
      rewrite Hfound in Hf. injection Hf as <-. eapply list_set_length. exact Hjac'.
    + apply String.eqb_neq in E. rewrite StdMap_find_set_other by exact E. eauto.
Qed.

Lemma eval_constraint_kept svd task_frames now prio p r st r' st' :
  eval_constraint svd task_frames now prio p r st = Ret r' st' ->
  jac_kept (jac_map_ (fst st)) (jac_map_ (fst st')).
Proof.
  unfold eval_constraint. intro He.
  apply bind_Ret in He. destruct He as (c & st1 & Hderef & He).
  unfold deref in Hderef. destruct (nth_error (heap (fst st)) p) as [c0|] eqn:Hc; [|discriminate].
  injection Hderef as <- <-.
  apply bind_Ret in He. destruct He as (c1 & st2 & Hbranch & He).
  apply bind_Ret in He. destruct He as (u1 & st3 & Hstore & He).
  apply bind_Ret in He. destruct He as (u2 & st4 & Hins & He).
  unfold ret in He. injection He as <- <-.
  assert (Hmid : jac_kept (jac_map_ (fst st)) (jac_map_ (fst st2))).
  { destruct (ConstraintConfig.type (config (check_timeout (now at_timeout_check) c0))).
    - inv_lift Hbranch tf_root Hroot.
      inv_lift Hbranch tf_tip Htip.
      inv_lift Hbranch tf_ref Href.
      inv_lift Hbranch ci Hinv.
      inv_bind Hbranch jac_root sb Hj1.
      inv_bind Hbranch jac_tip sc Hj2.
      apply lift_opt_Ret in Hbranch. destruct Hbranch as [Htask ->].
      apply jac_map_index_kept in Hj1. apply jac_map_index_kept in Hj2.
      eapply jac_kept_trans; [exact (proj1 Hj1)|exact (proj1 Hj2)].
    - inv_get Hbranch.
      destruct (jnt_update _ _) as [u cj|e cj|] eqn:Hj.
      + unfold ret in Hbranch. injection Hbranch as <- <-. apply jac_kept_refl.
      + apply bind_Ret in Hbranch. destruct Hbranch as (? & ? & _ & Hthrow). discriminate.
      + discriminate. }
  unfold store in Hstore.
  destruct (list_set p _ (heap (fst st2))) as [h|]; [|discriminate].
  injection Hstore as _ <-.
  apply insert_into_equations_Ret in Hins. destruct Hins as (Hs4 & _).
  rewrite Hs4. simpl. exact Hmid.
Qed.

Lemma eval_level_kept svd task_frames now prio ptrs :
  forall i r st st',
    eval_level svd task_frames now prio ptrs i r st = Ret tt st' ->
    jac_kept (jac_map_ (fst st)) (jac_map_ (fst st')).
Proof.
  induction ptrs as [|p rest IH]; intros i r st st' Hl; simpl in Hl.
  - unfold ret in Hl. injection Hl as <-. apply jac_kept_refl.
  - apply bind_Ret in Hl. destruct Hl as (r1 & st1 & Hc & Hl).
    eapply jac_kept_trans; [eapply eval_constraint_kept; exact Hc|eapply IH; exact Hl].
Qed.

Lemma eval_priority_kept svd task_frames now prio st st' :
  eval_priority svd task_frames now prio st = Ret tt st' ->
  jac_kept (jac_map_ (fst st)) (jac_map_ (fst st')).
Proof.
  unfold eval_priority. intro He.
  inv_get He.
  inv_lift He n_vars_prio Hn.
  inv_lift He e He0.
  inv_lift He equations Hset.
  inv_bind He u sa Hput. unfold put in Hput. injection Hput as _ <-.
  inv_lift He ptrs Hptrs.
  apply eval_level_kept in He. exact He.
Qed.

Lemma prepareEqSystem_kept svd task_frames now s equations s' equations' :
  prepareEqSystem svd task_frames now (s, equations) = Ret tt (s', equations') ->
  jac_kept (jac_map_ s) (jac_map_ s').
Proof.
  unfold prepareEqSystem. intro Hp.
  apply bind_Ret in Hp. destruct Hp as (sg & sa & Hget & Hp).
  unfold get in Hget. injection Hget as <- <-. cbn [fst snd] in Hp.
  destruct (negb (configured_ s)); [discriminate Hp|].
  destruct (missing_task_frame task_frames (task_frame_ids s)); [discriminate Hp|].
  apply bind_Ret in Hp. destruct Hp as (u1 & st1 & Hsplice & Hp).
  apply bind_Ret in Hp. destruct Hp as (u2 & st2 & Hmod & Hp).
  apply bind_Ret in Hp. destruct Hp as (sg & sa & Hget & Hp).
  unfold get in Hget. injection Hget as <- <-.
  unfold modify in Hmod. injection Hmod as _ <-. cbn [fst snd] in Hp.
  apply jac_kept_trans with (m2 := jac_map_ (fst st1)).
  - change s with (fst (s, equations)) at 1. revert Hsplice.
    apply (for_each_inv (fun st st' : St => jac_kept (jac_map_ (fst st)) (jac_map_ (fst st')))).
    + intro s0. apply jac_kept_refl.
    + intros s1 s2 s3. apply jac_kept_trans.
    + intros b s0 u s0'. apply splice_task_frame_kept.
  - change s' with (fst (s', equations')).
    match type of Hp with for_each _ _ ?st2 = _ =>
      change (jac_map_ (fst st1)) with (jac_map_ (fst st2)) end.
    revert Hp.
    apply (for_each_inv (fun st st' : St => jac_kept (jac_map_ (fst st)) (jac_map_ (fst st')))).
    + intro s0. apply jac_kept_refl.
    + intros s1 s2 s3. apply jac_kept_trans.
    + intros b s0 [] s0'. apply eval_priority_kept.
Qed.

Lemma deactivate_y_ref_length c : length (y_ref (deactivate c)) = length (y_ref c).
Proof.
  unfold deactivate. destruct (Qeq_bool _ _); simpl; [|reflexivity].
  unfold setZero. apply zeros_length.
Qed.

Lemma evaluated_sizes svd task_frames now joint_index_map c c' :
  evaluated svd task_frames now joint_index_map c c' ->
  config c' = config c /\ no_variables c' = no_variables c /\
  length (y_ref c') = length (y_ref c).
Proof.
  intro Hev. pose proof (evaluated_weight_inputs Hev) as (H1 & H2 & _).
  split; [exact H1|]. split; [exact H2|].
  apply evaluated_same_inputs in Hev. destruct Hev as (c1 & -> & Hsame).
  destruct Hsame as (_ & _ & _ & _ & _ & _ & Hy).
  pose proof (check_timeout_same (now at_timeout_check) c) as (_ & _ & _ & _ & Ky & _).
  rewrite deactivate_y_ref_length. simpl. congruence.
Qed.

Lemma configured_from_sizes specifications s :
  configured_from specifications s ->
  (forall p c, nth_error (heap s) p = Some c ->
     no_variables c = output_size (config c) /\ length (y_ref c) = no_variables c) /\
  (forall f, In f (task_frame_ids s) ->
     exists jac, StdMap.find f (jac_map_ s) = Some jac /\
                 length jac = StdMap.size (joint_index_map_ s)) /\
  (forall name idx, StdMap.find name (joint_index_map_ s) = Some idx ->
                    idx < no_robot_joints_ s).
Proof.
  induction 1 as [joint_names s0 s Hc
                 | s p0 f c0 s' Hfrom IH Hp0 Hshape Hw
                 | svd task_frames now s equations s' equations' Hfrom IH Hp].
  - split; [|split].
    + apply configure_true_parts in Hc.
      destruct Hc as (mp & s1 & rows & s2 & _ & Hi & _ & _ & _ & Hheap & _).
      apply insert_constraints_heap in Hi. simpl in Hi.
      intros p c Hpc. rewrite Hheap, Hi in Hpc. apply nth_error_In in Hpc.
      apply in_map_iff in Hpc. destruct Hpc as (cfg & <- & _).
      unfold output_size. simpl. split; [reflexivity|apply zeros_length].
    + intros f Hf.
      destruct (configure_task_frame_registry _ _ _ Hc) as (_ & _ & Hfound & _).
      rewrite (Hfound f Hf). eexists. split; [reflexivity|]. apply repeat_length.
    + intros name idx Hf.
      rewrite (configure_no_robot_joints _ _ _ Hc).
      rewrite (configure_joint_index_map _ _ _ Hc) in Hf.
      apply joint_index_map_find_iff in Hf. destruct Hf as [Hnth _].
      apply nth_error_Some. rewrite Hnth. discriminate.
  - destruct IH as (I1 & I2 & I3).
    unfold write_handle in Hw. rewrite Hp0 in Hw.
    destruct (list_set p0 (f c0) (heap s)) as [h|] eqn:Hs; [|discriminate].
    injection Hw as <-. simpl. split; [|split; assumption].
    intros p c Hpc. destruct (Nat.eq_dec p0 p) as [->|Hne].
    + rewrite (@list_set_same _ _ _ _ _ Hs) in Hpc. injection Hpc as <-.
      destruct Hshape as (Hk & Hn & _ & Hy). destruct (I1 _ _ Hp0) as [J1 J2].
      rewrite Hk, Hn, Hy. auto.
    + rewrite (@list_set_other _ _ _ _ _ _ Hs Hne) in Hpc. exact (I1 _ _ Hpc).
  - destruct IH as (I1 & I2 & I3).
    pose proof (configured_from_invariants Hfrom) as (_ & Hnd & Hnp & _).
    pose proof (prepareEqSystem_kept _ _ _ _ _ Hp) as Hkept.
    destruct (prepareEqSystem_Ret _ _ _ _ _ Hp Hnd) as (Hframe & _ & _ & Hout & Hall).
    destruct Hframe as (_ & Hnr & Hcv & _ & Hjim & Hids & _).
    split; [|split].
    + intros q c' Hq.
      destruct (in_dec Nat.eq_dec q (concat (constraint_vector_ s))) as [Hin|Hnin].
      * apply in_concat in Hin. destruct Hin as (ptrs & Hptrs & Hqp).
        apply In_nth_error in Hptrs. destruct Hptrs as [prio Hprio].
        apply In_nth_error in Hqp. destruct Hqp as [k Hk].
        assert (Hlt : prio < n_prios_ s).
        { rewrite Hnp. apply nth_error_Some. congruence. }
        destruct (Hall _ _ Hlt Hprio) as (e' & _ & Hasm).
        destruct (Hasm _ _ Hk) as (c & c1' & Hc & Hc' & Hev & _).
        rewrite Hq in Hc'. injection Hc' as <-.
        apply evaluated_sizes in Hev. destruct Hev as (E1 & E2 & E3).
        destruct (I1 _ _ Hc) as [J1 J2]. rewrite E1, E2, E3. auto.
      * rewrite Hout in Hq; [eauto|].
        intros prio ptrs _ Hprio Hqp. apply Hnin. apply in_concat.
        exists ptrs. split; [eapply nth_error_In; exact Hprio|exact Hqp].
    + intros f Hf. rewrite Hids in Hf. destruct (I2 f Hf) as (jac & Hj & Hl).
      destruct (Hkept _ _ Hj) as (jac' & Hj' & Hl'). exists jac'.
      split; [exact Hj'|]. rewrite Hjim. congruence.
    + rewrite Hjim, Hnr. exact I3.
Qed.

(** ** Outcomes of the assembly *)

Lemma bind_eq {S X Y} (m : M S X) (f : X -> M S Y) s x s1 :
  m s = Ret x s1 -> bind m f s = f x s1.
Proof. intro Hm. unfold bind. rewrite Hm. reflexivity. Qed.

Lemma bind_throw {S X Y} (m : M S X) (f : X -> M S Y) s e s1 :
  m s = Throw e s1 -> bind m f s = Throw e s1.
Proof. intro Hm. unfold bind. rewrite Hm. reflexivity. Qed.

Lemma lift_opt_eq {S X} (o : option X) (x : X) (s : S) :
  o = Some x -> lift_opt o s = Ret x s.
Proof. intros ->. reflexivity. Qed.

Lemma count_known {V} (k : string) (m : StdMap.t V) :
  negb (StdMap.count k m =? 0) = true <-> StdMap.find k m <> None.
Proof.
  unfold StdMap.count. destruct (StdMap.find k m); simpl; split; congruence.
Qed.

Lemma entry_write_total i j x (m : matrix) n_cols :
  i < length m -> j < n_cols ->
  Forall (fun row => length row = n_cols) m ->
  exists m', entry_write i j x m = Some m' /\
             length m' = length m /\
             Forall (fun row => length row = n_cols) m'.
Proof.
  intros Hi Hj Hrows. unfold entry_write.
  destruct (nth_error m i) as [row|] eqn:Hrow.
  2:{ apply nth_error_None in Hrow. lia. }
  assert (Hlen : length row = n_cols).
  { rewrite Forall_forall in Hrows. apply Hrows. eapply nth_error_In. exact Hrow. }
  destruct (@list_set_some _ j x row) as [row' Hrow']; [lia|]. rewrite Hrow'.
  destruct (@list_set_some _ i row' m) as [m' Hm']; [lia|]. rewrite Hm'.
  exists m'. split; [reflexivity|]. split; [eapply list_set_length; exact Hm'|].
  apply list_set_splice in Hm'. subst m'.
  apply Forall_app. split.
  - apply Forall_forall. intros r Hr. rewrite Forall_forall in Hrows.
    apply Hrows. eapply In_firstn. exact Hr.
  - constructor.
    + rewrite (list_set_length _ _ _ Hrow'). exact Hlen.
    + apply Forall_forall. intros r Hr. rewrite Forall_forall in Hrows.
      apply Hrows. eapply In_skipn. exact Hr.
Qed.

(** The loop of a joint constraint returns when every listed joint is
    configured and throws at the first one that is not. *)
Lemma jnt_loop_outcome joint_index_map n_cols (l : list (nat * string)) :
  forall c,
    Forall (fun row => length row = n_cols) (A c) ->
    (forall i jt, In (i, jt) l ->
       i < length (A c) /\
       forall idx, StdMap.find jt joint_index_map = Some idx -> idx < n_cols) ->
    exists c1,
      for_each l (jnt_update_step joint_index_map) c =
        (if all_known joint_index_map (map snd l)
         then Ret tt c1 else Throw invalid_constraint_config c1) /\
      length (A c1) = length (A c) /\
      Forall (fun row => length row = n_cols) (A c1) /\
      (all_known joint_index_map (map snd l) = true ->
       length (y_ref_root c1) = (if is_empty l then length (y_ref_root c) else length (y_ref c))).
Proof.
  induction l as [|[i jt] rest IH]; intros c Hrows Hall.
  - exists c. simpl. auto.
  - destruct (Hall i jt (or_introl eq_refl)) as (Hi & Hlt).
    cbn [map snd all_known forallb].
    destruct (StdMap.find jt joint_index_map) as [idx|] eqn:Hidx.
    + assert (Hk : negb (StdMap.count jt joint_index_map =? 0) = true)
        by (apply count_known; congruence).
      rewrite Hk. cbn [andb].
      destruct (@entry_write_total i idx 1%Q (A c) n_cols Hi (Hlt idx eq_refl) Hrows)
        as (a & Ha & Hal & Har).
      set (c' := set_y_ref_root (y_ref c) (set_A a c)).
      assert (Hstep : jnt_update_step joint_index_map (i, jt) c = Ret tt c').
      { unfold jnt_update_step. apply negb_true_iff in Hk. rewrite Hk, Hidx.
        unfold bind, lift_opt, ret, get. rewrite Ha. reflexivity. }
      destruct (IH c') as (c1 & Hc1 & Hl1 & Hr1 & Hy1).
      { exact Har. }
      { intros i' jt' Hin. simpl. rewrite Hal. apply Hall. right. exact Hin. }
      exists c1. split.
      * simpl. rewrite (@bind_eq _ _ _ _ _ _ _ _ Hstep). exact Hc1.
      * simpl in *. split; [congruence|]. split; [exact Hr1|].
        intro Hknown. rewrite (Hy1 Hknown). destruct (is_empty rest); reflexivity.
    + assert (Hk : negb (StdMap.count jt joint_index_map =? 0) = false).
      { unfold StdMap.count. rewrite Hidx. reflexivity. }
      rewrite Hk. cbn [andb]. exists c. split.
      * simpl. apply bind_throw. unfold jnt_update_step.
        apply negb_false_iff in Hk. rewrite Hk. reflexivity.
      * split; [reflexivity|]. split; [exact Hrows|discriminate].
Qed.

Lemma map_snd_combine_seq_names (names : list string) :
  map snd (combine (seq 0 (length names)) names) = names.
Proof.
  generalize 0. induction names as [|n names IH]; intro a; simpl; [reflexivity|].
  rewrite IH. reflexivity.
Qed.

Lemma jnt_update_outcome joint_index_map n_cols c :
  length (A c) = length (ConstraintConfig.joint_names (config c)) ->
  Forall (fun row => length row = n_cols) (A c) ->
  length (y_ref_root c) = length (y_ref c) ->
  (forall jt idx, In jt (ConstraintConfig.joint_names (config c)) ->
     StdMap.find jt joint_index_map = Some idx -> idx < n_cols) ->
  exists c1,
    jnt_update joint_index_map c =
      (if all_known joint_index_map (ConstraintConfig.joint_names (config c))
       then Ret tt c1 else Throw invalid_constraint_config c1) /\
    length (A c1) = length (A c) /\
    Forall (fun row => length row = n_cols) (A c1) /\
    (all_known joint_index_map (ConstraintConfig.joint_names (config c)) = true ->
     length (y_ref_root c1) = length (y_ref c)).
Proof.
  intros Hlen Hrows Hy Hall. unfold jnt_update.
  destruct (@jnt_loop_outcome joint_index_map n_cols
              (combine (seq 0 (length (ConstraintConfig.joint_names (config c))))
                       (ConstraintConfig.joint_names (config c))) c Hrows)
    as (c1 & Hc1 & Hl1 & Hr1 & Hy1).
  { intros i jt Hin. split.
    - apply in_combine_l in Hin. apply in_seq in Hin. lia.
    - apply in_combine_r in Hin. intros idx. apply Hall. exact Hin. }
  rewrite map_snd_combine_seq_names in Hc1, Hy1.
  exists c1. split; [exact Hc1|]. split; [exact Hl1|]. split; [exact Hr1|].
  intro Hknown. rewrite (Hy1 Hknown). destruct (is_empty _); congruence.
Qed.

Lemma pseudo_inverse_shape u s v :
  length (pseudo_inverse u s v) = length v /\
  Forall (fun row => length row = length u) (pseudo_inverse u s v).
Proof.
  unfold pseudo_inverse. split; [apply length_map|].
  apply Forall_forall. intros row Hrow. apply in_map_iff in Hrow.
  destruct Hrow as (vrow & <- & _). apply length_map.
Qed.

Lemma block00_total (m : matrix) r c :
  r <= length m -> Forall (fun row => c <= length row) m ->
  block00 m r c = Some (map (firstn c) (firstn r m)).
Proof.
  intros Hr Hrows. unfold block00.
  replace (r <=? length m) with true by (symmetry; apply Nat.leb_le; exact Hr).
  replace (forallb (fun row => c <=? length row) m) with true; [reflexivity|].
  symmetry. apply forallb_forall. intros row Hrow. apply Nat.leb_le.
  rewrite Forall_forall in Hrows. auto.
Qed.

Lemma msub_mul_Jacobian_shape (hb : matrix) (jt jr : Jacobian) :
  length jt = length jr ->
  length (msub (mul_Jacobian hb jt) (mul_Jacobian hb jr)) = length hb /\
  Forall (fun row => length row = length jr)
         (msub (mul_Jacobian hb jt) (mul_Jacobian hb jr)).
Proof.
  intro Hlen. unfold msub, mul_Jacobian. split.
  - rewrite length_map, length_combine, !length_map. apply Nat.min_id.
  - apply Forall_forall. intros row Hrow. apply in_map_iff in Hrow.
    destruct Hrow as ([a b] & <- & Hin). simpl.
    pose proof (in_combine_l _ _ _ _ Hin) as Ha. pose proof (in_combine_r _ _ _ _ Hin) as Hb.
    apply in_map_iff in Ha. destruct Ha as (ha & <- & _).
    apply in_map_iff in Hb. destruct Hb as (hb' & <- & _).
    unfold vsub. rewrite length_map, length_combine, !length_map. rewrite Hlen. apply Nat.min_id.
Qed.

Lemma cart_update_total svd tf_root tf_tip tf_ref_frame jac_root jac_tip c :
  svd_shape svd ->
  length (y_ref c) = 6 -> length (y_ref_root c) = 6 ->
  length jac_tip = length jac_root ->
  exists c0 c1,
    cart_invert_jacobian svd tf_root tf_tip c = Some c0 /\
    cart_task tf_root tf_ref_frame jac_root jac_tip 6 c0 = Some c1 /\
    length (A c1) = 6 /\
    Forall (fun row => length row = length jac_root) (A c1) /\
    length (y_ref_root c1) = 6.
Proof.
  intros Hsvd Hy Hyr Hjac.
  destruct (svd (local_jacobian tf_root tf_tip c)) as [[u s] v] eqn:Hdec.
  destruct (Hsvd _ _ _ _ Hdec) as (Ls & Lu & Lv & Fu & Fv).
  destruct (@cart_invert_jacobian_spec svd tf_root tf_tip c u s v Hdec) as (c0 & Hc0 & HH & Hy0 & Hyr0).
  { rewrite Ls. exact Fu. }
  { rewrite Ls. exact Fv. }
  { intros ->. discriminate. }
  destruct (pseudo_inverse_shape u s v) as [Lp Fp].
  assert (Hb : block00 (H c0) 6 6 = Some (map (firstn 6) (firstn 6 (H c0)))).
  { apply block00_total; rewrite HH.
    - lia.
    - eapply Forall_impl; [|exact Fp]. simpl. intros; lia. }
  set (hb := map (firstn 6) (firstn 6 (H c0))) in *.
  assert (Lhb : length hb = 6).
  { subst hb. rewrite length_map, length_firstn, HH. lia. }
  assert (Hy' : length (y_ref c0) = 6) by congruence.
  destruct (y_ref c0) as [|a0 [|a1 [|a2 [|a3 [|a4 [|a5 ytl]]]]]] eqn:Hyc0;
    try (simpl in Hy'; lia).
  destruct (msub_mul_Jacobian_shape hb jac_tip jac_root Hjac) as [La Fa].
  eexists c0, _. split; [exact Hc0|].
  unfold cart_task. rewrite Hb.
  replace (negb (length jac_tip =? length jac_root)) with false
    by (symmetry; apply negb_false_iff, Nat.eqb_eq; exact Hjac).
  cbv zeta. cbn [y_ref set_pose_ref_frame_in_root set_A].
  rewrite Hyc0. cbn [Twist_of_vec].
  unfold write_twist. cbn [y_ref_root set_pose_ref_frame_in_root set_A pose_ref_frame_in_root].
  rewrite Hyr0. replace (6 <=? length (y_ref_root c)) with true
    by (symmetry; apply Nat.leb_le; lia).
  split; [reflexivity|].
  cbn [A set_y_ref_root set_pose_ref_frame_in_root set_A y_ref_root].
  split; [congruence|]. split; [exact Fa|].
  rewrite length_app, length_skipn. simpl. lia.
Qed.

Lemma segment_write_total v r n src :
  r + n <= length v -> length src = n ->
  segment_write v r n src = Some (splice v r n src).
Proof.
  intros Hr Hn. unfold segment_write.
  replace (r + n <=? length v) with true by (symmetry; apply Nat.leb_le; exact Hr).
  replace (length src =? n) with true by (symmetry; apply Nat.eqb_eq; exact Hn).
  reflexivity.
Qed.

Lemma block_write_total (m : matrix) r n n_cols (src : matrix) :
  r + n <= length m -> length src = n ->
  Forall (fun row => length row = n_cols) src ->
  Forall (fun row => length row = n_cols) m ->
  exists m', block_write m r n n_cols src = Some m'.
Proof.
  intros Hr Hn Hsrc Hm. unfold block_write.
  replace (r + n <=? length m) with true by (symmetry; apply Nat.leb_le; exact Hr).
  replace (length src =? n) with true by (symmetry; apply Nat.eqb_eq; exact Hn).
  replace (forallb (fun r0 => length r0 =? n_cols) src) with true.
  2:{ symmetry. apply forallb_forall. intros row Hrow. apply Nat.eqb_eq.
      rewrite Forall_forall in Hsrc. auto. }
  replace (forallb (fun r0 => n_cols <=? length r0) m) with true.
  2:{ symmetry. apply forallb_forall. intros row Hrow. apply Nat.leb_le.
      rewrite Forall_forall in Hm. rewrite Hm by exact Hrow. lia. }
  simpl. eauto.
Qed.

Lemma insert_into_equations_total prio r n c st e n_rows :
  nth_error (snd st) prio = Some e ->
  system_shape n_rows (no_robot_joints_ (fst st)) e ->
  r + n <= n_rows ->
  length (weights c) = n ->
  length (A c) = n ->
  Forall (fun row => length row = no_robot_joints_ (fst st)) (A c) ->
  length (y_ref_root c) = n ->
  exists st', insert_into_equations prio r n c st = Ret tt st'.
Proof.
  intros He (Sw & Sy & Sa & Scols) Hr Hw Ha Hcols Hy.
  unfold insert_into_equations. destruct st as [s equations]. simpl in *.
  rewrite He.
  rewrite segment_write_total;
    [|lia|unfold effective_weights, vscale; rewrite !length_map; exact Hw].
  destruct (@block_write_total (LinearEquationSystem.A e) r n (no_robot_joints_ s) (A c))
    as [a Hbw]; try assumption; [lia|].
  rewrite Hbw. rewrite segment_write_total by (assumption || lia).
  destruct (@list_set_some _ prio
              (LinearEquationSystem.mk a
                 (splice (LinearEquationSystem.y_ref e) r n (y_ref_root c))
                 (splice (LinearEquationSystem.W_row e) r n (effective_weights c)))
              equations) as [eq' Hset].
  { apply nth_error_Some. congruence. }
  rewrite Hset. eauto.
Qed.

Lemma deactivate_y_ref_root_length c :
  length (y_ref_root (deactivate c)) = length (y_ref_root c).
Proof.
  unfold deactivate. destruct (Qeq_bool _ _); simpl; [|reflexivity].
  unfold setZero. apply zeros_length.
Qed.

(** One pass of the loop body returns when the joints of the constraint
    are configured, and throws "Invalid Constraint config" when the
    constraint is a joint constraint that lists a joint that is not. *)
Lemma eval_constraint_outcome svd task_frames now prio p r st c e n :
  svd_shape svd ->
  nth_error (heap (fst st)) p = Some c ->
  constraint_ready (fst st) task_frames c ->
  nth_error (snd st) prio = Some e ->
  system_shape n (no_robot_joints_ (fst st)) e ->
  r + no_variables c <= n ->
  exists st',
    eval_constraint svd task_frames now prio p r st =
      (if joints_known (joint_index_map_ (fst st)) (config c)
       then Ret (r + no_variables c) st' else Throw invalid_constraint_config st').
Proof.
  intros Hsvd Hc (Hsize & Hw & Hy & Hyr & Hkind) He Hshape Hr.
  pose proof (check_timeout_same (now at_timeout_check) c)
    as (Kc & Kn & Kw & Ka & Ky & Kyr & KA).
  set (cc := check_timeout (now at_timeout_check) c) in *.
  assert (Hderef : deref p st = Ret c st) by (unfold deref; rewrite Hc; reflexivity).
  unfold eval_constraint. rewrite (@bind_eq _ _ _ _ _ _ _ _ Hderef). cbv zeta.
  fold cc.
  (* the update that belongs to the type of the constraint *)
  match goal with
  | |- exists st', bind ?m _ st = _ => set (update := m)
  end.
  assert (Hbranch :
            (joints_known (joint_index_map_ (fst st)) (config c) = false /\
             exists st2, update st = Throw invalid_constraint_config st2) \/
            (joints_known (joint_index_map_ (fst st)) (config c) = true /\
             exists c1 st2,
               update st = Ret c1 st2 /\
               heap (fst st2) = heap (fst st) /\ snd st2 = snd st /\
               no_robot_joints_ (fst st2) = no_robot_joints_ (fst st) /\
               weights c1 = weights c /\
               length (A c1) = no_variables c /\
               Forall (fun row => length row = no_robot_joints_ (fst st)) (A c1) /\
               length (y_ref_root c1) = no_variables c)).
  { subst update. unfold joints_known. rewrite Kc.
    destruct (ConstraintConfig.type (config c)) eqn:Hty.
    - right. split; [reflexivity|].
      unfold output_size in Hsize. rewrite Hty in Hsize.
      unfold frames_of in Hkind. rewrite Hty in Hkind.
      destruct (Hkind (ConstraintConfig.root (config c))) as (Hr1 & jr & Hjr & Ljr);
        [simpl; auto|].
      destruct (Hkind (ConstraintConfig.tip (config c))) as (Ht1 & jt & Hjt & Ljt);
        [simpl; auto|].
      destruct (Hkind (ConstraintConfig.ref_frame (config c))) as (Hf1 & _);
        [simpl; auto|].
      destruct (StdMap.find (ConstraintConfig.root (config c)) task_frames)
        as [tf_root|] eqn:Hroot; [|congruence].
      destruct (StdMap.find (ConstraintConfig.tip (config c)) task_frames)
        as [tf_tip|] eqn:Htip; [|congruence].
      destruct (StdMap.find (ConstraintConfig.ref_frame (config c)) task_frames)
        as [tf_ref|] eqn:Href; [|congruence].
      destruct (@cart_update_total svd tf_root tf_tip tf_ref jr jt cc Hsvd)
        as (c0 & c1 & Hc0 & Hc1 & La & Fa & Lyr); try congruence.
      pose proof (cart_invert_jacobian_same_inputs _ _ _ _ Hc0) as (Sc & _ & Sw0 & _).
      pose proof (cart_task_same_inputs _ _ _ _ _ _ Hc1) as (_ & _ & Sw1 & _).
      exists c1. eexists.
      unfold bind, lift_opt, ret. rewrite Hc0. rewrite Sc, Kc.
      unfold jac_map_index, StdMap.index.
      change (StdMap.find (ConstraintConfig.root (config c)) (jac_map_ (fst st)))
        with (@StdMap.find (list Twist) (ConstraintConfig.root (config c)) (jac_map_ (fst st)))
        in Hjr.
      rewrite Hjr. cbn [fst snd jac_map_ set_jac_map_].
      change (StdMap.find (ConstraintConfig.tip (config c)) (jac_map_ (fst st)))
        with (@StdMap.find (list Twist) (ConstraintConfig.tip (config c)) (jac_map_ (fst st)))
        in Hjt.
      rewrite Hjt. cbn [fst snd jac_map_ set_jac_map_].
      rewrite Hsize, Hc1.
      split; [reflexivity|]. cbn [fst snd heap set_jac_map_ no_robot_joints_].
      repeat split; try congruence. rewrite <- Ljr. exact Fa.
    - unfold output_size in Hsize. rewrite Hty in Hsize.
      destruct Hkind as (LA & FA & Hjoints).
      destruct (@jnt_update_outcome (joint_index_map_ (fst st)) (no_robot_joints_ (fst st)) cc)
        as (c1 & Hc1 & La & Fa & Lyr); try congruence.
      { rewrite Kc. exact Hjoints. }
      rewrite Kc in Hc1, Lyr.
      destruct (all_known (joint_index_map_ (fst st))
                          (ConstraintConfig.joint_names (config c))) eqn:Hknown.
      + right. split; [reflexivity|].
        pose proof (jnt_update_same_inputs _ _ Hc1) as (_ & _ & Sw1 & _).
        exists c1, st. unfold bind, get. cbn [fst]. rewrite Hc1.
        split; [reflexivity|]. specialize (Lyr eq_refl). repeat split; congruence.
      + left. split; [reflexivity|].
        destruct (@list_set_some _ p c1 (heap (fst st))) as [h Hh].
        { apply nth_error_Some. congruence. }
        exists (set_heap h (fst st), snd st).
        unfold bind, get. cbn [fst]. rewrite Hc1.
        unfold store, throw. rewrite Hh. reflexivity. }
  destruct Hbranch as [(Hknown & st2 & Hb) | (Hknown & c1 & st2 & Hb & Hheap & Heqs & Hnr & Sw & La & Fa & Lyr)];
    rewrite Hknown.
  { exists st2. apply bind_throw. exact Hb. }
  rewrite (@bind_eq _ _ _ _ _ _ _ _ Hb).
  set (c2 := deactivate (set_time (now at_time_stamp) c1)).
  destruct (@list_set_some _ p c2 (heap (fst st2))) as [h Hh].
  { rewrite Hheap. apply nth_error_Some. congruence. }
  assert (Hstore : store p c2 st2 = Ret tt (set_heap h (fst st2), snd st2)).
  { unfold store. rewrite Hh. reflexivity. }
  rewrite (@bind_eq _ _ _ _ _ _ _ _ Hstore).
  pose proof (deactivate_same (set_time (now at_time_stamp) c1)) as (_ & _ & Dw & _ & _ & DA).
  destruct (@insert_into_equations_total prio r (no_variables c) c2
              (set_heap h (fst st2), snd st2) e n) as [st4 Hins].
  { simpl. rewrite Heqs. exact He. }
  { simpl. rewrite Hnr. exact Hshape. }
  { exact Hr. }
  { subst c2. rewrite Dw. simpl. congruence. }
  { subst c2. rewrite DA. simpl. exact La. }
  { subst c2. rewrite DA. simpl. rewrite Hnr. exact Fa. }
  { subst c2. rewrite deactivate_y_ref_root_length. simpl. exact Lyr. }
  rewrite (@bind_eq _ _ _ _ _ _ _ _ Hins).
  unfold ret. eauto.
Qed.

Lemma constraint_ready_kept s s1 task_frames c :
  solver_frame s s1 ->
  jac_kept (jac_map_ s) (jac_map_ s1) ->
  constraint_ready s task_frames c ->
  constraint_ready s1 task_frames c.
Proof.
  intros (_ & Hnr & _ & _ & Hjim & _) Hkept (H1 & H2 & H3 & H4 & Hkind).
  unfold constraint_ready. repeat (split; [assumption|]).
  destruct (ConstraintConfig.type (config c)).
  - intros f Hf. destruct (Hkind f Hf) as (Hfound & jac & Hjac & Hlen).
    split; [exact Hfound|]. destruct (Hkept _ _ Hjac) as (jac' & Hjac' & Hlen').
    exists jac'. split; [exact Hjac'|congruence].
  - rewrite Hnr, Hjim. exact Hkind.
Qed.

Lemma eval_constraint_shape svd task_frames now prio p r st r' st' e n :
  eval_constraint svd task_frames now prio p r st = Ret r' st' ->
  nth_error (snd st) prio = Some e ->
  system_shape n (no_robot_joints_ (fst st)) e ->
  exists e', nth_error (snd st') prio = Some e' /\
             system_shape n (no_robot_joints_ (fst st)) e'.
Proof.
  intros Hc He Hshape. apply eval_constraint_Ret in Hc.
  destruct Hc as (c & c' & e0 & w & a & y & Hp & Hev & Hheap & Hf1 & -> & He0 & Hw & Ha & Hy & Heq).
  rewrite He in He0. injection He0 as <-.
  destruct Hshape as (Sw & Sy & Sa & Scols).
  apply segment_write_splice in Hw. destruct Hw as (-> & Hwl & Hwr).
  apply segment_write_splice in Hy. destruct Hy as (-> & Hyl & Hyr).
  apply block_write_splice in Ha; [|exact Scols]. destruct Ha as (-> & Hal & Har & Hac).
  eexists. split; [eapply list_set_same; exact Heq|].
  unfold system_shape. simpl.
  destruct (@splice_spec _ (LinearEquationSystem.W_row e) r _ _ Hwl Hwr) as (Lw & _).
  destruct (@splice_spec _ (LinearEquationSystem.y_ref e) r _ _ Hyl Hyr) as (Ly & _).
  destruct (@splice_spec _ (LinearEquationSystem.A e) r _ _ Hal Har) as (La & _).
  repeat split; try congruence. apply Forall_splice; assumption.
Qed.

Lemma level_known_ext joint_index_map h h' ptrs :
  (forall q, In q ptrs -> nth_error h' q = nth_error h q) ->
  level_known joint_index_map h' ptrs = level_known joint_index_map h ptrs.
Proof.
  intro Hext. unfold level_known.
  induction ptrs as [|q ptrs IH]; simpl; [reflexivity|].
  rewrite Hext by (left; reflexivity). f_equal.
  apply IH. intros q' Hq'. apply Hext. right. exact Hq'.
Qed.

(** The loop over a level returns when the joints of all its constraints are
    configured, and throws at the first joint constraint for which they are
    not. *)
Lemma eval_level_outcome svd task_frames now prio n :
  svd_shape svd ->
  forall ptrs i r st e,
    NoDup ptrs ->
    (forall p, In p ptrs ->
       exists c, nth_error (heap (fst st)) p = Some c /\
                 constraint_ready (fst st) task_frames c) ->
    nth_error (snd st) prio = Some e ->
    system_shape n (no_robot_joints_ (fst st)) e ->
    r + rows_before (heap (fst st)) ptrs <= n ->
    exists st',
      eval_level svd task_frames now prio ptrs i r st =
        (if level_known (joint_index_map_ (fst st)) (heap (fst st)) ptrs
         then Ret tt st' else Throw invalid_constraint_config st').
Proof.
  intro Hsvd. induction ptrs as [|p rest IH]; intros i r st e Hnd Hready He Hshape Hr.
  - simpl. unfold ret. eauto.
  - inversion Hnd as [|? ? Hnotin Hnd']; subst.
    destruct (Hready p (or_introl eq_refl)) as (c & Hc & Hrc).
    simpl in Hr. rewrite Hc in Hr.
    destruct (@eval_constraint_outcome svd task_frames (now prio i) prio p r st c e n)
      as (st1 & Hstep); try assumption; [lia|].
    cbn [level_known forallb]. rewrite Hc.
    destruct (joints_known (joint_index_map_ (fst st)) (config c)); cbn [andb].
    2:{ exists st1. simpl. apply bind_throw. exact Hstep. }
    pose proof (eval_constraint_kept _ _ _ _ _ _ _ Hstep) as Hkept.
    destruct (eval_constraint_shape _ _ _ _ _ _ _ Hstep He Hshape) as (e1 & He1 & Hshape1).
    pose proof (eval_constraint_Ret _ _ _ _ _ _ _ Hstep)
      as (c0 & c' & _ & _ & _ & _ & Hc0 & _ & Hheap & Hf1 & _).
    rewrite Hc in Hc0. injection Hc0 as <-.
    pose proof Hf1 as (_ & Hnr & _ & _ & Hjim & _).
    assert (Hsame : forall q, In q rest ->
                      nth_error (heap (fst st1)) q = nth_error (heap (fst st)) q).
    { intros q Hq. eapply list_set_other; [exact Hheap|]. intros ->. contradiction. }
    destruct (IH (S i) (r + no_variables c) st1 e1) as [st' Hrest]; try assumption.
    + intros q Hq. destruct (Hready q (or_intror Hq)) as (cq & Hcq & Hrq).
      exists cq. split; [rewrite Hsame by exact Hq; exact Hcq|].
      eapply constraint_ready_kept; eauto.
    + rewrite Hnr. exact Hshape1.
    + rewrite (@rows_before_ext (heap (fst st)) (heap (fst st1)) rest Hsame). lia.
    + exists st'. simpl. rewrite (@bind_eq _ _ _ _ _ _ _ _ Hstep).
      rewrite Hjim, (@level_known_ext _ (heap (fst st)) (heap (fst st1)) rest Hsame) in Hrest.
      exact Hrest.
Qed.

Lemma eval_priority_outcome svd task_frames now prio st ptrs :
  svd_shape svd ->
  nth_error (constraint_vector_ (fst st)) prio = Some ptrs ->
  nth_error (n_constraints_per_prio_ (fst st)) prio = Some (rows_before (heap (fst st)) ptrs) ->
  prio < length (snd st) ->
  NoDup ptrs ->
  (forall p, In p ptrs ->
     exists c, nth_error (heap (fst st)) p = Some c /\
               constraint_ready (fst st) task_frames c) ->
  exists st',
    eval_priority svd task_frames now prio st =
      (if level_known (joint_index_map_ (fst st)) (heap (fst st)) ptrs
       then Ret tt st' else Throw invalid_constraint_config st').
Proof.
  intros Hsvd Hptrs Hrows Hlen Hnd Hready. unfold eval_priority.
  unfold bind at 1. unfold get.
  rewrite (@bind_eq _ _ _ _ _ _ _ _ (lift_opt_eq st Hrows)).
  destruct (nth_error (snd st) prio) as [e|] eqn:He.
  2:{ apply nth_error_None in He. lia. }
  rewrite (@bind_eq _ _ _ _ _ _ _ _ (lift_opt_eq st eq_refl)).
  destruct (@list_set_some _ prio
              (LinearEquationSystem.resize (rows_before (heap (fst st)) ptrs)
                 (no_robot_joints_ (fst st)) e) (snd st) Hlen) as [equations Hset].
  rewrite (@bind_eq _ _ _ _ _ _ _ _ (lift_opt_eq st Hset)).
  unfold bind at 1. unfold put.
  rewrite (@bind_eq _ _ _ _ _ _ _ _ (lift_opt_eq (fst st, equations) Hptrs)).
  eapply (@eval_level_outcome svd task_frames now prio _ Hsvd ptrs 0 0 (fst st, equations)).
  - exact Hnd.
  - exact Hready.
  - simpl. eapply list_set_same. exact Hset.
  - simpl. unfold system_shape, LinearEquationSystem.resize. simpl.
    unfold zero_matrix. rewrite !zeros_length, repeat_length.
    repeat split. apply Forall_forall. intros row Hrow.
    apply repeat_spec in Hrow. subst. apply zeros_length.
  - simpl. lia.
Qed.

Lemma eval_priorities_outcome svd task_frames now :
  svd_shape svd ->
  forall prios st,
    NoDup prios ->
    NoDup (concat (constraint_vector_ (fst st))) ->
    (forall prio, In prio prios ->
       prio < length (snd st) /\
       exists ptrs,
         nth_error (constraint_vector_ (fst st)) prio = Some ptrs /\
         nth_error (n_constraints_per_prio_ (fst st)) prio
         = Some (rows_before (heap (fst st)) ptrs) /\
         forall p, In p ptrs ->
           exists c, nth_error (heap (fst st)) p = Some c /\
                     constraint_ready (fst st) task_frames c) ->
    exists st',
      for_each prios (eval_priority svd task_frames now) st =
        (if levels_known (fst st) prios
         then Ret tt st' else Throw invalid_constraint_config st').
Proof.
  intro Hsvd. induction prios as [|prio0 rest IH]; intros st Hnd Hcv Hall.
  - simpl. unfold ret. eauto.
  - inversion Hnd as [|? ? Hnotin Hnd']; subst.
    destruct (Hall prio0 (or_introl eq_refl)) as (Hlen & ptrs0 & Hptrs0 & Hrows0 & Hready0).
    pose proof (@NoDup_concat_level _ _ _ _ Hcv Hptrs0) as Hnd0.
    destruct (@eval_priority_outcome svd task_frames now prio0 st ptrs0) as [st1 Hstep];
      try assumption.
    cbn [levels_known forallb]. rewrite Hptrs0.
    destruct (level_known (joint_index_map_ (fst st)) (heap (fst st)) ptrs0); cbn [andb].
    2:{ exists st1. simpl. apply bind_throw. exact Hstep. }
    pose proof (eval_priority_kept _ _ _ _ _ Hstep) as Hkept.
    destruct (@eval_priority_Ret _ _ _ _ _ _ _ Hstep Hptrs0 Hnd0)
      as (Hf1 & Hlen1 & Hout1 & Hel1 & _).
    pose proof Hf1 as (_ & _ & Hcv1 & _ & Hjim1 & _ & Hrw1 & _).
    assert (Hsame : forall prio ptrs, In prio rest ->
                      nth_error (constraint_vector_ (fst st)) prio = Some ptrs ->
                      forall q, In q ptrs ->
                        nth_error (heap (fst st1)) q = nth_error (heap (fst st)) q).
    { intros prio ptrs Hin Hptrs q Hq. apply Hout1.
      assert (Hne : prio <> prio0) by (intros ->; contradiction).
      eapply (@NoDup_concat_disjoint _ _ _ _ _ _ _ Hcv Hptrs Hptrs0 Hne). exact Hq. }
    destruct (IH st1) as [st' Hrest]; try assumption.
    + rewrite Hcv1. exact Hcv.
    + intros prio Hin.
      destruct (Hall prio (or_intror Hin)) as (Hlenp & ptrs & Hptrs & Hrows & Hready).
      split; [rewrite Hel1; exact Hlenp|].
      exists ptrs. rewrite Hcv1, Hrw1. split; [exact Hptrs|]. split.
      * rewrite (@rows_before_ext (heap (fst st)) (heap (fst st1)) ptrs
                   (Hsame prio ptrs Hin Hptrs)). exact Hrows.
      * intros p Hp. destruct (Hready p Hp) as (c & Hc & Hrc).
        exists c. split; [rewrite (Hsame prio ptrs Hin Hptrs) by exact Hp; exact Hc|].
        eapply constraint_ready_kept; eauto.
    + exists st'. simpl. rewrite (@bind_eq _ _ _ _ _ _ _ _ Hstep).
      assert (Hk : levels_known (fst st1) rest = levels_known (fst st) rest).
      { unfold levels_known. rewrite Hcv1, Hjim1.
        clear -Hsame. induction rest as [|prio rest IHr]; simpl; [reflexivity|].
        rewrite IHr by (intros; eapply Hsame; eauto; right; assumption).
        destruct (nth_error (constraint_vector_ (fst st)) prio) as [ptrs|] eqn:Hptrs;
          [|reflexivity].
        rewrite (@level_known_ext _ (heap (fst st)) (heap (fst st1)) ptrs
                   (Hsame prio ptrs (or_introl eq_refl) Hptrs)).
        reflexivity. }
      rewrite Hk in Hrest. exact Hrest.
Qed.

(** The loop over the joints of a task frame returns when every listed joint
    is configured, and throws "Invalid joint name" at the first one that is
    not; the columns spliced before stay spliced. *)
Lemma splice_loop_outcome tf_name (tf : TaskFrame.t) n_cols (l : list (nat * string)) :
  forall st,
    (forall j jt, In (j, jt) l ->
       j < length (TaskFrame.jacobian tf) /\
       forall idx, StdMap.find jt (joint_index_map_ (fst st)) = Some idx -> idx < n_cols) ->
    (l <> [] ->
     exists jac, StdMap.find tf_name (jac_map_ (fst st)) = Some jac /\ length jac = n_cols) ->
    exists st',
      for_each l
        (fun '(j, jt_name) =>
           st <- get ;;
           if StdMap.count jt_name (joint_index_map_ (fst st)) =? 0
           then throw (invalid_argument "Invalid joint name")
           else
             idx <- lift_opt (StdMap.find jt_name (joint_index_map_ (fst st))) ;;
             jac <- jac_map_index tf_name ;;
             col <- lift_opt (nth_error (TaskFrame.jacobian tf) j) ;;
             jac' <- lift_opt (list_set idx col jac) ;;
             modify (fun st => (set_jac_map_ (StdMap.set tf_name jac' (jac_map_ (fst st)))
                                             (fst st), snd st))) st =
        (if all_known (joint_index_map_ (fst st)) (map snd l)
         then Ret tt st' else Throw invalid_joint_name st') /\
      jac_only st st' /\
      jac_kept (jac_map_ (fst st)) (jac_map_ (fst st')).
Proof.
  induction l as [|[j jt] rest IH]; intros st Hall Hreg.
  - exists st. simpl. split; [reflexivity|]. split; [apply jac_only_refl|apply jac_kept_refl].
  - destruct (Hall j jt (or_introl eq_refl)) as (Hj & Hlt).
    cbn [map snd all_known forallb].
    destruct (StdMap.find jt (joint_index_map_ (fst st))) as [idx|] eqn:Hidx.
    2:{ assert (Hk : (StdMap.count jt (joint_index_map_ (fst st)) =? 0) = true).
        { unfold StdMap.count. rewrite Hidx. reflexivity. }
        rewrite Hk. cbn [negb andb]. exists st.
        split; [|split; [apply jac_only_refl|apply jac_kept_refl]].
        cbn [for_each]. apply bind_throw.
        unfold bind at 1. unfold get. cbn beta iota. rewrite Hk. reflexivity. }
    assert (Hk : (StdMap.count jt (joint_index_map_ (fst st)) =? 0) = false).
    { unfold StdMap.count. rewrite Hidx. reflexivity. }
    rewrite Hk. cbn [negb andb].
    destruct Hreg as (jac & Hjac & Ljac); [discriminate|].
    destruct (nth_error (TaskFrame.jacobian tf) j) as [col|] eqn:Hcol.
    2:{ apply nth_error_None in Hcol. lia. }
    destruct (@list_set_some _ idx col jac) as [jac' Hjac']; [specialize (Hlt idx eq_refl); lia|].
    set (st_a := (set_jac_map_ (jac_map_ (fst st)) (fst st), snd st)).
    set (st1 := (set_jac_map_ (StdMap.set tf_name jac' (jac_map_ (fst st_a))) (fst st_a),
                 snd st_a)).
    assert (Hindex : jac_map_index tf_name st = Ret jac st_a).
    { unfold jac_map_index, StdMap.index.
      change (@StdMap.find (list Twist) tf_name (jac_map_ (fst st)) = Some jac) in Hjac.
      rewrite Hjac. reflexivity. }
    assert (Honly : jac_only st st1).
    { unfold jac_only, solver_frame. simpl. tauto. }
    assert (Hkept : jac_kept (jac_map_ (fst st)) (jac_map_ (fst st1))).
    { simpl. intros f jf Hf. destruct (String.eqb f tf_name) eqn:E.
      - apply String.eqb_eq in E. subst f. rewrite StdMap_find_set_same.
        exists jac'. split; [reflexivity|].
        rewrite Hjac in Hf. injection Hf as <-. eapply list_set_length. exact Hjac'.
      - apply String.eqb_neq in E. rewrite StdMap_find_set_other by exact E. eauto. }
    destruct (IH st1) as (st' & Hrest & Honly' & Hkept').
    + intros j' jt' Hin. simpl. apply Hall. right. exact Hin.
    + intros _. exists jac'. simpl. split; [apply StdMap_find_set_same|].
      rewrite (list_set_length _ _ _ Hjac'). exact Ljac.
    + exists st'. split; [|split].
      * cbn [for_each].
        match goal with
        | |- bind ?m ?k st = _ => assert (Hm : m st = Ret tt st1)
        end.
        { unfold bind at 1. unfold get. cbn beta iota. rewrite Hk.
          rewrite (@bind_eq _ _ _ _ _ _ _ _ (lift_opt_eq st Hidx)).
          rewrite (@bind_eq _ _ _ _ _ _ _ _ Hindex).
          rewrite (@bind_eq _ _ _ _ _ _ _ _ (lift_opt_eq st_a Hcol)).
          rewrite (@bind_eq _ _ _ _ _ _ _ _ (lift_opt_eq st_a Hjac')).
          reflexivity. }
        rewrite (@bind_eq _ _ _ _ _ _ _ _ Hm). exact Hrest.
      * eapply jac_only_trans; [exact Honly|exact Honly'].
      * eapply jac_kept_trans; [exact Hkept|exact Hkept'].
Qed.

Lemma splice_task_frame_outcome tf_name tf n_cols st :
  length (TaskFrame.jacobian tf) = length (TaskFrame.joint_names tf) ->
  (forall jt idx, In jt (TaskFrame.joint_names tf) ->
     StdMap.find jt (joint_index_map_ (fst st)) = Some idx -> idx < n_cols) ->
  (TaskFrame.joint_names tf <> [] ->
   exists jac, StdMap.find tf_name (jac_map_ (fst st)) = Some jac /\ length jac = n_cols) ->
  exists st',
    splice_task_frame (tf_name, tf) st =
      (if all_known (joint_index_map_ (fst st)) (TaskFrame.joint_names tf)
       then Ret tt st' else Throw invalid_joint_name st') /\
    jac_only st st' /\
    jac_kept (jac_map_ (fst st)) (jac_map_ (fst st')).
Proof.
  intros Hlen Hjoints Hreg. unfold splice_task_frame.
  destruct (@splice_loop_outcome tf_name tf n_cols
              (combine (seq 0 (length (TaskFrame.joint_names tf))) (TaskFrame.joint_names tf))
              st) as (st' & Hloop & Honly & Hkept).
  - intros j jt Hin. split.
    + apply in_combine_l in Hin. apply in_seq in Hin. lia.
    + apply in_combine_r in Hin. intro idx. apply Hjoints. exact Hin.
  - intro Hne. apply Hreg. intros Hnil. apply Hne. rewrite Hnil. reflexivity.
  - rewrite map_snd_combine_seq_names in Hloop. exists st'. auto.
Qed.

Lemma splice_all_outcome n_cols (entries : list (string * TaskFrame.t)) :
  forall st,
    (forall name tf, In (name, tf) entries ->
       length (TaskFrame.jacobian tf) = length (TaskFrame.joint_names tf) /\
       (forall jt idx, In jt (TaskFrame.joint_names tf) ->
          StdMap.find jt (joint_index_map_ (fst st)) = Some idx -> idx < n_cols) /\
       (TaskFrame.joint_names tf <> [] ->
        exists jac, StdMap.find name (jac_map_ (fst st)) = Some jac /\ length jac = n_cols)) ->
    exists st',
      for_each entries splice_task_frame st =
        (if frames_known (joint_index_map_ (fst st)) entries
         then Ret tt st' else Throw invalid_joint_name st') /\
      jac_only st st' /\
      jac_kept (jac_map_ (fst st)) (jac_map_ (fst st')).
Proof.
  induction entries as [|[name tf] rest IH]; intros st Hall.
  - exists st. simpl. split; [reflexivity|]. split; [apply jac_only_refl|apply jac_kept_refl].
  - destruct (Hall name tf (or_introl eq_refl)) as (Hlen & Hjoints & Hreg).
    destruct (@splice_task_frame_outcome name tf n_cols st Hlen Hjoints Hreg)
      as (st1 & Hstep & Honly & Hkept).
    cbn [frames_known forallb snd].
    destruct (all_known (joint_index_map_ (fst st)) (TaskFrame.joint_names tf)); cbn [andb].
    2:{ exists st1. split; [|auto]. simpl. apply bind_throw. exact Hstep. }
    pose proof Honly as ((_ & _ & _ & _ & Hjim & _) & _).
    destruct (IH st1) as (st' & Hrest & Honly' & Hkept').
    + intros name' tf' Hin.
      destruct (Hall name' tf' (or_intror Hin)) as (Hlen' & Hjoints' & Hreg').
      split; [exact Hlen'|]. split; [rewrite Hjim; exact Hjoints'|].
      intro Hne. destruct (Hreg' Hne) as (jac & Hjac & Ljac).
      destruct (Hkept _ _ Hjac) as (jac' & Hjac' & Ljac'). exists jac'.
      split; [exact Hjac'|congruence].
    + exists st'. split; [|split].
      * simpl. rewrite (@bind_eq _ _ _ _ _ _ _ _ Hstep).
        unfold frames_known in Hrest. rewrite Hjim in Hrest. exact Hrest.
      * eapply jac_only_trans; [exact Honly|exact Honly'].
      * eapply jac_kept_trans; [exact Hkept|exact Hkept'].
Qed.

Lemma configured_from_configs specifications s :
  configured_from specifications s ->
  forall p c, nth_error (heap s) p = Some c -> In (config c) specifications.
Proof.
  induction 1 as [joint_names s0 s Hc
                 | s p0 f c0 s' Hfrom IH Hp0 Hshape Hw
                 | svd task_frames now s equations s' equations' Hfrom IH Hp].
  - apply configure_true_parts in Hc.
    destruct Hc as (mp & s1 & rows & s2 & _ & Hi & _ & _ & _ & Hheap & _).
    apply insert_constraints_heap in Hi. simpl in Hi.
    intros p c Hpc. rewrite Hheap, Hi in Hpc. apply nth_error_In in Hpc.
    apply in_map_iff in Hpc. destruct Hpc as (cfg & <- & Hin). exact Hin.
  - unfold write_handle in Hw. rewrite Hp0 in Hw.
    destruct (list_set p0 (f c0) (heap s)) as [h|] eqn:Hs; [|discriminate].
    injection Hw as <-. simpl.
    intros p c Hpc. destruct (Nat.eq_dec p0 p) as [->|Hne].
    + rewrite (@list_set_same _ _ _ _ _ Hs) in Hpc. injection Hpc as <-.
      destruct Hshape as (Hk & _). rewrite Hk. eapply IH. exact Hp0.
    + rewrite (@list_set_other _ _ _ _ _ _ Hs Hne) in Hpc. eapply IH. exact Hpc.
  - pose proof (configured_from_invariants Hfrom) as (_ & Hnd & Hnp & _).
    destruct (prepareEqSystem_Ret _ _ _ _ _ Hp Hnd) as (_ & _ & _ & Hout & Hall).
    intros q c' Hq.
    destruct (in_dec Nat.eq_dec q (concat (constraint_vector_ s))) as [Hin|Hnin].
    + apply in_concat in Hin. destruct Hin as (ptrs & Hptrs & Hqp).
      apply In_nth_error in Hptrs. destruct Hptrs as [prio Hprio].
      apply In_nth_error in Hqp. destruct Hqp as [k Hk].
      assert (Hlt : prio < n_prios_ s).
      { rewrite Hnp. apply nth_error_Some. congruence. }
      destruct (Hall _ _ Hlt Hprio) as (e' & _ & Hasm).
      destruct (Hasm _ _ Hk) as (c & c1' & Hc & Hc' & Hev & _).
      rewrite Hq in Hc'. injection Hc' as <-.
      apply evaluated_sizes in Hev. destruct Hev as (E1 & _).
      rewrite E1. eapply IH. exact Hc.
    + rewrite Hout in Hq; [eapply IH; exact Hq|].
      intros prio ptrs _ Hprio Hqp. apply Hnin. apply in_concat.
      exists ptrs. split; [eapply nth_error_In; exact Hprio|exact Hqp].
Qed.

Lemma selection_row_length joint_index_map joint_name n_cols :
  length (selection_row joint_index_map joint_name n_cols) = n_cols.
Proof. unfold selection_row. rewrite length_map, length_seq. reflexivity. Qed.

Lemma missing_task_frame_none task_frames ids :
  (forall f, In f ids -> StdMap.find f task_frames <> None) ->
  missing_task_frame task_frames ids = None.
Proof.
  intro Hall. unfold missing_task_frame.
  destruct (List.find _ ids) as [g|] eqn:E; [|reflexivity].
  apply find_some in E. destruct E as [Hin Hcount].
  apply StdMap_count_0 in Hcount. exfalso. exact (Hall g Hin Hcount).
Qed.

Lemma configured_from_ready specifications s task_frames :
  configured_from specifications s ->
  StdMap.size (joint_index_map_ s) = no_robot_joints_ s ->
  (forall p c, nth_error (heap s) p = Some c ->
     length (weights c) = no_variables c /\ length (y_ref_root c) = no_variables c) ->
  (forall f, In f (task_frame_ids s) -> StdMap.find f task_frames <> None) ->
  forall p c, nth_error (heap s) p = Some c -> constraint_ready s task_frames c.
Proof.
  intros Hfrom Hsize Hobj Hframes p c Hc.
  pose proof (configured_from_invariants Hfrom) as (_ & _ & _ & Hids & Hwf).
  pose proof (configured_from_sizes Hfrom) as (I1 & I2 & I3).
  pose proof (configured_from_configs Hfrom _ Hc) as Hcfg.
  destruct (I1 _ _ Hc) as [J1 J2]. destruct (Hobj _ _ Hc) as [O1 O2].
  unfold constraint_ready. repeat (split; [assumption|]).
  destruct (ConstraintConfig.type (config c)) eqn:Hty.
  - intros f Hf. pose proof (Hids _ _ Hcfg Hf) as Hin.
    split; [apply Hframes; exact Hin|].
    destruct (I2 f Hin) as (jac & Hjac & Ljac). exists jac.
    split; [exact Hjac|congruence].
  - destruct (Hwf _ _ Hc Hty) as (W1 & W2 & W3).
    split; [rewrite W1; eapply Forall2_length; exact W3|]. split.
    + clear -W3. induction W3 as [|row jt rows jts Hrow _ IH]; constructor; [|exact IH].
      destruct Hrow as [->| ->]; [apply zeros_length|apply selection_row_length].
    + intros jt idx _ Hidx. eapply I3. exact Hidx.
Qed.

Lemma all_known_true joint_index_map joint_names :
  all_known joint_index_map joint_names = true <->
  forall jt, In jt joint_names -> StdMap.find jt joint_index_map <> None.
Proof.
  unfold all_known. rewrite forallb_forall. split; intros Hall jt Hin.
  - apply count_known. apply Hall. exact Hin.
  - apply count_known. apply Hall. exact Hin.
Qed.

Lemma forallb_false {X} (f : X -> bool) l x :
  In x l -> f x = false -> forallb f l = false.
Proof.
  intros Hin Hf. destruct (forallb f l) eqn:E; [|reflexivity].
  rewrite forallb_forall in E. rewrite (E x Hin) in Hf. discriminate.
Qed.

(** The outcome of the assembly for a solver in use and an input of the
    right shape: "Invalid joint name" when a supplied task frame lists a
    joint that is not configured, else "Invalid Constraint config" when a
    joint constraint does, else the assembly returns. *)
Lemma prepareEqSystem_outcome specifications svd task_frames now s equations :
  configured_from specifications s ->
  svd_shape svd ->
  StdMap.size (joint_index_map_ s) = no_robot_joints_ s ->
  (forall p c, nth_error (heap s) p = Some c ->
     length (weights c) = no_variables c /\ length (y_ref_root c) = no_variables c) ->
  (forall f, In f (task_frame_ids s) -> StdMap.find f task_frames <> None) ->
  (forall name tf, In (name, tf) task_frames ->
     length (TaskFrame.jacobian tf) = length (TaskFrame.joint_names tf) /\
     (TaskFrame.joint_names tf <> [] -> In name (task_frame_ids s))) ->
  exists s' equations',
    prepareEqSystem svd task_frames now (s, equations) =
      (if frames_known (joint_index_map_ s) task_frames
       then if levels_known s (seq 0 (n_prios_ s))
            then Ret tt (s', equations')
            else Throw invalid_constraint_config (s', equations')
       else Throw invalid_joint_name (s', equations')) /\
    (frames_known (joint_index_map_ s) task_frames = false ->
     solver_frame s s' /\ heap s' = heap s /\ equations' = equations).
Proof.
  intros Hfrom Hsvd Hsize Hobj Hframes Hinput.
  pose proof (configured_from_invariants Hfrom) as (Hflag & Hnd & Hnp & _).
  pose proof (configured_from_sizes Hfrom) as (_ & I2 & I3).
  pose proof (configured_from_rows Hfrom) as Hrows.
  pose proof (configured_from_pointers Hfrom) as Hvalid.
  pose proof (@configured_from_ready _ _ task_frames Hfrom Hsize Hobj Hframes) as Hready.
  unfold prepareEqSystem. unfold bind at 1. unfold get. cbn [fst snd].
  rewrite Hflag. cbn [negb]. rewrite (missing_task_frame_none _ _ Hframes).
  destruct (@splice_all_outcome (no_robot_joints_ s) task_frames (s, equations))
    as (st1 & Hsplice & Hj & Hkept).
  { intros name tf Hin. destruct (Hinput name tf Hin) as (Hlen & Hreg).
    split; [exact Hlen|]. split.
    - intros jt idx _ Hidx. simpl in Hidx. eapply I3. exact Hidx.
    - intro Hne. simpl. destruct (I2 name (Hreg Hne)) as (jac & Hjac & Ljac).
      exists jac. split; [exact Hjac|congruence]. }
  cbn [fst] in Hsplice, Hkept.
  destruct Hj as (Hf1 & Hh1 & He1). simpl in Hf1, Hh1, He1.
  destruct (frames_known (joint_index_map_ s) task_frames).
  2:{ exists (fst st1), (snd st1). split.
      - apply bind_throw. rewrite Hsplice. destruct st1; reflexivity.
      - intros _. auto. }
  rewrite (@bind_eq _ _ _ _ _ _ _ _ Hsplice).
  pose proof Hf1 as (_ & _ & Hcv & _ & Hjim & _ & Hrw & Hnp1).
  unfold bind at 1. unfold modify. unfold bind at 1. unfold get. cbn [fst snd].
  match goal with
  | |- exists s' equations', for_each _ _ ?st2 = _ /\ _ =>
      destruct (@eval_priorities_outcome svd task_frames now Hsvd
                  (seq 0 (n_prios_ (fst st1))) st2) as [[s' equations'] Hloop]
  end.
  - apply seq_NoDup.
  - simpl. rewrite Hcv. exact Hnd.
  - intros prio Hin. apply in_seq in Hin. cbn [fst snd].
    split.
    + destruct (negb (length (snd st1) =? n_prios_ (fst st1))) eqn:E.
      * rewrite vector_resize_length. lia.
      * apply negb_false_iff, Nat.eqb_eq in E. lia.
    + rewrite Hcv, Hrw, Hh1, Hrows.
      destruct (nth_error (constraint_vector_ s) prio) as [ptrs|] eqn:Hptrs.
      2:{ apply nth_error_None in Hptrs. lia. }
      exists ptrs. split; [reflexivity|].
      split; [rewrite nth_error_map, Hptrs; reflexivity|].
      intros p Hp.
      assert (Hlt : p < length (heap s)).
      { apply Hvalid. apply in_concat. exists ptrs.
        split; [eapply nth_error_In; exact Hptrs|exact Hp]. }
      destruct (nth_error (heap s) p) as [c|] eqn:Hc.
      2:{ apply nth_error_None in Hc. lia. }
      exists c. split; [reflexivity|].
      eapply constraint_ready_kept; [exact Hf1|exact Hkept|]. eapply Hready. exact Hc.
  - exists s', equations'. split; [|discriminate].
    cbn [fst] in Hloop. rewrite Hloop.
    unfold levels_known. cbn [fst]. rewrite Hcv, Hjim, Hh1, Hnp1. reflexivity.
Qed.

(** X11.  The assembly completes.  For a solver in use whose joint names
    are pairwise different, whose constraint objects hold weights and a
    root-frame reference of their output size, and whose joint constraints
    list configured joints only; for a task-frame input that supplies every
    required frame, in which every frame has one Jacobian column per listed
    joint, lists configured joints only and, if it lists a joint at all, is a
    required frame; and for a decomposition routine that returns a 6 x 6
    [U] and [V] and six singular values: [prepareEqSystem] returns.  It
    neither throws nor reads or writes outside a vector or a matrix,
    whatever the clock reads and whatever [equations] held before. *)
Theorem assembly_completes specifications svd task_frames now s equations :
  configured_from specifications s ->
  svd_shape svd ->
  StdMap.size (joint_index_map_ s) = no_robot_joints_ s ->
  (forall p c, nth_error (heap s) p = Some c ->
     length (weights c) = no_variables c /\ length (y_ref_root c) = no_variables c) ->
  (forall c jt, In c specifications -> ConstraintConfig.type c = jnt ->
     In jt (ConstraintConfig.joint_names c) ->
     StdMap.find jt (joint_index_map_ s) <> None) ->
  (forall f, In f (task_frame_ids s) -> StdMap.find f task_frames <> None) ->
  (forall name tf, In (name, tf) task_frames ->
     length (TaskFrame.jacobian tf) = length (TaskFrame.joint_names tf) /\
     (forall jt, In jt (TaskFrame.joint_names tf) ->
        StdMap.find jt (joint_index_map_ s) <> None) /\
     (TaskFrame.joint_names tf <> [] -> In name (task_frame_ids s))) ->
  exists s' equations',
    prepareEqSystem svd task_frames now (s, equations) = Ret tt (s', equations').
Proof.
  intros Hfrom Hsvd Hsize Hobj Hjnt Hframes Hinput.
  destruct (@prepareEqSystem_outcome specifications svd task_frames now s equations
              Hfrom Hsvd Hsize Hobj Hframes) as (s' & equations' & Hout & _).
  { intros name tf Hin. destruct (Hinput name tf Hin) as (Hlen & _ & Hreg). auto. }
  exists s', equations'. rewrite Hout.
  replace (frames_known (joint_index_map_ s) task_frames) with true.
  2:{ symmetry. unfold frames_known. apply forallb_forall. intros [name tf] Hin.
      apply all_known_true. intros jt Hjt.
      destruct (Hinput name tf Hin) as (_ & Hjoints & _). exact (Hjoints jt Hjt). }
  replace (levels_known s (seq 0 (n_prios_ s))) with true; [reflexivity|].
  symmetry. unfold levels_known. apply forallb_forall. intros prio _.
  destruct (nth_error (constraint_vector_ s) prio) as [ptrs|]; [|reflexivity].
  unfold level_known. apply forallb_forall. intros p _.
  destruct (nth_error (heap s) p) as [c|] eqn:Hc; [|reflexivity].
  pose proof (configured_from_configs Hfrom _ Hc) as Hcfg.
  unfold joints_known. destruct (ConstraintConfig.type (config c)) eqn:Hty; [reflexivity|].
  apply all_known_true. intros jt Hjt. exact (Hjnt _ _ Hcfg Hty Hjt).
Qed.

Lemma assembly_completes_witness :
  exists s' equations',
    prepareEqSystem svd_of_identity example_offset_frames two_seconds
      (configured_state example_mixed_config ["j1"], [])
    = Ret tt (s', equations').
Proof.
  apply (@assembly_completes example_mixed_config svd_of_identity example_offset_frames
           two_seconds (configured_state example_mixed_config ["j1"]) []).
  - apply (configured_by example_mixed_config ["j1"] (WbcVelocity_ctor 0)).
    vm_compute. reflexivity.
  - intros a u s v Hs. injection Hs as <- <- <-.
    repeat split; repeat constructor.
  - reflexivity.
  - intros [|[|p]] c Hc; simpl in Hc.
    + injection Hc as <-. split; reflexivity.
    + injection Hc as <-. split; reflexivity.
    + destruct p; discriminate.
  - intros c jt [<-|[<-|[]]] Hty Hjt; [discriminate|].
    destruct Hjt as [<-|[]]. vm_compute. discriminate.
  - intros f [<-|[<-|[<-|[]]]]; vm_compute; discriminate.
  - intros name tf [Heq|[Heq|[Heq|[]]]]; injection Heq as <- <-.
    + split; [reflexivity|]. split; [intros jt []|]. intros Hne. exfalso. apply Hne. reflexivity.
    + split; [reflexivity|]. split.
      * intros jt [<-|[]]. vm_compute. discriminate.
      * intros _. vm_compute. auto.
    + split; [reflexivity|]. split.
      * intros jt [<-|[]]. vm_compute. discriminate.
      * intros _. vm_compute. auto.
Defined.

(** X12.  "Invalid joint name".  For a solver in use whose joint names are
    pairwise different and a task-frame input that supplies every required
    frame, in which every frame has one Jacobian column per listed joint and,
    if it lists a joint at all, is a required frame: when some supplied frame
    lists a joint that is not configured, [prepareEqSystem] throws
    [invalid_argument("Invalid joint name")].  No constraint has been
    evaluated then: the constraint objects and [equations] are as before the
    call, and of the solver only Jacobians can have changed, by the columns
    spliced before the unknown joint was met. *)
Theorem unknown_joint_in_task_frame specifications svd task_frames now s equations :
  configured_from specifications s ->
  StdMap.size (joint_index_map_ s) = no_robot_joints_ s ->
  (forall f, In f (task_frame_ids s) -> StdMap.find f task_frames <> None) ->
  (forall name tf, In (name, tf) task_frames ->
     length (TaskFrame.jacobian tf) = length (TaskFrame.joint_names tf) /\
     (TaskFrame.joint_names tf <> [] -> In name (task_frame_ids s))) ->
  (exists name tf jt,
      In (name, tf) task_frames /\ In jt (TaskFrame.joint_names tf) /\
      StdMap.find jt (joint_index_map_ s) = None) ->
  exists s',
    prepareEqSystem svd task_frames now (s, equations)
    = Throw invalid_joint_name (s', equations) /\
    solver_frame s s' /\ heap s' = heap s.
Proof.
  intros Hfrom Hsize Hframes Hinput (name & tf & jt & Hin & Hjt & Hnone).
  pose proof (configured_from_invariants Hfrom) as (Hflag & _).
  pose proof (configured_from_sizes Hfrom) as (_ & I2 & I3).
  unfold prepareEqSystem. unfold bind at 1. unfold get. cbn [fst snd].
  rewrite Hflag. cbn [negb]. rewrite (missing_task_frame_none _ _ Hframes).
  destruct (@splice_all_outcome (no_robot_joints_ s) task_frames (s, equations))
    as (st1 & Hsplice & Hj & _).
  { intros name' tf' Hin'. destruct (Hinput name' tf' Hin') as (Hlen & Hreg).
    split; [exact Hlen|]. split.
    - intros jt' idx _ Hidx. simpl in Hidx. eapply I3. exact Hidx.
    - intro Hne. simpl. destruct (I2 name' (Hreg Hne)) as (jac & Hjac & Ljac).
      exists jac. split; [exact Hjac|congruence]. }
  cbn [fst] in Hsplice.
  replace (frames_known (joint_index_map_ s) task_frames) with false in Hsplice.
  2:{ symmetry. unfold frames_known. eapply forallb_false; [exact Hin|]. simpl.
      unfold all_known. eapply forallb_false; [exact Hjt|].
      unfold StdMap.count. rewrite Hnone. reflexivity. }
  destruct Hj as (Hf1 & Hh1 & He1). simpl in Hf1, Hh1, He1.
  exists (fst st1). split; [|auto].
  apply bind_throw. rewrite Hsplice. destruct st1 as [s1 e1]. simpl in He1. subst e1.
  reflexivity.
Qed.

Lemma unknown_joint_in_task_frame_witness :
  exists s',
    prepareEqSystem svd_of_identity example_unknown_joint_frames two_seconds
      (configured_state [example_cart_config "c" 0] ["j1"], [])
    = Throw invalid_joint_name (s', []) /\
    solver_frame (configured_state [example_cart_config "c" 0] ["j1"]) s' /\
    heap s' = heap (configured_state [example_cart_config "c" 0] ["j1"]).
Proof.
  apply (@unknown_joint_in_task_frame [example_cart_config "c" 0] svd_of_identity
           example_unknown_joint_frames two_seconds
           (configured_state [example_cart_config "c" 0] ["j1"]) []).
  - apply (configured_by [example_cart_config "c" 0] ["j1"] (WbcVelocity_ctor 0)).
    vm_compute. reflexivity.
  - reflexivity.
  - intros f [<-|[<-|[<-|[]]]]; vm_compute; discriminate.
  - intros name tf [Heq|[Heq|[Heq|[]]]]; injection Heq as <- <-.
    + split; [reflexivity|]. intros Hne. exfalso. apply Hne. reflexivity.
    + split; [reflexivity|]. intros _. vm_compute. auto.
    + split; [reflexivity|]. intros _. vm_compute. auto.
  - exists "ref", (TaskFrame.mk ["j9"] [unit_twist 5] Frame_Identity), "j9".
    split; [vm_compute; auto|]. split; [left; reflexivity|reflexivity].
Defined.

(** X13.  "Invalid Constraint config".  Under the conditions under which
    the assembly completes, except that some joint constraint lists a joint
    that is not configured (which [configure] accepts), [prepareEqSystem]
    throws [invalid_argument("Invalid Constraint config")]: neither
    [configure] nor the lookup reports the unknown joint, the first assembly
    does. *)
Theorem unknown_joint_in_constraint specifications svd task_frames now s equations :
  configured_from specifications s ->
  svd_shape svd ->
  StdMap.size (joint_index_map_ s) = no_robot_joints_ s ->
  (forall p c, nth_error (heap s) p = Some c ->
     length (weights c) = no_variables c /\ length (y_ref_root c) = no_variables c) ->
  (forall f, In f (task_frame_ids s) -> StdMap.find f task_frames <> None) ->
  (forall name tf, In (name, tf) task_frames ->
     length (TaskFrame.jacobian tf) = length (TaskFrame.joint_names tf) /\
     (forall jt, In jt (TaskFrame.joint_names tf) ->
        StdMap.find jt (joint_index_map_ s) <> None) /\
     (TaskFrame.joint_names tf <> [] -> In name (task_frame_ids s))) ->
  (exists c jt,
      In c specifications /\ ConstraintConfig.type c = jnt /\
      In jt (ConstraintConfig.joint_names c) /\
      StdMap.find jt (joint_index_map_ s) = None) ->
  exists s' equations',
    prepareEqSystem svd task_frames now (s, equations)
    = Throw invalid_constraint_config (s', equations').
Proof.
  intros Hfrom Hsvd Hsize Hobj Hframes Hinput (c & jt & Hin & Hty & Hjt & Hnone).
  destruct (@prepareEqSystem_outcome specifications svd task_frames now s equations
              Hfrom Hsvd Hsize Hobj Hframes) as (s' & equations' & Hout & _).
  { intros name tf Hin'. destruct (Hinput name tf Hin') as (Hlen & _ & Hreg). auto. }
  exists s', equations'. rewrite Hout.
  replace (frames_known (joint_index_map_ s) task_frames) with true.
  2:{ symmetry. unfold frames_known. apply forallb_forall. intros [name tf] Hin'.
      apply all_known_true. intros jt' Hjt'.
      destruct (Hinput name tf Hin') as (_ & Hjoints & _). exact (Hjoints jt' Hjt'). }
  replace (levels_known s (seq 0 (n_prios_ s))) with false; [reflexivity|].
  symmetry.
  pose proof (configured_from_invariants Hfrom) as (_ & _ & Hnp & _).
  destruct (configured_from_registered Hfrom) as [Hreg _].
  destruct (Hreg c Hin) as (p & c' & level & _ & Hc' & Hcfg & Hlevel & Hp).
  apply In_nth_error in Hlevel. destruct Hlevel as [prio Hprio].
  unfold levels_known. apply forallb_false with (x := prio).
  - apply in_seq. split; [lia|]. rewrite Hnp. simpl. apply nth_error_Some. congruence.
  - rewrite Hprio. unfold level_known. apply forallb_false with (x := p); [exact Hp|].
    rewrite Hc', Hcfg. unfold joints_known. rewrite Hty.
    unfold all_known. apply forallb_false with (x := jt); [exact Hjt|].
    unfold StdMap.count. rewrite Hnone. reflexivity.
Qed.

Lemma unknown_joint_in_constraint_witness :
  exists s' equations',
    prepareEqSystem svd_of_identity [] two_seconds
      (configured_state [scenario_config] ["j1"], [])
    = Throw invalid_constraint_config (s', equations').
Proof.
  apply (@unknown_joint_in_constraint [scenario_config] svd_of_identity [] two_seconds
           (configured_state [scenario_config] ["j1"]) []).
  - apply (configured_by [scenario_config] ["j1"] (WbcVelocity_ctor 0)).
    vm_compute. reflexivity.
  - intros a u s v Hs. injection Hs as <- <- <-.
    repeat split; repeat constructor.
  - reflexivity.
  - intros [|p] c Hc; simpl in Hc.
    + injection Hc as <-. split; reflexivity.
    + destruct p; discriminate.
  - intros f [].
  - intros name tf [].
  - exists scenario_config, "j2".
    split; [left; reflexivity|]. split; [reflexivity|].
    split; [left; reflexivity|reflexivity].
Defined.

(** ** The task matrix of a Cartesian constraint *)

Lemma jac_same_refl m : jac_same m m.
Proof. intros f jac Hf. exact Hf. Qed.

Lemma jac_same_trans m1 m2 m3 : jac_same m1 m2 -> jac_same m2 m3 -> jac_same m1 m3.
Proof. intros H12 H23 f jac Hf. apply H23. apply H12. exact Hf. Qed.

Lemma jac_map_index_same tf_name st jac st' :
  jac_map_index tf_name st = Ret jac st' ->
  jac_same (jac_map_ (fst st)) (jac_map_ (fst st')) /\
  StdMap.find tf_name (jac_map_ (fst st')) = Some jac /\
  heap (fst st') = heap (fst st).
Proof.
  unfold jac_map_index, StdMap.index.
  match goal with
  | |- context [match ?x with Some _ => _ | None => _ end] => destruct x as [j|] eqn:Hf
  end.
  - intro Hr. injection Hr as <- <-. simpl.
    split; [apply jac_same_refl|]. split; [exact Hf|reflexivity].
  - intro Hr. injection Hr as <- <-. simpl.
    split; [|split; [apply StdMap_find_set_same|reflexivity]].
    intros f jac Hj.
    rewrite StdMap_find_set_other; [exact Hj|]. intros ->.
    change (StdMap.find tf_name (jac_map_ (fst st)) = None) in Hf. congruence.
Qed.

Lemma task_matrix_from_registry_kept s s' p :
  task_matrix_from_registry s p ->
  jac_same (jac_map_ s) (jac_map_ s') ->
  nth_error (heap s') p = nth_error (heap s) p ->
  task_matrix_from_registry s' p.
Proof.
  intros Ht Hsame Hheap c Hc Hty. rewrite Hheap in Hc.
  destruct (Ht c Hc Hty) as (hb & jr & jt & Hr & Htip & Hlen & Hb & HA).
  exists hb, jr, jt. repeat split; auto.
Qed.

Lemma cart_task_parts tf_root tf_ref_frame jac_root jac_tip n_vars c c1 :
  cart_task tf_root tf_ref_frame jac_root jac_tip n_vars c = Some c1 ->
  exists hb,
    block00 (H c) n_vars 6 = Some hb /\
    length jac_tip = length jac_root /\
    A c1 = msub (mul_Jacobian hb jac_tip) (mul_Jacobian hb jac_root) /\
    H c1 = H c.
Proof.
  unfold cart_task. intro Ht.
  destruct (block00 (H c) n_vars 6) as [hb|] eqn:Hb; [|discriminate].
  destruct (length jac_tip =? length jac_root) eqn:Hlen; [|discriminate]. simpl in Ht.
  destruct (Twist_of_vec (y_ref c)) as [t|]; [|discriminate].
  destruct (write_twist _ _) as [yr|]; [|discriminate].
  injection Ht as <-. exists hb. split; [reflexivity|].
  split; [apply Nat.eqb_eq; exact Hlen|]. split; reflexivity.
Qed.

Lemma deactivate_H c : H (deactivate c) = H c.
Proof. unfold deactivate. destruct (Qeq_bool _ _); reflexivity. Qed.

Lemma eval_constraint_registry svd task_frames now prio p r st r' st' :
  eval_constraint svd task_frames now prio p r st = Ret r' st' ->
  jac_same (jac_map_ (fst st)) (jac_map_ (fst st')) /\
  constraint_vector_ (fst st') = constraint_vector_ (fst st) /\
  (forall q, q <> p -> nth_error (heap (fst st')) q = nth_error (heap (fst st)) q) /\
  task_matrix_from_registry (fst st') p.
Proof.
  unfold eval_constraint. intro He.
  apply bind_Ret in He. destruct He as (c & st1 & Hderef & He).
  unfold deref in Hderef. destruct (nth_error (heap (fst st)) p) as [c0|] eqn:Hc; [|discriminate].
  injection Hderef as <- <-.
  apply bind_Ret in He. destruct He as (c1 & st2 & Hbranch & He).
  apply bind_Ret in He. destruct He as (u1 & st3 & Hstore & He).
  apply bind_Ret in He. destruct He as (u2 & st4 & Hins & He).
  unfold ret in He. injection He as <- <-.
  rewrite config_check_timeout in Hbranch.
  assert (Hmid : jac_same (jac_map_ (fst st)) (jac_map_ (fst st2)) /\
                 constraint_vector_ (fst st2) = constraint_vector_ (fst st) /\
                 heap (fst st2) = heap (fst st) /\
                 config c1 = config c0 /\
                 no_variables c1 = no_variables c0 /\
                 (ConstraintConfig.type (config c0) = cart ->
                  exists hb jac_root jac_tip,
                    StdMap.find (ConstraintConfig.root (config c0)) (jac_map_ (fst st2))
                    = Some jac_root /\
                    StdMap.find (ConstraintConfig.tip (config c0)) (jac_map_ (fst st2))
                    = Some jac_tip /\
                    length jac_tip = length jac_root /\
                    block00 (H c1) (no_variables c0) 6 = Some hb /\
                    A c1 = msub (mul_Jacobian hb jac_tip) (mul_Jacobian hb jac_root))).
  { destruct (ConstraintConfig.type (config c0)) eqn:Hty.
    - inv_lift Hbranch tf_root Hroot.
      inv_lift Hbranch tf_tip Htip.
      inv_lift Hbranch tf_ref Href.
      inv_lift Hbranch ci Hinv.
      inv_bind Hbranch jac_root sb Hj1.
      inv_bind Hbranch jac_tip sc Hj2.
      apply lift_opt_Ret in Hbranch. destruct Hbranch as [Htask ->].
      pose proof (cart_invert_jacobian_same_inputs _ _ _ _ Hinv) as (Hcfg & Hnv & _).
      pose proof (cart_task_same_inputs _ _ _ _ _ _ Htask) as (Hcfg1 & Hnv1 & _).
      rewrite config_check_timeout in Hcfg.
      rewrite (proj1 (proj2 (check_timeout_same _ _))) in Hnv.
      pose proof (jac_map_index_Ret _ _ Hj1) as (Hf1 & _).
      pose proof (jac_map_index_Ret _ _ Hj2) as (Hf2 & _).
      apply jac_map_index_same in Hj1. destruct Hj1 as (Hs1 & Hr1 & Hh1).
      apply jac_map_index_same in Hj2. destruct Hj2 as (Hs2 & Hr2 & Hh2).
      rewrite Hcfg in Hr1, Hr2.
      split; [eapply jac_same_trans; [exact Hs1|exact Hs2]|].
      split; [destruct Hf1 as (_ & _ & E1 & _); destruct Hf2 as (_ & _ & E2 & _); congruence|].
      split; [congruence|]. split; [congruence|]. split; [congruence|].
      intros _. apply cart_task_parts in Htask.
      destruct Htask as (hb & Hb & Hlen & HA & HH).
      exists hb, jac_root, jac_tip.
      split; [apply Hs2; exact Hr1|]. split; [exact Hr2|]. split; [exact Hlen|].
      split; [|exact HA]. rewrite HH. exact Hb.
    - inv_get Hbranch.
      destruct (jnt_update _ _) as [u cj|e cj|] eqn:Hj.
      + unfold ret in Hbranch. injection Hbranch as <- <-.
        pose proof (jnt_update_same_inputs _ _ Hj) as (Hcfg & Hnv & _).
        rewrite config_check_timeout in Hcfg.
        rewrite (proj1 (proj2 (check_timeout_same _ _))) in Hnv.
        split; [apply jac_same_refl|]. repeat split; auto. discriminate.
      + apply bind_Ret in Hbranch. destruct Hbranch as (? & ? & _ & Hthrow). discriminate.
      + discriminate. }
  destruct Hmid as (Hsame & Hcv & Hheap & Hcfg & Hnv & Hcart).
  pose proof (store_Ret _ _ _ Hstore) as (Hset & Hframe & _).
  apply insert_into_equations_Ret in Hins. destruct Hins as (Hs4 & _).
  rewrite Hs4.
  assert (Hjm : jac_map_ (fst st3) = jac_map_ (fst st2)).
  { unfold store in Hstore.
    destruct (list_set p _ (heap (fst st2))) as [h|]; [|discriminate].
    injection Hstore as _ <-. reflexivity. }
  rewrite Hjm.
  split; [exact Hsame|].
  split; [destruct Hframe as (_ & _ & E & _); congruence|].
  split.
  - intros q Hq. rewrite <- Hheap. eapply list_set_other; [exact Hset|congruence].
  - intros c Hpc Hty. rewrite (list_set_same _ _ _ Hset) in Hpc. injection Hpc as <-.
    destruct (deactivate_same (set_time (now at_time_stamp) c1)) as (Dc & Dn & _ & _ & _ & DA).
    rewrite Dc in Hty |- *. rewrite Dn, DA, deactivate_H.
    change (config (set_time (now at_time_stamp) c1)) with (config c1) in *.
    change (no_variables (set_time (now at_time_stamp) c1)) with (no_variables c1).
    change (A (set_time (now at_time_stamp) c1)) with (A c1).
    change (H (set_time (now at_time_stamp) c1)) with (H c1).
    rewrite Hcfg in Hty |- *. rewrite Hnv, Hjm. apply Hcart. exact Hty.
Qed.

Lemma eval_level_registry svd task_frames now prio ptrs :
  forall i r st st',
    eval_level svd task_frames now prio ptrs i r st = Ret tt st' ->
    jac_same (jac_map_ (fst st)) (jac_map_ (fst st')) /\
    constraint_vector_ (fst st') = constraint_vector_ (fst st) /\
    (forall q, ~ In q ptrs -> nth_error (heap (fst st')) q = nth_error (heap (fst st)) q) /\
    (forall p, In p ptrs -> task_matrix_from_registry (fst st') p).
Proof.
  induction ptrs as [|p0 rest IH]; intros i r st st' Hl; simpl in Hl.
  - unfold ret in Hl. injection Hl as <-.
    split; [apply jac_same_refl|]. split; [reflexivity|]. split; [reflexivity|].
    intros p [].
  - apply bind_Ret in Hl. destruct Hl as (r1 & st1 & Hc & Hl).
    apply eval_constraint_registry in Hc. destruct Hc as (Hs1 & Hcv1 & Hh1 & Ht1).
    apply IH in Hl. destruct Hl as (Hs2 & Hcv2 & Hh2 & Ht2).
    split; [eapply jac_same_trans; [exact Hs1|exact Hs2]|].
    split; [congruence|]. split.
    + intros q Hq. rewrite Hh2 by (intro Hin; apply Hq; right; exact Hin).
      apply Hh1. intros ->. apply Hq. left. reflexivity.
    + intros p Hp. destruct (in_dec Nat.eq_dec p rest) as [Hin|Hnin].
      * apply Ht2. exact Hin.
      * destruct Hp as [<-|Hp]; [|contradiction].
        eapply task_matrix_from_registry_kept; [exact Ht1|exact Hs2|].
        apply Hh2. exact Hnin.
Qed.

Lemma eval_priority_registry svd task_frames now prio st st' :
  eval_priority svd task_frames now prio st = Ret tt st' ->
  exists ptrs,
    nth_error (constraint_vector_ (fst st)) prio = Some ptrs /\
    jac_same (jac_map_ (fst st)) (jac_map_ (fst st')) /\
    constraint_vector_ (fst st') = constraint_vector_ (fst st) /\
    (forall q, ~ In q ptrs -> nth_error (heap (fst st')) q = nth_error (heap (fst st)) q) /\
    (forall p, In p ptrs -> task_matrix_from_registry (fst st') p).
Proof.
  unfold eval_priority. intro He.
  inv_get He.
  inv_lift He n_vars_prio Hn.
  inv_lift He e He0.
  inv_lift He equations Hset.
  inv_bind He u sa Hput. unfold put in Hput. injection Hput as _ <-.
  inv_lift He ptrs Hptrs.
  exists ptrs. split; [exact Hptrs|].
  apply eval_level_registry in He. exact He.
Qed.

Lemma listed_in_ext s s' prios q :
  constraint_vector_ s' = constraint_vector_ s ->
  listed_in s' prios q = listed_in s prios q.
Proof. intro Hcv. unfold listed_in. rewrite Hcv. reflexivity. Qed.

Lemma listed_in_level ptrs q : existsb (Nat.eqb q) ptrs = true <-> In q ptrs.
Proof.
  rewrite existsb_exists. split.
  - intros (x & Hin & Hx). apply Nat.eqb_eq in Hx. subst x. exact Hin.
  - intro Hin. exists q. split; [exact Hin|apply Nat.eqb_refl].
Qed.

Lemma eval_priorities_registry svd task_frames now prios :
  forall st st',
    for_each prios (eval_priority svd task_frames now) st = Ret tt st' ->
    jac_same (jac_map_ (fst st)) (jac_map_ (fst st')) /\
    constraint_vector_ (fst st') = constraint_vector_ (fst st) /\
    (forall q, listed_in (fst st) prios q = false ->
               nth_error (heap (fst st')) q = nth_error (heap (fst st)) q) /\
    (forall q, listed_in (fst st) prios q = true -> task_matrix_from_registry (fst st') q).
Proof.
  induction prios as [|prio0 rest IH]; intros st st' Hf; simpl in Hf.
  - unfold ret in Hf. injection Hf as <-.
    split; [apply jac_same_refl|]. split; [reflexivity|]. split; [reflexivity|].
    intros q Hq. discriminate.
  - apply bind_Ret in Hf. destruct Hf as ([] & st1 & Hp & Hf).
    apply eval_priority_registry in Hp.
    destruct Hp as (ptrs & Hptrs & Hs1 & Hcv1 & Hh1 & Ht1).
    apply IH in Hf. destruct Hf as (Hs2 & Hcv2 & Hh2 & Ht2).
    split; [eapply jac_same_trans; [exact Hs1|exact Hs2]|].
    split; [congruence|].
    assert (Hhead : forall q, listed_in (fst st) (prio0 :: rest) q
                     = existsb (Nat.eqb q) ptrs || listed_in (fst st1) rest q).
    { intro q. rewrite (@listed_in_ext (fst st) (fst st1) rest q Hcv1). unfold listed_in. simpl.
      rewrite Hptrs. reflexivity. }
    split.
    + intros q Hq. rewrite Hhead in Hq. apply orb_false_iff in Hq. destruct Hq as [Hq0 Hqr].
      rewrite (Hh2 q Hqr). apply Hh1. intro Hin. apply listed_in_level in Hin. congruence.
    + intros q Hq. rewrite Hhead in Hq.
      destruct (listed_in (fst st1) rest q) eqn:Hr.
      * apply Ht2. exact Hr.
      * rewrite orb_false_r in Hq. apply listed_in_level in Hq.
        eapply task_matrix_from_registry_kept; [exact (Ht1 q Hq)|exact Hs2|].
        apply Hh2. exact Hr.
Qed.

Lemma prepareEqSystem_registry svd task_frames now s equations s' equations' :
  prepareEqSystem svd task_frames now (s, equations) = Ret tt (s', equations') ->
  forall prio ptrs p,
    prio < n_prios_ s ->
    nth_error (constraint_vector_ s) prio = Some ptrs ->
    In p ptrs ->
    task_matrix_from_registry s' p.
Proof.
  unfold prepareEqSystem. intros Hp prio ptrs p Hprio Hptrs Hin.
  apply bind_Ret in Hp. destruct Hp as (sg & sa & Hget & Hp).
  unfold get in Hget. injection Hget as <- <-. cbn [fst snd] in Hp.
  destruct (negb (configured_ s)); [discriminate Hp|].
  destruct (missing_task_frame task_frames (task_frame_ids s)); [discriminate Hp|].
  apply bind_Ret in Hp. destruct Hp as (u1 & st1 & Hsplice & Hp).
  apply bind_Ret in Hp. destruct Hp as (u2 & st2 & Hmod & Hp).
  apply bind_Ret in Hp. destruct Hp as (sg & sa & Hget & Hp).
  unfold get in Hget. injection Hget as <- <-.
  unfold modify in Hmod. injection Hmod as _ <-. cbn [fst snd] in Hp.
  assert (Hj : jac_only (s, equations) st1).
  { revert Hsplice. apply (for_each_inv jac_only).
    - apply jac_only_refl.
    - apply jac_only_trans.
    - intros b s0 u s0'. apply splice_task_frame_Ret. }
  destruct Hj as ((_ & _ & Hcv & _ & _ & _ & _ & Hnp) & _ & _). cbn [fst] in Hcv, Hnp.
  destruct u1. apply eval_priorities_registry in Hp. cbn [fst] in Hp.
  destruct Hp as (_ & _ & _ & Ht). apply Ht.
  unfold listed_in. apply existsb_exists. exists prio. split.
  - apply in_seq. rewrite Hnp. lia.
  - rewrite Hcv, Hptrs. apply listed_in_level. exact Hin.
Qed.

Ltac six_entries l Hl :=
  destruct l as [|? l]; [discriminate Hl|];
  destruct l as [|? l]; [discriminate Hl|];
  destruct l as [|? l]; [discriminate Hl|];
  destruct l as [|? l]; [discriminate Hl|];
  destruct l as [|? l]; [discriminate Hl|];
  destruct l as [|? l]; [discriminate Hl|];
  destruct l as [|? l]; [|discriminate Hl].

Lemma dot_Twist_to_vec h t :
  length h = 6 ->
  (dot h (Twist_to_vec t) == sum6 (fun k => nth k h 0 * Twist_component t k))%Q.
Proof.
  intro Hl. six_entries h Hl. unfold sum6, Twist_to_vec. simpl. ring.
Qed.

Lemma inverted_direction_inverted x sigma :
  (inverted_direction (x, sigma) == inverted sigma * x)%Q.
Proof.
  unfold inverted_direction, inverted. simpl. destruct (Qltb 0 sigma); ring.
Qed.

Lemma dot_inverted_directions vrow urow s :
  length vrow = 6 -> length urow = 6 -> length s = 6 ->
  (dot vrow (map inverted_direction (combine urow s))
   == sum6 (fun l => nth l vrow 0 * inverted (nth l s 0) * nth l urow 0))%Q.
Proof.
  intros Hv Hu Hs. six_entries vrow Hv. six_entries urow Hu. six_entries s Hs.
  unfold sum6. cbn [combine map dot nth]. rewrite !inverted_direction_inverted. ring.
Qed.

Lemma entry_map {X} (f : X -> vec) (l : list X) (d : X) i j :
  i < length l -> entry (map f l) i j = nth j (f (nth i l d)) 0%Q.
Proof.
  intro Hi. unfold entry.
  rewrite (nth_indep (map f l) [] (f d)) by (rewrite length_map; exact Hi).
  rewrite map_nth. reflexivity.
Qed.

Lemma nth_map_in_range {X} (f : X -> Q) (l : list X) (d : X) j :
  j < length l -> nth j (map f l) 0%Q = f (nth j l d).
Proof.
  intro Hj. rewrite (nth_indep (map f l) 0%Q (f d)) by (rewrite length_map; exact Hj).
  apply map_nth.
Qed.

(** Entry by entry, [pseudo_inverse u s v] is [v * diag(s+) * u^T]. *)
Lemma entry_pseudo_inverse u s v i k :
  length s = 6 ->
  Forall (fun row => length row = 6) u ->
  Forall (fun row => length row = 6) v ->
  i < length v -> k < length u ->
  (entry (pseudo_inverse u s v) i k
   == sum6 (fun l => entry v i l * inverted (nth l s 0) * entry u k l))%Q.
Proof.
  intros Hs Hu Hv Hi Hk. unfold pseudo_inverse.
  rewrite (@entry_map _ _ v [] i k Hi).
  rewrite (@nth_map_in_range _ _ u [] k Hk).
  apply dot_inverted_directions.
  - rewrite Forall_forall in Hv. apply Hv. apply nth_In. exact Hi.
  - rewrite Forall_forall in Hu. apply Hu. apply nth_In. exact Hk.
  - exact Hs.
Qed.

Lemma nth_vsub a b j :
  j < length a -> length a = length b ->
  nth j (vsub a b) 0%Q = (nth j a 0 - nth j b 0)%Q.
Proof.
  intros Hj Hlen. unfold vsub.
  rewrite (@nth_map_in_range _ _ (combine a b) (0%Q, 0%Q) j)
    by (rewrite length_combine; lia).
  rewrite combine_nth by exact Hlen. reflexivity.
Qed.

(** Entry by entry, the task matrix is [hb * (jac_tip - jac_root)]. *)
Lemma entry_task_matrix hb jac_tip jac_root i j :
  i < length hb -> length (nth i hb []) = 6 ->
  j < length jac_tip -> length jac_tip = length jac_root ->
  (entry (msub (mul_Jacobian hb jac_tip) (mul_Jacobian hb jac_root)) i j
   == sum6 (fun k => entry hb i k *
                     (Jacobian_entry jac_tip k j - Jacobian_entry jac_root k j)))%Q.
Proof.
  intros Hi Hrow Hj Hlen. unfold msub, mul_Jacobian.
  rewrite (@entry_map (vec * vec) _ _ (([] : vec), ([] : vec)) i j)
    by (rewrite length_combine, !length_map, Nat.min_id; exact Hi).
  rewrite combine_nth by (rewrite !length_map; reflexivity).
  cbn [fst snd].
  rewrite (nth_indep _ [] (map (fun t => dot [] (Twist_to_vec t)) jac_tip))
    by (rewrite length_map; exact Hi).
  rewrite (map_nth (fun hrow => map (fun t => dot hrow (Twist_to_vec t)) jac_tip)).
  rewrite (nth_indep (map _ hb) []
             (map (fun t => dot [] (Twist_to_vec t)) jac_root))
    by (rewrite length_map; exact Hi).
  rewrite (map_nth (fun hrow => map (fun t => dot hrow (Twist_to_vec t)) jac_root)).
  rewrite nth_vsub by (rewrite ?length_map; lia).
  rewrite (@nth_map_in_range _ _ jac_tip Twist_Zero j Hj).
  rewrite (@nth_map_in_range _ _ jac_root Twist_Zero j) by lia.
  rewrite !dot_Twist_to_vec by exact Hrow.
  unfold sum6, entry, Jacobian_entry, vec. cbv beta. ring.
Qed.

Lemma local_jacobian_check_timeout tf_root tf_tip now c :
  local_jacobian tf_root tf_tip (check_timeout now c) = local_jacobian tf_root tf_tip c.
Proof.
  unfold local_jacobian, check_timeout.
  destruct (Qltb 0 _); [destruct (Qltb _ _)|]; reflexivity.
Qed.

Lemma svd_shape_rows svd a u s v :
  svd_shape svd -> svd a = (u, s, v) ->
  length s = 6 /\ length u = 6 /\ length v = 6 /\
  Forall (fun row => length row = 6) u /\ Forall (fun row => length row = 6) v /\
  Forall (fun row => length row = length s) u /\
  Forall (fun row => length row = length s) v /\ v <> [].
Proof.
  intros Hshape Hsvd. destruct (Hshape _ _ _ _ Hsvd) as (Hs & Hu & Hv & Hur & Hvr).
  repeat split; try assumption.
  - rewrite Hs. exact Hur.
  - rewrite Hs. exact Hvr.
  - intros ->. discriminate.
Qed.

(** The inversion of the local Jacobian completes whatever the singular
    values are. *)
Lemma cart_invert_jacobian_total svd tf_root tf_tip c :
  svd_shape svd ->
  exists c0, cart_invert_jacobian svd tf_root tf_tip c = Some c0.
Proof.
  intro Hshape.
  destruct (svd (local_jacobian tf_root tf_tip c)) as [[u s] v] eqn:Hsvd.
  destruct (svd_shape_rows _ Hshape Hsvd) as (_ & _ & _ & _ & _ & Hu & Hv & Hne).
  destruct (cart_invert_jacobian_spec _ _ _ _ Hsvd Hu Hv Hne) as (c0 & Hc0 & _).
  exists c0. exact Hc0.
Qed.

(** C7.  In every completed assembly of a solver in use, for the Cartesian
    constraint at position [k] of level [prio], with a decomposition routine
    that returns a 6 x 6 [U] and [V] and six singular values [(u, sv, v)] for
    the local Jacobian of the constraint: the matrix [H] that the constraint
    holds afterwards is [v * diag(s+) * u^T], where [s+] is the reciprocal of
    a singular value that is strictly positive and zero for any other one;
    and the task matrix is [H * (J_tip - J_root)], entry by entry, where
    [J_tip] and [J_root] are the Jacobians that the registry holds for the
    tip frame and for the root frame of the constraint.  (The constraint has
    six output variables, so the block of the first [n_vars] rows and six
    columns of [H] that the source selects is [H] itself.)  These are the
    rows of the constraint in the task matrix of its level.  The inversion
    completes for every constraint and every pair of frames, whatever the
    singular values are: no reciprocal of a singular value that is not
    strictly positive is taken. *)
Theorem cartesian_task_matrix
  specifications svd task_frames now s equations s' equations' prio ptrs k p c :
  configured_from specifications s ->
  svd_shape svd ->
  prepareEqSystem svd task_frames now (s, equations) = Ret tt (s', equations') ->
  nth_error (constraint_vector_ s) prio = Some ptrs ->
  nth_error ptrs k = Some p ->
  nth_error (heap s) p = Some c ->
  ConstraintConfig.type (config c) = cart ->
  (forall tf_root tf_tip c0, exists c1, cart_invert_jacobian svd tf_root tf_tip c0 = Some c1) /\
  no_variables c = 6 /\
  exists c' e' tf_root tf_tip u sv v jac_root jac_tip,
    nth_error (heap s') p = Some c' /\
    nth_error equations' prio = Some e' /\
    StdMap.find (ConstraintConfig.root (config c)) task_frames = Some tf_root /\
    StdMap.find (ConstraintConfig.tip (config c)) task_frames = Some tf_tip /\
    svd (local_jacobian tf_root tf_tip c) = (u, sv, v) /\
    (forall i l, i < 6 -> l < 6 ->
       (entry (H c') i l
        == sum6 (fun m => entry v i m * inverted (nth m sv 0) * entry u l m))%Q) /\
    StdMap.find (ConstraintConfig.root (config c)) (jac_map_ s') = Some jac_root /\
    StdMap.find (ConstraintConfig.tip (config c)) (jac_map_ s') = Some jac_tip /\
    length jac_root = length jac_tip /\
    (forall i j, i < 6 -> j < length jac_tip ->
       (entry (A c') i j
        == sum6 (fun l => entry (H c') i l *
                          (Jacobian_entry jac_tip l j - Jacobian_entry jac_root l j)))%Q) /\
    rows_of (heap s) ptrs k c (LinearEquationSystem.A e') = A c'.
Proof.
  intros Hs Hshape Hp Hptrs Hk Hc Hty.
  split; [intros tf_root tf_tip c0; apply cart_invert_jacobian_total; exact Hshape|].
  split.
  { destruct (configured_from_sizes Hs) as (Hsize & _).
    destruct (Hsize _ _ Hc) as (Hout & _). unfold output_size in Hout. rewrite Hty in Hout.
    exact Hout. }
  destruct (@level_in_range _ _ _ _ Hs Hptrs) as (Hnd & Hprio).
  destruct (@prepareEqSystem_Ret _ _ _ _ _ _ _ Hp Hnd) as (_ & _ & _ & _ & Hall).
  destruct (Hall prio ptrs Hprio Hptrs) as (e' & He' & Hk').
  destruct (Hk' k p Hk) as (c0 & c' & Hc0 & Hc' & Hev & _ & HA & _).
  rewrite Hc in Hc0. injection Hc0 as <-.
  destruct Hev as (c1 & Hc1 & Hbranch). rewrite Hty in Hbranch.
  destruct Hbranch as (tf_root & tf_tip & tf_ref & ci & jr0 & jt0 & Hr & Ht & _ & Hinv & Htask).
  destruct (svd (local_jacobian tf_root tf_tip c)) as [[u sv] v] eqn:Hsvd.
  destruct (svd_shape_rows _ Hshape Hsvd) as (Lsv & Lu & Lv & Fu & Fv & Fu' & Fv' & Hne).
  (* the matrix H *)
  assert (HH : H c' = pseudo_inverse u sv v).
  { rewrite <- (local_jacobian_check_timeout tf_root tf_tip (now prio k at_timeout_check) c)
      in Hsvd.
    destruct (cart_invert_jacobian_spec _ _ _ _ Hsvd Fu' Fv' Hne) as (ci' & Hinv' & Hpi & _).
    rewrite Hinv in Hinv'. injection Hinv' as <-.
    destruct (cart_task_parts _ _ _ _ _ _ Htask) as (_ & _ & _ & _ & H1).
    rewrite Hc1, deactivate_H.
    change (H (set_time (now prio k at_time_stamp) c1)) with (H c1).
    congruence. }
  (* the sizes *)
  pose proof (cart_invert_jacobian_same_inputs _ _ _ _ Hinv) as (Hcfgi & Hnvi & _).
  pose proof (cart_task_same_inputs _ _ _ _ _ _ Htask) as (Hcfg1 & Hnv1 & _).
  pose proof (check_timeout_same (now prio k at_timeout_check) c) as (Kc & Kn & _).
  assert (Hcfg : config c' = config c).
  { rewrite Hc1. rewrite (proj1 (deactivate_same _)).
    change (config (set_time (now prio k at_time_stamp) c1)) with (config c1). congruence. }
  assert (Hnv : no_variables c' = 6).
  { rewrite Hc1. rewrite (proj1 (proj2 (deactivate_same _))).
    change (no_variables (set_time (now prio k at_time_stamp) c1)) with (no_variables c1).
    destruct (configured_from_sizes Hs) as (Hsize & _).
    destruct (Hsize _ _ Hc) as (Hout & _). unfold output_size in Hout. rewrite Hty in Hout.
    congruence. }
  (* the Jacobians of the registry *)
  assert (Hin : In p ptrs) by (eapply nth_error_In; exact Hk).
  pose proof (@prepareEqSystem_registry _ _ _ _ _ _ _ Hp prio ptrs p Hprio Hptrs Hin) as Hreg.
  assert (Hty' : ConstraintConfig.type (config c') = cart) by congruence.
  destruct (Hreg c' Hc' Hty') as (hb & jac_root & jac_tip & Hjr & Hjt & Hlen & Hb & HAc).
  rewrite Hcfg in Hjr, Hjt. rewrite Hnv, HH in Hb.
  destruct (pseudo_inverse_shape u sv v) as (Lp & Fp).
  assert (Hhb : hb = pseudo_inverse u sv v).
  { unfold block00 in Hb. destruct (_ && _); [|discriminate].
    assert (E : map (firstn 6) (firstn 6 (pseudo_inverse u sv v)) = hb) by congruence.
    rewrite <- E. rewrite firstn_all2 by lia.
    rewrite <- (map_id (pseudo_inverse u sv v)) at 2. apply map_ext_in.
    intros row Hrow. rewrite Forall_forall in Fp. apply firstn_all2.
    rewrite (Fp row Hrow). lia. }
  exists c', e', tf_root, tf_tip, u, sv, v, jac_root, jac_tip.
  split; [exact Hc'|]. split; [exact He'|]. split; [exact Hr|]. split; [exact Ht|].
  split; [exact Hsvd|]. split.
  { intros i l Hi Hl. rewrite HH. apply entry_pseudo_inverse; try assumption; lia. }
  split; [exact Hjr|]. split; [exact Hjt|]. split; [symmetry; exact Hlen|]. split.
  { intros i j Hi Hj. rewrite HAc, HH, Hhb.
    apply entry_task_matrix; try assumption; try lia.
    rewrite Forall_forall in Fp. rewrite (Fp (nth i (pseudo_inverse u sv v) [])).
    - exact Lu.
    - apply nth_In. lia. }
  unfold rows_of. exact HA.
Qed.

Lemma cartesian_task_matrix_witness :
  (forall tf_root tf_tip c0,
     exists c1, cart_invert_jacobian svd_rank_deficient tf_root tf_tip c0 = Some c1) /\
  no_variables (nth 0 (heap (configured_state [example_cart_config "c" 0] ["j1"; "j2"]))
                    default_Constraint) = 6 /\
  exists c' e' tf_root tf_tip u sv v jac_root jac_tip,
    nth_error (heap (fst (cycle svd_rank_deficient example_two_joint_frames two_seconds
                            (configured_state [example_cart_config "c" 0] ["j1"; "j2"], []))))
              0 = Some c' /\
    nth_error (snd (cycle svd_rank_deficient example_two_joint_frames two_seconds
                      (configured_state [example_cart_config "c" 0] ["j1"; "j2"], [])))
              0 = Some e' /\
    StdMap.find "base" example_two_joint_frames = Some tf_root /\
    StdMap.find "hand" example_two_joint_frames = Some tf_tip /\
    svd_rank_deficient
      (local_jacobian tf_root tf_tip
         (nth 0 (heap (configured_state [example_cart_config "c" 0] ["j1"; "j2"]))
              default_Constraint)) = (u, sv, v) /\
    (forall i l, i < 6 -> l < 6 ->
       (entry (H c') i l
        == sum6 (fun m => entry v i m * inverted (nth m sv 0) * entry u l m))%Q) /\
    StdMap.find "base"
      (jac_map_ (fst (cycle svd_rank_deficient example_two_joint_frames two_seconds
                        (configured_state [example_cart_config "c" 0] ["j1"; "j2"], []))))
    = Some jac_root /\
    StdMap.find "hand"
      (jac_map_ (fst (cycle svd_rank_deficient example_two_joint_frames two_seconds
                        (configured_state [example_cart_config "c" 0] ["j1"; "j2"], []))))
    = Some jac_tip /\
    length jac_root = length jac_tip /\
    (forall i j, i < 6 -> j < length jac_tip ->
       (entry (A c') i j
        == sum6 (fun l => entry (H c') i l *
                          (Jacobian_entry jac_tip l j - Jacobian_entry jac_root l j)))%Q) /\
    rows_of (heap (configured_state [example_cart_config "c" 0] ["j1"; "j2"])) [0] 0
            (nth 0 (heap (configured_state [example_cart_config "c" 0] ["j1"; "j2"]))
                 default_Constraint)
            (LinearEquationSystem.A e') = A c'.
Proof.
  apply (@cartesian_task_matrix [example_cart_config "c" 0] svd_rank_deficient
           example_two_joint_frames two_seconds
           (configured_state [example_cart_config "c" 0] ["j1"; "j2"]) []
           (fst (cycle svd_rank_deficient example_two_joint_frames two_seconds
                   (configured_state [example_cart_config "c" 0] ["j1"; "j2"], [])))
           (snd (cycle svd_rank_deficient example_two_joint_frames two_seconds
                   (configured_state [example_cart_config "c" 0] ["j1"; "j2"], [])))
           0 [0] 0 0
           (nth 0 (heap (configured_state [example_cart_config "c" 0] ["j1"; "j2"]))
                default_Constraint)).
  - apply (@configured_by [example_cart_config "c" 0] ["j1"; "j2"] (WbcVelocity_ctor 0)).
    vm_compute. reflexivity.
  - intros a u s v Hs. injection Hs as <- <- <-.
    repeat split; repeat constructor.
  - vm_compute. reflexivity.
  - vm_compute. reflexivity.
  - reflexivity.
  - vm_compute. reflexivity.
  - reflexivity.
Defined.

(** The example, evaluated.  With the singular values 2, 1/2, 0, -1, 1, 1
    the matrix [H] holds the reciprocals 1/2 and 2 and zeros for the two
    values that are not positive.  The registry holds the column [e5] for
    [j1] and [e1] for [j2] in the Jacobian of the tip, and the column [e0]
    for [j1] in the Jacobian of the root; the task matrix is
    [H * (J_tip - J_root)]. *)
Lemma cartesian_task_matrix_example :
  exists s' c' e',
    prepareEqSystem svd_rank_deficient example_two_joint_frames two_seconds
      (configured_state [example_cart_config "c" 0] ["j1"; "j2"], [])
    = Ret tt (s', [e']) /\
    heap s' = [c'] /\
    StdMap.find "hand" (jac_map_ s') = Some [unit_twist 5; unit_twist 1] /\
    StdMap.find "base" (jac_map_ s') = Some [unit_twist 0; Twist_Zero] /\
    meq (H c') [[0; 1 # 2; 0; 0; 0; 0]; [0; 0; 2; 0; 0; 0]; [0; 0; 0; 0; 0; 0];
                [0; 0; 0; 0; 0; 0]; [0; 0; 0; 0; 1; 0]; [0; 0; 0; 0; 0; 1]]%Q /\
    meq (LinearEquationSystem.A e')
        [[0; 1 # 2]; [0; 0]; [0; 0]; [0; 0]; [0; 0]; [1; 0]]%Q.
Proof.
  eexists. eexists. eexists.
  split; [vm_compute; reflexivity|].
  split; [reflexivity|].
  split; [reflexivity|]. split; [reflexivity|].
  split; vm_compute; repeat constructor.
Qed.
